(** * A shallow embedding of the DAX client's CBOR decoder ([CborDecoder])

    The decoder is a JavaScript class that walks a byte buffer with a mutable
    read offset.  Its methods are embedded as computations of a small state
    and exception monad over the decoder object; JavaScript's dynamic values
    are embedded as the inductive types below.

    What is outside the program text is modelled as follows.
    - A native JavaScript number whose value is the integer [z] is [Int z].
      The decoder's own arithmetic on such numbers (negating a magnitude,
      subtracting one, advancing the offset, counting entries) is taken to be
      exact, as binary64 arithmetic is on integers up to [2^53]: offsets,
      limits and counts are assumed to stay below that bound, as the sizes of
      real buffers do.  Numbers produced by the float decoders are binary64
      values ([Flt], Rocq's primitive floats).
    - [BigNumber] (bignumber.js, version 3 as the package requires, with its
      default settings) is arbitrary-precision integer arithmetic on [Z];
      converting one to a native number rounds to the nearest binary64 value
      ([round53]).
    - Loops and recursion take a [fuel] bound; a run that needs more answers
      [OutOfFuel].
    - Where a JavaScript execution leaves what the model describes (the read
      offset stops being a number, caller-supplied code runs, a key is
      converted to a string in a way the model does not spell out), the
      model answers [Unmodelled] instead of guessing. *)

From Stdlib Require Import ZArith QArith List Bool Lia.
From Stdlib.Strings Require Import String Ascii Byte.
From Stdlib Require Import Floats DecimalString.
Import ListNotations.

Set Implicit Arguments.
Set Warnings "-register-all,-inexact-float".
Local Open Scope Z_scope.

(** ** Bytes and buffers *)

Definition byte_val (b : byte) : Z := Z.of_N (Byte.to_N b).

(** [buf[i]]: the byte at index [i], or [undefined] ([None]) when [i] is not
    an index of the buffer. *)
Definition buf_get (buf : list byte) (i : Z) : option byte :=
  if i <? 0 then None else nth_error buf (Z.to_nat i).

(** A value read from the buffer by indexing: a byte, or [undefined]. *)
Definition tbyte := option byte.

(** JavaScript's [ToInt32] on such a value, as the bit operators apply it:
    [undefined] becomes 0. *)
Definition ToInt32 (t : tbyte) : Z :=
  match t with Some b => byte_val b | None => 0 end.

(** Strict equality of a value read from the buffer with a numeric constant. *)
Definition tb_eq (t : tbyte) (c : Z) : bool :=
  match t with Some b => byte_val b =? c | None => false end.

(** Big-endian unsigned integer spelled by a list of bytes. *)
Fixpoint be_value (acc : Z) (bs : list byte) : Z :=
  match bs with
  | [] => acc
  | b :: bs' => be_value (acc * 256 + byte_val b) bs'
  end.

(** [buf.readUIntBE]-style reads ([readUInt16BE], [readUInt32BE]): [n] bytes
    from [off]; Node raises a [RangeError] unless [0 <= off <= length - n]. *)
Definition readUIntBE (n : nat) (buf : list byte) (off : Z) : option Z :=
  if (0 <=? off) && (off + Z.of_nat n <=? Z.of_nat (List.length buf))
  then Some (be_value 0 (firstn n (skipn (Z.to_nat off) buf)))
  else None.

Definition readUInt16BE := readUIntBE 2.
Definition readUInt32BE := readUIntBE 4.

(** [buf.slice(s, e)] with JavaScript's clamping: a negative index counts
    from the end, and both ends are clamped to the buffer. *)
Definition clamp_index (len i : Z) : Z :=
  if i <? 0 then Z.max (len + i) 0 else Z.min i len.

Definition JS_slice (buf : list byte) (s e : Z) : list byte :=
  let len := Z.of_nat (List.length buf) in
  let s' := clamp_index len s in
  let e' := clamp_index len e in
  firstn (Z.to_nat (e' - s')) (skipn (Z.to_nat s') buf).

(** ** Wire-format constants *)

(** Modelled from the spec: the module [CborTypes] (required by the decoder,
    not among the sources) is the enumeration of type codes and tag numbers
    with the operation that splits a type byte into its major type (top three
    bits) and minor type (bottom five bits).  The numeric values are those of
    the CBOR wire format; the decoder itself fixes their shape by comparing
    [majorType(t)] with the [TYPE_*] constants and by forming
    [TYPE_BYTES + SIZE_STREAM] as a type byte. *)
Module CborTypes.
Definition TYPE_POSINT := 0x00.
Definition TYPE_NEGINT := 0x20.
Definition TYPE_BYTES := 0x40.
Definition TYPE_UTF := 0x60.
Definition TYPE_ARRAY := 0x80.
Definition TYPE_MAP := 0xa0.
Definition TYPE_TAG := 0xc0.
Definition TYPE_SIMPLE := 0xe0.

Definition TYPE_FALSE := 0xf4.
Definition TYPE_TRUE := 0xf5.
Definition TYPE_NULL := 0xf6.
Definition TYPE_UNDEFINED := 0xf7.
Definition TYPE_FLOAT_16 := 0xf9.
Definition TYPE_FLOAT_32 := 0xfa.
Definition TYPE_FLOAT_64 := 0xfb.
Definition TYPE_BREAK := 0xff.

Definition SIZE_8 := 24.
Definition SIZE_16 := 25.
Definition SIZE_32 := 26.
Definition SIZE_64 := 27.
Definition SIZE_STREAM := 31.

Definition TAG_POSBIGINT := 2.
Definition TAG_NEGBIGINT := 3.
Definition TAG_DECIMAL := 4.

Definition MAJOR_TYPE_MASK := 0xe0.
Definition MINOR_TYPE_MASK := 0x1f.

Definition majorType (t : tbyte) : Z := Z.land (ToInt32 t) MAJOR_TYPE_MASK.
Definition minorType (t : tbyte) : Z := Z.land (ToInt32 t) MINOR_TYPE_MASK.
Definition isMajorType (v : tbyte) (t : Z) : bool := majorType v =? t.
End CborTypes.

(** ** Numbers *)

Definition SHIFT32 : Z := 2 ^ 32.
Definition MAX_SAFE_INTEGER : Z := 2 ^ 53 - 1.
Definition MIN_SAFE_INTEGER : Z := - (2 ^ 53 - 1).

(** A native JavaScript number: an integer held exactly, or a binary64 value
    computed by floating-point operations. *)
Inductive number :=
| Int (z : Z)
| Flt (f : float).

(** Round a natural number to the nearest integer with a 53-bit significand,
    ties to even: the value [Number(s)] has for a decimal numeral [s]. *)
Definition round53_pos (a : Z) : Z :=
  let n := Z.log2 a + 1 in
  if n <=? 53 then a
  else
    let sh := n - 53 in
    let q := Z.shiftr a sh in
    let r := Z.land a (Z.ones sh) in
    let half := Z.shiftl 1 (sh - 1) in
    let q' := if (half <? r) || ((r =? half) && Z.odd q) then q + 1 else q in
    Z.shiftl q' sh.

Definition round53 (z : Z) : Z :=
  if z <? 0 then - round53_pos (- z) else round53_pos z.

(** [Number(x)] for a [BigNumber] [x] holding the integer [z]: the nearest
    binary64 value, an infinity beyond the binary64 range. *)
Definition Number_of_BigNumber (z : Z) : number :=
  let r := round53 z in
  if 2 ^ 1024 <=? r then Flt infinity
  else if r <=? - 2 ^ 1024 then Flt neg_infinity
  else Int r.

(** The result of the primitive value reader: a native number, a
    [BigNumber], or [undefined] (a byte read beyond the end of the buffer). *)
Inductive magnitude :=
| MNum (z : Z)
| MBig (z : Z)
| MUndefined.

(** ** The decoder object *)

(** [tagHandlers], when present, maps a tag to caller-supplied code; the
    model records only for which tags a handler is registered.
    [_byteStreamBuffer] is the accumulator of the streaming string decoder.
    [subDecoder] is the lazily created, reused decoder for nested CBOR. *)
Inductive Decoder := mkDecoder {
  buffer : list byte;
  start : Z;
  _limit : option Z;
  tagHandlers : option (magnitude -> bool);
  _byteStreamBuffer : list byte;
  subDecoder : option Decoder
}.

(** [x || d] for an optional numeric argument. *)
Definition JS_or (x : option Z) (d : Z) : Z :=
  match x with
  | Some v => if v =? 0 then d else v
  | None => d
  end.

(** The constructor: [new CborDecoder(buffer, start, end, tagHandlers)]. *)
Definition new_CborDecoder (buf : list byte) (start_ end_ : option Z)
    (handlers : option (magnitude -> bool)) : Decoder :=
  {| buffer := buf;
     start := JS_or start_ 0;
     _limit := Some (JS_or end_ (Z.of_nat (List.length buf)));
     tagHandlers := handlers;
     _byteStreamBuffer := [];
     subDecoder := None |}.

Definition set_start (s : Z) (d : Decoder) : Decoder :=
  {| buffer := buffer d; start := s; _limit := _limit d;
     tagHandlers := tagHandlers d;
     _byteStreamBuffer := _byteStreamBuffer d;
     subDecoder := subDecoder d |}.

Definition set_stream (bs : list byte) (d : Decoder) : Decoder :=
  {| buffer := buffer d; start := start d; _limit := _limit d;
     tagHandlers := tagHandlers d;
     _byteStreamBuffer := bs;
     subDecoder := subDecoder d |}.

Definition set_subDecoder (s : Decoder) (d : Decoder) : Decoder :=
  {| buffer := buffer d; start := start d; _limit := _limit d;
     tagHandlers := tagHandlers d;
     _byteStreamBuffer := _byteStreamBuffer d;
     subDecoder := Some s |}.

(** ** Exceptions and the decoder monad *)

(** One constructor per [throw] site of the decoder, plus the errors raised
    by the runtime and by bignumber.js. *)
Inductive error :=
| NeedMoreData
| NotString
| NotBytes
| NotNumber
| NotInteger
| TypeIsNotFloat
| InvalidTagForBigInt
| BigIntNotBinary
| DecimalWithoutTag
| DecimalWrongArraySize
| NotArray
| NotMap
| UnexpectedBreak
| UnhandledType
| NotCborBytes
| DuplicateKey
| InvalidSize
| NotATag
| RangeError
| TypeError
| BigNumberError.

(** The outcome of running a method on a decoder: a result and the decoder
    afterwards, an exception and the decoder as it was left, exhausted fuel
    (the loop or recursion needed more steps than were granted), or an
    execution the model does not describe. *)
Inductive outcome (A : Type) :=
| Ok (a : A) (d : Decoder)
| Throw (e : error) (d : Decoder)
| OutOfFuel
| Unmodelled.

Arguments Throw {A} e d.
Arguments OutOfFuel {A}.
Arguments Unmodelled {A}.

Definition M (A : Type) := Decoder -> outcome A.

Definition ret {A} (a : A) : M A := fun d => Ok a d.

Definition bind {A B} (m : M A) (k : A -> M B) : M B :=
  fun d =>
    match m d with
    | Ok a d' => k a d'
    | Throw e d' => Throw e d'
    | OutOfFuel => OutOfFuel
    | Unmodelled => Unmodelled
    end.

Definition throw {A} (e : error) : M A := fun d => Throw e d.
Definition unmodelled {A} : M A := fun _ => Unmodelled.
Definition gets {A} (f : Decoder -> A) : M A := fun d => Ok (f d) d.
Definition modify (f : Decoder -> Decoder) : M unit := fun d => Ok tt (f d).

Declare Scope decoder_scope.
Delimit Scope decoder_scope with dec.
Notation "x <- m ;; k" := (bind m (fun x => k))
  (at level 100, m at next level, right associativity) : decoder_scope.
Notation "' p <- m ;; k" := (bind m (fun x => let 'p := x in k))
  (at level 100, p pattern, m at next level, right associativity) : decoder_scope.
Notation "m ;; k" := (bind m (fun _ => k))
  (at level 100, right associativity) : decoder_scope.
Local Open Scope decoder_scope.

(** ** The byte-window cursor *)

(** [a < n] for an integer [a] and the native number [n] that a
    [BigNumber] converts to: an integer, or an infinity. *)
Definition lt_number (a : Z) (n : number) : bool :=
  match n with
  | Int b => a <? b
  | Flt f => PrimFloat.ltb zero f
  end.

(** [this._limit - this.start < n].  With [_limit] undefined the difference
    is [NaN], and so is [Number(undefined)]: a comparison with [NaN] is
    false.  A [BigNumber] operand is converted to a native number first. *)
Definition remaining_lt (d : Decoder) (n : magnitude) : bool :=
  match _limit d with
  | None => false
  | Some l =>
      match n with
      | MNum z => l - start d <? z
      | MBig z => lt_number (l - start d) (Number_of_BigNumber z)
      | MUndefined => false
      end
  end.

Definition _ensureAvailable (n : magnitude) : M unit :=
  fun d => if remaining_lt d n then Throw NeedMoreData d else Ok tt d.

Definition peek : M tbyte :=
  _ensureAvailable (MNum 1) ;;
  gets (fun d => buf_get (buffer d) (start d)).

(** [this.start += n].  Adding a [BigNumber] concatenates strings and adding
    [undefined] gives [NaN]: the offset is no longer a number. *)
Definition _consume (n : magnitude) : M unit :=
  match n with
  | MNum z => modify (fun d => set_start (start d + z) d)
  | MBig _ | MUndefined => unmodelled
  end.

(** A buffer read that raises [RangeError] when out of range. *)
Definition read_or_range (r : Decoder -> option Z) : M Z :=
  fun d => match r d with Some z => Ok z d | None => Throw RangeError d end.

(** ** The primitive value reader *)

(** [result >= Number.MIN_SAFE_INTEGER && result <= Number.MAX_SAFE_INTEGER]
    for a [BigNumber] [result]: both comparisons convert it to a native
    number. *)
Definition in_safe_range (z : Z) : bool :=
  match Number_of_BigNumber z with
  | Int r => (MIN_SAFE_INTEGER <=? r) && (r <=? MAX_SAFE_INTEGER)
  | Flt _ => false
  end.

Definition _decodeValue (v : tbyte) : M magnitude :=
  let size := CborTypes.minorType v in
  '(result, excess) <-
    (if size <? CborTypes.SIZE_8 then
       ret (MNum size, 0)
     else if size =? CborTypes.SIZE_8 then
       _ensureAvailable (MNum 2) ;;
       b <- gets (fun d => buf_get (buffer d) (start d + 1)) ;;
       ret (match b with Some b => MNum (byte_val b) | None => MUndefined end, 1)
     else if size =? CborTypes.SIZE_16 then
       _ensureAvailable (MNum 3) ;;
       r <- read_or_range (fun d => readUInt16BE (buffer d) (start d + 1)) ;;
       ret (MNum r, 2)
     else if size =? CborTypes.SIZE_32 then
       _ensureAvailable (MNum 5) ;;
       r <- read_or_range (fun d => readUInt32BE (buffer d) (start d + 1)) ;;
       ret (MNum r, 4)
     else if size =? CborTypes.SIZE_64 then
       _ensureAvailable (MNum 9) ;;
       f <- read_or_range (fun d => readUInt32BE (buffer d) (start d + 1)) ;;
       g <- read_or_range (fun d => readUInt32BE (buffer d) (start d + 5)) ;;
       let result := f * SHIFT32 + g in
       ret (if in_safe_range result then MNum result else MBig result, 8)
     else if size =? CborTypes.SIZE_STREAM then
       ret (MNum (-1), 0)
     else
       throw InvalidSize) ;;
  _consume (MNum (1 + excess)) ;;
  ret result.

(** ** Decoded values *)

(** A JavaScript value the decoder returns.  [VUndefined] is JavaScript's
    [undefined], which only a read beyond the end of the buffer produces
    (the wire format's simple value of that name decodes to [VNull]).
    [VText] is a string, held as the UTF-8 bytes it is decoded from.
    [VMap] is a plain object: its own
    properties in insertion order, and its prototype when an assignment to
    [__proto__] replaced [Object.prototype] ([None] while it is still
    [Object.prototype]).

    Modelled from the spec: the class [BigDecimal] (required by the decoder,
    not among the sources) is the decimal value type, an opaque wrapper of an
    unscaled arbitrary-precision integer and a power-of-ten exponent;
    [VDecimal bi e] is [new BigDecimal(bi, e)]. *)
Inductive value :=
| VNull
| VUndefined
| VBool (b : bool)
| VNumber (n : number)
| VBig (z : Z)
| VDecimal (unscaled : Z) (exponent : number)
| VBytes (bs : list byte)
| VText (bs : list byte)
| VArray (elems : list value)
| VMap (props : list (string * value)) (proto : option value).

Definition value_of_magnitude (m : magnitude) : value :=
  match m with
  | MNum z => VNumber (Int z)
  | MBig z => VBig z
  | MUndefined => VUndefined
  end.

(** [m === c] for a constant [c] (also the test of a [switch] case). *)
Definition strict_eq (m : magnitude) (c : Z) : bool :=
  match m with
  | MNum z => z =? c
  | MBig _ | MUndefined => false
  end.

(** [m == c] and [m != c]: a [BigNumber] is converted to a native number. *)
Definition loose_eq (m : magnitude) (c : Z) : bool :=
  match m with
  | MNum z => z =? c
  | MBig z => match Number_of_BigNumber z with Int r => r =? c | Flt _ => false end
  | MUndefined => false
  end.

Definition loose_neq (m : magnitude) (c : Z) : bool := negb (loose_eq m c).

(** ** Floating-point decoding *)

(** A small integer as a binary64 value (exact below 2^53). *)
Definition Z2F (z : Z) : float :=
  if z <? 0 then (- of_uint63 (Uint63.of_Z (- z)))%float
  else of_uint63 (Uint63.of_Z z).

(** [Math.pow(2, k)] for an integer [k] within the binary64 exponent range:
    the power of two itself. *)
Definition Math_pow2 (k : Z) : float := Z.ldexp one k.

Definition _parseHalf (buf : list byte) (offset : Z) : float :=
  let b0 := ToInt32 (buf_get buf offset) in
  let b1 := ToInt32 (buf_get buf (offset + 1)) in
  let sign := if Z.land b0 0x80 =? 0 then Z2F 1 else Z2F (-1) in
  let exp := Z.shiftr (Z.land b0 0x7c) 2 in
  let mant := Z.lor (Z.shiftl (Z.land b0 0x03) 8) b1 in
  if exp =? 0 then
    (sign * 5.9604644775390625e-8 * Z2F mant)%float
  else if exp =? 0x1f then
    (sign * (if (mant =? 0)%Z then 2e308 else 0 / 0))%float
  else
    (sign * Math_pow2 (exp - 25) * Z2F (1024 + mant))%float.

(** The binary64 value of an IEEE-754 bit pattern [w] with [ebits] exponent
    bits and [mbits] fraction bits (binary32 and binary64 layouts; every
    binary32 value is a binary64 value). *)
Definition float_of_bits (ebits mbits : Z) (w : Z) : float :=
  let s := Z.testbit w (ebits + mbits) in
  let e := Z.land (Z.shiftr w mbits) (Z.ones ebits) in
  let m := Z.land w (Z.ones mbits) in
  let bias := 2 ^ (ebits - 1) - 1 in
  if e =? 0 then
    match m with
    | Zpos p => SF2Prim (S754_finite s p (1 - bias - mbits))
    | _ => SF2Prim (S754_zero s)
    end
  else if e =? Z.ones ebits then
    if m =? 0 then SF2Prim (S754_infinity s) else nan
  else SF2Prim (S754_finite s (Z.to_pos (2 ^ mbits + m)) (e - bias - mbits)).

Definition readFloatBE (buf : list byte) (off : Z) : option float :=
  option_map (float_of_bits 8 23) (readUIntBE 4 buf off).

Definition readDoubleBE (buf : list byte) (off : Z) : option float :=
  option_map (float_of_bits 11 52) (readUIntBE 8 buf off).

Definition read_float_or_range (r : Decoder -> option float) : M float :=
  fun d => match r d with Some f => Ok f d | None => Throw RangeError d end.

Definition decodeFloat : M float :=
  t <- peek ;;
  '(result, excess) <-
    (if tb_eq t CborTypes.TYPE_FLOAT_16 then
       _ensureAvailable (MNum 3) ;;
       r <- gets (fun d => _parseHalf (buffer d) (start d + 1)) ;;
       ret (r, 2)
     else if tb_eq t CborTypes.TYPE_FLOAT_32 then
       _ensureAvailable (MNum 5) ;;
       r <- read_float_or_range (fun d => readFloatBE (buffer d) (start d + 1)) ;;
       ret (r, 4)
     else if tb_eq t CborTypes.TYPE_FLOAT_64 then
       _ensureAvailable (MNum 9) ;;
       r <- read_float_or_range (fun d => readDoubleBE (buffer d) (start d + 1)) ;;
       ret (r, 8)
     else
       throw TypeIsNotFloat) ;;
  _consume (MNum (1 + excess)) ;;
  ret result.

(** ** Simple cursor tests *)

Definition tryDecodeBreak : M bool :=
  val <- peek ;;
  if tb_eq val CborTypes.TYPE_BREAK then _consume (MNum 1) ;; ret true
  else ret false.

Definition tryDecodeNull : M bool :=
  val <- peek ;;
  if tb_eq val CborTypes.TYPE_NULL then _consume (MNum 1) ;; ret true
  else ret false.

(** [copyBuffer(buffer, start, end)]. *)
Definition copyBuffer (buf : list byte) (start_ end_ : option Z) : list byte :=
  JS_slice buf (JS_or start_ 0) (JS_or end_ (Z.of_nat (List.length buf))).

Definition drain : M (list byte) :=
  remain <- gets (fun d => copyBuffer (buffer d) (Some (start d)) (_limit d)) ;;
  modify (fun d => set_start (start d + Z.of_nat (List.length remain)) d) ;;
  ret remain.

(** ** Byte and text strings *)

(** Modelled from the spec: the class [ByteStreamBuffer] (required by the
    decoder, not among the sources) is the accumulator of the streaming
    decoder, an appender that is finalised by reading all its bytes (or
    reading them as a string) and is empty again afterwards. *)
Definition stream_write (chunk : list byte) : M unit :=
  modify (fun d => set_stream (_byteStreamBuffer d ++ chunk) d).

Definition stream_read : M (list byte) :=
  bs <- gets _byteStreamBuffer ;;
  modify (set_stream []) ;;
  ret bs.

(** [this.buffer.slice(this.start, this.start + length)].  For a length that
    is not a native number the sum is a string or [NaN]; the offset is lost
    right afterwards ([_consume]), so the model stops here. *)
Definition slice_from_start (length : magnitude) : M (list byte) :=
  match length with
  | MNum z => gets (fun d => JS_slice (buffer d) (start d) (start d + z))
  | MBig _ | MUndefined => unmodelled
  end.

Definition out_of_fuel {A} : M A := fun _ => OutOfFuel.

(** [while (!cond()) { body(); }], for at most [fuel] evaluations of the
    condition. *)
Fixpoint while_not (fuel : nat) (cond : M bool) (body : M unit) : M unit :=
  match fuel with
  | O => out_of_fuel
  | S fuel' =>
      b <- cond ;;
      if b then ret tt else body ;; while_not fuel' cond body
  end.

(** The accumulator [destStreamBuffer] is always [this._byteStreamBuffer]. *)
Fixpoint _decodeByteStringsInternal (fuel : nat) (cborType : tbyte) : M unit :=
  match fuel with
  | O => out_of_fuel
  | S fuel' =>
      length <- _decodeValue cborType ;;
      if loose_neq length (-1) then
        _ensureAvailable length ;;
        chunk <- slice_from_start length ;;
        stream_write chunk ;;
        _consume length
      else
        while_not fuel' tryDecodeBreak
          (t <- peek ;; _decodeByteStringsInternal fuel' t)
  end.

Definition decodeString (fuel : nat) : M value :=
  t <- peek ;;
  if negb (CborTypes.isMajorType t CborTypes.TYPE_UTF) then throw NotString
  else
    _decodeByteStringsInternal fuel t ;;
    bs <- stream_read ;;
    ret (VText bs).

Definition decodeBytes (fuel : nat) : M (list byte) :=
  t <- peek ;;
  if negb (CborTypes.isMajorType t CborTypes.TYPE_BYTES) then throw NotBytes
  else
    _decodeByteStringsInternal fuel t ;;
    stream_read.

(** ** Tags and integers *)

Definition _decodeTag (t : tbyte) : M magnitude :=
  if negb (CborTypes.isMajorType t CborTypes.TYPE_TAG) then throw NotATag
  else _decodeValue t.

(** [data.toString('hex')]: two lower-case hexadecimal digits per byte. *)
Definition hex_digit (n : Z) : ascii :=
  if n <? 10 then ascii_of_nat (Z.to_nat (48 + n))
  else ascii_of_nat (Z.to_nat (87 + n)).

Fixpoint Buffer_toString_hex (data : list byte) : string :=
  match data with
  | [] => EmptyString
  | b :: data' =>
      String (hex_digit (byte_val b / 16))
        (String (hex_digit (byte_val b mod 16)) (Buffer_toString_hex data'))
  end.

(** The value of a digit in base 16 (either case), if it is one. *)
Definition hex_digit_value (c : ascii) : option Z :=
  let n := Z.of_nat (nat_of_ascii c) in
  if (48 <=? n) && (n <=? 57) then Some (n - 48)
  else if (97 <=? n) && (n <=? 102) then Some (n - 87)
  else if (65 <=? n) && (n <=? 70) then Some (n - 55)
  else None.

Fixpoint parse_digits16 (acc : Z) (s : string) : option Z :=
  match s with
  | EmptyString => Some acc
  | String c s' =>
      match hex_digit_value c with
      | Some v => parse_digits16 (acc * 16 + v) s'
      | None => None
      end
  end.

(** [new BigNumber(str, 16)] for a string of hexadecimal digits.  The empty
    string is not a numeral: bignumber.js (version 3, as the package
    requires, with its default settings) raises an error for it, as for any
    string that is not a base-16 numeral. *)
Definition new_BigNumber_base16 (str : string) : M Z :=
  match str with
  | EmptyString => throw BigNumberError
  | _ =>
      match parse_digits16 0 str with
      | Some z => ret z
      | None => throw BigNumberError
      end
  end.

Definition BigNumber_of_hex (data : list byte) : M Z :=
  new_BigNumber_base16 (Buffer_toString_hex data).

Definition _decodeBigInt (fuel : nat) (tag : magnitude) : M value :=
  if loose_neq tag CborTypes.TAG_POSBIGINT && loose_neq tag CborTypes.TAG_NEGBIGINT
  then throw InvalidTagForBigInt
  else
    t <- peek ;;
    if negb (CborTypes.isMajorType t CborTypes.TYPE_BYTES) then throw BigIntNotBinary
    else
      data <- decodeBytes fuel ;;
      val <- BigNumber_of_hex data ;;
      ret (VBig (if loose_eq tag CborTypes.TAG_POSBIGINT then val else - val - 1)).

(** [v instanceof BigNumber ? v.neg().sub(1) : -v - 1]; on [undefined] the
    arithmetic gives [NaN]. *)
Definition negint_of_magnitude (v : magnitude) : value :=
  match v with
  | MBig z => VBig (- z - 1)
  | MNum z => VNumber (Int (- z - 1))
  | MUndefined => VNumber (Flt nan)
  end.

Definition decodeInt (fuel : nat) : M value :=
  t <- peek ;;
  let mt := CborTypes.majorType t in
  if negb (mt =? CborTypes.TYPE_POSINT) && negb (mt =? CborTypes.TYPE_NEGINT) then
    if mt =? CborTypes.TYPE_TAG then
      tag <- _decodeTag t ;;
      if strict_eq tag CborTypes.TAG_POSBIGINT || strict_eq tag CborTypes.TAG_NEGBIGINT
      then _decodeBigInt fuel tag
      else throw NotInteger
    else throw NotInteger
  else
    v <- _decodeValue t ;;
    ret (if mt =? CborTypes.TYPE_POSINT then value_of_magnitude v
         else negint_of_magnitude v).

(** ** Containers: lengths and loops *)

Definition decodeArrayLength : M magnitude :=
  t <- peek ;;
  if negb (CborTypes.majorType t =? CborTypes.TYPE_ARRAY) then throw NotArray
  else _decodeValue t.

Definition decodeMapLength : M magnitude :=
  t <- peek ;;
  if negb (CborTypes.majorType t =? CborTypes.TYPE_MAP) then throw NotMap
  else _decodeValue t.

(** [i != length] for the loop counter [i]. *)
Definition counter_neq (i : Z) (length : magnitude) : bool := loose_neq length i.

(** The loop of [processArray] and [processMap]:
    [while (i != length) { if (this.tryDecodeBreak()) break; fn(); i += 1; }].
    What the callback [fn] mutates in its closure is threaded as [a]. *)
Fixpoint process_loop {A} (fuel : nat) (length : magnitude) (fn : A -> M A)
    (i : Z) (a : A) : M A :=
  match fuel with
  | O => out_of_fuel
  | S fuel' =>
      if counter_neq i length then
        brk <- tryDecodeBreak ;;
        if brk then ret a
        else a' <- fn a ;; process_loop fuel' length fn (i + 1) a'
      else ret a
  end.

Definition processArray {A} (fuel : nat) (fn : A -> M A) (a : A) : M A :=
  length <- decodeArrayLength ;;
  process_loop fuel length fn 0 a.

Definition processMap {A} (fuel : nat) (fn : A -> M A) (a : A) : M A :=
  length <- decodeMapLength ;;
  process_loop fuel length fn 0 a.

(** [buildArray(fn)]: the array [a] that the callback pushes to. *)
Definition buildArray (fuel : nat) (fn : M value) : M value :=
  a <- processArray fuel (fun a => v <- fn ;; ret (a ++ [v])) [] ;;
  ret (VArray a).

(** ** Plain objects used as maps *)

(** The object [m] of [buildMap]: own properties and replaced prototype. *)
Record object := mkObject {
  props : list (string * value);
  proto : option value
}.

Definition empty_object : object := {| props := []; proto := None |}.

Definition own_keys (o : object) : list string := map fst (props o).

Definition has_own (o : object) (k : string) : bool :=
  existsb (String.eqb k) (own_keys o).

Definition is_ascii (b : byte) : bool := byte_val b <? 128.

Definition ascii_string (bs : list byte) : string :=
  string_of_list_ascii (map ascii_of_byte bs).

Definition decimal_string (z : Z) : string := NilZero.string_of_int (Z.to_int z).

(** The property name a decoded key is converted to ([String(k)]), for the
    keys whose conversion the model describes: [null], [undefined],
    booleans, integers printed in plain decimal notation (magnitude below
    10^21), and ASCII text or bytes.  Other keys (floats, larger integers,
    non-ASCII strings, arrays, objects, decimals) give [None]. *)
Definition ToPropertyKey (k : value) : option string :=
  match k with
  | VNull => Some "null"%string
  | VUndefined => Some "undefined"%string
  | VBool true => Some "true"%string
  | VBool false => Some "false"%string
  | VNumber (Int z) | VBig z =>
      if Z.abs z <? 10 ^ 21 then Some (decimal_string z) else None
  | VText bs | VBytes bs =>
      if forallb is_ascii bs then Some (ascii_string bs) else None
  | VNumber (Flt _) | VDecimal _ _ | VArray _ | VMap _ _ => None
  end.

(** [typeof v === 'object']: an object or [null], the values an assignment
    to [__proto__] installs as prototype. *)
Definition is_object_or_null (v : value) : bool :=
  match v with
  | VNull | VBig _ | VDecimal _ _ | VBytes _ | VArray _ | VMap _ _ => true
  | VUndefined | VBool _ | VNumber _ | VText _ => false
  end.

(** [m.hasOwnProperty(k)].  The method is looked up on [m] first: an own
    property of that name holds a decoded value, which is not callable.
    Otherwise it is inherited: from [Object.prototype], or from nothing when
    the prototype was replaced by [null]; a prototype replaced by another
    object is not followed by the model. *)
Definition JS_hasOwnProperty (m : object) (k : string) : M bool :=
  if has_own m "hasOwnProperty" then throw TypeError
  else
    match proto m with
    | None => ret (has_own m k)
    | Some VNull => throw TypeError
    | Some _ => unmodelled
    end.

(** [m[k] = v] on an object that still inherits from [Object.prototype] and
    has no own property [k]: the name [__proto__] reaches the inherited
    setter, which replaces the prototype by an object or [null] and ignores
    other values. *)
Definition JS_set (m : object) (k : string) (v : value) : object :=
  if String.eqb k "__proto__" then
    if is_object_or_null v then {| props := props m; proto := Some v |} else m
  else {| props := props m ++ [(k, v)]; proto := proto m |}.

(** The callback of [buildMap]. *)
Definition buildMap_step (fn : M (value * value)) (m : object) : M object :=
  r <- fn ;;
  let k := fst r in
  let v := snd r in
  match ToPropertyKey k with
  | None => unmodelled
  | Some key =>
      dup <- JS_hasOwnProperty m key ;;
      if dup then throw DuplicateKey
      else ret (JS_set m key v)
  end.

Definition buildMap (fuel : nat) (fn : M (value * value)) : M value :=
  m <- processMap fuel (buildMap_step fn) empty_object ;;
  ret (VMap (props m) (proto m)).

(** ** Decimals *)

(** [new BigNumber(v)] for the result [v] of [decodeInt]: a safe integer or
    a [BigNumber] is taken as it is and [undefined] is refused; what
    bignumber.js does with other numbers depends on its configuration. *)
Definition new_BigNumber (v : value) : M Z :=
  match v with
  | VNumber (Int z) =>
      if (MIN_SAFE_INTEGER <=? z) && (z <=? MAX_SAFE_INTEGER) then ret z
      else unmodelled
  | VBig z => ret z
  | VUndefined => throw BigNumberError
  | _ => unmodelled
  end.

(** [-scale] for the result [scale] of [decodeInt]: the unary minus converts
    a [BigNumber] to a native number. *)
Definition JS_neg (scale : value) : M number :=
  match scale with
  | VNumber (Int z) => ret (Int (- z))
  | VNumber (Flt f) => ret (Flt (- f)%float)
  | VBig z => ret (Number_of_BigNumber (- z))
  | VUndefined => ret (Flt nan)
  | _ => unmodelled
  end.

Definition _decodeDecimal (fuel : nat) (tag : magnitude) : M value :=
  if loose_neq tag CborTypes.TAG_DECIMAL then throw DecimalWithoutTag
  else
    size <- decodeArrayLength ;;
    if loose_neq size 2 then throw DecimalWrongArraySize
    else
      scale <- decodeInt fuel ;;
      v <- decodeInt fuel ;;
      bi <- new_BigNumber v ;;
      exponent <- JS_neg scale ;;
      ret (VDecimal bi exponent).

Definition decodeNumber (fuel : nat) : M value :=
  t <- peek ;;
  if tb_eq t CborTypes.TYPE_FLOAT_16 || tb_eq t CborTypes.TYPE_FLOAT_32
     || tb_eq t CborTypes.TYPE_FLOAT_64
  then f <- decodeFloat ;; ret (VNumber (Flt f))
  else
    let mt := CborTypes.majorType t in
    if (mt =? CborTypes.TYPE_POSINT) || (mt =? CborTypes.TYPE_NEGINT) then
      decodeInt fuel
    else if mt =? CborTypes.TYPE_TAG then
      tag <- _decodeTag t ;;
      if strict_eq tag CborTypes.TAG_POSBIGINT || strict_eq tag CborTypes.TAG_NEGBIGINT
      then _decodeBigInt fuel tag
      else if strict_eq tag CborTypes.TAG_DECIMAL then _decodeDecimal fuel tag
      else throw NotNumber
    else throw NotNumber.

(** ** Generic decoding *)

(** [_decodeTaggedType], with the generic decoder it falls back to as a
    parameter.  A registered handler is caller-supplied code. *)
Definition _decodeTaggedType_with (decodeObject : M value) (fuel : nat)
    (t : tbyte) : M value :=
  tag <- _decodeTag t ;;
  if strict_eq tag CborTypes.TAG_POSBIGINT || strict_eq tag CborTypes.TAG_NEGBIGINT
  then _decodeBigInt fuel tag
  else if strict_eq tag CborTypes.TAG_DECIMAL then _decodeDecimal fuel tag
  else
    handlers <- gets tagHandlers ;;
    match handlers with
    | Some registered =>
        if registered tag then unmodelled else decodeObject
    | None => decodeObject
    end.

Definition decodeArray_with (decodeObject : M value) (fuel : nat) : M value :=
  buildArray fuel decodeObject.

Definition decodeMap_with (decodeObject : M value) (fuel : nat) : M value :=
  buildMap fuel (k <- decodeObject ;; v <- decodeObject ;; ret (k, v)).

Fixpoint decodeObject (fuel : nat) : M value :=
  match fuel with
  | O => out_of_fuel
  | S fuel' =>
      isNull <- tryDecodeNull ;;
      if isNull then ret VNull
      else
        t <- peek ;;
        if tb_eq t CborTypes.TYPE_NULL || tb_eq t CborTypes.TYPE_UNDEFINED then
          _consume (MNum 1) ;; ret VNull
        else if tb_eq t CborTypes.TYPE_TRUE then
          _consume (MNum 1) ;; ret (VBool true)
        else if tb_eq t CborTypes.TYPE_FALSE then
          _consume (MNum 1) ;; ret (VBool false)
        else if tb_eq t CborTypes.TYPE_FLOAT_16 || tb_eq t CborTypes.TYPE_FLOAT_32
                || tb_eq t CborTypes.TYPE_FLOAT_64 then
          f <- decodeFloat ;; ret (VNumber (Flt f))
        else if tb_eq t CborTypes.TYPE_BREAK then
          throw UnexpectedBreak
        else
          let mt := CborTypes.majorType t in
          if (mt =? CborTypes.TYPE_POSINT) || (mt =? CborTypes.TYPE_NEGINT) then
            decodeInt fuel'
          else if mt =? CborTypes.TYPE_BYTES then
            bs <- decodeBytes fuel' ;; ret (VBytes bs)
          else if mt =? CborTypes.TYPE_UTF then
            decodeString fuel'
          else if mt =? CborTypes.TYPE_ARRAY then
            decodeArray_with (decodeObject fuel') fuel'
          else if mt =? CborTypes.TYPE_MAP then
            decodeMap_with (decodeObject fuel') fuel'
          else if mt =? CborTypes.TYPE_TAG then
            _decodeTaggedType_with (decodeObject fuel') fuel' t
          else
            throw UnhandledType
  end.

Definition decodeArray (fuel : nat) : M value :=
  decodeArray_with (decodeObject fuel) fuel.

Definition decodeMap (fuel : nat) : M value :=
  decodeMap_with (decodeObject fuel) fuel.

Definition _decodeTaggedType (fuel : nat) (t : tbyte) : M value :=
  _decodeTaggedType_with (decodeObject fuel) fuel t.

Definition skip (fuel : nat) : M unit :=
  decodeObject fuel ;; ret tt.

(** ** Nested CBOR *)

Definition rebind (buf : list byte) (s : Z) (l : option Z) (sub : Decoder) : Decoder :=
  {| buffer := buf; start := s; _limit := l;
     tagHandlers := tagHandlers sub;
     _byteStreamBuffer := _byteStreamBuffer sub;
     subDecoder := subDecoder sub |}.

(** [this.start + length] as the fixed-size window's limit. *)
Definition window_limit (length : magnitude) : M Z :=
  match length with
  | MNum z => gets (fun d => start d + z)
  | MBig _ | MUndefined => unmodelled
  end.

(** [decodeCbor] returns [this.subDecoder] itself.  Here the sub-decoder is
    returned, and stored in the parent, as a value: what a later call on the
    parent does to the stored sub-decoder is not seen through the one
    returned before.  The statements below read a sub-decoder without
    going back to its parent in between. *)
Definition decodeCbor (fuel : nat) : M Decoder :=
  t <- peek ;;
  if negb (CborTypes.isMajorType t CborTypes.TYPE_BYTES) then throw NotCborBytes
  else
    '(buf, s, l) <-
      (if negb (tb_eq t (CborTypes.TYPE_BYTES + CborTypes.SIZE_STREAM)) then
         length <- _decodeValue t ;;
         _ensureAvailable length ;;
         buf <- gets buffer ;;
         s <- gets start ;;
         l <- window_limit length ;;
         _consume length ;;
         ret (buf, s, Some l)
       else
         buf <- decodeBytes fuel ;;
         ret (buf, 0, None)) ;;
    old <- gets subDecoder ;;
    let sub :=
      match old with
      | None => rebind buf s l (new_CborDecoder buf None None None)
      | Some sd => rebind buf s l sd
      end in
    modify (set_subDecoder sub) ;;
    ret sub.

(** * Vocabulary of the properties *)

Unset Implicit Arguments.

(** The integer a finite binary64 value equals, when it is an integer. *)
Definition SF_integer (f : spec_float) : option Z :=
  match f with
  | S754_zero _ => Some 0
  | S754_finite s m e =>
      let sign := if s then -1 else 1 in
      if 0 <=? e then Some (sign * Zpos m * 2 ^ e)
      else if Zpos m mod 2 ^ (- e) =? 0 then Some (sign * (Zpos m / 2 ^ (- e)))
      else None
  | _ => None
  end.

(** The number of extension bytes a type byte announces. *)
Definition extension_byte_count (v : tbyte) : Z :=
  let size := CborTypes.minorType v in
  if size =? CborTypes.SIZE_8 then 1
  else if size =? CborTypes.SIZE_16 then 2
  else if size =? CborTypes.SIZE_32 then 4
  else if size =? CborTypes.SIZE_64 then 8
  else 0.

(** The 8-byte encodings of [2^53 - 1] and of [2^53]. *)
Definition buffer_max_safe : list byte :=
  [x1b; x00; x1f; xff; xff; xff; xff; xff; xff].
Definition buffer_2_pow_53 : list byte :=
  [x1b; x00; x20; x00; x00; x00; x00; x00; x00].

(** *** Half-precision reference values *)

(** What a binary64 value denotes: a rational number (in lowest terms), a
    signed infinity, or not-a-number. *)
Inductive float_meaning :=
| Finite (q : Q)
| Infinite (negative : bool)
| NaN.

Definition meaning (f : float) : float_meaning :=
  match Prim2SF f with
  | S754_zero _ => Finite (Qred 0)
  | S754_finite s m e =>
      Finite (Qred (inject_Z (if s then Zneg m else Zpos m) * Qpower 2 e))
  | S754_infinity s => Infinite s
  | S754_nan => NaN
  end.

(** The value of the binary16 pattern with sign bit [s], exponent field [e]
    and fraction field [m]. *)
Definition binary16_value (s : bool) (e m : Z) : float_meaning :=
  let sign := if s then -1 else 1 in
  if e =? 0 then
    Finite (Qred (inject_Z sign * Qpower 2 (-24) * inject_Z m))
  else if e =? 31 then
    if m =? 0 then Infinite s else NaN
  else
    Finite (Qred (inject_Z sign * Qpower 2 (e - 25) * inject_Z (1024 + m))).

(** The fields of the 16-bit word spelled by two bytes. *)
Definition half_word (b0 b1 : byte) : Z := byte_val b0 * 256 + byte_val b1.
Definition half_sign (w : Z) : bool := Z.testbit w 15.
Definition half_exponent (w : Z) : Z := Z.land (Z.shiftr w 10) 31.
Definition half_mantissa (w : Z) : Z := Z.land w 1023.

(** Decidable equality of meanings, and the agreement of the decoder with
    the reference value on one pair of bytes, for checking every pair by
    evaluation. *)
Definition meaning_eqb (a b : float_meaning) : bool :=
  match a, b with
  | Finite p, Finite q => (Qnum p =? Qnum q) && (Qden p =? Qden q)%positive
  | Infinite s, Infinite t => Bool.eqb s t
  | NaN, NaN => true
  | _, _ => false
  end.

(** The 256 bytes. *)
Definition all_bytes : list byte :=
  map (fun n => match Byte.of_nat n with Some b => b | None => x00 end)
      (seq 0 256).

Definition parseHalf_agrees (b0 b1 : byte) : bool :=
  let w := half_word b0 b1 in
  meaning_eqb (meaning (_parseHalf [b0; b1] 0))
              (binary16_value (half_sign w) (half_exponent w) (half_mantissa w)).

(** *** Encodings *)

(** The bytes at the cursor: the buffer from the read offset on. *)
Definition cursor_bytes (d : Decoder) : list byte :=
  skipn (Z.to_nat (start d)) (buffer d).

(** The limit, when set, leaves at least [n] bytes after the offset. *)
Definition limit_allows (d : Decoder) (n : Z) : Prop :=
  match _limit d with
  | None => True
  | Some l => start d + n <= l
  end.

(** The byte of value [z], for [0 <= z < 256]. *)
Definition byte_of_Z (z : Z) : byte :=
  match Byte.of_N (Z.to_N z) with Some b => b | None => x00 end.

(** The [k]-byte big-endian representation of [n]. *)
Fixpoint be_bytes (k : nat) (n : Z) : list byte :=
  match k with
  | O => []
  | S k' => byte_of_Z ((n / 256 ^ Z.of_nat k') mod 256) :: be_bytes k' n
  end.

(** The five ways a head (type byte and extension) spells a length or
    value [n] for a major type. *)
Inductive width := Inline | Ext8 | Ext16 | Ext32 | Ext64.

Definition head (major : Z) (w : width) (n : Z) : list byte :=
  match w with
  | Inline => [byte_of_Z (major + n)]
  | Ext8 => byte_of_Z (major + CborTypes.SIZE_8) :: be_bytes 1 n
  | Ext16 => byte_of_Z (major + CborTypes.SIZE_16) :: be_bytes 2 n
  | Ext32 => byte_of_Z (major + CborTypes.SIZE_32) :: be_bytes 4 n
  | Ext64 => byte_of_Z (major + CborTypes.SIZE_64) :: be_bytes 8 n
  end.

(** [n] can be spelled with width [w] (and, for the 8-byte form, is read
    back as a native number). *)
Definition fits (w : width) (n : Z) : Prop :=
  match w with
  | Inline => 0 <= n < 24
  | Ext8 => 0 <= n < 2 ^ 8
  | Ext16 => 0 <= n < 2 ^ 16
  | Ext32 => 0 <= n < 2 ^ 32
  | Ext64 => 0 <= n <= MAX_SAFE_INTEGER
  end.

(** A major type: a multiple of 32 below 256. *)
Definition is_major (major : Z) : Prop :=
  exists k, 0 <= k < 8 /\ major = 32 * k.

(** A definite-length chunk of a byte string: the width of its head and
    its payload. *)
Definition chunk := (width * list byte)%type.

Definition payload (c : chunk) : list byte := snd c.

Definition chunk_fits (c : chunk) : Prop :=
  fits (fst c) (Z.of_nat (List.length (snd c))).

Definition chunk_bytes (c : chunk) : list byte :=
  head CborTypes.TYPE_BYTES (fst c) (Z.of_nat (List.length (snd c))) ++ snd c.

(** An indefinite-length byte string: the stream marker, the chunks, and
    the stop marker. *)
Definition indefinite_bytes (chunks : list chunk) : list byte :=
  x5f :: List.concat (map chunk_bytes chunks) ++ [xff].

(** The decoder after its offset moved by [k] and its accumulator became
    [acc]. *)
Definition moved (d : Decoder) (k : Z) (acc : list byte) : Decoder :=
  {| buffer := buffer d; start := start d + k; _limit := _limit d;
     tagHandlers := tagHandlers d;
     _byteStreamBuffer := acc;
     subDecoder := subDecoder d |}.

(** The number of bytes of an encoding, and of a head of each width. *)
Definition encoded_length (bs : list byte) : Z := Z.of_nat (List.length bs).

Definition head_length (w : width) : Z :=
  match w with Inline => 1 | Ext8 => 2 | Ext16 => 3 | Ext32 => 5 | Ext64 => 9 end.

(** *** Map entries *)

(** The entries that repeated calls of the entry decoder [fn] read from a
    decoder on, none of them preceded by a stop marker, and the decoder
    after the last one. *)
Inductive entries_run (fn : M (value * value)) :
    Decoder -> list (value * value) -> Decoder -> Prop :=
| entries_nil : forall d, entries_run fn d [] d
| entries_cons : forall d k v d1 rest d2,
    tryDecodeBreak d = Ok false d ->
    fn d = Ok (k, v) d1 ->
    entries_run fn d1 rest d2 ->
    entries_run fn d ((k, v) :: rest) d2.

(** The declared length lets the loop run for [n] entries, and ends it
    after them: the count is reached, or a stop marker follows. *)
Definition loop_continues (length : magnitude) (n : Z) : Prop :=
  forall i, 0 <= i < n -> counter_neq i length = true.

Definition loop_ends (length : magnitude) (n : Z) (d d' : Decoder) : Prop :=
  (counter_neq n length = false /\ d' = d)
  \/ (counter_neq n length = true /\ tryDecodeBreak d = Ok true d').

(** The property name of an entry's key. *)
Definition key_of (e : value * value) (key : string) : Prop :=
  ToPropertyKey (fst e) = Some key.

(** A property name that is stored like any other: not one of the two
    names that reach [Object.prototype] instead. *)
Definition ordinary_key (key : string) : Prop :=
  key <> "__proto__"%string /\ key <> "hasOwnProperty"%string.

(** An object that still behaves as a dictionary: it inherits from
    [Object.prototype] and does not shadow [hasOwnProperty]. *)
Definition plain (m : object) : Prop :=
  proto m = None /\ ~ In "hasOwnProperty"%string (own_keys m).

(** The entry decoder of [decodeMap]. *)
Definition decode_entry (fuel : nat) : M (value * value) :=
  k <- decodeObject fuel ;; v <- decodeObject fuel ;; ret (k, v).

(** *** Reads on a decoder *)

(** The reading methods of the decoder that take no argument.
    [drainAsString], which takes an encoding, is added to them by [reader]
    below; it never raises [NeedMoreData]. *)
Inductive method :=
| m_peek
| m_skip
| m_drain
| m_decodeString
| m_decodeBytes
| m_decodeNumber
| m_decodeInt
| m_decodeFloat
| m_decodeArrayLength
| m_decodeMapLength
| m_decodeArray
| m_decodeMap
| m_tryDecodeBreak
| m_tryDecodeNull
| m_decodeObject
| m_decodeCbor.

(** A call of a method, its result dropped. *)
Definition call (fuel : nat) (m : method) : M unit :=
  match m with
  | m_peek => peek ;; ret tt
  | m_skip => skip fuel
  | m_drain => drain ;; ret tt
  | m_decodeString => decodeString fuel ;; ret tt
  | m_decodeBytes => decodeBytes fuel ;; ret tt
  | m_decodeNumber => decodeNumber fuel ;; ret tt
  | m_decodeInt => decodeInt fuel ;; ret tt
  | m_decodeFloat => decodeFloat ;; ret tt
  | m_decodeArrayLength => decodeArrayLength ;; ret tt
  | m_decodeMapLength => decodeMapLength ;; ret tt
  | m_decodeArray => decodeArray fuel ;; ret tt
  | m_decodeMap => decodeMap fuel ;; ret tt
  | m_tryDecodeBreak => tryDecodeBreak ;; ret tt
  | m_tryDecodeNull => tryDecodeNull ;; ret tt
  | m_decodeObject => decodeObject fuel ;; ret tt
  | m_decodeCbor => decodeCbor fuel ;; ret tt
  end.

(** A sequence of calls, one after the other, on the same decoder. *)
Fixpoint calls (fuel : nat) (ms : list method) : M unit :=
  match ms with
  | [] => ret tt
  | m :: ms' => call fuel m ;; calls fuel ms'
  end.

(** A computation that, run on a decoder without limit, leaves it without
    limit and never raises [NeedMoreData]. *)
Definition quiet {A} (m : M A) : Prop :=
  forall d, _limit d = None ->
    match m d with
    | Ok _ d' => _limit d' = None
    | Throw e _ => e <> NeedMoreData
    | OutOfFuel | Unmodelled => True
    end.

(** Unfolding of the monad's operations and of the cursor primitives. *)
Ltac run_M :=
  cbv beta delta [bind ret gets modify throw _ensureAvailable _consume
                  read_or_range read_float_or_range] iota.

(** *** Strings of any major type *)

(** A definite-length string: a head of major type [major] that spells the
    length of the payload, and the payload. *)
Definition definite (major : Z) (w : width) (c : list byte) : list byte :=
  head major w (encoded_length c) ++ c.

(** A segment of an indefinite-length string: the major type its head
    announces, and the chunk (head width and payload). *)
Definition segment := (Z * chunk)%type.

Definition segment_payload (s : segment) : list byte := payload (snd s).

Definition segment_fits (s : segment) : Prop :=
  is_major (fst s) /\ chunk_fits (snd s).

Definition segment_bytes (s : segment) : list byte :=
  definite (fst s) (fst (snd s)) (snd (snd s)).

Definition segments_bytes (segments : list segment) : list byte :=
  List.concat (map segment_bytes segments).

Definition segments_payload (segments : list segment) : list byte :=
  List.concat (map segment_payload segments).

(** The streaming loop of [_decodeByteStringsInternal]. *)
Definition segments_loop (fuel fuel' : nat) : M unit :=
  while_not fuel tryDecodeBreak (t <- peek ;; _decodeByteStringsInternal fuel' t).

(** A string at the cursor, definite or indefinite, as
    [_decodeByteStringsInternal] gathers it. *)
Inductive string_encoding :=
| Definite (w : width) (c : list byte)
| Indefinite (segments : list segment).

Definition string_fits (e : string_encoding) : Prop :=
  match e with
  | Definite w c => fits w (encoded_length c)
  | Indefinite segments => Forall segment_fits segments
  end.

Definition string_bytes (major : Z) (e : string_encoding) : list byte :=
  match e with
  | Definite w c => definite major w c
  | Indefinite segments =>
      byte_of_Z (major + CborTypes.SIZE_STREAM) :: segments_bytes segments ++ [xff]
  end.

Definition string_payload (e : string_encoding) : list byte :=
  match e with
  | Definite _ c => c
  | Indefinite segments => segments_payload segments
  end.

Definition string_steps (e : string_encoding) : nat :=
  match e with
  | Definite _ _ => 0
  | Indefinite segments => S (List.length segments)
  end.

(** *** Integers *)

(** [n] can be spelled with width [w]; the 8-byte form takes every 64-bit
    value. *)
Definition fits_wide (w : width) (n : Z) : Prop :=
  match w with
  | Ext64 => 0 <= n < 2 ^ 64
  | _ => fits w n
  end.

(** The value an integer is decoded to: a native number from [-2^53] to
    [2^53 - 1], a [BigNumber] outside. *)
Definition int_value (z : Z) : value :=
  if (- 2 ^ 53 <=? z) && (z <=? 2 ^ 53 - 1) then VNumber (Int z) else VBig z.

(** The head that spells the integer [z] with width [w]: an unsigned
    integer for [0 <= z], a negative integer of magnitude [-1 - z]
    otherwise. *)
Definition int_head (w : width) (z : Z) : list byte :=
  if 0 <=? z then head CborTypes.TYPE_POSINT w z
  else head CborTypes.TYPE_NEGINT w (-1 - z).

Definition int_fits (w : width) (z : Z) : Prop :=
  fits_wide w (if 0 <=? z then z else -1 - z).

(** *** Array elements *)

(** The elements that repeated calls of the element decoder [fn] read from
    a decoder on, none of them preceded by a stop marker, and the decoder
    after the last one. *)
Inductive items_run {A} (fn : M A) : Decoder -> list A -> Decoder -> Prop :=
| items_nil : forall d, items_run fn d [] d
| items_cons : forall d v d1 rest d2,
    tryDecodeBreak d = Ok false d ->
    fn d = Ok v d1 ->
    items_run fn d1 rest d2 ->
    items_run fn d (v :: rest) d2.

(** The callback of [buildArray]. *)
Definition push (fn : M value) (a : list value) : M (list value) :=
  v <- fn ;; ret (a ++ [v]).

(** *** Typed and generic decoding *)

(** Whenever the typed decoder [m] returns, the generic decoder [g] returns
    the same value (seen through [f]) and leaves the same decoder. *)
Definition agrees {A} (f : A -> value) (m : M A) (g : M value) : Prop :=
  forall d, match m d with
            | Ok a d' => g d = Ok (f a) d'
            | _ => True
            end.

(** The type bytes of the three float widths. *)
Definition is_float_byte (t : tbyte) : bool :=
  tb_eq t CborTypes.TYPE_FLOAT_16 || tb_eq t CborTypes.TYPE_FLOAT_32
  || tb_eq t CborTypes.TYPE_FLOAT_64.

(** *** Tags *)

(** No handler is registered for the tag [tag]. *)
Definition unhandled (d : Decoder) (tag : magnitude) : Prop :=
  match tagHandlers d with
  | None => True
  | Some registered => registered tag = false
  end.

(** The magnitude a head that spells [n] is read back as. *)
Definition magnitude_of (n : Z) : magnitude :=
  if n <=? 2 ^ 53 - 1 then MNum n else MBig n.

(** What [decodeInt] returns on the head of an integer, in terms of the
    magnitude read. *)
Definition int_result (z : Z) : value :=
  if 0 <=? z then value_of_magnitude (magnitude_of z)
  else negint_of_magnitude (magnitude_of (-1 - z)).

(** *** Readers of one head *)

(** A computation that always answers, leaves the decoder as it was when it
    fails, and only advances the offset when it returns. *)
Definition all_or_nothing {A} (m : M A) : Prop :=
  forall d,
    match m d with
    | Ok _ d' => exists k, 0 <= k /\ d' = set_start (start d + k) d
    | Throw _ d' => d' = d
    | OutOfFuel | Unmodelled => False
    end.

(** *** Items of the wire format *)

(** An item as it is written on the wire, with the choices the format
    leaves to the writer: the width of every head, definite or indefinite
    lengths ([None] is the indefinite length), the segments of a string. *)
Inductive item :=
| INull
| IUndefined
| IBool (b : bool)
| IInt (w : width) (z : Z)
| IBytes (e : string_encoding)
| IText (e : string_encoding)
| IArray (len : option width) (elems : list item)
| IMap (len : option width) (entries : list (item * item))
| ITag (w : width) (n : Z) (i : item).

(** The head of a container of [n] entries, and what closes it. *)
Definition container_head (major : Z) (len : option width) (n : nat) : list byte :=
  match len with
  | Some w => head major w (Z.of_nat n)
  | None => [byte_of_Z (major + CborTypes.SIZE_STREAM)]
  end.

Definition container_end (len : option width) : list byte :=
  match len with
  | Some _ => []
  | None => [xff]
  end.

Definition count_fits (len : option width) (n : nat) : Prop :=
  match len with
  | Some w => fits w (Z.of_nat n)
  | None => True
  end.

(** The bytes of an item. *)
Fixpoint encode (i : item) : list byte :=
  match i with
  | INull => [xf6]
  | IUndefined => [xf7]
  | IBool true => [xf5]
  | IBool false => [xf4]
  | IInt w z => int_head w z
  | IBytes e => string_bytes CborTypes.TYPE_BYTES e
  | IText e => string_bytes CborTypes.TYPE_UTF e
  | IArray len elems =>
      container_head CborTypes.TYPE_ARRAY len (List.length elems)
      ++ List.concat (map encode elems) ++ container_end len
  | IMap len entries =>
      container_head CborTypes.TYPE_MAP len (List.length entries)
      ++ List.concat (map (fun kv : item * item => let (k, v) := kv in encode k ++ encode v) entries)
      ++ container_end len
  | ITag w n i => head CborTypes.TYPE_TAG w n ++ encode i
  end.

(** The property name of a key (the empty name stands in for a key whose
    conversion the model does not describe). *)
Definition property_name (k : value) : string :=
  match ToPropertyKey k with
  | Some key => key
  | None => EmptyString
  end.

(** The value an item stands for. *)
Fixpoint value_of (i : item) : value :=
  match i with
  | INull | IUndefined => VNull
  | IBool b => VBool b
  | IInt _ z => int_value z
  | IBytes e => VBytes (string_payload e)
  | IText e => VText (string_payload e)
  | IArray _ elems => VArray (map value_of elems)
  | IMap _ entries =>
      VMap (map (fun kv : item * item => let (k, v) := kv in (property_name (value_of k), value_of v))
                entries) None
  | ITag _ _ i => value_of i
  end.

Definition entry_name (kv : item * item) : string := property_name (value_of (fst kv)).

(** The recursion depth and loop lengths the decoding of an item needs. *)
Fixpoint size (i : item) : nat :=
  match i with
  | INull | IUndefined | IBool _ | IInt _ _ => 1
  | IBytes e | IText e => 2 + string_steps e
  | IArray _ elems => S (list_sum (map size elems))
  | IMap _ entries =>
      S (list_sum (map (fun kv : item * item => let (k, v) := kv in size k + size v) entries))
  | ITag _ _ i => S (size i)
  end%nat.

(** The items the theorem below speaks of, for a decoder with the tag
    handlers [h]: every head can hold what it spells; a tag is none of the
    built-in ones and has no handler; the keys of a map have property
    names the model describes, pairwise distinct and stored like any
    other. *)
Inductive well_formed (h : option (magnitude -> bool)) : item -> Prop :=
| wf_null : well_formed h INull
| wf_undefined : well_formed h IUndefined
| wf_bool : forall b, well_formed h (IBool b)
| wf_int : forall w z, int_fits w z -> well_formed h (IInt w z)
| wf_bytes : forall e, string_fits e -> well_formed h (IBytes e)
| wf_text : forall e, string_fits e -> well_formed h (IText e)
| wf_array : forall len elems,
    count_fits len (List.length elems) ->
    Forall (well_formed h) elems ->
    well_formed h (IArray len elems)
| wf_map : forall len entries,
    count_fits len (List.length entries) ->
    Forall (fun kv => well_formed h (fst kv) /\ well_formed h (snd kv)) entries ->
    Forall (fun kv => ToPropertyKey (value_of (fst kv)) <> None
                      /\ ordinary_key (entry_name kv)) entries ->
    NoDup (map entry_name entries) ->
    well_formed h (IMap len entries)
| wf_tag : forall w n i,
    fits_wide w n ->
    n <> CborTypes.TAG_POSBIGINT -> n <> CborTypes.TAG_NEGBIGINT ->
    n <> CborTypes.TAG_DECIMAL ->
    match h with
    | None => True
    | Some registered => registered (magnitude_of n) = false
    end ->
    well_formed h i ->
    well_formed h (ITag w n i).

(** A decoder between two items: the offset is a position, the accumulator
    is empty, and the tag handlers are [h]. *)
Definition ready (h : option (magnitude -> bool)) (d : Decoder) : Prop :=
  0 <= start d /\ _byteStreamBuffer d = [] /\ tagHandlers d = h.

(** *** Results without [undefined] *)

(** A magnitude that was read inside the buffer: a number (the indefinite
    marker [-1] or a natural number) or a [BigNumber]. *)
Definition read_inside (m : magnitude) : Prop :=
  match m with
  | MNum z => -1 <= z
  | MBig _ => True
  | MUndefined => False
  end.

(** [undefined] occurs in a value, at any depth. *)
Fixpoint has_undefined (v : value) : bool :=
  match v with
  | VUndefined => true
  | VArray elems => existsb has_undefined elems
  | VMap props proto =>
      existsb (fun p : string * value => has_undefined (snd p)) props
      || match proto with
         | Some p => has_undefined p
         | None => false
         end
  | _ => false
  end.

(** *** Two views of the same bytes *)

(** A short view and a long view of one stream of bytes: each is a buffer
    with a limit, and they are decoded with the same tag handlers. *)
Record views := mkViews {
  short_buffer : list byte;
  short_limit : Z;
  long_buffer : list byte;
  long_limit : Z;
  handlers : option (magnitude -> bool)
}.

(** The limits lie inside the buffers, the short one is not beyond the
    long one, and below it the two buffers hold the same bytes. *)
Definition consistent (V : views) : Prop :=
  short_limit V <= long_limit V
  /\ short_limit V <= Z.of_nat (List.length (short_buffer V))
  /\ long_limit V <= Z.of_nat (List.length (long_buffer V))
  /\ forall i, 0 <= i < short_limit V ->
               buf_get (short_buffer V) i = buf_get (long_buffer V) i.

(** The decoder [t] is on the short view: its offset is inside the
    window. *)
Definition on_short (V : views) (t : Decoder) : Prop :=
  buffer t = short_buffer V /\ _limit t = Some (short_limit V)
  /\ tagHandlers t = handlers V
  /\ 0 <= start t <= short_limit V.

(** The decoder [d] on the long view and the decoder [t] on the short view
    are at the same place: same offset, at least [lo] and with [k] bytes
    left in the short window, and same accumulator. *)
Definition same_place (V : views) (lo k : Z) (d t : Decoder) : Prop :=
  buffer t = short_buffer V /\ buffer d = long_buffer V
  /\ _limit t = Some (short_limit V) /\ _limit d = Some (long_limit V)
  /\ tagHandlers t = handlers V /\ tagHandlers d = handlers V
  /\ start d = start t
  /\ _byteStreamBuffer d = _byteStreamBuffer t
  /\ lo <= start t /\ start t + k <= short_limit V.

(** The outcome [ot] on the short view follows the outcome [od] on the long
    view: it is [NeedMoreData], or it is the same outcome (the same result
    with [Q], the same exception, the same exhaustion of fuel).  Besides,
    the short view is never left, the offset does not fall below [lo], a
    [RangeError] is never raised, and fuel is exhausted only under [F]. *)
Definition follows {A} (V : views) (lo : Z) (Q : A -> Decoder -> Decoder -> Prop)
    (F : Prop) (od ot : outcome A) : Prop :=
  match ot with
  | Ok a t' => exists d', od = Ok a d' /\ Q a d' t'
  | Throw e t' =>
      e <> RangeError /\ on_short V t' /\ lo <= start t'
      /\ (e = NeedMoreData \/ exists d', od = Throw e d')
  | OutOfFuel => F /\ od = OutOfFuel
  | Unmodelled => od = Unmodelled
  end.

(** The computation [m] run on the short view follows its run on the long
    view, from decoders related by [P] on. *)
Definition tracks {A} (V : views) (lo : Z) (P : Decoder -> Decoder -> Prop) (m : M A)
    (Q : A -> Decoder -> Decoder -> Prop) (F : Prop) : Prop :=
  forall d t, P d t -> follows V lo Q F (m d) (m t).

(** *** A decoder inside its window *)

(** The window of the decoder [t] ends at [l], inside the buffer, and the
    offset is inside the window. *)
Definition in_window (t : Decoder) (l : Z) : Prop :=
  _limit t = Some l /\ 0 <= start t <= l /\ l <= Z.of_nat (List.length (buffer t)).

(** From [t] to [t'] the buffer, the limit and the tag handlers are the
    same, and the offset has not moved backwards nor beyond the limit
    [l]. *)
Definition stays (t t' : Decoder) (l : Z) : Prop :=
  buffer t' = buffer t /\ _limit t' = Some l /\ tagHandlers t' = tagHandlers t
  /\ start t <= start t' <= l.

(** The short and the long view are both the window of [t]. *)
Definition own_view (t : Decoder) (l : Z) : views :=
  {| short_buffer := buffer t; short_limit := l;
     long_buffer := buffer t; long_limit := l;
     handlers := tagHandlers t |}.

(** The views of a buffer and of its first [k] bytes, both read from the
    offset [s] on. *)
Definition prefix_view (buf : list byte) (k : nat) (h : option (magnitude -> bool))
    : views :=
  {| short_buffer := firstn k buf; short_limit := Z.of_nat (List.length (firstn k buf));
     long_buffer := buf; long_limit := Z.of_nat (List.length buf);
     handlers := h |}.

(** A computation that, run inside a window, stays inside it and never
    raises [RangeError].  (A limit of 0 counts as no limit in [drain]; the
    constructor sets such a limit only for an empty buffer.) *)
Definition safe {A} (m : M A) : Prop :=
  forall t l,
    in_window t l -> (l = 0 -> buffer t = []) ->
    match m t with
    | Ok _ t' => stays t t' l
    | Throw e t' => stays t t' l /\ e <> RangeError
    | OutOfFuel | Unmodelled => True
    end.

(** *** Without a limit *)

(** The decoder has no limit and its offset is at or behind the end of the
    buffer: what it reads there is [undefined]. *)
Definition beyond (d : Decoder) : Prop :=
  _limit d = None /\ Z.of_nat (List.length (buffer d)) <= start d.

(** ** Draining as a string *)

(** The encodings of [buf.toString] that are written out here: ['hex'],
    two characters for a byte, and ['latin1'], one character for a byte.
    Any other encoding is [enc_other], for which the model gives no
    string. *)
Inductive encoding := enc_hex | enc_latin1 | enc_other.

(** The bytes that [buf.toString(encoding, start, end)] converts: Node
    takes a [start] below 0 for 0 and an [end] that is [undefined] or
    beyond the buffer for its length, and converts nothing when [start] is
    at or behind the end of the buffer or [end] is not behind [start]. *)
Definition toString_range (buf : list byte) (start_ : Z) (end_ : option Z) : list byte :=
  let len := Z.of_nat (List.length buf) in
  let s := if start_ <=? 0 then 0 else start_ in
  let e := match end_ with
           | None => len
           | Some e => if e >? len then len else e
           end in
  if (len <=? s) || (e <=? s) then []
  else firstn (Z.to_nat (e - s)) (skipn (Z.to_nat s) buf).

Definition Buffer_toString (enc : encoding) (buf : list byte) (start_ : Z)
    (end_ : option Z) : option string :=
  match enc with
  | enc_hex => Some (Buffer_toString_hex (toString_range buf start_ end_))
  | enc_latin1 =>
      Some (string_of_list_ascii (map ascii_of_byte (toString_range buf start_ end_)))
  | enc_other => None
  end.

(** [drainAsString(encoding)]: the offset advances by the length of the
    string. *)
Definition drainAsString (enc : encoding) : M string :=
  fun d =>
    match Buffer_toString enc (buffer d) (start d) (_limit d) with
    | Some remain =>
        Ok remain (set_start (start d + Z.of_nat (String.length remain)) d)
    | None => Unmodelled
    end.

(** *** More fuel *)

(** The computation [m'] answers as [m] does wherever [m] answers: it is
    [m] with more fuel. *)
Definition more_fuel {A} (m m' : M A) : Prop :=
  forall d, m d = OutOfFuel \/ m' d = m d.

(** The bytes of an array of indefinite length with complete elements, or
    of a byte or text string of indefinite length with complete segments,
    and no stop marker behind them. *)
Definition unterminated (h : option (magnitude -> bool)) (bytes : list byte) : Prop :=
  (exists elems,
     Forall (well_formed h) elems
     /\ bytes = x9f :: List.concat (map encode elems))
  \/ (exists tb segments,
        (tb = x5f \/ tb = x7f)
        /\ Forall segment_fits segments
        /\ bytes = tb :: segments_bytes segments).

(** *** Every reading method *)

(** The reading methods of the class that take no callback: those of
    [method], and [drainAsString] with its encoding. *)
Inductive reader :=
| r_method (m : method)
| r_drainAsString (enc : encoding).

(** A call of a reading method, its result dropped. *)
Definition read (fuel : nat) (r : reader) : M unit :=
  match r with
  | r_method m => call fuel m
  | r_drainAsString enc => drainAsString enc ;; ret tt
  end.

(** Calls one after the other. *)
Fixpoint reads (fuel : nat) (rs : list reader) : M unit :=
  match rs with
  | [] => ret tt
  | r :: rs' => read fuel r ;; reads fuel rs'
  end.

(** The call is not [drainAsString] with an encoding other than
    ['latin1']. *)
Definition byte_for_character (r : reader) : Prop :=
  match r with
  | r_method _ => True
  | r_drainAsString enc => enc = enc_latin1
  end.

(** * [Util.convertBase]

    [convertBase(str, baseIn, baseOut)] rewrites a numeral from one base to
    another, digit by digit, in an array of numbers that holds the digits of
    the result with the least significant first.

    A JavaScript string is a [string] here, one character for a code unit
    (code units above 255 are not represented), and the two bases are
    integers.  The numbers in the array are integers; the products, sums and
    comparisons of the loop are exact on them as long as they stay below
    [2^53], which they do for bases up to 16.  [x / baseOut | 0] is the
    quotient truncated towards zero and wrapped to 32 bits, [x % baseOut]
    the remainder with the sign of [x]; for [baseOut = 0] JavaScript's
    remainder is [NaN] and the model gives no answer.  The two loops that
    can go on take a [fuel] bound; [None] is a run without an answer. *)
Module Util.

Definition ALPHABET : string := "0123456789abcdef".

(** [ALPHABET.indexOf(c)] for a character [c]: its index or -1. *)
Fixpoint indexOf_from (s : string) (c : ascii) (i : Z) : Z :=
  match s with
  | EmptyString => -1
  | String c' s' => if Ascii.eqb c' c then i else indexOf_from s' c (i + 1)
  end.

Definition ALPHABET_indexOf (c : ascii) : Z := indexOf_from ALPHABET c 0.

(** [ALPHABET[n]] as it is appended to a string: the character at [n], or
    the text of [undefined] when there is none. *)
Definition ALPHABET_at (n : Z) : string :=
  if n <? 0 then "undefined"
  else match String.get (Z.to_nat n) ALPHABET with
       | Some c => String c EmptyString
       | None => "undefined"
       end.

(** [x | 0] for an integer [x]. *)
Definition int32 (x : Z) : Z := (x + 2 ^ 31) mod 2 ^ 32 - 2 ^ 31.

(** [for(arrL = arr.length; arrL--; arr[arrL] *= baseIn) {}]: every cell is
    multiplied. *)
Definition scale (baseIn : Z) (arr : list Z) : list Z :=
  map (fun x => x * baseIn) arr.

(** [arr[j = 0] += n]. *)
Definition add_first (n : Z) (arr : list Z) : option (list Z) :=
  match arr with
  | x :: rest => Some (x + n :: rest)
  | [] => None
  end.

(** The loop [for(; j < arr.length; j++)] from the index [j] on, [cells]
    being the cells of the array from [j] to its end (the loop does not
    come back to the cells before [j]).  A cell above [baseOut - 1] keeps
    its remainder and hands its quotient to the next cell, which is created
    with 0 when the array ends there. *)
Fixpoint carry (fuel : nat) (baseOut : Z) (cells : list Z) : option (list Z) :=
  match fuel with
  | O => None
  | S fuel' =>
      match cells with
      | [] => Some []
      | x :: rest =>
          if x >? baseOut - 1 then
            if baseOut =? 0 then None
            else
              let next := match rest with
                          | [] => 0
                          | y :: _ => y
                          end in
              match carry fuel' baseOut
                      (next + int32 (Z.quot x baseOut) :: List.tl rest) with
              | Some cells' => Some (Z.rem x baseOut :: cells')
              | None => None
              end
          else
            match carry fuel' baseOut rest with
            | Some cells' => Some (x :: cells')
            | None => None
            end
      end
  end.

(** The loop [for(; i < len;)] over the characters of [str]. *)
Fixpoint digits_loop (fuel : nat) (baseIn baseOut : Z) (str : string)
    (arr : list Z) : option (list Z) :=
  match str with
  | EmptyString => Some arr
  | String c str' =>
      match add_first (ALPHABET_indexOf c) (scale baseIn arr) with
      | Some arr' =>
          match carry fuel baseOut arr' with
          | Some arr'' => digits_loop fuel baseIn baseOut str' arr''
          | None => None
          end
      | None => None
      end
  end.

(** [for(i = arr.length - 1; i >= 0; --i) outstr += ALPHABET[arr[i]]]. *)
Fixpoint digits_string (arr : list Z) : string :=
  match arr with
  | [] => EmptyString
  | x :: rest => (digits_string rest ++ ALPHABET_at x)%string
  end.

(** ['0'.repeat(n)]. *)
Fixpoint zeros (n : nat) : string :=
  match n with
  | O => EmptyString
  | S n' => String "0" (zeros n')
  end.

(** The [switch(true)] on the length of a hexadecimal result. *)
Definition pad_hex (outstr : string) : string :=
  let n := String.length outstr in
  if (n <=? 2)%nat then (zeros (2 - n) ++ outstr)%string
  else if (n <=? 4)%nat then (zeros (4 - n) ++ outstr)%string
  else if (n <=? 8)%nat then (zeros (8 - n) ++ outstr)%string
  else if (n <=? 16)%nat then (zeros (16 - n) ++ outstr)%string
  else ((if Nat.odd n then "0" else EmptyString) ++ outstr)%string.

(** [if(str[0] === '-') str = str.slice(1)]. *)
Definition unsigned (str : string) : string :=
  match str with
  | String "-" rest => rest
  | _ => str
  end.

Definition convertBase (fuel : nat) (str : string) (baseIn baseOut : Z)
    : option string :=
  match digits_loop fuel baseIn baseOut (unsigned str) [0] with
  | Some arr =>
      let outstr := digits_string arr in
      Some (if baseOut =? 16 then pad_hex outstr else outstr)
  | None => None
  end.

End Util.

(** ** Numerals *)

(** The number that the characters of [s] spell in base [b], after the
    digits [acc]; a character is worth its index in the alphabet. *)
Fixpoint numeral_value (b acc : Z) (s : string) : Z :=
  match s with
  | EmptyString => acc
  | String c s' => numeral_value b (acc * b + Util.ALPHABET_indexOf c) s'
  end.

(** Every character of [s] satisfies [P]. *)
Fixpoint all_chars (P : ascii -> Prop) (s : string) : Prop :=
  match s with
  | EmptyString => True
  | String c s' => P c /\ all_chars P s'
  end.

(** [c] is a digit of the alphabet, below [b]. *)
Definition digit_below (b : Z) (c : ascii) : Prop :=
  0 <= Util.ALPHABET_indexOf c < b.

(** A numeral without needless zeros in front: ["0"], or one that starts
    with another digit. *)
Definition canonical (s : string) : Prop :=
  match s with
  | EmptyString => False
  | String c s' => c = "0"%char -> s' = EmptyString
  end.

(** The number that the cells of the array hold in base [b], the least
    significant first. *)
Fixpoint cells_value (b : Z) (cells : list Z) : Z :=
  match cells with
  | [] => 0
  | x :: rest => x + b * cells_value b rest
  end.

(** The lengths that [convertBase] gives a hexadecimal numeral: 2, 4, 8 or
    16 characters, or an even number above 16. *)
Definition hex_length (n : nat) : Prop :=
  n = 2%nat \/ n = 4%nat \/ n = 8%nat \/ n = 16%nat
  \/ ((16 < n)%nat /\ Nat.even n = true).

(** *** The carry loop *)

(** The first cell is at most [2 * C] and the others at most [C], none
    negative: what the carry loop meets and keeps. *)
Definition carry_bounded (C : Z) (cells : list Z) : Prop :=
  match cells with
  | [] => True
  | x :: rest => 0 <= x <= 2 * C /\ Forall (fun y => 0 <= y <= C) rest
  end.

Fixpoint cells_sum (cells : list Z) : Z :=
  match cells with
  | [] => 0
  | x :: rest => x + cells_sum rest
  end.


(** The digits of a number in base [b], the least significant first and
    the most significant not 0, unless the number is 0 in one cell. *)
Definition good_cells (b : Z) (arr : list Z) : Prop :=
  Forall (fun x => 0 <= x < b) arr /\ (arr = [0] \/ 0 < List.last arr 0).

(** [c] is not a character of the alphabet. *)
Definition foreign (c : ascii) : Prop := Util.ALPHABET_indexOf c = -1.

(** * [Util.parseHostPort]

    The port is tested with [isNaN] and converted with [parseInt], two
    functions of the language that read the text of a number in different
    ways.  They are written out here for the texts on which what they do is
    plain: a text of decimal digits only (the empty text among them) is a
    number for [isNaN], the empty text being 0, and [parseInt] gives its
    value, [NaN] for the empty text; a text that holds a printable character
    which occurs in no numeric literal is not a number.  For any other text
    the model gives no answer. *)
Module HostPort.

(** What [parseHostPort] does: it returns [{host, port}], or throws
    [DaxClientError('Invalid hostport:' + hostport, IllegalArgument)]. *)
Inductive answer :=
| Parsed (host : string) (port : number)
| Invalid (hostport : string)
| NotModelled.

Definition is_decimal_digit (c : ascii) : bool :=
  let n := Z.of_nat (nat_of_ascii c) in (48 <=? n) && (n <=? 57).

Fixpoint all_decimal (s : string) : bool :=
  match s with
  | EmptyString => true
  | String c s' => is_decimal_digit c && all_decimal s'
  end.

(** The value of a text of decimal digits, after the digits [acc]. *)
Fixpoint decimal_value (acc : Z) (s : string) : Z :=
  match s with
  | EmptyString => acc
  | String c s' => decimal_value (acc * 10 + (Z.of_nat (nat_of_ascii c) - 48)) s'
  end.

(** The characters that occur in the text of some number: digits, signs,
    the point, the exponent mark, the letters of [Infinity], and the
    prefixes and digits of hexadecimal, octal and binary numerals. *)
Definition numeric_chars : string := "0123456789+-.eEInfinityxXoObBaAcCdDfF".

Fixpoint occurs (c : ascii) (s : string) : bool :=
  match s with
  | EmptyString => false
  | String c' s' => Ascii.eqb c' c || occurs c s'
  end.

(** A printable character (white space is not one) that occurs in the text
    of no number. *)
Definition never_numeric (c : ascii) : bool :=
  let n := Z.of_nat (nat_of_ascii c) in
  (33 <=? n) && (n <=? 126) && negb (occurs c numeric_chars).

Fixpoint has_never_numeric (s : string) : bool :=
  match s with
  | EmptyString => false
  | String c s' => never_numeric c || has_never_numeric s'
  end.

(** [isNaN(port)] for a text. *)
Definition isNaN (port : string) : option bool :=
  if all_decimal port then Some false
  else if has_never_numeric port then Some true
  else None.

(** [parseInt(port)] for a text of decimal digits; a value from [2^53] on
    is rounded in a way that is left to the implementation. *)
Definition parseInt (port : string) : option number :=
  if all_decimal port then
    match port with
    | EmptyString => Some (Flt nan)
    | _ => if decimal_value 0 port <? 2 ^ 53 then Some (Int (decimal_value 0 port))
           else None
    end
  else None.

(** [s.substr(0, n)] and [s.substr(n)] for [0 <= n]. *)
Definition substr_to (s : string) (n : Z) : string :=
  String.substring 0 (Z.to_nat n) s.

Definition substr_from (s : string) (n : Z) : string :=
  String.substring (Z.to_nat n) (String.length s - Z.to_nat n) s.

Definition parseHostPort (hostport : string) : answer :=
  let colon := Util.indexOf_from hostport ":" 0 in
  if colon <=? 0 then Invalid hostport
  else
    let host := substr_to hostport colon in
    let port := substr_from hostport (colon + 1) in
    match isNaN port with
    | Some true => Invalid hostport
    | Some false =>
        match parseInt port with
        | Some n => Parsed host n
        | None => NotModelled
        end
    | None => NotModelled
    end.

End HostPort.

(** [c] does not occur in [s]. *)
Fixpoint without (c : ascii) (s : string) : Prop :=
  match s with
  | EmptyString => True
  | String c' s' => c' <> c /\ without c s'
  end.

(** * Properties *)

(** ** Rounding to binary64 *)

Lemma round53_pos_small : forall a, 0 <= a < 2 ^ 53 -> round53_pos a = a.
Proof.
  intros a Ha. unfold round53_pos.
  destruct (Z.eq_dec a 0) as [->|Hne]; [reflexivity|].
  assert (Z.log2 a < 53) by (apply Z.log2_lt_pow2; lia).
  destruct (Z.leb_spec (Z.log2 a + 1) 53); [reflexivity | lia].
Qed.

Lemma round53_pos_large : forall a,
  2 ^ 53 <= a -> 2 ^ 53 <= round53_pos a <= 2 * a.
Proof.
  intros a Ha. unfold round53_pos.
  assert (Hpos : 0 < a) by (pose proof (Z.pow_pos_nonneg 2 53); lia).
  assert (HL : 53 <= Z.log2 a) by (apply Z.log2_le_pow2; lia).
  destruct (Z.log2_spec a Hpos) as [Hlo Hhi].
  destruct (Z.leb_spec (Z.log2 a + 1) 53); [lia|].
  set (sh := Z.log2 a + 1 - 53) in *.
  assert (Hsh : 1 <= sh) by (unfold sh; lia).
  rewrite Z.shiftr_div_pow2 by lia.
  set (q := a / 2 ^ sh).
  assert (Hp : 0 < 2 ^ sh) by (apply Z.pow_pos_nonneg; lia).
  assert (Hq : 2 ^ 52 <= q).
  { unfold q. replace (2 ^ 52) with (2 ^ Z.log2 a / 2 ^ sh).
    - apply Z.div_le_mono; lia.
    - replace (Z.log2 a) with (52 + sh) by (unfold sh; lia).
      rewrite Z.pow_add_r by lia. apply Z.div_mul. lia. }
  assert (Hqa : q * 2 ^ sh <= a).
  { unfold q. rewrite Z.mul_comm. apply Z.mul_div_le. lia. }
  assert (H2 : 2 <= 2 ^ sh).
  { change 2 with (2 ^ 1) at 1. apply Z.pow_le_mono_r; lia. }
  assert (H52 : 0 < 2 ^ 52) by (apply Z.pow_pos_nonneg; lia).
  match goal with |- context [if ?c then q + 1 else q] => destruct c end;
    rewrite Z.shiftl_mul_pow2 by lia.
  - split.
    + change (2 ^ 53) with (2 ^ 52 * 2). apply Z.mul_le_mono_nonneg; lia.
    + nia.
  - split.
    + change (2 ^ 53) with (2 ^ 52 * 2). apply Z.mul_le_mono_nonneg; lia.
    + nia.
Qed.

(** For an unsigned 64-bit value the safe-range test of the decoder, made on
    the rounded number, decides exactly whether the value is at most
    [2^53 - 1]. *)
Lemma in_safe_range_spec : forall z,
  0 <= z < 2 ^ 64 -> in_safe_range z = (z <=? 2 ^ 53 - 1).
Proof.
  intros z Hz. unfold in_safe_range, Number_of_BigNumber, round53.
  destruct (Z.ltb_spec z 0); [lia|].
  destruct (Z.leb_spec z (2 ^ 53 - 1)) as [Hs|Hl].
  - rewrite round53_pos_small by lia.
    destruct (Z.leb_spec (2 ^ 1024) z) as [Hbig|_].
    { exfalso. assert (2 ^ 64 <= 2 ^ 1024) by (apply Z.pow_le_mono_r; lia). lia. }
    destruct (Z.leb_spec z (- 2 ^ 1024)) as [Hneg|_].
    { exfalso. pose proof (Z.pow_pos_nonneg 2 1024). lia. }
    unfold MIN_SAFE_INTEGER, MAX_SAFE_INTEGER.
    apply andb_true_intro; split; apply Z.leb_le; lia.
  - destruct (round53_pos_large z) as [Hlo Hhi]; [lia|].
    destruct (Z.leb_spec (2 ^ 1024) (round53_pos z)) as [Hbig|_].
    { exfalso.
      assert (2 ^ 65 <= 2 ^ 1024) by (apply Z.pow_le_mono_r; lia).
      change (2 ^ 65) with (2 * 2 ^ 64) in *. lia. }
    destruct (Z.leb_spec (round53_pos z) (- 2 ^ 1024)) as [Hneg|_].
    { exfalso. pose proof (Z.pow_pos_nonneg 2 1024). lia. }
    unfold MAX_SAFE_INTEGER.
    destruct (Z.leb_spec (round53_pos z) (2 ^ 53 - 1)); [lia|].
    apply andb_false_r.
Qed.


(** The rounding agrees with the Standard Library's IEEE-754 specification
    of binary64 ([binary_normalize]) on sample integers around the points
    where the significand overflows. *)
Example round53_agrees_with_binary64 :
  let samples := [0; 1; 12345; 2 ^ 53 - 1; 2 ^ 53; 2 ^ 53 + 1; 2 ^ 53 + 2;
                  2 ^ 53 + 3; 2 ^ 54 + 2; 2 ^ 54 + 6; 2 ^ 60 + 129;
                  2 ^ 64 - 1; 2 ^ 64 - 1024; 2 ^ 64 - 1025; 10 ^ 30 + 7] in
  map (fun z => SF_integer (binary_normalize prec emax z 0 false)) samples
  = map (fun z => Some (round53 z)) samples.
Proof. vm_compute. reflexivity. Qed.

(** ** Bytes and reads *)

Lemma byte_val_range : forall b, 0 <= byte_val b < 256.
Proof.
  intro b. unfold byte_val. pose proof (Byte.to_N_bounded b). lia.
Qed.

Lemma be_value_range : forall bs acc,
  0 <= acc ->
  acc * 256 ^ Z.of_nat (List.length bs) <= be_value acc bs
  < (acc + 1) * 256 ^ Z.of_nat (List.length bs).
Proof.
  induction bs as [|b bs IH]; intros acc Hacc.
  - simpl. lia.
  - cbn [be_value List.length]. pose proof (byte_val_range b) as Hb.
    specialize (IH (acc * 256 + byte_val b) ltac:(lia)).
    rewrite Nat2Z.inj_succ, Z.pow_succ_r by lia.
    assert (0 < 256 ^ Z.of_nat (List.length bs)) by (apply Z.pow_pos_nonneg; lia).
    nia.
Qed.

Lemma readUIntBE_range : forall n buf off r,
  readUIntBE n buf off = Some r -> 0 <= r < 256 ^ Z.of_nat n.
Proof.
  intros n buf off r. unfold readUIntBE.
  destruct (_ && _); [|discriminate]. intros [= <-].
  set (bs := firstn n (skipn (Z.to_nat off) buf)).
  pose proof (be_value_range bs 0 ltac:(lia)) as H.
  assert (Hlen : (List.length bs <= n)%nat) by apply firstn_le_length.
  assert (256 ^ Z.of_nat (List.length bs) <= 256 ^ Z.of_nat n)
    by (apply Z.pow_le_mono_r; lia).
  lia.
Qed.

Lemma readUInt32BE_range : forall buf off r,
  readUInt32BE buf off = Some r -> 0 <= r < 2 ^ 32.
Proof. intros buf off r H. apply readUIntBE_range in H. exact H. Qed.

(** ** The primitive value reader *)



(** The run of [_decodeValue] on an 8-byte extension, before the safe-range
    test is resolved. *)
Lemma decodeValue_size64_run : forall d v hi lo,
  CborTypes.minorType v = CborTypes.SIZE_64 ->
  remaining_lt d (MNum 9) = false ->
  readUInt32BE (buffer d) (start d + 1) = Some hi ->
  readUInt32BE (buffer d) (start d + 5) = Some lo ->
  _decodeValue v d =
    Ok (if in_safe_range (hi * SHIFT32 + lo)
        then MNum (hi * SHIFT32 + lo)
        else MBig (hi * SHIFT32 + lo))
       (set_start (start d + 9) d).
Proof.
  intros d v hi lo Hsize Havail Hhi Hlo.
  unfold _decodeValue. rewrite Hsize. cbn [Z.ltb Z.eqb Z.compare
    CborTypes.SIZE_8 CborTypes.SIZE_16 CborTypes.SIZE_32 CborTypes.SIZE_64
    Pos.compare Pos.compare_cont Pos.eqb].
  run_M. rewrite Havail, Hhi, Hlo. reflexivity.
Qed.

(** C1.  When the type byte announces an 8-byte extension, at least nine
    bytes are available, and the two 32-bit big-endian halves after the type
    byte read as [hi] and [lo], [_decodeValue] returns exactly
    [hi * 2^32 + lo] and consumes nine bytes: as a native number when the
    value is at most [2^53 - 1], as a [BigNumber] otherwise. *)
Theorem decodeValue_size64_exact : forall d v hi lo,
  CborTypes.minorType v = CborTypes.SIZE_64 ->
  remaining_lt d (MNum 9) = false ->
  readUInt32BE (buffer d) (start d + 1) = Some hi ->
  readUInt32BE (buffer d) (start d + 5) = Some lo ->
  _decodeValue v d =
    Ok (if hi * 2 ^ 32 + lo <=? 2 ^ 53 - 1
        then MNum (hi * 2 ^ 32 + lo)
        else MBig (hi * 2 ^ 32 + lo))
       (set_start (start d + 9) d).
Proof.
  intros d v hi lo Hsize Havail Hhi Hlo.
  pose proof (readUInt32BE_range _ _ _ Hhi) as Rhi.
  pose proof (readUInt32BE_range _ _ _ Hlo) as Rlo.
  rewrite (decodeValue_size64_run d v hi lo Hsize Havail Hhi Hlo).
  rewrite in_safe_range_spec by (unfold SHIFT32; lia).
  unfold SHIFT32. reflexivity.
Qed.

(** The boundary: [2^53 - 1] is returned as a native number and [2^53] as a
    [BigNumber], both exactly. *)
Lemma decodeValue_size64_exact_witness :
  _decodeValue (Some x1b) (new_CborDecoder buffer_max_safe None None None)
    = Ok (MNum (2 ^ 53 - 1))
         (set_start 9 (new_CborDecoder buffer_max_safe None None None))
  /\ _decodeValue (Some x1b) (new_CborDecoder buffer_2_pow_53 None None None)
    = Ok (MBig (2 ^ 53))
         (set_start 9 (new_CborDecoder buffer_2_pow_53 None None None)).
Proof.
  split.
  - exact (decodeValue_size64_exact
             (new_CborDecoder buffer_max_safe None None None) (Some x1b)
             2097151 4294967295
             eq_refl eq_refl eq_refl eq_refl).
  - exact (decodeValue_size64_exact
             (new_CborDecoder buffer_2_pow_53 None None None) (Some x1b)
             2097152 0
             eq_refl eq_refl eq_refl eq_refl).
Defined.

(** C2.  [_decodeValue] never consumes part of a primitive: when it raises
    [NeedMoreData] the decoder is exactly as before (so the offset is
    unchanged), and when it succeeds the offset has advanced by one plus the
    number of extension bytes. *)
Theorem decodeValue_no_partial_consumption : forall d v,
  match _decodeValue v d with
  | Throw NeedMoreData d' => d' = d
  | Ok _ d' => start d' = start d + 1 + extension_byte_count v
  | _ => True
  end.
Proof.
  intros d v. unfold _decodeValue, extension_byte_count.
  set (size := CborTypes.minorType v).
  destruct (size <? CborTypes.SIZE_8) eqn:Hlt.
  { run_M. cbn [start set_start].
    apply Z.ltb_lt in Hlt.
    repeat match goal with
           | |- context [size =? ?c] =>
               destruct (Z.eqb_spec size c);
               [ exfalso; unfold CborTypes.SIZE_8, CborTypes.SIZE_16,
                   CborTypes.SIZE_32, CborTypes.SIZE_64 in *; lia | ]
           end.
    lia. }
  destruct (size =? CborTypes.SIZE_8) eqn:H8.
  { run_M. destruct (remaining_lt d (MNum 2)); [reflexivity|].
    cbn [start set_start]. lia. }
  destruct (size =? CborTypes.SIZE_16) eqn:H16.
  { run_M. destruct (remaining_lt d (MNum 3)); [reflexivity|].
    destruct (readUInt16BE _ _); [|exact I]. cbn [start set_start]. lia. }
  destruct (size =? CborTypes.SIZE_32) eqn:H32.
  { run_M. destruct (remaining_lt d (MNum 5)); [reflexivity|].
    destruct (readUInt32BE _ _); [|exact I]. cbn [start set_start]. lia. }
  destruct (size =? CborTypes.SIZE_64) eqn:H64.
  { run_M. destruct (remaining_lt d (MNum 9)); [reflexivity|].
    destruct (readUInt32BE _ (start d + 1)); [|exact I].
    destruct (readUInt32BE _ (start d + 5)); [|exact I].
    cbn [start set_start]. lia. }
  destruct (size =? CborTypes.SIZE_STREAM) eqn:Hs.
  { run_M. cbn [start set_start]. lia. }
  run_M. exact I.
Qed.

(** ** Integers *)

Lemma peek_inv : forall d t d',
  peek d = Ok t d' ->
  d' = d /\ remaining_lt d (MNum 1) = false /\ t = buf_get (buffer d) (start d).
Proof.
  intros d t d'. unfold peek. run_M.
  destruct (remaining_lt d (MNum 1)); [discriminate|].
  intros [= <- <-]. auto.
Qed.

(** [_decodeValue] always answers: it returns or throws. *)
Lemma decodeValue_answers : forall v d,
  (exists m d', _decodeValue v d = Ok m d')
  \/ (exists e d', _decodeValue v d = Throw e d').
Proof.
  intros v d. unfold _decodeValue. run_M.
  repeat match goal with
         | |- context [if ?c then _ else _] => destruct c
         | |- context [match ?c with Some _ => _ | None => _ end] => destruct c
         end; eauto.
Qed.

(** C3.  On a type byte of the unsigned major type [decodeInt] returns the
    encoded magnitude [m], and on one of the negative major type it returns
    [-m - 1], a native number when the magnitude is native and a [BigNumber]
    when the magnitude is one.  On a type byte that is of neither major type
    and does not carry one of the two big-integer tags, [decodeInt] fails. *)
Theorem decodeInt_sign : forall fuel d t,
  peek d = Ok t d ->
  (CborTypes.majorType t = CborTypes.TYPE_POSINT ->
     forall z d',
       (_decodeValue t d = Ok (MNum z) d' ->
          decodeInt fuel d = Ok (VNumber (Int z)) d')
       /\ (_decodeValue t d = Ok (MBig z) d' ->
          decodeInt fuel d = Ok (VBig z) d'))
  /\ (CborTypes.majorType t = CborTypes.TYPE_NEGINT ->
     forall z d',
       (_decodeValue t d = Ok (MNum z) d' ->
          decodeInt fuel d = Ok (VNumber (Int (- z - 1))) d')
       /\ (_decodeValue t d = Ok (MBig z) d' ->
          decodeInt fuel d = Ok (VBig (- z - 1)) d'))
  /\ (CborTypes.majorType t <> CborTypes.TYPE_POSINT ->
      CborTypes.majorType t <> CborTypes.TYPE_NEGINT ->
      (forall tag d', _decodeTag t d = Ok tag d' ->
         tag <> MNum CborTypes.TAG_POSBIGINT /\ tag <> MNum CborTypes.TAG_NEGBIGINT) ->
      exists e d', decodeInt fuel d = Throw e d').
Proof.
  intros fuel d t Hpeek.
  assert (Hrun : forall k : tbyte -> M value, bind peek k d = k t d).
  { intro k. unfold bind. rewrite Hpeek. reflexivity. }
  unfold decodeInt. rewrite Hrun. clear Hrun.
  split; [|split].
  - intros Hmt z d'. rewrite Hmt. cbn [Z.eqb CborTypes.TYPE_POSINT negb andb].
    split; intros Hv; unfold bind; rewrite Hv; reflexivity.
  - intros Hmt z d'. rewrite Hmt.
    cbn [Z.eqb Pos.eqb CborTypes.TYPE_POSINT CborTypes.TYPE_NEGINT negb andb].
    split; intros Hv; unfold bind; rewrite Hv; reflexivity.
  - intros Hpos Hneg Htag.
    destruct (Z.eqb_spec (CborTypes.majorType t) CborTypes.TYPE_POSINT); [contradiction|].
    destruct (Z.eqb_spec (CborTypes.majorType t) CborTypes.TYPE_NEGINT); [contradiction|].
    cbn [negb andb].
    destruct (Z.eqb_spec (CborTypes.majorType t) CborTypes.TYPE_TAG) as [Ht|Ht].
    + unfold bind at 1.
      destruct (_decodeTag t d) as [tag d'| e d'| |] eqn:Hdt.
      * destruct (Htag tag d' eq_refl) as [H2 H3].
        assert (Hs : strict_eq tag CborTypes.TAG_POSBIGINT
                     || strict_eq tag CborTypes.TAG_NEGBIGINT = false).
        { destruct tag as [z| |]; cbn [strict_eq orb]; try reflexivity.
          destruct (Z.eqb_spec z CborTypes.TAG_POSBIGINT); [subst; contradiction|].
          destruct (Z.eqb_spec z CborTypes.TAG_NEGBIGINT); [subst; contradiction|].
          reflexivity. }
        rewrite Hs. unfold throw. eauto.
      * eauto.
      * exfalso. unfold _decodeTag in Hdt.
        destruct (negb _); [discriminate|].
        destruct (decodeValue_answers t d) as [(m & d' & E)|(e & d' & E)];
          rewrite E in Hdt; discriminate.
      * exfalso. unfold _decodeTag in Hdt.
        destruct (negb _); [discriminate|].
        destruct (decodeValue_answers t d) as [(m & d' & E)|(e & d' & E)];
          rewrite E in Hdt; discriminate.
    + unfold throw. eauto.
Qed.

(** The bytes [18 64] decode to 100, the bytes [38 63] to -100, and a text
    string is refused. *)
Lemma decodeInt_sign_witness :
  let d_pos := new_CborDecoder [x18; x64] None None None in
  let d_neg := new_CborDecoder [x38; x63] None None None in
  let d_txt := new_CborDecoder [x61; x41] None None None in
  decodeInt 0 d_pos = Ok (VNumber (Int 100)) (set_start 2 d_pos)
  /\ decodeInt 0 d_neg = Ok (VNumber (Int (-100))) (set_start 2 d_neg)
  /\ exists e d', decodeInt 0 d_txt = Throw e d'.
Proof.
  intros d_pos d_neg d_txt. split; [|split].
  - exact (proj1 (proj1 (decodeInt_sign 0 d_pos (Some x18) eq_refl)
                    eq_refl 100 (set_start 2 d_pos)) eq_refl).
  - exact (proj1 (proj1 (proj2 (decodeInt_sign 0 d_neg (Some x38) eq_refl))
                    eq_refl 99 (set_start 2 d_neg)) eq_refl).
  - refine (proj2 (proj2 (decodeInt_sign 0 d_txt (Some x61) eq_refl)) _ _ _).
    + discriminate.
    + discriminate.
    + intros tag d' H. discriminate H.
Defined.

(** ** Half-precision floats *)

Lemma meaning_eqb_eq : forall a b, meaning_eqb a b = true -> a = b.
Proof.
  intros [[pn pd]|s|] [[qn qd]|t|]; cbn [meaning_eqb Qnum Qden];
    try discriminate; try reflexivity.
  - intro H. apply andb_prop in H. destruct H as [Hn Hd].
    apply Z.eqb_eq in Hn. apply Pos.eqb_eq in Hd. subst. reflexivity.
  - intro H. apply Bool.eqb_prop in H. subst. reflexivity.
Qed.

Lemma all_bytes_complete : forall b, In b all_bytes.
Proof.
  intro b. unfold all_bytes.
  apply in_map_iff. exists (Byte.to_nat b). split.
  - rewrite Byte.of_to_nat. reflexivity.
  - apply in_seq. destruct b; cbn [Byte.to_nat]; lia.
Qed.

(** Every pair of bytes, checked by evaluation. *)
Lemma parseHalf_agrees_all :
  forallb (fun b0 => forallb (parseHalf_agrees b0) all_bytes) all_bytes = true.
Proof. vm_compute. reflexivity. Qed.

(** C8.  For every 16-bit payload, the half-precision decoder returns the
    value of the binary16 pattern: [sign * 2^-24 * m] for a zero exponent
    field, a signed infinity or not-a-number for an all-ones exponent field
    (by whether the fraction is zero), and [sign * 2^(e-25) * (1024 + m)]
    otherwise, where [sign] is -1 when the sign bit is set and +1 when not. *)
Theorem parseHalf_binary16 : forall buf offset b0 b1,
  buf_get buf offset = Some b0 ->
  buf_get buf (offset + 1) = Some b1 ->
  let w := half_word b0 b1 in
  let s := half_sign w in
  let e := half_exponent w in
  let m := half_mantissa w in
  let sign := if s then -1 else 1 in
  let r := meaning (_parseHalf buf offset) in
  (e = 0 -> r = Finite (Qred (inject_Z sign * Qpower 2 (-24) * inject_Z m)))
  /\ (e = 31 -> m = 0 -> r = Infinite s)
  /\ (e = 31 -> m <> 0 -> r = NaN)
  /\ (e <> 0 -> e <> 31 ->
      r = Finite (Qred (inject_Z sign * Qpower 2 (e - 25) * inject_Z (1024 + m)))).
Proof.
  intros buf offset b0 b1 H0 H1 w s e m sign r.
  assert (Hr : r = binary16_value s e m).
  { pose proof parseHalf_agrees_all as Hall.
    rewrite forallb_forall in Hall.
    specialize (Hall b0 (all_bytes_complete b0)).
    rewrite forallb_forall in Hall.
    specialize (Hall b1 (all_bytes_complete b1)).
    apply meaning_eqb_eq in Hall.
    transitivity (meaning (_parseHalf [b0; b1] 0)); [|exact Hall].
    unfold r. f_equal.
    unfold _parseHalf. rewrite H0, H1. reflexivity. }
  rewrite Hr. unfold binary16_value. fold sign.
  split; [|split; [|split]].
  - intros ->. reflexivity.
  - intros -> ->. reflexivity.
  - intros -> Hm. cbn [Z.eqb]. destruct (Z.eqb_spec m 0); [contradiction|reflexivity].
  - intros He0 He31.
    destruct (Z.eqb_spec e 0); [contradiction|].
    destruct (Z.eqb_spec e 31); [contradiction|]. reflexivity.
Qed.

(** The patterns [3c00] (one), [8001] (the negative of the least
    subnormal), [fc00] (negative infinity) and [7e00] (not-a-number). *)
Lemma parseHalf_binary16_witness :
  meaning (_parseHalf [xf9; x3c; x00] 1) = Finite 1
  /\ meaning (_parseHalf [xf9; x80; x01] 1) = Finite (-1 # 16777216)
  /\ meaning (_parseHalf [xf9; xfc; x00] 1) = Infinite true
  /\ meaning (_parseHalf [xf9; x7e; x00] 1) = NaN.
Proof.
  split; [|split; [|split]].
  - exact (proj2 (proj2 (proj2
      (parseHalf_binary16 [xf9; x3c; x00] 1 x3c x00 eq_refl eq_refl)))
      ltac:(discriminate) ltac:(discriminate)).
  - exact (proj1
      (parseHalf_binary16 [xf9; x80; x01] 1 x80 x01 eq_refl eq_refl) eq_refl).
  - exact (proj1 (proj2
      (parseHalf_binary16 [xf9; xfc; x00] 1 xfc x00 eq_refl eq_refl))
      eq_refl eq_refl).
  - exact (proj1 (proj2 (proj2
      (parseHalf_binary16 [xf9; x7e; x00] 1 x7e x00 eq_refl eq_refl)))
      eq_refl ltac:(discriminate)).
Defined.

(** ** Simple values *)


(** ** Reading at the cursor *)

Lemma byte_of_Z_val : forall z, 0 <= z < 256 -> byte_val (byte_of_Z z) = z.
Proof.
  intros z Hz. unfold byte_of_Z, byte_val.
  pose proof (Byte.to_of_N_option_map (Z.to_N z)) as H.
  destruct (Byte.of_N (Z.to_N z)) as [b|] eqn:E; cbn [option_map] in H.
  - destruct (N.leb_spec (Z.to_N z) 255); [|discriminate].
    injection H as ->. lia.
  - destruct (N.leb_spec (Z.to_N z) 255); [discriminate|lia].
Qed.

Lemma be_bytes_length : forall k n, List.length (be_bytes k n) = k.
Proof. induction k; intro n; cbn [be_bytes List.length]; auto. Qed.

Lemma be_value_be_bytes : forall k n acc,
  be_value acc (be_bytes k n) = acc * 256 ^ Z.of_nat k + n mod 256 ^ Z.of_nat k.
Proof.
  induction k as [|k IH]; intros n acc.
  - cbn [be_bytes be_value]. change (256 ^ Z.of_nat 0) with 1.
    rewrite Z.mod_1_r. lia.
  - cbn [be_bytes be_value]. rewrite IH.
    assert (Hp : 0 < 256 ^ Z.of_nat k) by (apply Z.pow_pos_nonneg; lia).
    rewrite byte_of_Z_val by (apply Z.mod_pos_bound; lia).
    rewrite Nat2Z.inj_succ, Z.pow_succ_r by lia.
    rewrite (Z.mul_comm 256 (256 ^ Z.of_nat k)).
    rewrite (Z.rem_mul_r n (256 ^ Z.of_nat k) 256) by lia.
    ring.
Qed.

Lemma skipn_cons_nth : forall (l : list byte) n x r,
  skipn n l = x :: r -> nth_error l n = Some x.
Proof.
  induction l as [|a l IH]; intros [|n] x r H; cbn in *; try discriminate.
  - congruence.
  - eauto.
Qed.

Lemma skipn_app_length : forall (l : list byte) n a r,
  skipn n l = a ++ r -> a <> [] -> (n + List.length a <= List.length l)%nat.
Proof.
  intros l n a r H Ha.
  assert (E : List.length (skipn n l) = List.length (a ++ r)) by (rewrite H; reflexivity).
  rewrite length_skipn, length_app in E.
  destruct (Nat.le_gt_cases n (List.length l)) as [Hle|Hgt]; [lia|].
  rewrite skipn_all2 in H by lia.
  symmetry in H. apply app_eq_nil in H. destruct H as [-> _]. contradiction.
Qed.

Lemma cursor_get : forall d b rest,
  0 <= start d -> cursor_bytes d = b :: rest ->
  buf_get (buffer d) (start d) = Some b.
Proof.
  intros d b rest Hs H. unfold buf_get.
  destruct (Z.ltb_spec (start d) 0); [lia|].
  eapply skipn_cons_nth; exact H.
Qed.

Lemma cursor_skip : forall d k a rest,
  0 <= start d -> cursor_bytes d = a ++ rest -> k = Z.of_nat (List.length a) ->
  cursor_bytes (set_start (start d + k) d) = rest.
Proof.
  intros d k a rest Hs H ->. unfold cursor_bytes in *. cbn [start buffer set_start].
  replace (Z.to_nat (start d + Z.of_nat (List.length a)))
    with (List.length a + Z.to_nat (start d))%nat by lia.
  rewrite <- skipn_skipn, H. rewrite skipn_app, skipn_all, Nat.sub_diag. reflexivity.
Qed.

Lemma cursor_read : forall d k a bs rest,
  0 <= start d -> cursor_bytes d = a ++ bs ++ rest -> bs <> [] ->
  readUIntBE (List.length bs) (buffer d) (start d + k) = 
    if k =? Z.of_nat (List.length a) then Some (be_value 0 bs)
    else readUIntBE (List.length bs) (buffer d) (start d + k).
Proof.
  intros d k a bs rest Hs H Hbs.
  destruct (Z.eqb_spec k (Z.of_nat (List.length a))) as [->|]; [|reflexivity].
  unfold readUIntBE.
  assert (Hne : a ++ bs <> []).
  { intro E. apply app_eq_nil in E. destruct E; contradiction. }
  pose proof (skipn_app_length _ _ (a ++ bs) rest
                ltac:(rewrite <- app_assoc; exact H) Hne) as Hlen.
  rewrite length_app in Hlen.
  assert (Hc : (0 <=? start d + Z.of_nat (List.length a))
               && (start d + Z.of_nat (List.length a) + Z.of_nat (List.length bs)
                   <=? Z.of_nat (List.length (buffer d))) = true).
  { apply andb_true_intro. split; apply Z.leb_le; lia. }
  rewrite Hc. f_equal. f_equal.
  pose proof (cursor_skip d _ a (bs ++ rest) Hs H eq_refl) as Hk.
  unfold cursor_bytes in Hk. cbn [start buffer set_start] in Hk.
  rewrite Hk. rewrite firstn_app, firstn_all, Nat.sub_diag. cbn [firstn].
  apply app_nil_r.
Qed.

Lemma cursor_slice : forall d c rest,
  0 <= start d -> cursor_bytes d = c ++ rest ->
  JS_slice (buffer d) (start d) (start d + Z.of_nat (List.length c)) = c.
Proof.
  intros d c rest Hs H. unfold JS_slice, clamp_index.
  destruct (Z.ltb_spec (start d) 0); [lia|].
  destruct (Z.ltb_spec (start d + Z.of_nat (List.length c)) 0); [lia|].
  destruct c as [|x c].
  - cbn [List.length Z.of_nat]. rewrite Z.add_0_r, Z.sub_diag. reflexivity.
  - pose proof (skipn_app_length _ _ (x :: c) rest H ltac:(discriminate)) as Hlen.
    rewrite !Z.min_l by lia.
    replace (Z.to_nat (start d + Z.of_nat (List.length (x :: c)) - start d))
      with (List.length (x :: c)) by lia.
    unfold cursor_bytes in H. rewrite H.
    rewrite firstn_app, firstn_all, Nat.sub_diag. cbn [firstn]. apply app_nil_r.
Qed.

Lemma limit_allows_remaining : forall d n k,
  limit_allows d n -> k <= n -> remaining_lt d (MNum k) = false.
Proof.
  intros d n k H Hk. unfold limit_allows, remaining_lt in *.
  destruct (_limit d); [|reflexivity]. apply Z.ltb_ge. lia.
Qed.

(** ** Heads *)

Lemma type_byte_fields : forall b,
  CborTypes.majorType (Some b) = 32 * (byte_val b / 32)
  /\ CborTypes.minorType (Some b) = byte_val b mod 32.
Proof. intro b. destruct b; split; reflexivity. Qed.

Lemma head_type_byte : forall major minor,
  is_major major -> 0 <= minor < 32 ->
  byte_val (byte_of_Z (major + minor)) = major + minor
  /\ CborTypes.majorType (Some (byte_of_Z (major + minor))) = major
  /\ CborTypes.minorType (Some (byte_of_Z (major + minor))) = minor.
Proof.
  intros major minor (k & Hk & ->) Hm.
  assert (Hv : byte_val (byte_of_Z (32 * k + minor)) = 32 * k + minor)
    by (apply byte_of_Z_val; lia).
  destruct (type_byte_fields (byte_of_Z (32 * k + minor))) as [H1 H2].
  rewrite H1, H2, Hv. split; [reflexivity|]. split.
  - f_equal. symmetry. apply (Z.div_unique _ _ _ minor); lia.
  - symmetry. apply (Z.mod_unique _ _ k); lia.
Qed.

Lemma be_bytes_split : forall a b n,
  be_bytes (a + b) n = be_bytes a (n / 256 ^ Z.of_nat b) ++ be_bytes b n.
Proof.
  induction a as [|a IH]; intros b n.
  - reflexivity.
  - cbn [Nat.add be_bytes app]. rewrite IH. f_equal. f_equal.
    rewrite Z.div_div by (try apply Z.pow_pos_nonneg; lia).
    rewrite <- Z.pow_add_r by lia. rewrite Nat2Z.inj_add.
    f_equal. f_equal. f_equal. lia.
Qed.

Lemma head_length_spec : forall major w n,
  Z.of_nat (List.length (head major w n)) = head_length w.
Proof. intros major [] n; reflexivity. Qed.

Lemma head_first : forall major w n,
  exists tb tl, head major w n = tb :: tl.
Proof. intros major [] n; cbn [head]; eauto. Qed.

Lemma cursor_get_next : forall d x y rest,
  0 <= start d -> cursor_bytes d = x :: y :: rest ->
  buf_get (buffer d) (start d + 1) = Some y.
Proof.
  intros d x y rest Hs H.
  pose proof (cursor_skip d 1 [x] (y :: rest) Hs H eq_refl) as Hk.
  apply (cursor_get (set_start (start d + 1) d) y rest); cbn [start set_start]; [lia|exact Hk].
Qed.

(** Reading a head back: the type byte has the major type, and
    [_decodeValue] on it returns the value as a native number and consumes
    the head. *)
Lemma decodeValue_head : forall d major w n tb tl rest,
  is_major major -> fits w n ->
  0 <= start d ->
  head major w n = tb :: tl ->
  cursor_bytes d = head major w n ++ rest ->
  limit_allows d (head_length w) ->
  CborTypes.majorType (Some tb) = major
  /\ major <= byte_val tb < major + 28
  /\ _decodeValue (Some tb) d = Ok (MNum n) (set_start (start d + head_length w) d).
Proof.
  intros d major w n tb tl rest Hmaj Hfit Hs Hhd Hcur Hlim.
  destruct w; cbn [head fits head_length] in *; injection Hhd as <- <-.
  - (* inline *)
    destruct (head_type_byte major n Hmaj ltac:(lia)) as (Hv & HM & Hm).
    split; [exact HM|]. split; [lia|].
    unfold _decodeValue. rewrite Hm.
    unfold CborTypes.SIZE_8. destruct (Z.ltb_spec n 24); [|lia].
    run_M. reflexivity.
  - (* one byte *)
    destruct (head_type_byte major CborTypes.SIZE_8 Hmaj ltac:(cbv; split; congruence))
      as (Hv & HM & Hm).
    split; [exact HM|]. split; [rewrite Hv; unfold CborTypes.SIZE_8; lia|].
    unfold _decodeValue. rewrite Hm. cbn [Z.ltb Z.eqb Z.compare CborTypes.SIZE_8
      Pos.compare Pos.compare_cont Pos.eqb].
    run_M. rewrite (limit_allows_remaining d 2 2 Hlim ltac:(lia)).
    cbn [be_bytes app] in Hcur.
    rewrite (cursor_get_next d _ _ _ Hs Hcur).
    change (256 ^ Z.of_nat 0) with 1. rewrite Z.div_1_r.
    rewrite byte_of_Z_val by (apply Z.mod_pos_bound; lia).
    rewrite Z.mod_small by lia. reflexivity.
  - (* two bytes *)
    destruct (head_type_byte major CborTypes.SIZE_16 Hmaj ltac:(cbv; split; congruence))
      as (Hv & HM & Hm).
    split; [exact HM|]. split; [rewrite Hv; unfold CborTypes.SIZE_16; lia|].
    unfold _decodeValue. rewrite Hm. cbn [Z.ltb Z.eqb Z.compare CborTypes.SIZE_8
      CborTypes.SIZE_16 Pos.compare Pos.compare_cont Pos.eqb].
    run_M. rewrite (limit_allows_remaining d 3 3 Hlim ltac:(lia)).
    pose proof (cursor_read d 1 [byte_of_Z (major + CborTypes.SIZE_16)]
                  (be_bytes 2 n) rest Hs Hcur ltac:(discriminate)) as Hr.
    cbn [Z.eqb Pos.eqb List.length Z.of_nat Pos.of_succ_nat] in Hr.
    change (List.length (be_bytes 2 n)) with 2%nat in Hr.
    unfold readUInt16BE. rewrite Hr. rewrite be_value_be_bytes.
    rewrite Z.mod_small by (change (256 ^ Z.of_nat 2) with (2 ^ 16); lia).
    reflexivity.
  - (* four bytes *)
    destruct (head_type_byte major CborTypes.SIZE_32 Hmaj ltac:(cbv; split; congruence))
      as (Hv & HM & Hm).
    split; [exact HM|]. split; [rewrite Hv; unfold CborTypes.SIZE_32; lia|].
    unfold _decodeValue. rewrite Hm. cbn [Z.ltb Z.eqb Z.compare CborTypes.SIZE_8
      CborTypes.SIZE_16 CborTypes.SIZE_32 Pos.compare Pos.compare_cont Pos.eqb].
    run_M. rewrite (limit_allows_remaining d 5 5 Hlim ltac:(lia)).
    pose proof (cursor_read d 1 [byte_of_Z (major + CborTypes.SIZE_32)]
                  (be_bytes 4 n) rest Hs Hcur ltac:(discriminate)) as Hr.
    cbn [Z.eqb Pos.eqb List.length Z.of_nat Pos.of_succ_nat] in Hr.
    change (List.length (be_bytes 4 n)) with 4%nat in Hr.
    unfold readUInt32BE. rewrite Hr. rewrite be_value_be_bytes.
    rewrite Z.mod_small by (change (256 ^ Z.of_nat 4) with (2 ^ 32); lia).
    reflexivity.
  - (* eight bytes *)
    destruct (head_type_byte major CborTypes.SIZE_64 Hmaj ltac:(cbv; split; congruence))
      as (Hv & HM & Hm).
    split; [exact HM|]. split; [rewrite Hv; unfold CborTypes.SIZE_64; lia|].
    unfold MAX_SAFE_INTEGER in Hfit.
    set (tb := byte_of_Z (major + CborTypes.SIZE_64)) in *.
    change (be_bytes 8 n) with (be_bytes (4 + 4) n) in Hcur.
    rewrite be_bytes_split in Hcur.
    change (256 ^ Z.of_nat 4) with (2 ^ 32) in Hcur.
    assert (Hhi : readUInt32BE (buffer d) (start d + 1) = Some (n / 2 ^ 32)).
    { pose proof (cursor_read d 1 [tb] (be_bytes 4 (n / 2 ^ 32))
                    (be_bytes 4 n ++ rest) Hs
                    ltac:(rewrite Hcur; cbn [app]; rewrite <- app_assoc; reflexivity)
                    ltac:(discriminate)) as Hr.
      cbn [Z.eqb Pos.eqb List.length Z.of_nat Pos.of_succ_nat] in Hr.
      change (List.length (be_bytes 4 (n / 2 ^ 32))) with 4%nat in Hr.
      unfold readUInt32BE. rewrite Hr. rewrite be_value_be_bytes.
      change (256 ^ Z.of_nat 4) with (2 ^ 32).
      rewrite Z.mod_small; [reflexivity|].
      split; [apply Z.div_pos; lia|]. apply Z.div_lt_upper_bound; lia. }
    assert (Hlo : readUInt32BE (buffer d) (start d + 5) = Some (n mod 2 ^ 32)).
    { pose proof (cursor_read d 5 (tb :: be_bytes 4 (n / 2 ^ 32))
                    (be_bytes 4 n) rest Hs
                    ltac:(rewrite Hcur; cbn [app]; rewrite <- app_assoc; reflexivity)
                    ltac:(discriminate)) as Hr.
      change (Z.of_nat (List.length (tb :: be_bytes 4 (n / 2 ^ 32)))) with 5 in Hr.
      change (List.length (be_bytes 4 n)) with 4%nat in Hr.
      cbn [Z.eqb Pos.eqb] in Hr.
      unfold readUInt32BE. rewrite Hr.
      rewrite be_value_be_bytes. reflexivity. }
    rewrite (decodeValue_size64_run d (Some tb) _ _ Hm
               (limit_allows_remaining d 9 9 Hlim ltac:(lia)) Hhi Hlo).
    assert (Hn : n / 2 ^ 32 * SHIFT32 + n mod 2 ^ 32 = n).
    { unfold SHIFT32. pose proof (Z.div_mod n (2 ^ 32) ltac:(lia)). lia. }
    rewrite Hn. rewrite in_safe_range_spec by lia.
    destruct (Z.leb_spec n (2 ^ 53 - 1)); [reflexivity|lia].
Qed.

(** ** Byte strings *)

Lemma peek_at : forall d b rest n,
  0 <= start d -> cursor_bytes d = b :: rest -> limit_allows d n -> 1 <= n ->
  peek d = Ok (Some b) d.
Proof.
  intros d b rest n Hs Hcur Hlim Hn. unfold peek. run_M.
  rewrite (limit_allows_remaining d n 1 Hlim Hn).
  rewrite (cursor_get d b rest Hs Hcur). reflexivity.
Qed.

Lemma moved_moved : forall d k1 acc1 k2 acc2,
  moved (moved d k1 acc1) k2 acc2 = moved d (k1 + k2) acc2.
Proof.
  intros. unfold moved. cbn [buffer start _limit tagHandlers subDecoder].
  f_equal. lia.
Qed.

Lemma limit_allows_moved : forall d k acc n,
  limit_allows d (k + n) -> limit_allows (moved d k acc) n.
Proof.
  intros d k acc n. unfold limit_allows, moved. cbn [_limit start].
  destruct (_limit d); [lia|trivial].
Qed.

Lemma limit_allows_le : forall d n k,
  limit_allows d n -> k <= n -> limit_allows d k.
Proof.
  intros d n k. unfold limit_allows. destruct (_limit d); [lia|trivial].
Qed.

Lemma cursor_moved : forall d a rest acc,
  0 <= start d -> cursor_bytes d = a ++ rest ->
  cursor_bytes (moved d (encoded_length a) acc) = rest.
Proof.
  intros d a rest acc Hs H.
  exact (cursor_skip d (encoded_length a) a rest Hs H eq_refl).
Qed.

Lemma decodeByteStringsInternal_step : forall fuel t,
  _decodeByteStringsInternal (S fuel) t =
    (length <- _decodeValue t ;;
     if loose_neq length (-1) then
       _ensureAvailable length ;;
       chunk <- slice_from_start length ;;
       stream_write chunk ;;
       _consume length
     else
       while_not fuel tryDecodeBreak
         (t <- peek ;; _decodeByteStringsInternal fuel t)).
Proof. reflexivity. Qed.

(** One definite-length chunk at the cursor is appended to the accumulator
    and consumed. *)
Lemma definite_chunk_run : forall fuel d c tb tl rest,
  chunk_fits c ->
  0 <= start d ->
  head CborTypes.TYPE_BYTES (fst c) (encoded_length (snd c)) = tb :: tl ->
  cursor_bytes d = chunk_bytes c ++ rest ->
  limit_allows d (encoded_length (chunk_bytes c)) ->
  byte_val tb < 255
  /\ CborTypes.isMajorType (Some tb) CborTypes.TYPE_BYTES = true
  /\ _decodeByteStringsInternal (S fuel) (Some tb) d =
       Ok tt (moved d (encoded_length (chunk_bytes c))
                    (_byteStreamBuffer d ++ payload c)).
Proof.
  intros fuel d [w c] tb tl rest Hfit Hs Hhd Hcur Hlim.
  unfold chunk_fits, chunk_bytes, payload, encoded_length in *. cbn [fst snd] in *.
  set (n := Z.of_nat (List.length c)) in *.
  assert (Hn0 : 0 <= n) by (unfold n; lia).
  rewrite length_app, Nat2Z.inj_add, head_length_spec in Hlim. fold n in Hlim.
  assert (Hmaj : is_major CborTypes.TYPE_BYTES) by (exists 2; split; [lia|reflexivity]).
  rewrite <- app_assoc in Hcur.
  destruct (decodeValue_head d CborTypes.TYPE_BYTES w n tb tl (c ++ rest)
              Hmaj Hfit Hs Hhd Hcur
              (limit_allows_le d (head_length w + n) (head_length w) Hlim ltac:(lia)))
    as (HM & Hrange & Hrun).
  split; [unfold CborTypes.TYPE_BYTES in Hrange; lia|].
  split; [unfold CborTypes.isMajorType; rewrite HM; reflexivity|].
  cbn [_decodeByteStringsInternal]. unfold bind at 1. rewrite Hrun.
  assert (Hneq : loose_neq (MNum n) (-1) = true).
  { unfold loose_neq, loose_eq. destruct (Z.eqb_spec n (-1)); [lia|reflexivity]. }
  rewrite Hneq.
  set (d1 := set_start (start d + head_length w) d).
  assert (Hcur1 : cursor_bytes d1 = c ++ rest).
  { apply (cursor_skip d (head_length w) (head CborTypes.TYPE_BYTES w n) (c ++ rest)
             Hs Hcur). symmetry. apply head_length_spec. }
  assert (Hs1 : 0 <= start d1).
  { unfold d1. cbn [start set_start]. destruct w; cbn [head_length]; lia. }
  assert (Hrem : remaining_lt d1 (MNum n) = false).
  { unfold remaining_lt, limit_allows, d1 in *. cbn [_limit start set_start].
    destruct (_limit d); [|reflexivity]. apply Z.ltb_ge. lia. }
  unfold slice_from_start, stream_write. run_M. rewrite Hrem.
  pose proof (cursor_slice d1 c rest Hs1 Hcur1) as Hsl. fold n in Hsl.
  rewrite Hsl. unfold moved, d1, set_stream, set_start.
  cbn [buffer start _limit tagHandlers _byteStreamBuffer subDecoder].
  rewrite length_app, Nat2Z.inj_add, head_length_spec. fold n.
  f_equal. f_equal. lia.
Qed.

Lemma tryDecodeBreak_at_break : forall d rest n,
  0 <= start d -> cursor_bytes d = xff :: rest -> limit_allows d n -> 1 <= n ->
  tryDecodeBreak d = Ok true (set_start (start d + 1) d).
Proof.
  intros d rest n Hs Hcur Hlim Hn. unfold tryDecodeBreak, bind at 1.
  rewrite (peek_at d xff rest n Hs Hcur Hlim Hn). reflexivity.
Qed.

Lemma tryDecodeBreak_not_break : forall d b rest n,
  0 <= start d -> cursor_bytes d = b :: rest -> limit_allows d n -> 1 <= n ->
  byte_val b < 255 ->
  tryDecodeBreak d = Ok false d.
Proof.
  intros d b rest n Hs Hcur Hlim Hn Hb. unfold tryDecodeBreak, bind at 1.
  rewrite (peek_at d b rest n Hs Hcur Hlim Hn). cbn [tb_eq].
  destruct (Z.eqb_spec (byte_val b) CborTypes.TYPE_BREAK) as [E|_];
    [unfold CborTypes.TYPE_BREAK in E; lia | reflexivity].
Qed.

Lemma encoded_length_app : forall a b,
  encoded_length (a ++ b) = encoded_length a + encoded_length b.
Proof. intros. unfold encoded_length. rewrite length_app. lia. Qed.

Lemma encoded_length_nonneg : forall a, 0 <= encoded_length a.
Proof. intros. unfold encoded_length. lia. Qed.

(** The streaming loop: the chunks at the cursor are appended in order and
    the stop marker after them is consumed. *)
Lemma chunks_loop_run : forall chunks fuel fuel' d rest,
  Forall chunk_fits chunks ->
  0 <= start d ->
  cursor_bytes d = List.concat (map chunk_bytes chunks) ++ xff :: rest ->
  limit_allows d (encoded_length (List.concat (map chunk_bytes chunks)) + 1) ->
  (List.length chunks < fuel)%nat ->
  while_not fuel tryDecodeBreak
    (t <- peek ;; _decodeByteStringsInternal (S fuel') t) d
  = Ok tt (moved d (encoded_length (List.concat (map chunk_bytes chunks)) + 1)
                 (_byteStreamBuffer d ++ List.concat (map payload chunks))).
Proof.
  induction chunks as [|c chunks IH]; intros fuel fuel' d rest Hfit Hs Hcur Hlim Hfuel.
  - destruct fuel as [|fuel]; [cbn in Hfuel; lia|].
    cbn [map List.concat app] in *. cbn [while_not]. unfold bind at 1.
    rewrite (tryDecodeBreak_at_break d rest _ Hs Hcur Hlim ltac:(cbn; lia)).
    rewrite app_nil_r. reflexivity.
  - destruct fuel as [|fuel]; [cbn in Hfuel; lia|].
    cbn [List.length] in Hfuel.
    inversion Hfit as [|? ? Hc Hrest]; subst.
    cbn [map List.concat] in *. rewrite <- app_assoc in Hcur.
    rewrite encoded_length_app in Hlim.
    pose proof (encoded_length_nonneg (List.concat (map chunk_bytes chunks))) as Hnn.
    pose proof (encoded_length_nonneg (chunk_bytes c)) as Hnc.
    destruct (head_first CborTypes.TYPE_BYTES (fst c) (encoded_length (snd c)))
      as (tb & tl & Hhd).
    destruct (definite_chunk_run fuel' d c tb tl
                (List.concat (map chunk_bytes chunks) ++ xff :: rest)
                Hc Hs Hhd Hcur
                (limit_allows_le d _ (encoded_length (chunk_bytes c)) Hlim ltac:(lia)))
      as (Hnb & _ & Hrun).
    assert (Hcur' : cursor_bytes d = tb :: (tl ++ snd c)
                      ++ List.concat (map chunk_bytes chunks) ++ xff :: rest).
    { rewrite Hcur. unfold chunk_bytes. fold (encoded_length (snd c)).
      rewrite Hhd. cbn [app]. rewrite <- !app_assoc. reflexivity. }
    assert (Hlen1 : 1 <= encoded_length (chunk_bytes c)).
    { unfold chunk_bytes. fold (encoded_length (snd c)). rewrite Hhd.
      unfold encoded_length. cbn [app List.length]. lia. }
    cbn [while_not]. unfold bind at 1.
    rewrite (tryDecodeBreak_not_break d tb _ _ Hs Hcur' Hlim ltac:(lia) Hnb).
    unfold bind at 1. unfold bind at 1.
    rewrite (peek_at d tb _ _ Hs Hcur' Hlim ltac:(lia)).
    rewrite Hrun.
    set (d1 := moved d (encoded_length (chunk_bytes c)) (_byteStreamBuffer d ++ payload c)).
    rewrite (IH fuel fuel' d1 rest Hrest).
    + unfold d1. rewrite moved_moved. cbn [_byteStreamBuffer moved].
      rewrite <- app_assoc. f_equal. f_equal.
      rewrite encoded_length_app. lia.
    + unfold d1. cbn [start moved]. lia.
    + unfold d1. apply (cursor_moved d (chunk_bytes c)); assumption.
    + unfold d1. apply limit_allows_moved.
      apply (limit_allows_le d _ _ Hlim). lia.
    + lia.
Qed.

(** C7.  An indefinite-length byte string made of [N] definite-length
    chunks and the stop marker decodes, for every [N], to the concatenation
    of the chunks' payloads in order (the empty string for no chunk); the
    whole encoding, stop marker included, is consumed and the accumulator
    is left empty. *)
Theorem decodeBytes_indefinite_concat : forall fuel d chunks rest,
  Forall chunk_fits chunks ->
  0 <= start d ->
  _byteStreamBuffer d = [] ->
  cursor_bytes d = indefinite_bytes chunks ++ rest ->
  limit_allows d (encoded_length (indefinite_bytes chunks)) ->
  (List.length chunks + 2 <= fuel)%nat ->
  decodeBytes fuel d =
    Ok (List.concat (map payload chunks))
       (moved d (encoded_length (indefinite_bytes chunks)) []).
Proof.
  intros fuel d chunks rest Hfit Hs Hacc Hcur Hlim Hfuel.
  destruct fuel as [|[|fuel]]; [lia|lia|].
  unfold indefinite_bytes in *. cbn [app] in Hcur. rewrite <- app_assoc in Hcur.
  cbn [app] in Hcur.
  set (body := List.concat (map chunk_bytes chunks)) in *.
  assert (Hlen : encoded_length (x5f :: body ++ [xff]) = 1 + (encoded_length body + 1)).
  { unfold encoded_length. cbn [List.length]. rewrite length_app. cbn [List.length]. lia. }
  rewrite Hlen in *.
  pose proof (encoded_length_nonneg body) as Hnn.
  unfold decodeBytes. unfold bind at 1.
  rewrite (peek_at d x5f _ _ Hs Hcur Hlim ltac:(lia)).
  change (negb (CborTypes.isMajorType (Some x5f) CborTypes.TYPE_BYTES)) with false.
  cbv iota.
  rewrite decodeByteStringsInternal_step.
  unfold bind at 1. unfold bind at 1.
  change (_decodeValue (Some x5f) d) with (Ok (MNum (-1)) (moved d 1 (_byteStreamBuffer d))).
  cbv beta iota.
  replace (loose_neq (MNum (-1)) (-1)) with false by reflexivity. cbv iota.
  rewrite (chunks_loop_run chunks (S fuel) fuel (moved d 1 (_byteStreamBuffer d)) rest Hfit).
  - rewrite moved_moved. cbn [_byteStreamBuffer moved]. rewrite Hacc. cbn [app].
    unfold stream_read. run_M. reflexivity.
  - cbn [start moved]. lia.
  - apply (cursor_skip d 1 [x5f] _ Hs Hcur eq_refl).
  - apply limit_allows_moved. exact Hlim.
  - lia.
Qed.

(** Two chunks, [ab] (inline length) and [c] (one-byte length), decode to
    [abc]; no chunk at all decodes to the empty string. *)
Lemma decodeBytes_indefinite_concat_witness :
  let d2 := new_CborDecoder [x5f; x42; x61; x62; x58; x01; x63; xff] None None None in
  let d0 := new_CborDecoder [x5f; xff] None None None in
  decodeBytes 4 d2 = Ok [x61; x62; x63] (moved d2 8 [])
  /\ decodeBytes 2 d0 = Ok [] (moved d0 2 []).
Proof.
  intros d2 d0. split.
  - refine (decodeBytes_indefinite_concat 4 d2
              [(Inline, [x61; x62]); (Ext8, [x63])] [] _ _ eq_refl eq_refl _ _).
    + repeat constructor; cbv; congruence.
    + cbv. congruence.
    + cbv. congruence.
    + cbn. lia.
  - refine (decodeBytes_indefinite_concat 2 d0 [] [] _ _ eq_refl eq_refl _ _).
    + constructor.
    + cbv. congruence.
    + cbv. congruence.
    + cbn. lia.
Defined.

(** ** Big integers *)

Lemma hex_digit_value_hex_digit : forall n,
  0 <= n < 16 -> hex_digit_value (hex_digit n) = Some n.
Proof.
  intros n Hn.
  assert (Hall : forallb (fun k => match hex_digit_value (hex_digit k) with
                                   | Some v => v =? k
                                   | None => false
                                   end)
                         (map Z.of_nat (seq 0 16)) = true) by reflexivity.
  rewrite forallb_forall in Hall. specialize (Hall n).
  destruct (hex_digit_value (hex_digit n)) as [v|].
  - f_equal. apply Z.eqb_eq. apply Hall.
    apply in_map_iff. exists (Z.to_nat n). split; [lia|apply in_seq; lia].
  - discriminate Hall.
    apply in_map_iff. exists (Z.to_nat n). split; [lia|apply in_seq; lia].
Qed.

(** The hexadecimal numeral of a byte string, read in base 16, is the
    big-endian value of the bytes. *)
Lemma parse_hex_of_bytes : forall data acc,
  parse_digits16 acc (Buffer_toString_hex data) = Some (be_value acc data).
Proof.
  induction data as [|b data IH]; intro acc.
  - reflexivity.
  - cbn [Buffer_toString_hex parse_digits16 be_value].
    pose proof (byte_val_range b) as Hb.
    rewrite hex_digit_value_hex_digit
      by (split; [apply Z.div_pos; lia | apply Z.div_lt_upper_bound; lia]).
    rewrite hex_digit_value_hex_digit by (apply Z.mod_pos_bound; lia).
    rewrite IH. f_equal. f_equal.
    pose proof (Z.div_mod (byte_val b) 16 ltac:(lia)). lia.
Qed.

Lemma BigNumber_of_hex_nonempty : forall data d,
  data <> [] -> BigNumber_of_hex data d = Ok (be_value 0 data) d.
Proof.
  intros data d Hne. unfold BigNumber_of_hex, new_BigNumber_base16.
  rewrite parse_hex_of_bytes.
  destruct data as [|b data]; [contradiction|reflexivity].
Qed.

(** A big-integer tag over a byte string: the positive tag gives the
    big-endian magnitude of the bytes, the negative tag minus one minus it,
    whenever the byte string is not empty; a following item that is not a
    byte string is refused. *)
Lemma decodeBigInt_of_bytes : forall fuel d t,
  peek d = Ok t d ->
  (CborTypes.isMajorType t CborTypes.TYPE_BYTES = true ->
     forall b d', decodeBytes fuel d = Ok b d' -> b <> [] ->
       _decodeBigInt fuel (MNum CborTypes.TAG_POSBIGINT) d = Ok (VBig (be_value 0 b)) d'
       /\ _decodeBigInt fuel (MNum CborTypes.TAG_NEGBIGINT) d
            = Ok (VBig (- be_value 0 b - 1)) d')
  /\ (CborTypes.isMajorType t CborTypes.TYPE_BYTES = false ->
     forall tag, _decodeBigInt fuel tag d = Throw InvalidTagForBigInt d
                 \/ _decodeBigInt fuel tag d = Throw BigIntNotBinary d).
Proof.
  intros fuel d t Hpeek. split.
  - intros Hmaj b d' Hbytes Hne.
    unfold _decodeBigInt.
    cbn [loose_neq loose_eq negb andb Z.eqb Pos.eqb
         CborTypes.TAG_POSBIGINT CborTypes.TAG_NEGBIGINT].
    split;
      (unfold bind at 1; rewrite Hpeek; rewrite Hmaj; cbn [negb];
       unfold bind at 1; rewrite Hbytes;
       unfold bind at 1; rewrite (BigNumber_of_hex_nonempty b d' Hne);
       reflexivity).
  - intros Hmaj tag. unfold _decodeBigInt.
    destruct (loose_neq tag CborTypes.TAG_POSBIGINT
              && loose_neq tag CborTypes.TAG_NEGBIGINT).
    + left. reflexivity.
    + right. unfold bind at 1. rewrite Hpeek, Hmaj. reflexivity.
Qed.

(** The byte string [0100] under the positive tag is 256 and under the
    negative tag is -257. *)
Example bigint_0100 :
  decodeObject 3 (new_CborDecoder [xc2; x42; x01; x00] None None None)
    = Ok (VBig 256) (set_start 4 (new_CborDecoder [xc2; x42; x01; x00] None None None))
  /\ decodeObject 3 (new_CborDecoder [xc3; x42; x01; x00] None None None)
    = Ok (VBig (-257)) (set_start 4 (new_CborDecoder [xc3; x42; x01; x00] None None None)).
Proof. split; reflexivity. Qed.

(** C4, at the empty byte string.  Under either big-integer tag a byte
    string with no bytes has magnitude zero, so the values would be 0 and
    -1; the decoder hands bignumber.js the empty hexadecimal string, which
    is not a numeral, and fails instead. *)
Theorem bigint_of_empty_bytes_fails :
  decodeObject 3 (new_CborDecoder [xc2; x40] None None None)
    = Throw BigNumberError (set_start 2 (new_CborDecoder [xc2; x40] None None None))
  /\ decodeObject 3 (new_CborDecoder [xc3; x40] None None None)
    = Throw BigNumberError (set_start 2 (new_CborDecoder [xc3; x40] None None None)).
Proof. split; reflexivity. Qed.

(** ** Decimals *)

(** A decimal-fraction tag over an array: the array's declared length
    decides between [DecimalWrongArraySize] and the decoding of the two
    elements; with a native scale and an integer that bignumber.js takes
    as it is, the result holds the integer and the negated scale. *)
Lemma decodeDecimal_of_pair : forall fuel d0 size d1,
  decodeArrayLength d0 = Ok size d1 ->
  (loose_neq size 2 = true ->
     _decodeDecimal fuel (MNum CborTypes.TAG_DECIMAL) d0
       = Throw DecimalWrongArraySize d1)
  /\ (loose_neq size 2 = false ->
      forall scale v u d2 d3,
        decodeInt fuel d1 = Ok (VNumber (Int scale)) d2 ->
        decodeInt fuel d2 = Ok v d3 ->
        new_BigNumber v d3 = Ok u d3 ->
        _decodeDecimal fuel (MNum CborTypes.TAG_DECIMAL) d0
          = Ok (VDecimal u (Int (- scale))) d3).
Proof.
  intros fuel d0 size d1 Hlen.
  unfold _decodeDecimal.
  cbn [loose_neq loose_eq negb Z.eqb Pos.eqb CborTypes.TAG_DECIMAL].
  split.
  - unfold bind at 1. rewrite Hlen. cbv beta iota.
    intros ->. reflexivity.
  - unfold bind at 1. rewrite Hlen. cbv beta iota.
    intros -> scale v u d2 d3 Hscale Hv Hu.
    unfold bind at 1. rewrite Hscale. cbv beta iota.
    unfold bind at 1. rewrite Hv. cbv beta iota.
    unfold bind at 1. rewrite Hu. reflexivity.
Qed.

(** The payload [[2, 12345]] gives unscaled integer 12345 and exponent -2;
    an array of three elements is refused. *)
Example decimal_2_12345 :
  decodeObject 3 (new_CborDecoder [xc4; x82; x02; x19; x30; x39] None None None)
    = Ok (VDecimal 12345 (Int (-2)))
         (set_start 6 (new_CborDecoder [xc4; x82; x02; x19; x30; x39] None None None))
  /\ decodeObject 3 (new_CborDecoder [xc4; x83; x02; x19; x30; x39; x00] None None None)
    = Throw DecimalWrongArraySize
         (set_start 2 (new_CborDecoder [xc4; x83; x02; x19; x30; x39; x00] None None None)).
Proof. split; reflexivity. Qed.

(** C5, at a scale beyond the safe integers.  The payload
    [[9007199254740993, 1]] carries the scale [2^53 + 1] (it is decoded as
    that [BigNumber]), so the exponent would be [-(2^53 + 1)]; the decoder
    negates the [BigNumber] with the native unary minus, which rounds it to
    a binary64 value first, and stores [-2^53]. *)
Theorem decimal_scale_loses_precision :
  let bytes := [xc4; x82; x1b; x00; x20; x00; x00; x00; x00; x00; x01; x01] in
  let d := new_CborDecoder bytes None None None in
  decodeInt 3 (set_start 2 d) = Ok (VBig (2 ^ 53 + 1)) (set_start 11 d)
  /\ decodeObject 3 d = Ok (VDecimal 1 (Int (- 2 ^ 53))) (set_start 12 d)
  /\ - 2 ^ 53 <> - (2 ^ 53 + 1).
Proof.
  intros bytes d. split; [|split].
  - vm_compute. reflexivity.
  - vm_compute. reflexivity.
  - discriminate.
Qed.

(** ** Maps *)

Lemma has_own_true : forall m k, has_own m k = true <-> In k (own_keys m).
Proof.
  intros m k. unfold has_own. rewrite existsb_exists. split.
  - intros (x & Hx & Heq). apply String.eqb_eq in Heq. subst. exact Hx.
  - intro H. exists k. split; [exact H|apply String.eqb_refl].
Qed.

Lemma has_own_false : forall m k, has_own m k = false <-> ~ In k (own_keys m).
Proof.
  intros m k. rewrite <- has_own_true. destruct (has_own m k); split; congruence.
Qed.

Lemma buildMap_step_new : forall fn m d k v d1 key,
  plain m ->
  fn d = Ok (k, v) d1 ->
  ToPropertyKey k = Some key ->
  ordinary_key key ->
  ~ In key (own_keys m) ->
  buildMap_step fn m d = Ok {| props := props m ++ [(key, v)]; proto := None |} d1
  /\ plain {| props := props m ++ [(key, v)]; proto := None |}.
Proof.
  intros fn m d k v d1 key [Hproto Hhop] Hfn Hkey [Hnp Hnh] Hnew.
  split.
  - unfold buildMap_step. unfold bind at 1. rewrite Hfn. cbn [fst snd].
    rewrite Hkey. unfold JS_hasOwnProperty.
    rewrite (proj2 (has_own_false m "hasOwnProperty") Hhop). rewrite Hproto.
    unfold bind, ret. rewrite (proj2 (has_own_false m key) Hnew).
    unfold JS_set. destruct (String.eqb_spec key "__proto__"); [contradiction|].
    rewrite Hproto. reflexivity.
  - split; [reflexivity|]. unfold own_keys. cbn [props].
    rewrite map_app, in_app_iff. cbn [map fst In].
    intros [H|[H|[]]]; [exact (Hhop H)|]. apply Hnh. exact H.
Qed.


(** The loop of [buildMap] over entries whose property names are new:
    every entry is stored under its property name, in order. *)
Lemma process_loop_entries : forall fn length entries d d2,
  entries_run fn d entries d2 ->
  forall fuel i m keys d3,
    Forall2 key_of entries keys ->
    Forall ordinary_key keys ->
    plain m ->
    (forall j, i <= j < i + Z.of_nat (List.length entries) ->
               counter_neq j length = true) ->
    loop_ends length (i + Z.of_nat (List.length entries)) d2 d3 ->
    (List.length entries < fuel)%nat ->
    NoDup (own_keys m ++ keys) ->
    process_loop fuel length (buildMap_step fn) i m d
      = Ok {| props := props m ++ combine keys (map snd entries); proto := None |} d3.
Proof.
  intros fn length entries d d2 Hrun.
  induction Hrun as [d | d k v d1 rest d2 Hbrk Hfn Hrun IH];
    intros fuel i m keys d3 Hkeys Hord Hplain Hcont Hend Hfuel Hnd.
  - inversion Hkeys; subst. cbn [List.length Z.of_nat] in *.
    rewrite Z.add_0_r in Hend.
    destruct fuel as [|fuel]; [lia|]. cbn [process_loop map combine].
    rewrite app_nil_r.
    destruct Hplain as [Hproto _].
    assert (Hm : {| props := props m; proto := None |} = m)
      by (destruct m; cbn in *; subst; reflexivity).
    rewrite Hm.
    destruct Hend as [[Hc ->]|[Hc Hb]]; rewrite Hc.
    + reflexivity.
    + unfold bind. rewrite Hb. reflexivity.
  - inversion Hkeys as [|e key rest' keys' Hkey Hkeys']; subst.
    inversion Hord as [|? ? Hok Hord']; subst.
    cbn [List.length] in *. rewrite Nat2Z.inj_succ in *.
    destruct fuel as [|fuel]; [lia|]. cbn [process_loop].
    rewrite (Hcont i) by lia.
    unfold bind at 1. rewrite Hbrk. cbv beta iota.
    assert (Hnew : ~ In key (own_keys m)).
    { apply NoDup_remove_2 in Hnd. intro Hin. apply Hnd.
      apply in_or_app. left. exact Hin. }
    destruct (buildMap_step_new fn m d k v d1 key Hplain Hfn Hkey Hok Hnew)
      as [Hstep Hplain'].
    unfold bind at 1. rewrite Hstep. cbv beta iota.
    rewrite (IH fuel (i + 1) _ keys' d3 Hkeys' Hord' Hplain').
    + cbn [props map snd combine]. rewrite <- app_assoc. reflexivity.
    + intros j Hj. apply Hcont. lia.
    + replace (i + 1 + Z.of_nat (List.length rest))
        with (i + Z.succ (Z.of_nat (List.length rest))) by lia. exact Hend.
    + lia.
    + unfold own_keys. cbn [props]. rewrite map_app. cbn [map fst].
      rewrite <- app_assoc. exact Hnd.
Qed.






(** ** A decoder without limit *)

Lemma quiet_ret : forall A (a : A), quiet (ret a).
Proof. intros A a d H. exact H. Qed.

Lemma quiet_bind : forall A B (m : M A) (k : A -> M B),
  quiet m -> (forall a, quiet (k a)) -> quiet (bind m k).
Proof.
  intros A B m k Hm Hk d H. unfold bind. specialize (Hm d H).
  destruct (m d) as [a d'| e d'| |]; auto. apply Hk. exact Hm.
Qed.

Lemma quiet_throw : forall A e, e <> NeedMoreData -> quiet (@throw A e).
Proof. intros A e He d H. exact He. Qed.

Lemma quiet_gets : forall A (f : Decoder -> A), quiet (gets f).
Proof. intros A f d H. exact H. Qed.

Lemma quiet_modify : forall f,
  (forall d, _limit (f d) = _limit d) -> quiet (modify f).
Proof. intros f Hf d H. cbn. rewrite Hf. exact H. Qed.

Lemma quiet_unmodelled : forall A, quiet (@unmodelled A).
Proof. intros A d H. exact I. Qed.

Lemma quiet_out_of_fuel : forall A, quiet (@out_of_fuel A).
Proof. intros A d H. exact I. Qed.

(** Without limit the availability check passes, whatever is asked for. *)
Lemma ensureAvailable_unlimited : forall n d,
  _limit d = None -> _ensureAvailable n d = Ok tt d.
Proof.
  intros n d H. unfold _ensureAvailable, remaining_lt. rewrite H. reflexivity.
Qed.

Lemma quiet_ensureAvailable : forall n, quiet (_ensureAvailable n).
Proof. intros n d H. rewrite (ensureAvailable_unlimited n d H). exact H. Qed.

Lemma quiet_consume : forall n, quiet (_consume n).
Proof.
  intros [z| |]; cbn [_consume]; try apply quiet_unmodelled.
  apply quiet_modify. reflexivity.
Qed.

Lemma quiet_read_or_range : forall r, quiet (read_or_range r).
Proof.
  intros r d H. unfold read_or_range. destruct (r d); [exact H|discriminate].
Qed.

Lemma quiet_read_float_or_range : forall r, quiet (read_float_or_range r).
Proof.
  intros r d H. unfold read_float_or_range. destruct (r d); [exact H|discriminate].
Qed.

(** One step of a proof that a computation is [quiet], by its shape. *)
Ltac quiet_step :=
  match goal with
  | |- quiet (bind _ _) => apply quiet_bind; [|intros]
  | |- quiet (ret _) => apply quiet_ret
  | |- quiet (throw _) => apply quiet_throw; discriminate
  | |- quiet (gets _) => apply quiet_gets
  | |- quiet unmodelled => apply quiet_unmodelled
  | |- quiet out_of_fuel => apply quiet_out_of_fuel
  | |- quiet (_ensureAvailable _) => apply quiet_ensureAvailable
  | |- quiet (_consume _) => apply quiet_consume
  | |- quiet (read_or_range _) => apply quiet_read_or_range
  | |- quiet (read_float_or_range _) => apply quiet_read_float_or_range
  | |- quiet (modify _) => apply quiet_modify; intros; reflexivity
  | |- quiet (if ?c then _ else _) => destruct c
  | |- quiet (let '(_, _) := ?x in _) => destruct x
  | |- quiet (match ?x with _ => _ end) => destruct x
  | H : quiet ?m |- quiet ?m => exact H
  | H : forall x, quiet (?m x) |- quiet (?m _) => apply H
  end.

Ltac quiet_auto := repeat quiet_step.

Lemma quiet_peek : quiet peek.
Proof. unfold peek. quiet_auto. Qed.

Lemma quiet_decodeValue : forall v, quiet (_decodeValue v).
Proof. intro v. unfold _decodeValue. quiet_auto. Qed.

Lemma quiet_tryDecodeBreak : quiet tryDecodeBreak.
Proof. unfold tryDecodeBreak. pose proof quiet_peek. quiet_auto. Qed.

Lemma quiet_tryDecodeNull : quiet tryDecodeNull.
Proof. unfold tryDecodeNull. pose proof quiet_peek. quiet_auto. Qed.

Lemma quiet_decodeFloat : quiet decodeFloat.
Proof. unfold decodeFloat. pose proof quiet_peek. quiet_auto. Qed.

Lemma quiet_drain : quiet drain.
Proof. unfold drain. quiet_auto. Qed.

Lemma quiet_while_not : forall cond body,
  quiet cond -> quiet body -> forall fuel, quiet (while_not fuel cond body).
Proof.
  intros cond body Hc Hb. induction fuel as [|fuel IH]; cbn [while_not]; quiet_auto.
Qed.

Lemma quiet_decodeByteStringsInternal : forall fuel t,
  quiet (_decodeByteStringsInternal fuel t).
Proof.
  induction fuel as [|fuel IH]; intro t; cbn [_decodeByteStringsInternal].
  - quiet_auto.
  - pose proof quiet_decodeValue. pose proof quiet_tryDecodeBreak.
    pose proof quiet_peek.
    unfold slice_from_start, stream_write. quiet_auto.
    apply quiet_while_not; quiet_auto.
Qed.

Lemma quiet_decodeBytes : forall fuel, quiet (decodeBytes fuel).
Proof.
  intro fuel. unfold decodeBytes, stream_read.
  pose proof quiet_peek. pose proof (quiet_decodeByteStringsInternal fuel).
  quiet_auto.
Qed.

Lemma quiet_decodeString : forall fuel, quiet (decodeString fuel).
Proof.
  intro fuel. unfold decodeString, stream_read.
  pose proof quiet_peek. pose proof (quiet_decodeByteStringsInternal fuel).
  quiet_auto.
Qed.

Lemma quiet_decodeTag : forall t, quiet (_decodeTag t).
Proof. intro t. unfold _decodeTag. pose proof quiet_decodeValue. quiet_auto. Qed.

Lemma quiet_decodeBigInt : forall fuel tag, quiet (_decodeBigInt fuel tag).
Proof.
  intros fuel tag. unfold _decodeBigInt, BigNumber_of_hex, new_BigNumber_base16.
  pose proof quiet_peek. pose proof (quiet_decodeBytes fuel). quiet_auto.
Qed.

Lemma quiet_decodeInt : forall fuel, quiet (decodeInt fuel).
Proof.
  intro fuel. unfold decodeInt.
  pose proof quiet_peek. pose proof quiet_decodeTag. pose proof quiet_decodeValue.
  pose proof (quiet_decodeBigInt fuel). quiet_auto.
Qed.

Lemma quiet_decodeArrayLength : quiet decodeArrayLength.
Proof.
  unfold decodeArrayLength. pose proof quiet_peek. pose proof quiet_decodeValue.
  quiet_auto.
Qed.

Lemma quiet_decodeMapLength : quiet decodeMapLength.
Proof.
  unfold decodeMapLength. pose proof quiet_peek. pose proof quiet_decodeValue.
  quiet_auto.
Qed.

Lemma quiet_decodeDecimal : forall fuel tag, quiet (_decodeDecimal fuel tag).
Proof.
  intros fuel tag. unfold _decodeDecimal, new_BigNumber, JS_neg.
  pose proof quiet_decodeArrayLength. pose proof (quiet_decodeInt fuel).
  quiet_auto.
Qed.

Lemma quiet_decodeNumber : forall fuel, quiet (decodeNumber fuel).
Proof.
  intro fuel. unfold decodeNumber.
  pose proof quiet_peek. pose proof quiet_decodeFloat. pose proof quiet_decodeTag.
  pose proof (quiet_decodeInt fuel). pose proof (quiet_decodeBigInt fuel).
  pose proof (quiet_decodeDecimal fuel). quiet_auto.
Qed.

Lemma quiet_process_loop : forall A (fn : A -> M A),
  (forall a, quiet (fn a)) ->
  forall fuel length i a, quiet (process_loop fuel length fn i a).
Proof.
  intros A fn Hfn. pose proof quiet_tryDecodeBreak.
  induction fuel as [|fuel IH]; intros length i a; cbn [process_loop]; quiet_auto.
  apply IH.
Qed.

Lemma quiet_buildArray : forall fuel fn, quiet fn -> quiet (buildArray fuel fn).
Proof.
  intros fuel fn Hfn. unfold buildArray, processArray.
  pose proof quiet_decodeArrayLength. quiet_auto.
  apply quiet_process_loop. intro a0. quiet_auto.
Qed.

Lemma quiet_buildMap : forall fuel fn, quiet fn -> quiet (buildMap fuel fn).
Proof.
  intros fuel fn Hfn. unfold buildMap, processMap.
  pose proof quiet_decodeMapLength. quiet_auto.
  apply quiet_process_loop. intro m.
  unfold buildMap_step, JS_hasOwnProperty. quiet_auto.
Qed.

Lemma quiet_decodeObject : forall fuel, quiet (decodeObject fuel).
Proof.
  induction fuel as [|fuel IH]; cbn [decodeObject].
  - quiet_auto.
  - pose proof quiet_peek. pose proof quiet_tryDecodeNull.
    pose proof quiet_decodeFloat. pose proof quiet_decodeTag.
    pose proof (quiet_decodeInt fuel). pose proof (quiet_decodeBytes fuel).
    pose proof (quiet_decodeString fuel). pose proof (quiet_decodeBigInt fuel).
    pose proof (quiet_decodeDecimal fuel).
    unfold decodeArray_with, decodeMap_with, _decodeTaggedType_with.
    quiet_auto;
      first [ apply quiet_buildArray; exact IH
            | apply quiet_buildMap; quiet_auto ].
Qed.

Lemma quiet_decodeCbor : forall fuel, quiet (decodeCbor fuel).
Proof.
  intro fuel. unfold decodeCbor, window_limit.
  pose proof quiet_peek. pose proof quiet_decodeValue.
  pose proof (quiet_decodeBytes fuel). quiet_auto.
Qed.

Lemma quiet_call : forall fuel m, quiet (call fuel m).
Proof.
  intros fuel m.
  pose proof quiet_peek. pose proof quiet_drain. pose proof quiet_decodeFloat.
  pose proof quiet_decodeArrayLength. pose proof quiet_decodeMapLength.
  pose proof quiet_tryDecodeBreak. pose proof quiet_tryDecodeNull.
  pose proof (quiet_decodeString fuel). pose proof (quiet_decodeBytes fuel).
  pose proof (quiet_decodeNumber fuel). pose proof (quiet_decodeInt fuel).
  pose proof (quiet_decodeObject fuel). pose proof (quiet_decodeCbor fuel).
  destruct m; cbn [call]; unfold skip, decodeArray, decodeMap,
    decodeArray_with, decodeMap_with; quiet_auto;
    first [ apply quiet_buildArray; assumption
          | apply quiet_buildMap; quiet_auto ].
Qed.

Lemma quiet_calls : forall fuel ms, quiet (calls fuel ms).
Proof.
  intros fuel ms. induction ms as [|m ms IH]; cbn [calls].
  - apply quiet_ret.
  - apply quiet_bind; [apply quiet_call|intros _; exact IH].
Qed.

(** C10.  When [decodeCbor] is called on an indefinite-length byte string,
    the sub-decoder it returns has no limit; its availability check then
    passes for every requested count, however few bytes the gathered buffer
    holds; and no sequence of reads on that sub-decoder ever raises
    [NeedMoreData]. *)
Theorem decodeCbor_streamed_never_incomplete : forall fuel d sub d',
  peek d = Ok (Some x5f) d ->
  decodeCbor fuel d = Ok sub d' ->
  _limit sub = None
  /\ (forall n, _ensureAvailable n sub = Ok tt sub)
  /\ (forall fuel' ms d'', calls fuel' ms sub <> Throw NeedMoreData d'').
Proof.
  intros fuel d sub d' Hpeek Hcbor.
  assert (Hlim : _limit sub = None).
  { unfold decodeCbor in Hcbor. unfold bind at 1 in Hcbor. rewrite Hpeek in Hcbor.
    change (negb (CborTypes.isMajorType (Some x5f) CborTypes.TYPE_BYTES))
      with false in Hcbor.
    change (negb (tb_eq (Some x5f) (CborTypes.TYPE_BYTES + CborTypes.SIZE_STREAM)))
      with false in Hcbor.
    cbv iota in Hcbor. unfold bind at 1 in Hcbor. unfold bind at 1 in Hcbor.
    destruct (decodeBytes fuel d) as [buf d1| | |]; try discriminate.
    cbv beta iota in Hcbor. unfold bind, ret, gets, modify in Hcbor.
    injection Hcbor as <- _.
    destruct (subDecoder d1); reflexivity. }
  split; [exact Hlim|]. split.
  - intro n. apply ensureAvailable_unlimited. exact Hlim.
  - intros fuel' ms d'' Hthrow.
    pose proof (quiet_calls fuel' ms sub Hlim) as Hq.
    rewrite Hthrow in Hq. apply Hq. reflexivity.
Qed.

(** A streamed nested item that holds only the type byte [18] of a one-byte
    unsigned integer: the sub-decoder has no limit, a request for a hundred
    bytes is granted, and decoding reads beyond the gathered byte and
    answers [undefined] where a decoder with a limit reports
    [NeedMoreData]. *)
Lemma decodeCbor_streamed_never_incomplete_witness :
  let d := new_CborDecoder [x5f; x41; x18; xff] None None None in
  let sub := rebind [x18] 0 None (new_CborDecoder [x18] None None None) in
  decodeCbor 3 d = Ok sub (set_subDecoder sub (set_start 4 d))
  /\ _limit sub = None
  /\ _ensureAvailable (MNum 100) sub = Ok tt sub
  /\ decodeObject 2 sub = Ok VUndefined (set_start 2 sub)
  /\ decodeObject 2 (new_CborDecoder [x18] None None None)
       = Throw NeedMoreData (new_CborDecoder [x18] None None None)
  /\ calls 2 [m_decodeObject; m_decodeInt; m_peek] sub <> Throw NeedMoreData sub.
Proof.
  intros d sub.
  pose proof (decodeCbor_streamed_never_incomplete 3 d sub
                (set_subDecoder sub (set_start 4 d)) eq_refl eq_refl)
    as (Hlim & Havail & Hquiet).
  split; [reflexivity|]. split; [exact Hlim|].
  split; [exact (Havail (MNum 100))|].
  split; [reflexivity|]. split; [reflexivity|].
  exact (Hquiet 2%nat [m_decodeObject; m_decodeInt; m_peek] sub).
Defined.

(** ** Sample encodings *)

(** The model decodes sample items of the wire format as expected: the
    integers 1000 and -1000, the largest 64-bit unsigned integer (a
    [BigNumber]), the floats 1.0, 100000.0 and 1.1 in the three widths, the
    text [IETF], nested arrays with indefinite lengths, a map, and a
    big integer of nine bytes. *)
Example sample_items :
  let run bytes := match decodeObject 5 (new_CborDecoder bytes None None None) with
                   | Ok v d => Some (v, start d)
                   | _ => None
                   end in
  run [x19; x03; xe8] = Some (VNumber (Int 1000), 3)
  /\ run [x39; x03; xe7] = Some (VNumber (Int (-1000)), 3)
  /\ run [x1b; xff; xff; xff; xff; xff; xff; xff; xff]
       = Some (VBig 18446744073709551615, 9)
  /\ run [xf9; x3c; x00] = Some (VNumber (Flt 1), 3)
  /\ run [xfa; x47; xc3; x50; x00] = Some (VNumber (Flt 100000), 5)
  /\ run [xfb; x3f; xf1; x99; x99; x99; x99; x99; x9a] = Some (VNumber (Flt 1.1), 9)
  /\ run [x64; x49; x45; x54; x46] = Some (VText [x49; x45; x54; x46], 5)
  /\ run [x9f; x01; x82; x02; x03; x9f; x04; x05; xff; xff]
       = Some (VArray [VNumber (Int 1);
                       VArray [VNumber (Int 2); VNumber (Int 3)];
                       VArray [VNumber (Int 4); VNumber (Int 5)]], 10)
  /\ run [xa2; x01; x02; x03; x04]
       = Some (VMap [("1"%string, VNumber (Int 2)); ("3"%string, VNumber (Int 4))] None, 5)
  /\ run [xc2; x49; x01; x00; x00; x00; x00; x00; x00; x00; x00]
       = Some (VBig 18446744073709551616, 11).
Proof. vm_compute. repeat split; reflexivity. Qed.

(** * Further properties of the decoder *)

(** ** Definite-length strings of any major type *)

Lemma is_major_range : forall major, is_major major -> 0 <= major <= 224.
Proof. intros major (k & Hk & ->). lia. Qed.

Lemma moved_zero : forall d, moved d 0 (_byteStreamBuffer d) = d.
Proof.
  intros [b s l h a sd]. unfold moved.
  cbn [buffer start _limit tagHandlers _byteStreamBuffer subDecoder].
  f_equal. lia.
Qed.

Lemma moved_set_start : forall d k,
  moved d k (_byteStreamBuffer d) = set_start (start d + k) d.
Proof. reflexivity. Qed.

Lemma definite_length : forall major w c,
  encoded_length (definite major w c) = head_length w + encoded_length c.
Proof.
  intros major w c. unfold definite. rewrite encoded_length_app.
  unfold encoded_length at 1. rewrite head_length_spec. reflexivity.
Qed.

Lemma head_length_pos : forall w, 1 <= head_length w.
Proof. intros []; cbn; lia. Qed.

(** One definite-length string at the cursor, whatever its major type, is
    appended to the accumulator and consumed. *)
Lemma definite_run : forall fuel d major w c tb tl rest,
  is_major major -> fits w (encoded_length c) ->
  0 <= start d ->
  head major w (encoded_length c) = tb :: tl ->
  cursor_bytes d = definite major w c ++ rest ->
  limit_allows d (encoded_length (definite major w c)) ->
  byte_val tb < 255
  /\ CborTypes.majorType (Some tb) = major
  /\ _decodeByteStringsInternal (S fuel) (Some tb) d =
       Ok tt (moved d (encoded_length (definite major w c))
                    (_byteStreamBuffer d ++ c)).
Proof.
  intros fuel d major w c tb tl rest Hmaj Hfit Hs Hhd Hcur Hlim.
  rewrite definite_length in *. unfold definite in Hcur.
  set (n := encoded_length c) in *.
  assert (Hn0 : 0 <= n) by apply encoded_length_nonneg.
  rewrite <- app_assoc in Hcur.
  destruct (decodeValue_head d major w n tb tl (c ++ rest)
              Hmaj Hfit Hs Hhd Hcur
              (limit_allows_le d (head_length w + n) (head_length w) Hlim ltac:(lia)))
    as (HM & Hrange & Hrun).
  pose proof (is_major_range major Hmaj) as Hmr.
  split; [lia|]. split; [exact HM|].
  rewrite decodeByteStringsInternal_step. unfold bind at 1. rewrite Hrun.
  assert (Hneq : loose_neq (MNum n) (-1) = true).
  { unfold loose_neq, loose_eq. destruct (Z.eqb_spec n (-1)); [lia|reflexivity]. }
  rewrite Hneq.
  set (d1 := set_start (start d + head_length w) d).
  assert (Hcur1 : cursor_bytes d1 = c ++ rest).
  { apply (cursor_skip d (head_length w) (head major w n) (c ++ rest) Hs Hcur).
    symmetry. apply head_length_spec. }
  pose proof (head_length_pos w) as Hw.
  assert (Hs1 : 0 <= start d1) by (unfold d1; cbn [start set_start]; lia).
  assert (Hrem : remaining_lt d1 (MNum n) = false).
  { unfold remaining_lt, limit_allows, d1 in *. cbn [_limit start set_start].
    destruct (_limit d); [|reflexivity]. apply Z.ltb_ge. lia. }
  unfold slice_from_start, stream_write. run_M. rewrite Hrem.
  pose proof (cursor_slice d1 c rest Hs1 Hcur1) as Hsl.
  fold (encoded_length c) in Hsl. fold n in Hsl.
  rewrite Hsl. unfold moved, d1, set_stream, set_start.
  cbn [buffer start _limit tagHandlers _byteStreamBuffer subDecoder].
  f_equal. f_equal. lia.
Qed.

Lemma definite_first : forall major w c,
  exists tb tl, head major w (encoded_length c) = tb :: tl
                /\ definite major w c = tb :: tl ++ c.
Proof.
  intros major w c. destruct (head_first major w (encoded_length c)) as (tb & tl & H).
  exists tb, tl. split; [exact H|]. unfold definite. rewrite H. reflexivity.
Qed.

(** ** The streaming loop *)

Lemma segments_bytes_cons : forall s segments,
  segments_bytes (s :: segments) = segment_bytes s ++ segments_bytes segments.
Proof. reflexivity. Qed.

Lemma segments_payload_cons : forall s segments,
  segments_payload (s :: segments) = segment_payload s ++ segments_payload segments.
Proof. reflexivity. Qed.

(** The loop over segments at the cursor: each is appended to the
    accumulator, and the loop goes on behind the last one. *)
Lemma segments_prefix_run : forall segments fuel fuel' d rest,
  Forall segment_fits segments ->
  0 <= start d ->
  cursor_bytes d = segments_bytes segments ++ rest ->
  limit_allows d (encoded_length (segments_bytes segments)) ->
  segments_loop (List.length segments + fuel) (S fuel') d
  = segments_loop fuel (S fuel')
      (moved d (encoded_length (segments_bytes segments))
             (_byteStreamBuffer d ++ segments_payload segments)).
Proof.
  induction segments as [|s segments IH]; intros fuel fuel' d rest Hfit Hs Hcur Hlim.
  - cbn [List.length Nat.add]. unfold segments_bytes, segments_payload.
    cbn [map List.concat]. rewrite app_nil_r.
    change (encoded_length []) with 0. rewrite moved_zero. reflexivity.
  - inversion Hfit as [|? ? [Hmaj Hc] Hrest]; subst.
    rewrite segments_bytes_cons in *. rewrite segments_payload_cons.
    rewrite <- app_assoc in Hcur. rewrite encoded_length_app in *.
    pose proof (encoded_length_nonneg (segments_bytes segments)) as Hnn.
    destruct s as [major [w c]]. unfold segment_bytes, segment_payload, payload in *.
    unfold chunk_fits in Hc. cbn [fst snd] in *.
    fold (encoded_length c) in Hc.
    destruct (definite_first major w c) as (tb & tl & Hhd & Hdef).
    destruct (definite_run fuel' d major w c tb tl (segments_bytes segments ++ rest)
                Hmaj Hc Hs Hhd Hcur
                (limit_allows_le d _ (encoded_length (definite major w c)) Hlim
                   ltac:(lia)))
      as (Hnb & _ & Hrun).
    assert (Hcur' : cursor_bytes d = tb :: (tl ++ c) ++ segments_bytes segments ++ rest).
    { rewrite Hcur, Hdef. reflexivity. }
    assert (Hlen1 : 1 <= encoded_length (definite major w c)).
    { rewrite definite_length. pose proof (head_length_pos w).
      pose proof (encoded_length_nonneg c). lia. }
    cbn [List.length Nat.add]. unfold segments_loop at 1. cbn [while_not].
    unfold bind at 1.
    rewrite (tryDecodeBreak_not_break d tb _ _ Hs Hcur' Hlim ltac:(lia) Hnb).
    unfold bind at 1. unfold bind at 1.
    rewrite (peek_at d tb _ _ Hs Hcur' Hlim ltac:(lia)).
    rewrite Hrun.
    set (d1 := moved d (encoded_length (definite major w c)) (_byteStreamBuffer d ++ c)).
    fold (segments_loop (List.length segments + fuel) (S fuel')).
    rewrite (IH fuel fuel' d1 rest Hrest).
    + unfold d1. rewrite moved_moved. cbn [_byteStreamBuffer moved].
      rewrite <- app_assoc. reflexivity.
    + unfold d1. cbn [start moved]. lia.
    + unfold d1. apply (cursor_moved d (definite major w c)); assumption.
    + unfold d1. apply limit_allows_moved.
      apply (limit_allows_le d _ _ Hlim). lia.
Qed.

(** An indefinite-length string whose stream marker has just been read:
    the run of the decoder over the segments and the stop marker. *)
Lemma segments_complete_run : forall segments fuel fuel' d rest,
  Forall segment_fits segments ->
  0 <= start d ->
  cursor_bytes d = segments_bytes segments ++ xff :: rest ->
  limit_allows d (encoded_length (segments_bytes segments) + 1) ->
  (List.length segments < fuel)%nat ->
  segments_loop fuel (S fuel') d
  = Ok tt (moved d (encoded_length (segments_bytes segments) + 1)
                 (_byteStreamBuffer d ++ segments_payload segments)).
Proof.
  intros segments fuel fuel' d rest Hfit Hs Hcur Hlim Hfuel.
  pose proof (encoded_length_nonneg (segments_bytes segments)) as Hnn.
  replace fuel with (List.length segments + S (fuel - S (List.length segments)))%nat by lia.
  rewrite (segments_prefix_run segments _ fuel' d (xff :: rest) Hfit Hs Hcur
             (limit_allows_le d (encoded_length (segments_bytes segments) + 1)
                (encoded_length (segments_bytes segments)) Hlim ltac:(lia))).
  set (d1 := moved d _ _).
  unfold segments_loop. cbn [while_not]. unfold bind at 1.
  rewrite (tryDecodeBreak_at_break d1 rest 1).
  - unfold d1, ret, moved, set_start.
    cbn [buffer start _limit tagHandlers _byteStreamBuffer subDecoder].
    f_equal. f_equal. lia.
  - unfold d1. cbn [start moved]. lia.
  - unfold d1. apply (cursor_moved d (segments_bytes segments)); assumption.
  - unfold d1. apply limit_allows_moved. exact Hlim.
  - lia.
Qed.

(** The same loop when the window ends behind the last segment: the stop
    marker is not there yet. *)
Lemma segments_interrupted_run : forall segments fuel fuel' d rest,
  Forall segment_fits segments ->
  0 <= start d ->
  cursor_bytes d = segments_bytes segments ++ rest ->
  _limit d = Some (start d + encoded_length (segments_bytes segments)) ->
  (List.length segments < fuel)%nat ->
  segments_loop fuel (S fuel') d
  = Throw NeedMoreData
      (moved d (encoded_length (segments_bytes segments))
             (_byteStreamBuffer d ++ segments_payload segments)).
Proof.
  intros segments fuel fuel' d rest Hfit Hs Hcur Hlim Hfuel.
  replace fuel with (List.length segments + S (fuel - S (List.length segments)))%nat by lia.
  rewrite (segments_prefix_run segments _ fuel' d rest Hfit Hs Hcur).
  - unfold segments_loop. cbn [while_not]. unfold bind at 1.
    unfold tryDecodeBreak, bind at 1. unfold peek, bind at 1.
    unfold _ensureAvailable, remaining_lt. cbn [_limit start moved]. rewrite Hlim.
    destruct (Z.ltb_spec (start d + encoded_length (segments_bytes segments)
                          - (start d + encoded_length (segments_bytes segments))) 1);
      [reflexivity|lia].
  - unfold limit_allows. rewrite Hlim. lia.
Qed.

(** The head of an indefinite-length string of major type [major]. *)
Lemma stream_marker_run : forall d major tb,
  is_major major ->
  tb = byte_of_Z (major + CborTypes.SIZE_STREAM) ->
  CborTypes.majorType (Some tb) = major
  /\ _decodeValue (Some tb) d = Ok (MNum (-1)) (set_start (start d + 1) d).
Proof.
  intros d major tb Hmaj ->.
  destruct (head_type_byte major CborTypes.SIZE_STREAM Hmaj ltac:(cbv; split; congruence))
    as (_ & HM & Hm).
  split; [exact HM|]. unfold _decodeValue. rewrite Hm. reflexivity.
Qed.


(** ** Text and byte strings *)

Lemma string_first : forall major e,
  exists tb tl, string_bytes major e = tb :: tl.
Proof.
  intros major [w c|segments]; cbn [string_bytes].
  - destruct (definite_first major w c) as (tb & tl & _ & H). eauto.
  - eauto.
Qed.

Lemma string_length_pos : forall major e, 1 <= encoded_length (string_bytes major e).
Proof.
  intros major e. destruct (string_first major e) as (tb & tl & ->).
  unfold encoded_length. cbn [List.length]. lia.
Qed.

(** A whole string at the cursor, definite or in segments, is appended to
    the accumulator and consumed. *)
Lemma string_run : forall fuel d major e tb tl rest,
  is_major major -> string_fits e ->
  0 <= start d ->
  string_bytes major e = tb :: tl ->
  cursor_bytes d = string_bytes major e ++ rest ->
  limit_allows d (encoded_length (string_bytes major e)) ->
  (string_steps e < fuel)%nat ->
  CborTypes.majorType (Some tb) = major
  /\ _decodeByteStringsInternal fuel (Some tb) d =
       Ok tt (moved d (encoded_length (string_bytes major e))
                    (_byteStreamBuffer d ++ string_payload e)).
Proof.
  intros fuel d major [w c|segments] tb tl rest Hmaj Hfit Hs Hhd Hcur Hlim Hfuel;
    cbn [string_bytes string_fits string_payload string_steps] in *.
  - destruct fuel as [|fuel]; [lia|].
    destruct (definite_first major w c) as (tb' & tl' & Hhd' & Hdef).
    assert (tb' = tb) by congruence. subst tb'.
    destruct (definite_run fuel d major w c tb tl' rest Hmaj Hfit Hs Hhd' Hcur Hlim)
      as (_ & HM & Hrun).
    split; assumption.
  - destruct fuel as [|[|fuel]]; [lia|lia|].
    injection Hhd as <- _.
    destruct (stream_marker_run d major _ Hmaj eq_refl) as [HM Hv].
    split; [exact HM|].
    set (tb := byte_of_Z (major + CborTypes.SIZE_STREAM)) in *.
    assert (Hlen : encoded_length (tb :: segments_bytes segments ++ [xff])
                   = 1 + (encoded_length (segments_bytes segments) + 1)).
    { unfold encoded_length. cbn [List.length]. rewrite length_app.
      cbn [List.length]. lia. }
    rewrite Hlen in *.
    cbn [app] in Hcur. rewrite <- app_assoc in Hcur. cbn [app] in Hcur.
    rewrite decodeByteStringsInternal_step. unfold bind at 1. rewrite Hv.
    replace (loose_neq (MNum (-1)) (-1)) with false by reflexivity. cbv iota.
    fold (segments_loop (S fuel) (S fuel)).
    rewrite <- moved_set_start.
    rewrite (segments_complete_run segments (S fuel) fuel
               (moved d 1 (_byteStreamBuffer d)) rest Hfit).
    + rewrite moved_moved. reflexivity.
    + cbn [start moved]. lia.
    + apply (cursor_skip d 1 [tb] _ Hs Hcur eq_refl).
    + apply limit_allows_moved. exact Hlim.
    + lia.
Qed.

(** X1.  [decodeString] on a text string at the cursor, of definite length
    or made of segments closed by the stop marker, returns the payload (the
    payloads of the segments in order) as text, consumes the whole encoding
    and leaves the accumulator empty.  The major types of the segments are
    not examined: any definite-length head serves as a segment. *)
Theorem decodeString_payload : forall fuel d e rest,
  string_fits e ->
  0 <= start d ->
  _byteStreamBuffer d = [] ->
  cursor_bytes d = string_bytes CborTypes.TYPE_UTF e ++ rest ->
  limit_allows d (encoded_length (string_bytes CborTypes.TYPE_UTF e)) ->
  (string_steps e < fuel)%nat ->
  decodeString fuel d =
    Ok (VText (string_payload e))
       (moved d (encoded_length (string_bytes CborTypes.TYPE_UTF e)) []).
Proof.
  intros fuel d e rest Hfit Hs Hacc Hcur Hlim Hfuel.
  assert (Hmaj : is_major CborTypes.TYPE_UTF) by (exists 3; split; [lia|reflexivity]).
  destruct (string_first CborTypes.TYPE_UTF e) as (tb & tl & Hhd).
  destruct (string_run fuel d _ e tb tl rest Hmaj Hfit Hs Hhd Hcur Hlim Hfuel)
    as [HM Hrun].
  pose proof (string_length_pos CborTypes.TYPE_UTF e) as Hlen.
  unfold decodeString. unfold bind at 1.
  rewrite (peek_at d tb (tl ++ rest) _ Hs ltac:(rewrite Hcur, Hhd; reflexivity) Hlim Hlen).
  unfold CborTypes.isMajorType. rewrite HM. cbn [Z.eqb CborTypes.TYPE_UTF Pos.eqb negb].
  unfold bind at 1. rewrite Hrun. rewrite Hacc. cbn [app].
  unfold stream_read. run_M. reflexivity.
Qed.

(** The text [IETF] of definite length; the same text in two segments, the
    second of which is headed as a byte string; and the empty text. *)
Lemma decodeString_payload_witness :
  let d1 := new_CborDecoder [x64; x49; x45; x54; x46] None None None in
  let d2 := new_CborDecoder [x7f; x62; x49; x45; x42; x54; x46; xff] None None None in
  let d0 := new_CborDecoder [x60] None None None in
  decodeString 1 d1 = Ok (VText [x49; x45; x54; x46]) (moved d1 5 [])
  /\ decodeString 4 d2 = Ok (VText [x49; x45; x54; x46]) (moved d2 8 [])
  /\ decodeString 1 d0 = Ok (VText []) (moved d0 1 []).
Proof.
  intros d1 d2 d0. split; [|split].
  - refine (decodeString_payload 1 d1 (Definite Inline [x49; x45; x54; x46]) []
              _ _ eq_refl eq_refl _ _).
    + cbv. split; congruence.
    + cbv. congruence.
    + cbv. congruence.
    + cbn. lia.
  - refine (decodeString_payload 4 d2
              (Indefinite [(CborTypes.TYPE_UTF, (Inline, [x49; x45]));
                           (CborTypes.TYPE_BYTES, (Inline, [x54; x46]))]) []
              _ _ eq_refl eq_refl _ _).
    + repeat constructor; try (cbv; congruence).
      * exists 3. split; [lia|reflexivity].
      * exists 2. split; [lia|reflexivity].
    + cbv. congruence.
    + cbv. congruence.
    + cbn. lia.
  - refine (decodeString_payload 1 d0 (Definite Inline []) []
              _ _ eq_refl eq_refl _ _).
    + cbv. split; congruence.
    + cbv. congruence.
    + cbv. congruence.
    + cbn. lia.
Defined.

(** X2.  [decodeBytes] on a byte string at the cursor, of definite length
    or in segments, returns what the accumulator already held followed by
    the payload, and leaves the accumulator empty: the accumulator is
    emptied by the read that ends a decoding, not at its beginning. *)
Theorem decodeBytes_prepends_accumulator : forall fuel d e rest,
  string_fits e ->
  0 <= start d ->
  cursor_bytes d = string_bytes CborTypes.TYPE_BYTES e ++ rest ->
  limit_allows d (encoded_length (string_bytes CborTypes.TYPE_BYTES e)) ->
  (string_steps e < fuel)%nat ->
  decodeBytes fuel d =
    Ok (_byteStreamBuffer d ++ string_payload e)
       (moved d (encoded_length (string_bytes CborTypes.TYPE_BYTES e)) []).
Proof.
  intros fuel d e rest Hfit Hs Hcur Hlim Hfuel.
  assert (Hmaj : is_major CborTypes.TYPE_BYTES) by (exists 2; split; [lia|reflexivity]).
  destruct (string_first CborTypes.TYPE_BYTES e) as (tb & tl & Hhd).
  destruct (string_run fuel d _ e tb tl rest Hmaj Hfit Hs Hhd Hcur Hlim Hfuel)
    as [HM Hrun].
  pose proof (string_length_pos CborTypes.TYPE_BYTES e) as Hlen.
  unfold decodeBytes. unfold bind at 1.
  rewrite (peek_at d tb (tl ++ rest) _ Hs ltac:(rewrite Hcur, Hhd; reflexivity) Hlim Hlen).
  unfold CborTypes.isMajorType. rewrite HM. cbn [Z.eqb CborTypes.TYPE_BYTES Pos.eqb negb].
  unfold bind at 1. rewrite Hrun.
  unfold stream_read. run_M. reflexivity.
Qed.

(** The three bytes [616263] of definite length, read by a decoder whose
    accumulator still holds [ff]. *)
Lemma decodeBytes_prepends_accumulator_witness :
  let d := set_stream [xff] (new_CborDecoder [x43; x61; x62; x63] None None None) in
  decodeBytes 1 d = Ok [xff; x61; x62; x63] (moved d 4 []).
Proof.
  intro d.
  refine (decodeBytes_prepends_accumulator 1 d (Definite Inline [x61; x62; x63]) []
            _ _ eq_refl _ _).
  - cbv. split; congruence.
  - cbv. congruence.
  - cbv. congruence.
  - cbn. lia.
Defined.

(** X3.  When the window ends inside an indefinite-length byte string,
    behind some of its segments, [decodeBytes] raises [NeedMoreData] and is
    not undone: the offset stays at the end of the window and the payloads
    of the segments read so far stay in the accumulator. *)
Theorem decodeBytes_interrupted : forall fuel d segments rest,
  Forall segment_fits segments ->
  0 <= start d ->
  cursor_bytes d = x5f :: segments_bytes segments ++ rest ->
  _limit d = Some (start d + 1 + encoded_length (segments_bytes segments)) ->
  (List.length segments + 2 <= fuel)%nat ->
  decodeBytes fuel d =
    Throw NeedMoreData
      (moved d (1 + encoded_length (segments_bytes segments))
             (_byteStreamBuffer d ++ segments_payload segments)).
Proof.
  intros fuel d segments rest Hfit Hs Hcur Hlim Hfuel.
  destruct fuel as [|[|fuel]]; [lia|lia|].
  pose proof (encoded_length_nonneg (segments_bytes segments)) as Hnn.
  assert (Hallow : limit_allows d 1) by (unfold limit_allows; rewrite Hlim; lia).
  unfold decodeBytes. unfold bind at 1.
  rewrite (peek_at d x5f _ 1 Hs Hcur Hallow ltac:(lia)).
  change (negb (CborTypes.isMajorType (Some x5f) CborTypes.TYPE_BYTES)) with false.
  cbv iota.
  rewrite decodeByteStringsInternal_step.
  unfold bind at 1. unfold bind at 1.
  change (_decodeValue (Some x5f) d) with (Ok (MNum (-1)) (moved d 1 (_byteStreamBuffer d))).
  cbv beta iota.
  replace (loose_neq (MNum (-1)) (-1)) with false by reflexivity. cbv iota.
  fold (segments_loop (S fuel) (S fuel)).
  rewrite (segments_interrupted_run segments (S fuel) fuel
             (moved d 1 (_byteStreamBuffer d)) rest Hfit).
  - rewrite moved_moved. reflexivity.
  - cbn [start moved]. lia.
  - apply (cursor_skip d 1 [x5f] _ Hs Hcur eq_refl).
  - cbn [_limit start moved]. rewrite Hlim. reflexivity.
  - lia.
Qed.

(** A stream of which the segment [ab] has arrived and the stop marker has
    not. *)
Lemma decodeBytes_interrupted_witness :
  let d := new_CborDecoder [x5f; x42; x61; x62] None None None in
  decodeBytes 3 d = Throw NeedMoreData (moved d 4 [x61; x62]).
Proof.
  intro d.
  refine (decodeBytes_interrupted 3 d [(CborTypes.TYPE_BYTES, (Inline, [x61; x62]))] []
            _ _ eq_refl eq_refl _).
  - repeat constructor; try (cbv; congruence).
    exists 2. split; [lia|reflexivity].
  - cbv. congruence.
  - cbn. lia.
Defined.

(** ** Integers of every width *)

(** Reading back an 8-byte head whose value is beyond the native range:
    [_decodeValue] returns it as a [BigNumber]. *)
Lemma decodeValue_head_big : forall d major n tb tl rest,
  is_major major -> 2 ^ 53 <= n < 2 ^ 64 ->
  0 <= start d ->
  head major Ext64 n = tb :: tl ->
  cursor_bytes d = head major Ext64 n ++ rest ->
  limit_allows d 9 ->
  CborTypes.majorType (Some tb) = major
  /\ _decodeValue (Some tb) d = Ok (MBig n) (set_start (start d + 9) d).
Proof.
  intros d major n tb' tl rest Hmaj Hn Hs Hhd Hcur Hlim.
  cbn [head] in *. injection Hhd as <- <-.
  destruct (head_type_byte major CborTypes.SIZE_64 Hmaj ltac:(cbv; split; congruence))
    as (Hv & HM & Hm).
  split; [exact HM|].
  set (tb := byte_of_Z (major + CborTypes.SIZE_64)) in *.
  change (be_bytes 8 n) with (be_bytes (4 + 4) n) in Hcur.
  rewrite be_bytes_split in Hcur.
  change (256 ^ Z.of_nat 4) with (2 ^ 32) in Hcur.
  assert (Hhi : readUInt32BE (buffer d) (start d + 1) = Some (n / 2 ^ 32)).
  { pose proof (cursor_read d 1 [tb] (be_bytes 4 (n / 2 ^ 32))
                  (be_bytes 4 n ++ rest) Hs
                  ltac:(rewrite Hcur; cbn [app]; rewrite <- app_assoc; reflexivity)
                  ltac:(discriminate)) as Hr.
    cbn [Z.eqb Pos.eqb List.length Z.of_nat Pos.of_succ_nat] in Hr.
    change (List.length (be_bytes 4 (n / 2 ^ 32))) with 4%nat in Hr.
    unfold readUInt32BE. rewrite Hr. rewrite be_value_be_bytes.
    change (256 ^ Z.of_nat 4) with (2 ^ 32).
    rewrite Z.mod_small; [reflexivity|].
    split; [apply Z.div_pos; lia|]. apply Z.div_lt_upper_bound; lia. }
  assert (Hlo : readUInt32BE (buffer d) (start d + 5) = Some (n mod 2 ^ 32)).
  { pose proof (cursor_read d 5 (tb :: be_bytes 4 (n / 2 ^ 32))
                  (be_bytes 4 n) rest Hs
                  ltac:(rewrite Hcur; cbn [app]; rewrite <- app_assoc; reflexivity)
                  ltac:(discriminate)) as Hr.
    change (Z.of_nat (List.length (tb :: be_bytes 4 (n / 2 ^ 32)))) with 5 in Hr.
    change (List.length (be_bytes 4 n)) with 4%nat in Hr.
    cbn [Z.eqb Pos.eqb] in Hr.
    unfold readUInt32BE. rewrite Hr.
    rewrite be_value_be_bytes. reflexivity. }
  rewrite (decodeValue_size64_run d (Some tb) _ _ Hm
             (limit_allows_remaining d 9 9 Hlim ltac:(lia)) Hhi Hlo).
  assert (Hn' : n / 2 ^ 32 * SHIFT32 + n mod 2 ^ 32 = n).
  { unfold SHIFT32. pose proof (Z.div_mod n (2 ^ 32) ltac:(lia)). lia. }
  rewrite Hn'. rewrite in_safe_range_spec by lia.
  destruct (Z.leb_spec n (2 ^ 53 - 1)); [lia|reflexivity].
Qed.

(** The magnitude a head of any width is read back as. *)
Lemma decodeValue_head_wide : forall d major w n tb tl rest,
  is_major major -> fits_wide w n ->
  0 <= start d ->
  head major w n = tb :: tl ->
  cursor_bytes d = head major w n ++ rest ->
  limit_allows d (head_length w) ->
  CborTypes.majorType (Some tb) = major
  /\ _decodeValue (Some tb) d =
       Ok (if n <=? 2 ^ 53 - 1 then MNum n else MBig n)
          (set_start (start d + head_length w) d).
Proof.
  intros d major w n tb tl rest Hmaj Hfit Hs Hhd Hcur Hlim.
  destruct (Z.leb_spec n (2 ^ 53 - 1)) as [Hle|Hgt].
  - assert (Hfit' : fits w n).
    { destruct w; cbn [fits_wide fits] in *; try exact Hfit.
      unfold MAX_SAFE_INTEGER. lia. }
    destruct (decodeValue_head d major w n tb tl rest Hmaj Hfit' Hs Hhd Hcur Hlim)
      as (HM & _ & Hrun).
    split; assumption.
  - destruct w; cbn [fits_wide fits] in Hfit; try lia.
    exact (decodeValue_head_big d major n tb tl rest Hmaj ltac:(lia) Hs Hhd Hcur Hlim).
Qed.

(** The type byte of a head. *)
Lemma head_range : forall major w n tb tl,
  is_major major -> fits_wide w n ->
  head major w n = tb :: tl ->
  CborTypes.majorType (Some tb) = major /\ major <= byte_val tb < major + 28.
Proof.
  intros major w n tb tl Hmaj Hfit Hhd.
  destruct w; cbn [head fits_wide fits] in *; injection Hhd as <- _.
  - destruct (head_type_byte major n Hmaj ltac:(lia)) as (Hv & HM & _).
    split; [exact HM|lia].
  - destruct (head_type_byte major CborTypes.SIZE_8 Hmaj ltac:(cbv; split; congruence))
      as (Hv & HM & _).
    split; [exact HM|]. rewrite Hv. unfold CborTypes.SIZE_8. lia.
  - destruct (head_type_byte major CborTypes.SIZE_16 Hmaj ltac:(cbv; split; congruence))
      as (Hv & HM & _).
    split; [exact HM|]. rewrite Hv. unfold CborTypes.SIZE_16. lia.
  - destruct (head_type_byte major CborTypes.SIZE_32 Hmaj ltac:(cbv; split; congruence))
      as (Hv & HM & _).
    split; [exact HM|]. rewrite Hv. unfold CborTypes.SIZE_32. lia.
  - destruct (head_type_byte major CborTypes.SIZE_64 Hmaj ltac:(cbv; split; congruence))
      as (Hv & HM & _).
    split; [exact HM|]. rewrite Hv. unfold CborTypes.SIZE_64. lia.
Qed.

Lemma int_head_first : forall w z,
  int_fits w z ->
  exists tb tl, int_head w z = tb :: tl
                /\ byte_val tb < 64
                /\ CborTypes.majorType (Some tb) <> CborTypes.TYPE_SIMPLE
                /\ ((CborTypes.majorType (Some tb) =? CborTypes.TYPE_POSINT)
                    || (CborTypes.majorType (Some tb) =? CborTypes.TYPE_NEGINT)) = true.
Proof.
  intros w z Hfit. unfold int_fits, int_head in *.
  destruct (0 <=? z).
  - destruct (head_first CborTypes.TYPE_POSINT w z) as (tb & tl & Hhd).
    exists tb, tl. split; [exact Hhd|].
    destruct (head_range CborTypes.TYPE_POSINT w z tb tl
                ltac:(exists 0; split; [lia|reflexivity]) Hfit Hhd) as [HM Hr].
    rewrite HM. unfold CborTypes.TYPE_POSINT in Hr.
    split; [lia|]. split; [discriminate|reflexivity].
  - destruct (head_first CborTypes.TYPE_NEGINT w (-1 - z)) as (tb & tl & Hhd).
    exists tb, tl. split; [exact Hhd|].
    destruct (head_range CborTypes.TYPE_NEGINT w (-1 - z) tb tl
                ltac:(exists 1; split; [lia|reflexivity]) Hfit Hhd) as [HM Hr].
    rewrite HM. unfold CborTypes.TYPE_NEGINT in Hr.
    split; [lia|]. split; [discriminate|reflexivity].
Qed.

Lemma decodeInt_magnitude : forall fuel d w z rest,
  int_fits w z ->
  0 <= start d ->
  cursor_bytes d = int_head w z ++ rest ->
  limit_allows d (head_length w) ->
  decodeInt fuel d = Ok (int_result z) (set_start (start d + head_length w) d).
Proof.
  intros fuel d w z rest Hfit Hs Hcur Hlim.
  unfold int_fits, int_head, int_result in *.
  pose proof (head_length_pos w) as Hw.
  destruct (Z.leb_spec 0 z) as [Hz|Hz].
  - assert (Hmaj : is_major CborTypes.TYPE_POSINT) by (exists 0; split; [lia|reflexivity]).
    destruct (head_first CborTypes.TYPE_POSINT w z) as (tb & tl & Hhd).
    destruct (decodeValue_head_wide d _ w z tb tl rest Hmaj Hfit Hs Hhd Hcur Hlim)
      as [HM Hrun].
    unfold decodeInt. unfold bind at 1.
    rewrite (peek_at d tb (tl ++ rest) _ Hs ltac:(rewrite Hcur, Hhd; reflexivity) Hlim Hw).
    rewrite HM. cbn [Z.eqb CborTypes.TYPE_POSINT negb andb].
    unfold bind. rewrite Hrun. reflexivity.
  - assert (Hmaj : is_major CborTypes.TYPE_NEGINT) by (exists 1; split; [lia|reflexivity]).
    destruct (head_first CborTypes.TYPE_NEGINT w (-1 - z)) as (tb & tl & Hhd).
    destruct (decodeValue_head_wide d _ w (-1 - z) tb tl rest Hmaj Hfit Hs Hhd Hcur Hlim)
      as [HM Hrun].
    unfold decodeInt. unfold bind at 1.
    rewrite (peek_at d tb (tl ++ rest) _ Hs ltac:(rewrite Hcur, Hhd; reflexivity) Hlim Hw).
    rewrite HM. cbn [Z.eqb CborTypes.TYPE_POSINT CborTypes.TYPE_NEGINT Pos.eqb negb andb].
    unfold bind. rewrite Hrun. reflexivity.
Qed.

(** The magnitude read, with its sign, is the integer written. *)
Lemma int_result_value : forall z, int_result z = int_value z.
Proof.
  intro z. unfold int_result, int_value, magnitude_of.
  destruct (Z.leb_spec 0 z) as [Hz|Hz].
  - destruct (Z.leb_spec z (2 ^ 53 - 1)); cbn [value_of_magnitude andb].
    + destruct (Z.leb_spec (- 2 ^ 53) z); [reflexivity|lia].
    + rewrite andb_false_r. reflexivity.
  - destruct (Z.leb_spec (-1 - z) (2 ^ 53 - 1)); cbn [negint_of_magnitude].
    + destruct (Z.leb_spec (- 2 ^ 53) z); [|lia].
      destruct (Z.leb_spec z (2 ^ 53 - 1)); [|lia].
      cbn [andb]. f_equal. f_equal. lia.
    + destruct (Z.leb_spec (- 2 ^ 53) z); [lia|].
      cbn [andb]. f_equal. lia.
Qed.

(** X4.  [decodeInt] reads back every integer from [-2^64] to [2^64 - 1]
    written with any head width that holds it (inline, or 1, 2, 4 or 8
    extension bytes): a native number from [-2^53] to [2^53 - 1], an exact
    [BigNumber] outside; the head is consumed. *)
Theorem decodeInt_roundtrip : forall fuel d w z rest,
  int_fits w z ->
  0 <= start d ->
  cursor_bytes d = int_head w z ++ rest ->
  limit_allows d (head_length w) ->
  decodeInt fuel d = Ok (int_value z) (set_start (start d + head_length w) d).
Proof.
  intros fuel d w z rest Hfit Hs Hcur Hlim.
  rewrite <- int_result_value.
  exact (decodeInt_magnitude fuel d w z rest Hfit Hs Hcur Hlim).
Qed.

(** The integers 1000 and -1000 with two extension bytes, 10 spelled with a
    needless extension byte, and [2^64 - 1] and [-2^64] with eight. *)
Lemma decodeInt_roundtrip_witness :
  let run bytes := decodeInt 0 (new_CborDecoder bytes None None None) in
  let at_ k bytes := set_start k (new_CborDecoder bytes None None None) in
  run [x19; x03; xe8] = Ok (VNumber (Int 1000)) (at_ 3 [x19; x03; xe8])
  /\ run [x39; x03; xe7] = Ok (VNumber (Int (-1000))) (at_ 3 [x39; x03; xe7])
  /\ run [x18; x0a] = Ok (VNumber (Int 10)) (at_ 2 [x18; x0a])
  /\ run [x1b; xff; xff; xff; xff; xff; xff; xff; xff]
     = Ok (VBig (2 ^ 64 - 1)) (at_ 9 [x1b; xff; xff; xff; xff; xff; xff; xff; xff])
  /\ run [x3b; xff; xff; xff; xff; xff; xff; xff; xff]
     = Ok (VBig (- 2 ^ 64)) (at_ 9 [x3b; xff; xff; xff; xff; xff; xff; xff; xff]).
Proof.
  intros run at_. split; [|split; [|split; [|split]]].
  - refine (decodeInt_roundtrip 0 (new_CborDecoder [x19; x03; xe8] None None None)
              Ext16 1000 [] _ _ eq_refl _); cbv; try split; congruence.
  - refine (decodeInt_roundtrip 0 (new_CborDecoder [x39; x03; xe7] None None None)
              Ext16 (-1000) [] _ _ eq_refl _); cbv; try split; congruence.
  - refine (decodeInt_roundtrip 0 (new_CborDecoder [x18; x0a] None None None)
              Ext8 10 [] _ _ eq_refl _); cbv; try split; congruence.
  - refine (decodeInt_roundtrip 0
              (new_CborDecoder [x1b; xff; xff; xff; xff; xff; xff; xff; xff] None None None)
              Ext64 (2 ^ 64 - 1) [] _ _ eq_refl _); cbv; try split; congruence.
  - refine (decodeInt_roundtrip 0
              (new_CborDecoder [x3b; xff; xff; xff; xff; xff; xff; xff; xff] None None None)
              Ext64 (- 2 ^ 64) [] _ _ eq_refl _); cbv; try split; congruence.
Defined.

(** ** Arrays *)

(** The loop of [buildArray] over the elements at the cursor: they are
    pushed in order. *)
Lemma process_loop_items : forall (fn : M value) length items d d2,
  items_run fn d items d2 ->
  forall fuel i a d3,
    (forall j, i <= j < i + Z.of_nat (List.length items) ->
               counter_neq j length = true) ->
    loop_ends length (i + Z.of_nat (List.length items)) d2 d3 ->
    (List.length items < fuel)%nat ->
    process_loop fuel length (push fn) i a d = Ok (a ++ items) d3.
Proof.
  intros fn length items d d2 Hrun.
  induction Hrun as [d | d v d1 rest d2 Hbrk Hfn Hrun IH];
    intros fuel i a d3 Hcont Hend Hfuel.
  - cbn [List.length Z.of_nat] in *. rewrite Z.add_0_r in Hend.
    destruct fuel as [|fuel]; [lia|]. cbn [process_loop]. rewrite app_nil_r.
    destruct Hend as [[Hc ->]|[Hc Hb]]; rewrite Hc.
    + reflexivity.
    + unfold bind. rewrite Hb. reflexivity.
  - cbn [List.length] in *. rewrite Nat2Z.inj_succ in *.
    destruct fuel as [|fuel]; [lia|]. cbn [process_loop].
    rewrite (Hcont i) by lia.
    unfold bind at 1. rewrite Hbrk. cbv beta iota.
    unfold bind at 1. unfold push at 1. unfold bind at 1. rewrite Hfn.
    unfold ret at 1. cbv beta iota.
    rewrite (IH fuel (i + 1) (a ++ [v]) d3).
    + rewrite <- app_assoc. reflexivity.
    + intros j Hj. apply Hcont. lia.
    + replace (i + 1 + Z.of_nat (List.length rest))
        with (i + Z.succ (Z.of_nat (List.length rest))) by lia. exact Hend.
    + lia.
Qed.

(** X5.  An array encoding is a length followed by elements.  [decodeArray]
    returns the decoded elements in their order, for a definite length (the
    loop ends when the count is reached) and for an indefinite one (it ends
    at the stop marker); a stop marker that comes before a declared count
    is reached ends the array as well. *)
Theorem decodeArray_elements : forall fuel d0 length d1 items d2 d3,
  decodeArrayLength d0 = Ok length d1 ->
  items_run (decodeObject fuel) d1 items d2 ->
  loop_continues length (Z.of_nat (List.length items)) ->
  loop_ends length (Z.of_nat (List.length items)) d2 d3 ->
  (List.length items < fuel)%nat ->
  decodeArray fuel d0 = Ok (VArray items) d3.
Proof.
  intros fuel d0 length d1 items d2 d3 Hlen Hrun Hcont Hend Hfuel.
  unfold decodeArray, decodeArray_with, buildArray, processArray.
  unfold bind at 1. unfold bind at 1. rewrite Hlen. cbv beta iota.
  fold (push (decodeObject fuel)).
  rewrite (process_loop_items (decodeObject fuel) length items d1 d2 Hrun
             fuel 0 [] d3 ltac:(intros j Hj; apply Hcont; lia) Hend Hfuel).
  reflexivity.
Qed.

(** The array [1, 2] with a declared length, the same array with an
    indefinite length, and an array that declares three elements and is
    ended by a stop marker after the first. *)
Lemma decodeArray_elements_witness :
  let d_def := new_CborDecoder [x82; x01; x02] None None None in
  let d_str := new_CborDecoder [x9f; x01; x02; xff] None None None in
  let d_brk := new_CborDecoder [x83; x01; xff] None None None in
  decodeArray 3 d_def = Ok (VArray [VNumber (Int 1); VNumber (Int 2)]) (set_start 3 d_def)
  /\ decodeArray 3 d_str = Ok (VArray [VNumber (Int 1); VNumber (Int 2)]) (set_start 4 d_str)
  /\ decodeArray 3 d_brk = Ok (VArray [VNumber (Int 1)]) (set_start 3 d_brk).
Proof.
  intros d_def d_str d_brk. split; [|split].
  - refine (decodeArray_elements 3 d_def (MNum 2) (set_start 1 d_def)
              [VNumber (Int 1); VNumber (Int 2)] (set_start 3 d_def) (set_start 3 d_def)
              eq_refl _ _ _ _).
    + apply (items_cons _ (set_start 1 d_def) (VNumber (Int 1)) (set_start 2 d_def)
               _ (set_start 3 d_def) eq_refl eq_refl).
      apply (items_cons _ (set_start 2 d_def) (VNumber (Int 2)) (set_start 3 d_def)
               _ (set_start 3 d_def) eq_refl eq_refl).
      apply items_nil.
    + intros i Hi. unfold counter_neq, loose_neq, loose_eq.
      destruct (Z.eqb_spec 2 i); [cbn in Hi; lia|reflexivity].
    + left. split; reflexivity.
    + cbn. lia.
  - refine (decodeArray_elements 3 d_str (MNum (-1)) (set_start 1 d_str)
              [VNumber (Int 1); VNumber (Int 2)] (set_start 3 d_str) (set_start 4 d_str)
              eq_refl _ _ _ _).
    + apply (items_cons _ (set_start 1 d_str) (VNumber (Int 1)) (set_start 2 d_str)
               _ (set_start 3 d_str) eq_refl eq_refl).
      apply (items_cons _ (set_start 2 d_str) (VNumber (Int 2)) (set_start 3 d_str)
               _ (set_start 3 d_str) eq_refl eq_refl).
      apply items_nil.
    + intros i Hi. unfold counter_neq, loose_neq, loose_eq.
      destruct (Z.eqb_spec (-1) i); [cbn in Hi; lia|reflexivity].
    + right. split; reflexivity.
    + cbn. lia.
  - refine (decodeArray_elements 3 d_brk (MNum 3) (set_start 1 d_brk)
              [VNumber (Int 1)] (set_start 2 d_brk) (set_start 3 d_brk)
              eq_refl _ _ _ _).
    + apply (items_cons _ (set_start 1 d_brk) (VNumber (Int 1)) (set_start 2 d_brk)
               _ (set_start 2 d_brk) eq_refl eq_refl).
      apply items_nil.
    + intros i Hi. unfold counter_neq, loose_neq, loose_eq.
      destruct (Z.eqb_spec 3 i); [cbn in Hi; lia|reflexivity].
    + right. split; reflexivity.
    + cbn. lia.
Defined.

(** ** Nested items of definite length *)

Lemma JS_or_start : forall s, JS_or (Some s) 0 = s.
Proof. intro s. unfold JS_or. destruct (Z.eqb_spec s 0); congruence. Qed.

Lemma JS_or_nonzero : forall l len, l <> 0 -> JS_or (Some l) len = l.
Proof. intros l len H. unfold JS_or. destruct (Z.eqb_spec l 0); congruence. Qed.

(** X6.  [decodeCbor] on a byte string of definite length hands out a
    sub-decoder on the same buffer whose window is exactly the payload: it
    starts behind the head and its limit is the end of the payload; the
    parent is advanced past the payload.  A sub-decoder that is created (not
    reused) has no tag handlers.  [drain] on the sub-decoder returns the
    payload, and after it the sub-decoder reports [NeedMoreData]. *)
Theorem decodeCbor_window : forall fuel d w c rest,
  fits w (encoded_length c) ->
  0 <= start d ->
  cursor_bytes d = definite CborTypes.TYPE_BYTES w c ++ rest ->
  limit_allows d (encoded_length (definite CborTypes.TYPE_BYTES w c)) ->
  let s := start d + head_length w in
  let e := s + encoded_length c in
  let sub := rebind (buffer d) s (Some e)
               (match subDecoder d with
                | None => new_CborDecoder (buffer d) None None None
                | Some sd => sd
                end) in
  decodeCbor fuel d = Ok sub (set_subDecoder sub (set_start e d))
  /\ (subDecoder d = None -> tagHandlers sub = None)
  /\ cursor_bytes sub = c ++ rest
  /\ drain sub = Ok c (set_start e sub)
  /\ peek (set_start e sub) = Throw NeedMoreData (set_start e sub).
Proof.
  intros fuel d w c rest Hfit Hs Hcur Hlim s e sub.
  assert (Hmaj : is_major CborTypes.TYPE_BYTES) by (exists 2; split; [lia|reflexivity]).
  pose proof (head_length_pos w) as Hw.
  pose proof (encoded_length_nonneg c) as Hc.
  rewrite definite_length in Hlim.
  destruct (definite_first CborTypes.TYPE_BYTES w c) as (tb & tl & Hhd & Hdef).
  assert (Hcur0 : cursor_bytes d
                  = head CborTypes.TYPE_BYTES w (encoded_length c) ++ c ++ rest).
  { rewrite Hcur. unfold definite. rewrite <- app_assoc. reflexivity. }
  destruct (decodeValue_head d _ w (encoded_length c) tb tl (c ++ rest)
              Hmaj Hfit Hs Hhd Hcur0
              (limit_allows_le d _ (head_length w) Hlim ltac:(lia)))
    as (HM & Hrange & Hrun).
  assert (Hsub : cursor_bytes sub = c ++ rest).
  { unfold sub, rebind, cursor_bytes. cbn [buffer start].
    apply (cursor_skip d (head_length w) _ (c ++ rest) Hs Hcur0).
    symmetry. apply head_length_spec. }
  assert (Hs_sub : 0 <= start sub) by (unfold sub, rebind, s; cbn [start]; lia).
  split; [|split; [|split; [|split]]].
  - unfold decodeCbor. unfold bind at 1.
    rewrite (peek_at d tb (tl ++ c ++ rest) _ Hs
               ltac:(rewrite Hcur0, Hhd; reflexivity) Hlim ltac:(lia)).
    unfold CborTypes.isMajorType. rewrite HM.
    cbn [Z.eqb CborTypes.TYPE_BYTES Pos.eqb negb].
    assert (Hns : tb_eq (Some tb) (CborTypes.TYPE_BYTES + CborTypes.SIZE_STREAM) = false).
    { cbn [tb_eq]. apply Z.eqb_neq.
      change (CborTypes.TYPE_BYTES + CborTypes.SIZE_STREAM) with 95.
      unfold CborTypes.TYPE_BYTES in Hrange. lia. }
    rewrite Hns. cbn [negb].
    unfold bind at 1. unfold bind at 1. unfold bind at 1. rewrite Hrun.
    unfold window_limit. run_M. cbn [_limit start set_start buffer subDecoder].
    assert (Hrem : remaining_lt (set_start (start d + head_length w) d)
                     (MNum (encoded_length c)) = false).
    { unfold remaining_lt, limit_allows in *. cbn [_limit start set_start].
      destruct (_limit d); [|reflexivity]. apply Z.ltb_ge. lia. }
    rewrite Hrem. cbn [_limit start set_start buffer subDecoder].
    unfold sub, e, s. destruct (subDecoder d); reflexivity.
  - intro Hnone. unfold sub. rewrite Hnone. reflexivity.
  - exact Hsub.
  - unfold drain, copyBuffer. run_M.
    replace (_limit sub) with (Some e) by reflexivity.
    rewrite JS_or_start, (JS_or_nonzero e) by (unfold e, s; lia).
    replace e with (start sub + Z.of_nat (List.length c)) by reflexivity.
    rewrite (cursor_slice sub c rest Hs_sub Hsub). reflexivity.
  - unfold peek. run_M. unfold remaining_lt. cbn [_limit start set_start].
    replace (_limit sub) with (Some e) by reflexivity.
    destruct (Z.ltb_spec (e - e) 1); [reflexivity|lia].
Qed.

(** The nested item [010203] in the buffer [43 01 02 03 ff]: the
    sub-decoder's window is the three bytes from offset 1 to 4. *)
Lemma decodeCbor_window_witness :
  let d := new_CborDecoder [x43; x01; x02; x03; xff] None None None in
  let sub := rebind [x43; x01; x02; x03; xff] 1 (Some 4)
               (new_CborDecoder [x43; x01; x02; x03; xff] None None None) in
  decodeCbor 0 d = Ok sub (set_subDecoder sub (set_start 4 d))
  /\ drain sub = Ok [x01; x02; x03] (set_start 4 sub)
  /\ peek (set_start 4 sub) = Throw NeedMoreData (set_start 4 sub).
Proof.
  intros d sub.
  pose proof (decodeCbor_window 0 d Inline [x01; x02; x03] [xff]) as H.
  destruct H as (Hrun & _ & _ & Hdrain & Hpeek).
  - cbv. split; congruence.
  - cbv. congruence.
  - reflexivity.
  - cbv. congruence.
  - split; [exact Hrun|]. split; [exact Hdrain|exact Hpeek].
Defined.

(** ** The typed decoders and the generic one *)

Lemma tb_eq_major : forall t c,
  tb_eq t c = true -> CborTypes.majorType t = 32 * (c / 32).
Proof.
  intros [b|] c H; cbn [tb_eq] in H; [|discriminate].
  apply Z.eqb_eq in H. rewrite (proj1 (type_byte_fields b)). congruence.
Qed.

Lemma tb_eq_unique : forall t c c',
  tb_eq t c = true -> c' <> c -> tb_eq t c' = false.
Proof.
  intros [b|] c c' H Hne; cbn [tb_eq] in *; [|discriminate].
  apply Z.eqb_eq in H. apply Z.eqb_neq. congruence.
Qed.

Lemma not_simple_tests : forall t c,
  CborTypes.majorType t <> CborTypes.TYPE_SIMPLE ->
  224 <= c < 256 ->
  tb_eq t c = false.
Proof.
  intros t c Hm Hc. destruct (tb_eq t c) eqn:E; [|reflexivity].
  apply tb_eq_major in E. exfalso. apply Hm. rewrite E.
  assert (c / 32 = 7) by (symmetry; apply (Z.div_unique c 32 7 (c - 224)); lia).
  unfold CborTypes.TYPE_SIMPLE. lia.
Qed.

Lemma float_byte_major : forall t,
  is_float_byte t = true -> CborTypes.majorType t = CborTypes.TYPE_SIMPLE.
Proof.
  intros t H. unfold is_float_byte in H.
  apply orb_true_iff in H. destruct H as [H|H];
    [apply orb_true_iff in H; destruct H as [H|H]|];
    apply tb_eq_major in H; exact H.
Qed.

(** The generic decoder on a type byte that is not of the simple major
    type: the dispatch on the major type. *)
Lemma decodeObject_not_simple : forall fuel d t,
  peek d = Ok t d ->
  CborTypes.majorType t <> CborTypes.TYPE_SIMPLE ->
  decodeObject (S fuel) d =
    (let mt := CborTypes.majorType t in
     if (mt =? CborTypes.TYPE_POSINT) || (mt =? CborTypes.TYPE_NEGINT) then
       decodeInt fuel
     else if mt =? CborTypes.TYPE_BYTES then
       bs <- decodeBytes fuel ;; ret (VBytes bs)
     else if mt =? CborTypes.TYPE_UTF then
       decodeString fuel
     else if mt =? CborTypes.TYPE_ARRAY then
       decodeArray_with (decodeObject fuel) fuel
     else if mt =? CborTypes.TYPE_MAP then
       decodeMap_with (decodeObject fuel) fuel
     else if mt =? CborTypes.TYPE_TAG then
       _decodeTaggedType_with (decodeObject fuel) fuel t
     else
       throw UnhandledType) d.
Proof.
  intros fuel d t Hp Hm.
  cbn [decodeObject]. unfold bind at 1. unfold tryDecodeNull. unfold bind at 1.
  rewrite Hp. cbv beta iota.
  rewrite (not_simple_tests t CborTypes.TYPE_NULL Hm) by (cbv; split; congruence).
  unfold ret at 1. cbv beta iota. unfold bind at 1. rewrite Hp. cbv beta iota.
  rewrite (not_simple_tests t CborTypes.TYPE_NULL Hm) by (cbv; split; congruence).
  rewrite (not_simple_tests t CborTypes.TYPE_UNDEFINED Hm) by (cbv; split; congruence).
  rewrite (not_simple_tests t CborTypes.TYPE_TRUE Hm) by (cbv; split; congruence).
  rewrite (not_simple_tests t CborTypes.TYPE_FALSE Hm) by (cbv; split; congruence).
  rewrite (not_simple_tests t CborTypes.TYPE_FLOAT_16 Hm) by (cbv; split; congruence).
  rewrite (not_simple_tests t CborTypes.TYPE_FLOAT_32 Hm) by (cbv; split; congruence).
  rewrite (not_simple_tests t CborTypes.TYPE_FLOAT_64 Hm) by (cbv; split; congruence).
  rewrite (not_simple_tests t CborTypes.TYPE_BREAK Hm) by (cbv; split; congruence).
  reflexivity.
Qed.

(** The generic decoder on the type byte of a float. *)
Lemma decodeObject_float : forall fuel d t,
  peek d = Ok t d ->
  is_float_byte t = true ->
  decodeObject (S fuel) d = (f <- decodeFloat ;; ret (VNumber (Flt f))) d.
Proof.
  intros fuel d t Hp Hf.
  assert (Hne : forall c, c <> CborTypes.TYPE_FLOAT_16 -> c <> CborTypes.TYPE_FLOAT_32 ->
                          c <> CborTypes.TYPE_FLOAT_64 -> tb_eq t c = false).
  { intros c H1 H2 H3. unfold is_float_byte in Hf.
    apply orb_true_iff in Hf. destruct Hf as [Hf|Hf];
      [apply orb_true_iff in Hf; destruct Hf as [Hf|Hf]|];
      apply (tb_eq_unique t _ c Hf); assumption. }
  cbn [decodeObject]. unfold bind at 1. unfold tryDecodeNull. unfold bind at 1.
  rewrite Hp. cbv beta iota.
  rewrite (Hne CborTypes.TYPE_NULL) by (cbv; congruence).
  unfold ret at 1. cbv beta iota. unfold bind at 1. rewrite Hp. cbv beta iota.
  rewrite (Hne CborTypes.TYPE_NULL) by (cbv; congruence).
  rewrite (Hne CborTypes.TYPE_UNDEFINED) by (cbv; congruence).
  rewrite (Hne CborTypes.TYPE_TRUE) by (cbv; congruence).
  rewrite (Hne CborTypes.TYPE_FALSE) by (cbv; congruence).
  fold (is_float_byte t). rewrite Hf. reflexivity.
Qed.

Ltac major_is t c :=
  let E := fresh "E" in
  destruct (Z.eqb_spec (CborTypes.majorType t) c) as [E|E].

Ltac tests :=
  cbn [Z.eqb Pos.eqb negb andb orb
       CborTypes.TYPE_POSINT CborTypes.TYPE_NEGINT CborTypes.TYPE_BYTES
       CborTypes.TYPE_UTF CborTypes.TYPE_ARRAY CborTypes.TYPE_MAP
       CborTypes.TYPE_TAG CborTypes.TYPE_SIMPLE] in *.

Lemma not_float : forall t,
  CborTypes.majorType t <> CborTypes.TYPE_SIMPLE -> is_float_byte t = false.
Proof.
  intros t Hm. destruct (is_float_byte t) eqn:E; [|reflexivity].
  apply float_byte_major in E. contradiction.
Qed.

Lemma decodeInt_decodeNumber : forall fuel d v d',
  decodeInt fuel d = Ok v d' -> decodeNumber fuel d = Ok v d'.
Proof.
  intros fuel d v d' H. pose proof H as H0.
  unfold decodeInt in H. unfold bind at 1 in H.
  destruct (peek d) as [t d1| | |] eqn:Hp; try discriminate.
  pose proof (peek_inv _ _ _ Hp) as (-> & _ & _). cbv beta iota zeta in H.
  unfold decodeNumber. unfold bind at 1. rewrite Hp. cbv beta iota zeta.
  fold (is_float_byte t).
  major_is t CborTypes.TYPE_POSINT; [|major_is t CborTypes.TYPE_NEGINT;
    [|major_is t CborTypes.TYPE_TAG]].
  - rewrite not_float by (rewrite E; discriminate).
    rewrite E. tests. exact H0.
  - rewrite not_float by (rewrite E0; discriminate).
    rewrite E0. tests. exact H0.
  - rewrite not_float by (rewrite E1; discriminate).
    rewrite E1 in *. tests.
    unfold bind in H |- *. destruct (_decodeTag t d) as [tag d1| | |]; try discriminate.
    destruct (strict_eq tag CborTypes.TAG_POSBIGINT || strict_eq tag CborTypes.TAG_NEGBIGINT);
      [exact H|discriminate].
  - cbn [negb andb] in H. discriminate.
Qed.

Lemma decodeNumber_decodeObject : forall fuel d v d',
  decodeNumber fuel d = Ok v d' -> decodeObject (S fuel) d = Ok v d'.
Proof.
  intros fuel d v d' H.
  unfold decodeNumber in H. unfold bind at 1 in H.
  destruct (peek d) as [t d1| | |] eqn:Hp; try discriminate.
  pose proof (peek_inv _ _ _ Hp) as (-> & _ & _). cbv beta iota zeta in H.
  fold (is_float_byte t) in H.
  destruct (is_float_byte t) eqn:Hf.
  - rewrite (decodeObject_float fuel d t Hp Hf). exact H.
  - major_is t CborTypes.TYPE_POSINT; [|major_is t CborTypes.TYPE_NEGINT;
      [|major_is t CborTypes.TYPE_TAG]].
    + rewrite (decodeObject_not_simple fuel d t Hp) by (rewrite E; discriminate).
      cbv zeta. rewrite E in *. tests. exact H.
    + rewrite (decodeObject_not_simple fuel d t Hp) by (rewrite E0; discriminate).
      cbv zeta. rewrite E0 in *. tests. exact H.
    + rewrite (decodeObject_not_simple fuel d t Hp) by (rewrite E1; discriminate).
      cbv zeta. rewrite E1 in *. tests.
      unfold _decodeTaggedType_with.
      unfold bind in H |- *. destruct (_decodeTag t d) as [tag d1| | |]; try discriminate.
      destruct (strict_eq tag CborTypes.TAG_POSBIGINT || strict_eq tag CborTypes.TAG_NEGBIGINT);
        [exact H|].
      destruct (strict_eq tag CborTypes.TAG_DECIMAL); [exact H|discriminate].
    + cbn [orb] in H. discriminate.
Qed.

Lemma decodeFloat_decodeObject : forall fuel d f d',
  decodeFloat d = Ok f d' -> decodeObject (S fuel) d = Ok (VNumber (Flt f)) d'.
Proof.
  intros fuel d f d' H. pose proof H as H0.
  unfold decodeFloat in H. unfold bind at 1 in H.
  destruct (peek d) as [t d1| | |] eqn:Hp; try discriminate.
  pose proof (peek_inv _ _ _ Hp) as (-> & _ & _). cbv beta iota in H.
  assert (Hf : is_float_byte t = true).
  { unfold is_float_byte.
    destruct (tb_eq t CborTypes.TYPE_FLOAT_16); [reflexivity|].
    destruct (tb_eq t CborTypes.TYPE_FLOAT_32); [reflexivity|].
    destruct (tb_eq t CborTypes.TYPE_FLOAT_64); [reflexivity|].
    discriminate. }
  rewrite (decodeObject_float fuel d t Hp Hf). unfold bind. rewrite H0. reflexivity.
Qed.

Lemma decodeBytes_decodeObject : forall fuel d bs d',
  decodeBytes fuel d = Ok bs d' -> decodeObject (S fuel) d = Ok (VBytes bs) d'.
Proof.
  intros fuel d bs d' H. pose proof H as H0.
  unfold decodeBytes in H. unfold bind at 1 in H.
  destruct (peek d) as [t d1| | |] eqn:Hp; try discriminate.
  pose proof (peek_inv _ _ _ Hp) as (-> & _ & _). cbv beta iota in H.
  unfold CborTypes.isMajorType in H.
  major_is t CborTypes.TYPE_BYTES; [|discriminate].
  rewrite (decodeObject_not_simple fuel d t Hp) by (rewrite E; discriminate).
  cbv zeta. rewrite E. tests. unfold bind. rewrite H0. reflexivity.
Qed.

Lemma decodeString_decodeObject : forall fuel d v d',
  decodeString fuel d = Ok v d' -> decodeObject (S fuel) d = Ok v d'.
Proof.
  intros fuel d v d' H. pose proof H as H0.
  unfold decodeString in H. unfold bind at 1 in H.
  destruct (peek d) as [t d1| | |] eqn:Hp; try discriminate.
  pose proof (peek_inv _ _ _ Hp) as (-> & _ & _). cbv beta iota in H.
  unfold CborTypes.isMajorType in H.
  major_is t CborTypes.TYPE_UTF; [|discriminate].
  rewrite (decodeObject_not_simple fuel d t Hp) by (rewrite E; discriminate).
  cbv zeta. rewrite E. tests. exact H0.
Qed.

Lemma decodeArray_decodeObject : forall fuel d v d',
  decodeArray fuel d = Ok v d' -> decodeObject (S fuel) d = Ok v d'.
Proof.
  intros fuel d v d' H. pose proof H as H0.
  unfold decodeArray, decodeArray_with, buildArray, processArray, decodeArrayLength in H.
  do 3 unfold bind at 1 in H.
  destruct (peek d) as [t d1| | |] eqn:Hp; try discriminate.
  pose proof (peek_inv _ _ _ Hp) as (-> & _ & _). cbv beta iota in H.
  major_is t CborTypes.TYPE_ARRAY; [|discriminate].
  rewrite (decodeObject_not_simple fuel d t Hp) by (rewrite E; discriminate).
  cbv zeta. rewrite E. tests. exact H0.
Qed.

Lemma decodeMap_decodeObject : forall fuel d v d',
  decodeMap fuel d = Ok v d' -> decodeObject (S fuel) d = Ok v d'.
Proof.
  intros fuel d v d' H. pose proof H as H0.
  unfold decodeMap, decodeMap_with, buildMap, processMap, decodeMapLength in H.
  do 3 unfold bind at 1 in H.
  destruct (peek d) as [t d1| | |] eqn:Hp; try discriminate.
  pose proof (peek_inv _ _ _ Hp) as (-> & _ & _). cbv beta iota in H.
  major_is t CborTypes.TYPE_MAP; [|discriminate].
  rewrite (decodeObject_not_simple fuel d t Hp) by (rewrite E; discriminate).
  cbv zeta. rewrite E. tests. exact H0.
Qed.

Lemma agrees_intro : forall A (f : A -> value) (m : M A) (g : M value),
  (forall d a d', m d = Ok a d' -> g d = Ok (f a) d') -> agrees f m g.
Proof.
  intros A f m g H d. destruct (m d) as [a d'| | |] eqn:E; auto.
Qed.

(** X7.  The typed decoders are consistent with the generic one: whenever
    [decodeInt], [decodeNumber], [decodeFloat], [decodeBytes],
    [decodeString], [decodeArray] or [decodeMap] returns a value,
    [decodeObject] on the same decoder returns that value and leaves the
    decoder in the same state; and [decodeNumber] likewise returns what
    [decodeInt] returns. *)
Theorem typed_decoders_agree : forall fuel,
  agrees (fun v => v) (decodeInt fuel) (decodeNumber fuel)
  /\ agrees (fun v => v) (decodeNumber fuel) (decodeObject (S fuel))
  /\ agrees (fun f => VNumber (Flt f)) decodeFloat (decodeObject (S fuel))
  /\ agrees VBytes (decodeBytes fuel) (decodeObject (S fuel))
  /\ agrees (fun v => v) (decodeString fuel) (decodeObject (S fuel))
  /\ agrees (fun v => v) (decodeArray fuel) (decodeObject (S fuel))
  /\ agrees (fun v => v) (decodeMap fuel) (decodeObject (S fuel)).
Proof.
  intro fuel. repeat split; apply agrees_intro; intros d a d'.
  - apply decodeInt_decodeNumber.
  - apply decodeNumber_decodeObject.
  - apply decodeFloat_decodeObject.
  - apply decodeBytes_decodeObject.
  - apply decodeString_decodeObject.
  - apply decodeArray_decodeObject.
  - apply decodeMap_decodeObject.
Qed.

(** ** Tags without a built-in meaning *)

(** The tagged-type decoder on such a tag hands over to the decoder of
    the tagged item. *)
Lemma tagged_pass_through : forall (fn : M value) fuel d w n tb tl rest,
  fits_wide w n ->
  n <> CborTypes.TAG_POSBIGINT -> n <> CborTypes.TAG_NEGBIGINT ->
  n <> CborTypes.TAG_DECIMAL ->
  unhandled d (magnitude_of n) ->
  0 <= start d ->
  head CborTypes.TYPE_TAG w n = tb :: tl ->
  cursor_bytes d = head CborTypes.TYPE_TAG w n ++ rest ->
  limit_allows d (head_length w) ->
  peek d = Ok (Some tb) d
  /\ CborTypes.majorType (Some tb) = CborTypes.TYPE_TAG
  /\ _decodeTaggedType_with fn fuel (Some tb) d
     = fn (set_start (start d + head_length w) d).
Proof.
  intros fn fuel d w n tb tl rest Hfit H2 H3 H4 Hun Hs Hhd Hcur Hlim.
  assert (Hmaj : is_major CborTypes.TYPE_TAG) by (exists 6; split; [lia|reflexivity]).
  pose proof (head_length_pos w) as Hw.
  destruct (decodeValue_head_wide d _ w n tb tl rest Hmaj Hfit Hs Hhd Hcur Hlim)
    as [HM Hrun].
  split.
  { exact (peek_at d tb (tl ++ rest) _ Hs ltac:(rewrite Hcur, Hhd; reflexivity) Hlim Hw). }
  split; [exact HM|].
  unfold _decodeTaggedType_with, _decodeTag, CborTypes.isMajorType.
  rewrite HM. tests. unfold bind at 1. rewrite Hrun.
  fold (magnitude_of n) in *.
  assert (Hne : forall c, n <> c -> strict_eq (magnitude_of n) c = false).
  { intros c Hc. unfold magnitude_of. destruct (n <=? 2 ^ 53 - 1); cbn [strict_eq];
      [apply Z.eqb_neq; exact Hc|reflexivity]. }
  rewrite (Hne _ H2), (Hne _ H3), (Hne _ H4). cbn [orb].
  unfold bind, gets. unfold unhandled in Hun. cbn [tagHandlers set_start].
  destruct (tagHandlers d) as [registered|]; [rewrite Hun|]; reflexivity.
Qed.

(** X8.  A tag that is none of the three built-in ones (2, 3, 4) and has no
    registered handler is passed through: [decodeObject] on the tag's head
    decodes the item that follows it, as if the tag were not there. *)
Theorem unknown_tag_transparent : forall fuel d w n rest,
  fits_wide w n ->
  n <> CborTypes.TAG_POSBIGINT -> n <> CborTypes.TAG_NEGBIGINT ->
  n <> CborTypes.TAG_DECIMAL ->
  unhandled d (magnitude_of n) ->
  0 <= start d ->
  cursor_bytes d = head CborTypes.TYPE_TAG w n ++ rest ->
  limit_allows d (head_length w) ->
  decodeObject (S fuel) d = decodeObject fuel (set_start (start d + head_length w) d).
Proof.
  intros fuel d w n rest Hfit H2 H3 H4 Hun Hs Hcur Hlim.
  destruct (head_first CborTypes.TYPE_TAG w n) as (tb & tl & Hhd).
  destruct (tagged_pass_through (decodeObject fuel) fuel d w n tb tl rest
              Hfit H2 H3 H4 Hun Hs Hhd Hcur Hlim) as (Hp & HM & Hrun).
  rewrite (decodeObject_not_simple fuel d (Some tb) Hp) by (rewrite HM; discriminate).
  cbv zeta. rewrite HM. tests. exact Hrun.
Qed.

(** The integer 1 under the tag 1, and under the tags 1 and 100 nested. *)
Lemma unknown_tag_transparent_witness :
  let d := new_CborDecoder [xc1; x01] None None None in
  let d2 := new_CborDecoder [xc1; xd8; x64; x01] None None None in
  decodeObject 2 d = decodeObject 1 (set_start 1 d)
  /\ decodeObject 1 (set_start 1 d) = Ok (VNumber (Int 1)) (set_start 2 d)
  /\ decodeObject 3 d2 = decodeObject 2 (set_start 1 d2).
Proof.
  intros d d2. split; [|split].
  - refine (unknown_tag_transparent 1 d Inline 1 [x01] _ _ _ _ _ _ eq_refl _);
      cbv; try split; congruence.
  - reflexivity.
  - refine (unknown_tag_transparent 2 d2 Inline 1 [xd8; x64; x01] _ _ _ _ _ _ eq_refl _);
      cbv; try split; congruence.
Defined.

(** ** Readers of one head *)

Lemma all_or_nothing_peek : all_or_nothing peek.
Proof.
  intro d. unfold peek. run_M. destruct (remaining_lt d (MNum 1)); [reflexivity|].
  exists 0. split; [lia|]. destruct d. unfold set_start. cbn. f_equal. lia.
Qed.

Lemma set_start_same : forall d, set_start (start d + 0) d = d.
Proof. intros []. unfold set_start. cbn. f_equal. lia. Qed.

Lemma all_or_nothing_decodeValue : forall v, all_or_nothing (_decodeValue v).
Proof.
  intros v d. unfold _decodeValue. run_M.
  repeat match goal with
         | |- context [if ?c then _ else _] => destruct c
         | |- context [match ?c with Some _ => _ | None => _ end] => destruct c
         end;
    first [ reflexivity | eexists; split; [|reflexivity]; lia ].
Qed.

Lemma all_or_nothing_after_peek : forall A (k : tbyte -> M A),
  (forall t, all_or_nothing (k t)) ->
  all_or_nothing (t <- peek ;; k t).
Proof.
  intros A k Hk d. unfold bind.
  destruct (peek d) as [t d1| e d1| |] eqn:Hp.
  - apply peek_inv in Hp as (-> & _ & _). apply Hk.
  - pose proof (all_or_nothing_peek d) as H. rewrite Hp in H. exact H.
  - pose proof (all_or_nothing_peek d) as H. rewrite Hp in H. exact H.
  - pose proof (all_or_nothing_peek d) as H. rewrite Hp in H. exact H.
Qed.

Lemma all_or_nothing_throw : forall A e, all_or_nothing (@throw A e).
Proof. intros A e d. reflexivity. Qed.

Lemma all_or_nothing_test : forall c,
  all_or_nothing (val <- peek ;; if tb_eq val c then _consume (MNum 1) ;; ret true
                                  else ret false).
Proof.
  intro c. apply all_or_nothing_after_peek. intros t d.
  destruct (tb_eq t c); run_M.
  - exists 1. split; [lia|reflexivity].
  - exists 0. split; [lia|]. symmetry. apply set_start_same.
Qed.

Lemma all_or_nothing_decodeFloat : all_or_nothing decodeFloat.
Proof.
  unfold decodeFloat. apply all_or_nothing_after_peek. intros t d. run_M.
  repeat match goal with
         | |- context [if ?c then _ else _] => destruct c
         | |- context [match ?c with Some _ => _ | None => _ end] => destruct c
         end;
    first [ reflexivity | eexists; split; [|reflexivity]; lia ].
Qed.

(** X9.  The readers of a single head ([peek], [tryDecodeBreak],
    [tryDecodeNull], [decodeArrayLength], [decodeMapLength], [decodeFloat],
    [_decodeTag], [_decodeValue]) always answer; when one fails, with
    whatever error, the decoder is exactly as it was before the call, and
    when it returns, only the offset has changed, and not backwards. *)
Theorem head_readers_all_or_nothing :
  all_or_nothing peek
  /\ all_or_nothing tryDecodeBreak
  /\ all_or_nothing tryDecodeNull
  /\ all_or_nothing decodeArrayLength
  /\ all_or_nothing decodeMapLength
  /\ all_or_nothing decodeFloat
  /\ (forall t, all_or_nothing (_decodeTag t))
  /\ (forall v, all_or_nothing (_decodeValue v)).
Proof.
  split; [exact all_or_nothing_peek|].
  split; [exact (all_or_nothing_test CborTypes.TYPE_BREAK)|].
  split; [exact (all_or_nothing_test CborTypes.TYPE_NULL)|].
  split.
  { unfold decodeArrayLength. apply all_or_nothing_after_peek. intro t.
    destruct (negb _); [apply all_or_nothing_throw|apply all_or_nothing_decodeValue]. }
  split.
  { unfold decodeMapLength. apply all_or_nothing_after_peek. intro t.
    destruct (negb _); [apply all_or_nothing_throw|apply all_or_nothing_decodeValue]. }
  split; [exact all_or_nothing_decodeFloat|].
  split.
  { intro t. unfold _decodeTag.
    destruct (negb _); [apply all_or_nothing_throw|apply all_or_nothing_decodeValue]. }
  exact all_or_nothing_decodeValue.
Qed.

(** ** Items read back *)

Lemma set_start_twice : forall d j k,
  set_start (start (set_start (start d + j) d) + k) (set_start (start d + j) d)
  = set_start (start d + (j + k)) d.
Proof. intros. unfold set_start. cbn. f_equal. lia. Qed.

Lemma limit_allows_set_start : forall d k n,
  limit_allows d (k + n) -> limit_allows (set_start (start d + k) d) n.
Proof.
  intros d k n. unfold limit_allows, set_start. cbn [_limit start].
  destruct (_limit d); [lia|trivial].
Qed.

Lemma ready_set_start : forall h d k,
  ready h d -> 0 <= k -> ready h (set_start (start d + k) d).
Proof.
  intros h d k (Hs & Hacc & Hh) Hk. unfold ready, set_start.
  cbn [start _byteStreamBuffer tagHandlers]. repeat split; [lia|assumption|assumption].
Qed.

Lemma moved_ready : forall d k,
  _byteStreamBuffer d = [] -> moved d k [] = set_start (start d + k) d.
Proof. intros d k H. rewrite <- moved_set_start, H. reflexivity. Qed.

Lemma fits_fits_wide : forall w n, fits w n -> fits_wide w n.
Proof.
  intros [] n H; cbn [fits fits_wide] in *; try exact H.
  unfold MAX_SAFE_INTEGER in H. lia.
Qed.

Lemma int_head_length : forall w z, encoded_length (int_head w z) = head_length w.
Proof.
  intros w z. unfold int_head, encoded_length.
  destruct (0 <=? z); apply head_length_spec.
Qed.

Lemma container_head_first : forall major len n,
  is_major major -> major <= 192 -> count_fits len n ->
  exists tb tl, container_head major len n = tb :: tl /\ byte_val tb < 255.
Proof.
  intros major len n Hmaj Hle Hfit. destruct len as [w|]; cbn [container_head count_fits] in *.
  - destruct (head_first major w (Z.of_nat n)) as (tb & tl & Hhd).
    destruct (head_range major w _ tb tl Hmaj (fits_fits_wide _ _ Hfit) Hhd) as [_ Hr].
    exists tb, tl. split; [exact Hhd|lia].
  - eexists. eexists. split; [reflexivity|].
    destruct (head_type_byte major CborTypes.SIZE_STREAM Hmaj ltac:(cbv; split; congruence))
      as (Hv & _ & _).
    rewrite Hv. unfold CborTypes.SIZE_STREAM. lia.
Qed.

Lemma string_first_range : forall major e,
  is_major major -> major <= 192 -> string_fits e ->
  exists tb tl, string_bytes major e = tb :: tl /\ byte_val tb < 255.
Proof.
  intros major [w c|segments] Hmaj Hle Hfit; cbn [string_bytes string_fits] in *.
  - destruct (definite_first major w c) as (tb & tl & Hhd & Hdef).
    destruct (head_range major w _ tb tl Hmaj (fits_fits_wide _ _ Hfit) Hhd) as [_ Hr].
    exists tb, (tl ++ c). split; [exact Hdef|lia].
  - eexists. eexists. split; [reflexivity|].
    destruct (head_type_byte major CborTypes.SIZE_STREAM Hmaj ltac:(cbv; split; congruence))
      as (Hv & _ & _).
    rewrite Hv. unfold CborTypes.SIZE_STREAM. lia.
Qed.

(** No item begins with the stop marker. *)
Lemma encode_first : forall h i,
  well_formed h i -> exists b tl, encode i = b :: tl /\ byte_val b < 255.
Proof.
  intros h i Hwf. destruct Hwf; cbn [encode].
  - exists xf6, []. split; reflexivity.
  - exists xf7, []. split; reflexivity.
  - destruct b; [exists xf5, []|exists xf4, []]; split; reflexivity.
  - destruct (int_head_first w z H) as (tb & tl & Hhd & Hr & _).
    exists tb, tl. split; [exact Hhd|lia].
  - apply string_first_range; [exists 2; split; [lia|reflexivity]|cbv; congruence|exact H].
  - apply string_first_range; [exists 3; split; [lia|reflexivity]|cbv; congruence|exact H].
  - destruct (container_head_first CborTypes.TYPE_ARRAY len (List.length elems))
      as (tb & tl & Hhd & Hr);
      [exists 4; split; [lia|reflexivity]|cbv; congruence|exact H|].
    rewrite Hhd. exists tb. eexists. split; [reflexivity|exact Hr].
  - destruct (container_head_first CborTypes.TYPE_MAP len (List.length entries))
      as (tb & tl & Hhd & Hr);
      [exists 5; split; [lia|reflexivity]|cbv; congruence|exact H|].
    rewrite Hhd. exists tb. eexists. split; [reflexivity|exact Hr].
  - destruct (head_first CborTypes.TYPE_TAG w n) as (tb & tl & Hhd).
    destruct (head_range CborTypes.TYPE_TAG w n tb tl
                ltac:(exists 6; split; [lia|reflexivity]) H Hhd) as [_ Hr].
    rewrite Hhd. exists tb. eexists. split; [reflexivity|].
    unfold CborTypes.TYPE_TAG in Hr. lia.
Qed.

Lemma encode_length_pos : forall h i,
  well_formed h i -> 1 <= encoded_length (encode i).
Proof.
  intros h i Hwf. destruct (encode_first h i Hwf) as (b & tl & -> & _).
  unfold encoded_length. cbn [List.length]. lia.
Qed.

Lemma size_pos : forall i, (1 <= size i)%nat.
Proof. intros []; cbn [size]; lia. Qed.

Lemma length_le_sizes : forall elems,
  (List.length elems <= list_sum (map size elems))%nat.
Proof.
  induction elems as [|e elems IH]; cbn [List.length map]; [cbn; lia|].
  change (list_sum (size e :: map size elems))
    with (size e + list_sum (map size elems))%nat.
  pose proof (size_pos e). lia.
Qed.

(** The four simple values. *)
Lemma simple_run : forall fuel d b rest v,
  (b = xf6 /\ v = VNull) \/ (b = xf7 /\ v = VNull)
  \/ (b = xf5 /\ v = VBool true) \/ (b = xf4 /\ v = VBool false) ->
  0 <= start d ->
  cursor_bytes d = b :: rest ->
  limit_allows d 1 ->
  decodeObject (S fuel) d = Ok v (set_start (start d + 1) d).
Proof.
  intros fuel d b rest v Hb Hs Hcur Hlim.
  pose proof (peek_at d b rest 1 Hs Hcur Hlim ltac:(lia)) as Hp.
  cbn [decodeObject]. unfold tryDecodeNull. unfold bind at 1. unfold bind at 1.
  rewrite Hp. cbv beta iota.
  destruct Hb as [[-> ->]|[[-> ->]|[[-> ->]|[-> ->]]]].
  - reflexivity.
  - change (tb_eq (Some xf7) CborTypes.TYPE_NULL) with false. cbv iota.
    unfold ret at 1. cbv beta iota. unfold bind at 1. rewrite Hp. reflexivity.
  - change (tb_eq (Some xf5) CborTypes.TYPE_NULL) with false. cbv iota.
    unfold ret at 1. cbv beta iota. unfold bind at 1. rewrite Hp. reflexivity.
  - change (tb_eq (Some xf4) CborTypes.TYPE_NULL) with false. cbv iota.
    unfold ret at 1. cbv beta iota. unfold bind at 1. rewrite Hp. reflexivity.
Qed.

(** The head of an array or map. *)
Lemma container_head_run : forall d major len n rest,
  is_major major -> count_fits len n ->
  0 <= start d ->
  cursor_bytes d = container_head major len n ++ rest ->
  limit_allows d (encoded_length (container_head major len n)) ->
  exists tb,
    peek d = Ok (Some tb) d
    /\ CborTypes.majorType (Some tb) = major
    /\ _decodeValue (Some tb) d
       = Ok (MNum (match len with Some _ => Z.of_nat n | None => -1 end))
            (set_start (start d + encoded_length (container_head major len n)) d).
Proof.
  intros d major len n rest Hmaj Hfit Hs Hcur Hlim.
  destruct len as [w|]; cbn [container_head count_fits] in *.
  - destruct (head_first major w (Z.of_nat n)) as (tb & tl & Hhd).
    unfold encoded_length in *. rewrite head_length_spec in *.
    destruct (decodeValue_head d major w _ tb tl rest Hmaj Hfit Hs Hhd Hcur Hlim)
      as (HM & _ & Hrun).
    exists tb. split; [|split; assumption].
    apply (peek_at d tb (tl ++ rest) _ Hs ltac:(rewrite Hcur, Hhd; reflexivity) Hlim).
    apply head_length_pos.
  - exists (byte_of_Z (major + CborTypes.SIZE_STREAM)).
    destruct (stream_marker_run d major _ Hmaj eq_refl) as [HM Hrun].
    split; [|split; assumption].
    apply (peek_at d _ rest _ Hs Hcur Hlim). cbv. congruence.
Qed.

Lemma counter_definite : forall n j,
  0 <= j < n -> counter_neq j (MNum n) = true.
Proof.
  intros n j H. unfold counter_neq, loose_neq, loose_eq.
  destruct (Z.eqb_spec n j); [lia|reflexivity].
Qed.

Lemma counter_reached : forall n, counter_neq n (MNum n) = false.
Proof. intro n. unfold counter_neq, loose_neq, loose_eq. rewrite Z.eqb_refl. reflexivity. Qed.

Lemma counter_indefinite : forall j, 0 <= j -> counter_neq j (MNum (-1)) = true.
Proof.
  intros j H. unfold counter_neq, loose_neq, loose_eq.
  destruct (Z.eqb_spec (-1) j); [lia|reflexivity].
Qed.

(** How the loop of a container goes on and ends, for the length its head
    spells. *)
Lemma container_loop : forall len n d rest,
  0 <= start d ->
  cursor_bytes d = container_end len ++ rest ->
  limit_allows d (encoded_length (container_end len)) ->
  let length := MNum (match len with Some _ => Z.of_nat n | None => -1 end) in
  (forall j, 0 <= j < 0 + Z.of_nat n -> counter_neq j length = true)
  /\ loop_ends length (0 + Z.of_nat n) d
       (set_start (start d + encoded_length (container_end len)) d).
Proof.
  intros len n d rest Hs Hcur Hlim length. unfold length.
  destruct len as [w|]; cbn [container_end] in *.
  - split; [intros j Hj; apply counter_definite; lia|].
    left. split; [apply counter_reached|]. apply set_start_same.
  - split; [intros j Hj; apply counter_indefinite; lia|].
    right. split; [apply counter_indefinite; lia|].
    exact (tryDecodeBreak_at_break d rest _ Hs Hcur Hlim ltac:(cbv; congruence)).
Qed.

Section Elements.

Variable h : option (magnitude -> bool).
Variable f : nat.

(** The generic decoder with fuel [f] reads back every item that is small
    enough. *)
Hypothesis reads_back : forall i d rest,
  well_formed h i -> (size i < f)%nat -> ready h d ->
  cursor_bytes d = encode i ++ rest ->
  limit_allows d (encoded_length (encode i)) ->
  decodeObject f d
  = Ok (value_of i) (set_start (start d + encoded_length (encode i)) d).

(** Then it reads back the elements of an array, one after the other. *)
Lemma elements_items_run : forall elems d rest,
  Forall (well_formed h) elems ->
  (list_sum (map size elems) < f)%nat ->
  ready h d ->
  cursor_bytes d = List.concat (map encode elems) ++ rest ->
  limit_allows d (encoded_length (List.concat (map encode elems))) ->
  items_run (decodeObject f) d (map value_of elems)
    (set_start (start d + encoded_length (List.concat (map encode elems))) d).
Proof.
  induction elems as [|e elems IHelems]; intros d rest Hwf Hsize Hready Hcur Hlim.
  - cbn [map List.concat]. change (encoded_length []) with 0.
    rewrite set_start_same. apply items_nil.
  - cbn [map List.concat] in *.
    change (list_sum (size e :: map size elems))
      with (size e + list_sum (map size elems))%nat in Hsize.
    inversion Hwf as [|? ? He Hes]; subst.
    rewrite <- app_assoc in Hcur. rewrite encoded_length_app in *.
    destruct (encode_first h e He) as (b & tl & Hb & Hr).
    pose proof (encode_length_pos h e He) as Hpos.
    pose proof (encoded_length_nonneg (List.concat (map encode elems))) as Hnn.
    pose proof Hready as (Hs & _ & _).
    apply (items_cons _ d (value_of e)
             (set_start (start d + encoded_length (encode e)) d)).
    + apply (tryDecodeBreak_not_break d b
               (tl ++ List.concat (map encode elems) ++ rest) _ Hs
               ltac:(rewrite Hcur, Hb; reflexivity) Hlim ltac:(lia) Hr).
    + apply (reads_back e d (List.concat (map encode elems) ++ rest) He
               ltac:(lia) Hready Hcur).
      apply (limit_allows_le d _ _ Hlim). lia.
    + rewrite <- set_start_twice. apply (IHelems _ rest Hes).
      * lia.
      * apply ready_set_start; [exact Hready|lia].
      * apply (cursor_skip d _ (encode e) _ Hs Hcur). reflexivity.
      * apply limit_allows_set_start. exact Hlim.
Qed.

(** And the entries of a map, key and value. *)
Lemma entries_entries_run : forall (entries : list (item * item)) d rest,
  Forall (fun kv => well_formed h (fst kv) /\ well_formed h (snd kv)) entries ->
  (list_sum (map (fun kv : item * item => let (k, v) := kv in size k + size v) entries)
   < f)%nat ->
  ready h d ->
  cursor_bytes d
  = List.concat (map (fun kv : item * item => let (k, v) := kv in encode k ++ encode v)
                     entries) ++ rest ->
  limit_allows d
    (encoded_length
       (List.concat (map (fun kv : item * item => let (k, v) := kv in encode k ++ encode v)
                         entries))) ->
  entries_run (decode_entry f) d
    (map (fun kv : item * item => (value_of (fst kv), value_of (snd kv))) entries)
    (set_start
       (start d
        + encoded_length
            (List.concat
               (map (fun kv : item * item => let (k, v) := kv in encode k ++ encode v)
                    entries))) d).
Proof.
  induction entries as [|[k v] entries IHentries]; intros d rest Hwf Hsize Hready Hcur Hlim.
  - cbn [map List.concat]. change (encoded_length []) with 0.
    rewrite set_start_same. apply entries_nil.
  - cbn [map List.concat fst snd] in *.
    match type of Hsize with
    | (list_sum (?x :: ?l) < _)%nat =>
        change (list_sum (x :: l)) with (x + list_sum l)%nat in Hsize
    end.
    inversion Hwf as [|? ? [Hk Hv] Hes]; subst. cbn [fst snd] in *.
    set (tail := List.concat
                   (map (fun kv : item * item => let (k, v) := kv in encode k ++ encode v)
                        entries)) in *.
    rewrite <- !app_assoc in Hcur. rewrite !encoded_length_app in *.
    destruct (encode_first h k Hk) as (b & tl & Hb & Hr).
    pose proof (encode_length_pos h k Hk) as Hposk.
    pose proof (encode_length_pos h v Hv) as Hposv.
    pose proof (encoded_length_nonneg tail) as Hnn.
    pose proof Hready as (Hs & _ & _).
    set (d1 := set_start (start d + encoded_length (encode k)) d).
    assert (Hready1 : ready h d1) by (apply ready_set_start; [exact Hready|lia]).
    apply (entries_cons _ d (value_of k) (value_of v)
             (set_start (start d + (encoded_length (encode k) + encoded_length (encode v))) d)).
    + apply (tryDecodeBreak_not_break d b
               (tl ++ encode v ++ tail ++ rest) _ Hs
               ltac:(rewrite Hcur, Hb; reflexivity) Hlim ltac:(lia) Hr).
    + unfold decode_entry. unfold bind at 1.
      assert (Hlimk : limit_allows d (encoded_length (encode k)))
        by (apply (limit_allows_le d _ _ Hlim); lia).
      rewrite (reads_back k d (encode v ++ tail ++ rest) Hk ltac:(lia) Hready Hcur Hlimk).
      fold d1. unfold bind at 1.
      rewrite (reads_back v d1 (tail ++ rest) Hv ltac:(lia) Hready1).
      * unfold d1. rewrite set_start_twice. reflexivity.
      * apply (cursor_skip d _ (encode k) _ Hs Hcur). reflexivity.
      * apply limit_allows_set_start. apply (limit_allows_le d _ _ Hlim). lia.
    + rewrite <- (set_start_twice d (encoded_length (encode k) + encoded_length (encode v))
                    (encoded_length tail)).
      apply (IHentries _ rest Hes).
      * lia.
      * apply ready_set_start; [exact Hready|lia].
      * rewrite app_assoc in Hcur.
        apply (cursor_skip d _ (encode k ++ encode v) _ Hs Hcur).
        unfold encoded_length. rewrite length_app. lia.
      * apply limit_allows_set_start. exact Hlim.
Qed.

End Elements.

Lemma set_stream_moved : forall d k acc,
  _byteStreamBuffer d = [] ->
  set_stream [] (moved d k acc) = set_start (start d + k) d.
Proof.
  intros d k acc H. unfold set_stream, moved, set_start.
  cbn [buffer start _limit tagHandlers _byteStreamBuffer subDecoder].
  rewrite H. reflexivity.
Qed.

(** The property names and values of the entries of a well-formed map. *)
Lemma names_of_entries : forall (entries : list (item * item)),
  Forall (fun kv => ToPropertyKey (value_of (fst kv)) <> None
                    /\ ordinary_key (entry_name kv)) entries ->
  Forall2 key_of
    (map (fun kv : item * item => (value_of (fst kv), value_of (snd kv))) entries)
    (map entry_name entries)
  /\ Forall ordinary_key (map entry_name entries)
  /\ combine (map entry_name entries)
       (map snd (map (fun kv : item * item => (value_of (fst kv), value_of (snd kv)))
                     entries))
     = map (fun kv : item * item =>
              let (k, v) := kv in (property_name (value_of k), value_of v)) entries.
Proof.
  induction entries as [|[k v] entries IH]; intro H.
  - repeat split; constructor.
  - inversion H as [|? ? [Hk Ho] Hrest]; subst. cbn [fst snd] in *.
    destruct (IH Hrest) as (IH1 & IH2 & IH3).
    cbn [map fst snd combine]. split; [|split].
    + constructor; [|exact IH1]. unfold key_of, entry_name, property_name.
      cbn [fst]. destruct (ToPropertyKey (value_of k)); [reflexivity|contradiction].
    + constructor; assumption.
    + rewrite IH3. reflexivity.
Qed.

(** The induction behind the round trip: on the fuel, which bounds the size
    of the item. *)
Lemma decodeObject_reads_back : forall h fuel i d rest,
  well_formed h i ->
  (size i < fuel)%nat ->
  ready h d ->
  cursor_bytes d = encode i ++ rest ->
  limit_allows d (encoded_length (encode i)) ->
  decodeObject fuel d
  = Ok (value_of i) (set_start (start d + encoded_length (encode i)) d).
Proof.
  intro h. induction fuel as [|f IH]; intros i d rest Hwf Hsize Hready Hcur Hlim; [lia|].
  pose proof Hready as (Hs & Hacc & Hh).
  destruct Hwf; cbn [encode value_of size] in *.
  - apply (simple_run f d xf6 rest VNull); auto.
  - apply (simple_run f d xf7 rest VNull); auto.
  - destruct b.
    + apply (simple_run f d xf5 rest (VBool true)); auto.
    + apply (simple_run f d xf4 rest (VBool false)); auto.
  - (* integers *)
    destruct (int_head_first w z H) as (tb & tl & Hhd & _ & Hns & Htest).
    rewrite int_head_length in *.
    pose proof (peek_at d tb (tl ++ rest) _ Hs ltac:(rewrite Hcur, Hhd; reflexivity)
                  Hlim (head_length_pos w)) as Hp.
    rewrite (decodeObject_not_simple f d (Some tb) Hp Hns). cbv zeta. rewrite Htest.
    rewrite (decodeInt_magnitude f d w z rest H Hs Hcur Hlim).
    rewrite int_result_value. reflexivity.
  - (* byte strings *)
    assert (Hmaj : is_major CborTypes.TYPE_BYTES) by (exists 2; split; [lia|reflexivity]).
    destruct (string_first CborTypes.TYPE_BYTES e) as (tb & tl & Hhd).
    destruct (string_run f d _ e tb tl rest Hmaj H Hs Hhd Hcur Hlim ltac:(lia))
      as [HM Hrun].
    pose proof (peek_at d tb (tl ++ rest) _ Hs ltac:(rewrite Hcur, Hhd; reflexivity)
                  Hlim (string_length_pos _ e)) as Hp.
    rewrite (decodeObject_not_simple f d (Some tb) Hp) by (rewrite HM; discriminate).
    cbv zeta. rewrite HM.
    cbn [Z.eqb Pos.eqb orb CborTypes.TYPE_BYTES CborTypes.TYPE_POSINT CborTypes.TYPE_NEGINT].
    unfold decodeBytes. unfold bind at 1. unfold bind at 1. rewrite Hp.
    unfold CborTypes.isMajorType. rewrite HM.
    cbn [Z.eqb Pos.eqb negb CborTypes.TYPE_BYTES].
    unfold bind at 1. rewrite Hrun. unfold stream_read. run_M.
    cbn [_byteStreamBuffer moved]. rewrite Hacc. cbn [app].
    rewrite (set_stream_moved d _ _ Hacc). reflexivity.
  - (* text strings *)
    assert (Hmaj : is_major CborTypes.TYPE_UTF) by (exists 3; split; [lia|reflexivity]).
    destruct (string_first CborTypes.TYPE_UTF e) as (tb & tl & Hhd).
    destruct (string_run f d _ e tb tl rest Hmaj H Hs Hhd Hcur Hlim ltac:(lia))
      as [HM Hrun].
    pose proof (peek_at d tb (tl ++ rest) _ Hs ltac:(rewrite Hcur, Hhd; reflexivity)
                  Hlim (string_length_pos _ e)) as Hp.
    rewrite (decodeObject_not_simple f d (Some tb) Hp) by (rewrite HM; discriminate).
    cbv zeta. rewrite HM.
    cbn [Z.eqb Pos.eqb orb CborTypes.TYPE_BYTES CborTypes.TYPE_UTF
         CborTypes.TYPE_POSINT CborTypes.TYPE_NEGINT].
    unfold decodeString. unfold bind at 1. rewrite Hp.
    unfold CborTypes.isMajorType. rewrite HM.
    cbn [Z.eqb Pos.eqb negb CborTypes.TYPE_UTF].
    unfold bind at 1. rewrite Hrun. unfold stream_read. run_M.
    cbn [_byteStreamBuffer moved]. rewrite Hacc. cbn [app].
    rewrite (set_stream_moved d _ _ Hacc). reflexivity.
  - (* arrays *)
    assert (Hmaj : is_major CborTypes.TYPE_ARRAY) by (exists 4; split; [lia|reflexivity]).
    rewrite !encoded_length_app in *. rewrite <- !app_assoc in Hcur.
    set (hd := container_head CborTypes.TYPE_ARRAY len (List.length elems)) in *.
    set (body := List.concat (map encode elems)) in *.
    pose proof (encoded_length_nonneg hd) as Hn1.
    pose proof (encoded_length_nonneg body) as Hn2.
    pose proof (encoded_length_nonneg (container_end len)) as Hn3.
    destruct (container_head_run d _ len (List.length elems) (body ++ container_end len ++ rest)
                Hmaj H Hs Hcur) as (tb & Hp & HM & Hrun).
    { apply (limit_allows_le d _ _ Hlim). fold hd. lia. }
    fold hd in Hrun.
    rewrite (decodeObject_not_simple f d (Some tb) Hp) by (rewrite HM; discriminate).
    cbv zeta. rewrite HM.
    cbn [Z.eqb Pos.eqb orb CborTypes.TYPE_BYTES CborTypes.TYPE_UTF CborTypes.TYPE_ARRAY
         CborTypes.TYPE_POSINT CborTypes.TYPE_NEGINT].
    unfold decodeArray_with, buildArray, processArray, decodeArrayLength.
    unfold bind at 1. unfold bind at 1. unfold bind at 1. rewrite Hp.
    rewrite HM. cbn [Z.eqb Pos.eqb negb CborTypes.TYPE_ARRAY]. rewrite Hrun.
    set (d1 := set_start (start d + encoded_length hd) d).
    assert (Hready1 : ready h d1) by (apply ready_set_start; [exact Hready|lia]).
    assert (Hcur1 : cursor_bytes d1 = body ++ container_end len ++ rest).
    { apply (cursor_skip d _ hd _ Hs Hcur). reflexivity. }
    assert (Hlim1 : limit_allows d1 (encoded_length body + encoded_length (container_end len))).
    { apply limit_allows_set_start. apply (limit_allows_le d _ _ Hlim). lia. }
    pose proof (elements_items_run h f IH elems d1 (container_end len ++ rest) H0
                  ltac:(lia) Hready1 Hcur1
                  (limit_allows_le d1 _ (encoded_length body) Hlim1 ltac:(lia))) as Hitems.
    fold body in Hitems.
    set (d2 := set_start (start d1 + encoded_length body) d1) in *.
    destruct (container_loop len (List.length elems) d2 rest) as [Hcont Hend].
    { unfold d2, d1. cbn [start set_start]. lia. }
    { apply (cursor_skip d1 _ body _ (proj1 Hready1) Hcur1). reflexivity. }
    { apply limit_allows_set_start. exact Hlim1. }
    fold (push (decodeObject f)).
    rewrite (process_loop_items (decodeObject f) _ _ d1 d2 Hitems f 0 []
               (set_start (start d2 + encoded_length (container_end len)) d2)).
    + unfold ret, d2, d1. rewrite !set_start_twice. reflexivity.
    + rewrite length_map. exact Hcont.
    + rewrite length_map. exact Hend.
    + rewrite length_map. pose proof (length_le_sizes elems). lia.
  - (* maps *)
    assert (Hmaj : is_major CborTypes.TYPE_MAP) by (exists 5; split; [lia|reflexivity]).
    rewrite !encoded_length_app in *. rewrite <- !app_assoc in Hcur.
    set (hd := container_head CborTypes.TYPE_MAP len (List.length entries)) in *.
    set (body := List.concat
                   (map (fun kv : item * item => let (k, v) := kv in encode k ++ encode v)
                        entries)) in *.
    pose proof (encoded_length_nonneg hd) as Hn1.
    pose proof (encoded_length_nonneg body) as Hn2.
    pose proof (encoded_length_nonneg (container_end len)) as Hn3.
    destruct (container_head_run d _ len (List.length entries)
                (body ++ container_end len ++ rest) Hmaj H Hs Hcur)
      as (tb & Hp & HM & Hrun).
    { apply (limit_allows_le d _ _ Hlim). fold hd. lia. }
    fold hd in Hrun.
    rewrite (decodeObject_not_simple f d (Some tb) Hp) by (rewrite HM; discriminate).
    cbv zeta. rewrite HM.
    cbn [Z.eqb Pos.eqb orb CborTypes.TYPE_BYTES CborTypes.TYPE_UTF CborTypes.TYPE_ARRAY
         CborTypes.TYPE_MAP CborTypes.TYPE_POSINT CborTypes.TYPE_NEGINT].
    unfold decodeMap_with, buildMap, processMap, decodeMapLength.
    fold (decode_entry f).
    unfold bind at 1. unfold bind at 1. unfold bind at 1. rewrite Hp.
    rewrite HM. cbn [Z.eqb Pos.eqb negb CborTypes.TYPE_MAP]. rewrite Hrun.
    set (d1 := set_start (start d + encoded_length hd) d).
    assert (Hready1 : ready h d1) by (apply ready_set_start; [exact Hready|lia]).
    assert (Hcur1 : cursor_bytes d1 = body ++ container_end len ++ rest).
    { apply (cursor_skip d _ hd _ Hs Hcur). reflexivity. }
    assert (Hlim1 : limit_allows d1 (encoded_length body + encoded_length (container_end len))).
    { apply limit_allows_set_start. apply (limit_allows_le d _ _ Hlim). lia. }
    pose proof (entries_entries_run h f IH entries d1 (container_end len ++ rest) H0
                  ltac:(lia) Hready1 Hcur1
                  (limit_allows_le d1 _ (encoded_length body) Hlim1 ltac:(lia))) as Hrun_entries.
    fold body in Hrun_entries.
    set (d2 := set_start (start d1 + encoded_length body) d1) in *.
    destruct (container_loop len (List.length entries) d2 rest) as [Hcont Hend].
    { unfold d2, d1. cbn [start set_start]. lia. }
    { apply (cursor_skip d1 _ body _ (proj1 Hready1) Hcur1). reflexivity. }
    { apply limit_allows_set_start. exact Hlim1. }
    destruct (names_of_entries entries H1) as (Hkeys & Hord & Hcomb).
    rewrite (process_loop_entries (decode_entry f) _ _ d1 d2 Hrun_entries f 0 empty_object
               (map entry_name entries)
               (set_start (start d2 + encoded_length (container_end len)) d2) Hkeys Hord).
    + unfold ret, d2, d1. rewrite !set_start_twice. cbn [props proto empty_object app].
      rewrite Hcomb. reflexivity.
    + split; [reflexivity|intros []].
    + rewrite length_map. exact Hcont.
    + rewrite length_map. exact Hend.
    + rewrite length_map.
      assert (Hle : forall l : list (item * item),
                (List.length l
                 <= list_sum (map (fun kv : item * item =>
                                     let (k, v) := kv in size k + size v) l))%nat).
      { induction l as [|[k v] l IHl]; [cbn; lia|]. cbn [List.length map].
        match goal with
        | |- (_ <= list_sum (?x :: ?t))%nat =>
            change (list_sum (x :: t)) with (x + list_sum t)%nat
        end.
        pose proof (size_pos k). lia. }
      specialize (Hle entries). lia.
    + cbn [own_keys props empty_object map app]. exact H2.
  - (* tags *)
    rewrite encoded_length_app in *. rewrite <- app_assoc in Hcur.
    destruct (head_first CborTypes.TYPE_TAG w n) as (tb & tl & Hhd).
    assert (Hlen : encoded_length (head CborTypes.TYPE_TAG w n) = head_length w)
      by apply head_length_spec.
    rewrite Hlen in *.
    pose proof (head_length_pos w) as Hw.
    pose proof (encoded_length_nonneg (encode i)) as Hni.
    destruct (tagged_pass_through (decodeObject f) f d w n tb tl (encode i ++ rest)
                H H0 H1 H2 ltac:(unfold unhandled; rewrite Hh; exact H3) Hs Hhd Hcur
                (limit_allows_le d _ (head_length w) Hlim ltac:(lia)))
      as (Hp & HM & Hrun).
    rewrite (decodeObject_not_simple f d (Some tb) Hp) by (rewrite HM; discriminate).
    cbv zeta. rewrite HM.
    cbn [Z.eqb Pos.eqb orb CborTypes.TYPE_BYTES CborTypes.TYPE_UTF CborTypes.TYPE_ARRAY
         CborTypes.TYPE_MAP CborTypes.TYPE_TAG CborTypes.TYPE_POSINT CborTypes.TYPE_NEGINT].
    rewrite Hrun.
    rewrite (IH i _ rest Hwf ltac:(lia)).
    + rewrite set_start_twice. reflexivity.
    + apply ready_set_start; [exact Hready|lia].
    + apply (cursor_skip d _ (head CborTypes.TYPE_TAG w n) _ Hs Hcur).
      symmetry. apply head_length_spec.
    + apply limit_allows_set_start. exact Hlim.
Qed.

(** X10.  [decodeObject] reads back what is written.  The items are built
    from null, undefined, booleans, integers, byte and text strings,
    arrays, maps, and tags other than 2, 3 and 4 without a registered
    handler, with any head widths and with definite or indefinite lengths;
    the keys of a map have property names that the model spells out (keys
    that are null, undefined, booleans, integers of magnitude below
    [10^21], text or byte strings of ASCII characters), pairwise distinct
    and other than [__proto__] and [hasOwnProperty].  Decoding the bytes of
    such an item returns the value the item stands for and consumes exactly
    those bytes, so that the cursor is left on what follows the item
    (undefined is returned as null, a map as an object with the property
    names of its keys). *)
Theorem decodeObject_roundtrip : forall h fuel i d rest,
  well_formed h i ->
  (size i < fuel)%nat ->
  ready h d ->
  cursor_bytes d = encode i ++ rest ->
  limit_allows d (encoded_length (encode i)) ->
  let d' := set_start (start d + encoded_length (encode i)) d in
  decodeObject fuel d = Ok (value_of i) d' /\ cursor_bytes d' = rest.
Proof.
  intros h fuel i d rest Hwf Hsize Hready Hcur Hlim d'. split.
  - exact (decodeObject_reads_back h fuel i d rest Hwf Hsize Hready Hcur Hlim).
  - destruct Hready as (Hs & _).
    exact (cursor_skip d _ (encode i) rest Hs Hcur eq_refl).
Qed.

(** The array [[100, "ab" "c", {"a": true}, 1("01"), null]], with a
    needless extension byte, a text in two segments, a map of indefinite
    length and a tagged byte string. *)
Lemma decodeObject_roundtrip_witness :
  let i := IArray (Some Inline)
             [IInt Ext8 100;
              IText (Indefinite [(CborTypes.TYPE_UTF, (Inline, [x61; x62]));
                                 (CborTypes.TYPE_UTF, (Inline, [x63]))]);
              IMap None [(IText (Definite Inline [x61]), IBool true)];
              ITag Inline 1 (IBytes (Definite Inline [x01]));
              INull] in
  let bytes := [x85; x18; x64; x7f; x62; x61; x62; x61; x63; xff;
                xbf; x61; x61; xf5; xff; xc1; x41; x01; xf6] in
  let d := new_CborDecoder bytes None None None in
  encode i = bytes
  /\ decodeObject 16 d
     = Ok (VArray [VNumber (Int 100); VText [x61; x62; x63];
                   VMap [("a"%string, VBool true)] None; VBytes [x01]; VNull])
          (set_start 19 d)
  /\ cursor_bytes (set_start 19 d) = [].
Proof.
  intros i bytes d. split; [reflexivity|].
  refine (decodeObject_roundtrip None 16 i d [] _ _ _ eq_refl _).
  - assert (Hutf : is_major CborTypes.TYPE_UTF) by (exists 3; split; [lia|reflexivity]).
    apply wf_array; [cbv; split; congruence|].
    apply Forall_cons; [apply wf_int; cbv; split; congruence|].
    apply Forall_cons.
    { apply wf_text. cbn [string_fits].
      apply Forall_cons; [split; [exact Hutf|cbv; split; congruence]|].
      apply Forall_cons; [split; [exact Hutf|cbv; split; congruence]|].
      apply Forall_nil. }
    apply Forall_cons.
    { apply wf_map.
      - exact I.
      - apply Forall_cons; [|apply Forall_nil]. split; [|apply wf_bool].
        apply wf_text. cbv. split; congruence.
      - apply Forall_cons; [|apply Forall_nil]. split; [cbv; congruence|].
        split; cbv; congruence.
      - apply NoDup_cons; [intros []|apply NoDup_nil]. }
    apply Forall_cons.
    { apply wf_tag; [cbv; split; congruence|cbv; congruence|cbv; congruence
                    |cbv; congruence|exact I|].
      apply wf_bytes. cbv. split; congruence. }
    apply Forall_cons; [apply wf_null|apply Forall_nil].
  - cbn. lia.
  - repeat split. cbv. congruence.
  - cbv. congruence.
Defined.

(** ** A decoder that sees less of the bytes *)

Section Views.

Variable V : views.
Hypothesis HV : consistent V.

Lemma same_place_on_short : forall lo k d t,
  0 <= lo -> 0 <= k -> same_place V lo k d t -> on_short V t.
Proof.
  intros lo k d t Hlo Hk H. unfold same_place in H. unfold on_short.
  intuition lia.
Qed.

Lemma same_place_weaken : forall lo k lo' k' d t,
  same_place V lo k d t -> lo' <= lo -> k' <= k -> same_place V lo' k' d t.
Proof.
  intros lo k lo' k' d t H Hlo Hk. unfold same_place in *. intuition lia.
Qed.

Lemma same_place_lower : forall lo k d t, same_place V lo k d t -> lo <= start t.
Proof. intros lo k d t H. unfold same_place in H. tauto. Qed.

(** *** The rules of the relation *)

Lemma tracks_ret : forall A lo (P : Decoder -> Decoder -> Prop) (a : A) Q F,
  (forall d t, P d t -> Q a d t) -> tracks V lo P (ret a) Q F.
Proof. intros A lo P a Q F H d t HP. cbn. eauto. Qed.

Lemma tracks_bind : forall A B lo P (m : M A) (k : A -> M B) Q1 Q F,
  tracks V lo P m Q1 F -> (forall a, tracks V lo (Q1 a) (k a) Q F) ->
  tracks V lo P (bind m k) Q F.
Proof.
  intros A B lo P m k Q1 Q F Hm Hk d t HP. specialize (Hm d t HP).
  unfold bind. unfold follows in Hm.
  destruct (m t) as [a t'|e t'| |].
  - destruct Hm as (d' & -> & HQ). apply Hk. exact HQ.
  - destruct Hm as (Hne & Hwin & Hlo & [->|(d' & ->)]).
    + cbn. auto.
    + cbn. split; [exact Hne|]. split; [exact Hwin|]. split; [exact Hlo|]. right. eauto.
  - destruct Hm as [HF ->]. cbn. auto.
  - rewrite Hm. reflexivity.
Qed.

Lemma tracks_throw : forall A lo (P : Decoder -> Decoder -> Prop) e Q F,
  e <> RangeError -> (forall d t, P d t -> on_short V t /\ lo <= start t) ->
  tracks V lo P (@throw A e) Q F.
Proof.
  intros A lo P e Q F He H d t HP. destruct (H d t HP) as [H1 H2].
  cbn. split; [exact He|]. split; [exact H1|]. split; [exact H2|].
  right. eauto.
Qed.

Lemma tracks_gets : forall A lo (P : Decoder -> Decoder -> Prop) (f : Decoder -> A) Q F,
  (forall d t, P d t -> f d = f t /\ Q (f t) d t) ->
  tracks V lo P (gets f) Q F.
Proof.
  intros A lo P f Q F H d t HP. destruct (H d t HP) as [E HQ].
  cbn. unfold gets. rewrite E. eauto.
Qed.

Lemma tracks_modify : forall lo (P : Decoder -> Decoder -> Prop) f Q F,
  (forall d t, P d t -> Q tt (f d) (f t)) ->
  tracks V lo P (modify f) Q F.
Proof. intros lo P f Q F H d t HP. cbn. unfold modify. eauto. Qed.

Lemma tracks_unmodelled : forall A lo (P : Decoder -> Decoder -> Prop) Q F,
  tracks V lo P (@unmodelled A) Q F.
Proof. intros A lo P Q F d t HP. reflexivity. Qed.

Lemma tracks_out_of_fuel : forall A lo (P : Decoder -> Decoder -> Prop) Q (F : Prop),
  (forall d t, P d t -> F) -> tracks V lo P (@out_of_fuel A) Q F.
Proof. intros A lo P Q F H d t HP. cbn. split; [eauto|reflexivity]. Qed.

Lemma tracks_weaken : forall A lo lo' (P P' : Decoder -> Decoder -> Prop) (m : M A)
    (Q Q' : A -> Decoder -> Decoder -> Prop) (F F' : Prop),
  tracks V lo' P' m Q' F' ->
  lo <= lo' ->
  (forall d t, P d t -> P' d t) ->
  (forall a d t, Q' a d t -> Q a d t) ->
  (F' -> F) ->
  tracks V lo P m Q F.
Proof.
  intros A lo lo' P P' m Q Q' F F' Hm Hlo HP HQ HF d t Hd.
  specialize (Hm d t (HP d t Hd)).
  unfold follows in *. destruct (m t) as [a t'|e t'| |].
  - destruct Hm as (d' & E & H). eauto.
  - destruct Hm as (H1 & H2 & H3 & H4).
    split; [exact H1|]. split; [exact H2|]. split; [lia|exact H4].
  - destruct Hm. auto.
  - exact Hm.
Qed.

(** A fact that holds wherever the precondition does may be used. *)
Lemma tracks_assume : forall A lo (P : Decoder -> Decoder -> Prop) (m : M A) Q F (G : Prop),
  (forall d t, P d t -> G) -> (G -> tracks V lo P m Q F) -> tracks V lo P m Q F.
Proof. intros A lo P m Q F G HG H d t HP. exact (H (HG d t HP) d t HP). Qed.

End Views.

(** *** Reads below the short limit *)

Lemma firstn_skipn_agree : forall (a b : list byte) off n,
  (forall i, (off <= i < off + n)%nat -> nth_error a i = nth_error b i) ->
  firstn n (skipn off a) = firstn n (skipn off b).
Proof.
  intros a b off n H. apply nth_error_ext. intro i.
  rewrite !nth_error_firstn, !nth_error_skipn.
  destruct (Nat.ltb_spec i n); [|reflexivity]. apply H. lia.
Qed.

Lemma buf_get_some : forall (buf : list byte) i,
  0 <= i < Z.of_nat (List.length buf) -> buf_get buf i <> None.
Proof.
  intros buf i Hi. unfold buf_get. destruct (Z.ltb_spec i 0); [lia|].
  apply nth_error_Some. lia.
Qed.

Section Reads.

Variable V : views.
Hypothesis HV : consistent V.

Lemma agree_nth : forall i,
  0 <= i < short_limit V ->
  nth_error (short_buffer V) (Z.to_nat i) = nth_error (long_buffer V) (Z.to_nat i).
Proof.
  intros i Hi. destruct HV as (_ & _ & _ & H). specialize (H i Hi).
  unfold buf_get in H. destruct (Z.ltb_spec i 0); [lia|exact H].
Qed.

Lemma buf_get_agree : forall lo k d t j,
  same_place V lo k d t -> 0 <= lo -> 0 <= j < k ->
  buf_get (buffer d) (start d + j) = buf_get (buffer t) (start t + j)
  /\ buf_get (buffer t) (start t + j) <> None.
Proof.
  intros lo k d t j H Hlo Hj. unfold same_place in H.
  destruct H as (Hbt & Hbd & _ & _ & _ & _ & Hs & _ & Hlo' & Hk).
  destruct HV as (_ & Hlen & _ & Hag).
  rewrite Hbt, Hbd, Hs. split.
  - symmetry. apply Hag. lia.
  - apply buf_get_some. lia.
Qed.

Lemma readUIntBE_agree : forall lo k d t n j,
  same_place V lo k d t -> 0 <= lo -> 0 <= j -> j + Z.of_nat n <= k ->
  readUIntBE n (buffer d) (start d + j) = readUIntBE n (buffer t) (start t + j)
  /\ exists r, readUIntBE n (buffer t) (start t + j) = Some r.
Proof.
  intros lo k d t n j H Hlo Hj Hn. unfold same_place in H.
  destruct H as (Hbt & Hbd & _ & _ & _ & _ & Hs & _ & Hlo' & Hk).
  pose proof HV as (Hle & Hlen & Hlen' & _).
  rewrite Hbt, Hbd, Hs. unfold readUIntBE.
  assert (H1 : (0 <=? start t + j)
               && (start t + j + Z.of_nat n <=? Z.of_nat (List.length (short_buffer V)))
               = true) by (apply andb_true_intro; split; apply Z.leb_le; lia).
  assert (H2 : (0 <=? start t + j)
               && (start t + j + Z.of_nat n <=? Z.of_nat (List.length (long_buffer V)))
               = true) by (apply andb_true_intro; split; apply Z.leb_le; lia).
  rewrite H1, H2. split; [|eauto].
  f_equal. f_equal. symmetry. apply firstn_skipn_agree.
  intros i Hi. rewrite <- (Nat2Z.id i). apply agree_nth. lia.
Qed.

Lemma slice_agree : forall lo k d t z,
  same_place V lo k d t -> 0 <= lo -> 0 <= z <= k ->
  JS_slice (buffer d) (start d) (start d + z)
  = JS_slice (buffer t) (start t) (start t + z).
Proof.
  intros lo k d t z H Hlo Hz. unfold same_place in H.
  destruct H as (Hbt & Hbd & _ & _ & _ & _ & Hs & _ & Hlo' & Hk).
  pose proof HV as (Hle & Hlen & Hlen' & _).
  rewrite Hbt, Hbd, Hs. unfold JS_slice, clamp_index.
  destruct (Z.ltb_spec (start t) 0); [lia|].
  destruct (Z.ltb_spec (start t + z) 0); [lia|].
  rewrite !Z.min_l by lia.
  symmetry. apply firstn_skipn_agree.
  intros i Hi. rewrite <- (Nat2Z.id i). apply agree_nth. lia.
Qed.

Lemma remaining_agree : forall lo k d t n,
  same_place V lo k d t ->
  remaining_lt t n = false -> remaining_lt d n = false.
Proof.
  intros lo k d t n H Hr. unfold same_place in H.
  destruct H as (_ & _ & Hlt & Hl & _ & _ & Hs & _).
  pose proof HV as (Hle & _).
  unfold remaining_lt in *. rewrite Hlt in Hr. rewrite Hl, Hs.
  destruct n as [z|z|]; [| |reflexivity].
  - apply Z.ltb_ge. apply Z.ltb_ge in Hr. lia.
  - unfold lt_number in *. destruct (Number_of_BigNumber z); [|exact Hr].
    apply Z.ltb_ge. apply Z.ltb_ge in Hr. lia.
Qed.

Lemma remaining_available : forall lo k d t z,
  same_place V lo k d t ->
  remaining_lt t (MNum z) = false -> start t + z <= short_limit V.
Proof.
  intros lo k d t z H Hr. unfold same_place in H.
  destruct H as (_ & _ & Hlt & _).
  unfold remaining_lt in Hr. rewrite Hlt in Hr. apply Z.ltb_ge in Hr. lia.
Qed.

Lemma same_place_set_start : forall lo k d t c,
  same_place V lo k d t -> 0 <= c <= k ->
  same_place V (lo + c) (k - c) (set_start (start d + c) d) (set_start (start t + c) t).
Proof.
  intros lo k d t c H Hc. unfold same_place, set_start in *.
  cbn [buffer start _limit tagHandlers _byteStreamBuffer].
  intuition lia.
Qed.

Lemma same_place_more : forall lo k d t z,
  same_place V lo k d t -> start t + z <= short_limit V ->
  same_place V lo z d t.
Proof. intros lo k d t z H Hz. unfold same_place in *. intuition lia. Qed.

End Reads.

(** *** The readers of one head, on two views *)

Lemma minorType_range : forall v, 0 <= CborTypes.minorType v < 32.
Proof.
  intro v. unfold CborTypes.minorType, CborTypes.MINOR_TYPE_MASK.
  change 31 with (Z.ones 5). rewrite Z.land_ones by lia.
  apply Z.mod_pos_bound. lia.
Qed.

(** The short view asks for more data: nothing is claimed about the long
    one. *)
Ltac asks_for_more V H :=
  split; [discriminate|];
  split; [eapply (same_place_on_short V); [| |exact H]; lia|];
  split; [exact (same_place_lower V _ _ _ _ H)|left; reflexivity].

(** Both views refuse the input alike. *)
Ltac both_refuse V H :=
  split; [discriminate|];
  split; [eapply (same_place_on_short V); [| |exact H]; lia|];
  split; [exact (same_place_lower V _ _ _ _ H)|right; eauto].

(** The relation between the two decoders, as arithmetic. *)
Ltac placed :=
  intros;
  unfold same_place, on_short, set_start, set_stream in *;
  cbn [buffer start _limit tagHandlers _byteStreamBuffer subDecoder] in *;
  repeat match goal with
         | H : _ /\ _ |- _ => destruct H
         end;
  repeat split; try assumption; try congruence; try lia.

(** The precondition at hand gives the one a lemma asks for. *)
Ltac weaker :=
  let d := fresh "d" in
  let t := fresh "t" in
  let H := fresh "H" in
  intros d t H;
  first [ exact H
        | eapply (same_place_weaken _); [exact H|lia|lia]
        | destruct H as [H ?];
          first [ exact H | eapply (same_place_weaken _); [exact H|lia|lia] ] ].

Ltac enough_fuel :=
  let HF := fresh "HF" in
  intro HF; first [ exact HF | lia | left; lia | right; lia ].

(** Use a lemma for a computation whose result goes on. *)
Ltac use L :=
  eapply tracks_weaken;
  [ apply L; try lia; try assumption
  |
  | weaker
  | let HQ := fresh "HQ" in intros ? ? ? HQ; exact HQ
  | enough_fuel ];
  try lia.

(** Use a lemma for the first computation of a sequence. *)
Ltac step L := eapply tracks_bind; [use L|].

(** Use a lemma for the last computation. *)
Ltac finish L :=
  eapply tracks_weaken;
  [ apply L; try lia; try assumption
  |
  | weaker
  | placed
  | enough_fuel ];
  try lia.

Ltac refuse :=
  apply tracks_throw; [discriminate|];
  let d := fresh "d" in
  let t := fresh "t" in
  let H := fresh "H" in
  intros d t H;
  first [ split; [eapply (same_place_on_short _); [| |exact H]; lia
                 |eapply Z.le_trans; [|exact (same_place_lower _ _ _ _ _ H)]; lia]
        | destruct H as [H ?];
          split; [eapply (same_place_on_short _); [| |exact H]; lia
                 |eapply Z.le_trans; [|exact (same_place_lower _ _ _ _ _ H)]; lia] ].

Section Heads.

Variable V : views.
Hypothesis HV : consistent V.

Lemma tracks_peek : forall lo F,
  0 <= lo ->
  tracks V lo (same_place V lo 0) peek
    (fun a d t => same_place V lo 1 d t /\ a <> None) F.
Proof.
  intros lo F Hlo d t H. unfold peek. run_M. unfold follows.
  destruct (remaining_lt t (MNum 1)) eqn:Hr.
  - asks_for_more V H.
  - rewrite (remaining_agree V HV lo 0 d t _ H Hr).
    pose proof (same_place_more V lo 0 d t 1 H (remaining_available V lo 0 d t 1 H Hr)) as H1.
    destruct (buf_get_agree V HV lo 1 d t 0 H1 Hlo ltac:(lia)) as [E Hsome].
    rewrite !Z.add_0_r in *. rewrite E. eauto.
Qed.

Lemma tracks_decodeValue : forall lo v F,
  0 <= lo ->
  tracks V lo (same_place V lo 1) (_decodeValue v)
    (fun m d t => same_place V (lo + 1) 0 d t /\ read_inside m) F.
Proof.
  intros lo v F Hlo d t H. unfold _decodeValue.
  pose proof (minorType_range v) as Hsize. set (size := CborTypes.minorType v) in *.
  unfold follows.
  destruct (size <? CborTypes.SIZE_8) eqn:E1.
  { run_M. eexists. split; [reflexivity|]. split.
    - apply (same_place_set_start V lo 1 d t 1 H). lia.
    - cbn. lia. }
  destruct (size =? CborTypes.SIZE_8) eqn:E2.
  { run_M. destruct (remaining_lt t (MNum 2)) eqn:Hr; [asks_for_more V H|].
    rewrite (remaining_agree V HV lo 1 d t _ H Hr).
    pose proof (same_place_more V lo 1 d t 2 H (remaining_available V lo 1 d t 2 H Hr)) as H2.
    destruct (buf_get_agree V HV lo 2 d t 1 H2 Hlo ltac:(lia)) as [E Hsome].
    rewrite E. destruct (buf_get (buffer t) (start t + 1)) as [b|]; [|contradiction].
    eexists. split; [reflexivity|]. split.
    - apply (same_place_weaken V (lo + 2) (2 - 2)); [|lia|lia].
      apply (same_place_set_start V lo 2 d t 2 H2). lia.
    - cbn. pose proof (byte_val_range b). lia. }
  destruct (size =? CborTypes.SIZE_16) eqn:E3.
  { run_M. destruct (remaining_lt t (MNum 3)) eqn:Hr; [asks_for_more V H|].
    rewrite (remaining_agree V HV lo 1 d t _ H Hr).
    pose proof (same_place_more V lo 1 d t 3 H (remaining_available V lo 1 d t 3 H Hr)) as H2.
    destruct (readUIntBE_agree V HV lo 3 d t 2 1 H2 Hlo ltac:(lia) ltac:(lia))
      as [E (r & Hread)].
    unfold readUInt16BE. rewrite E, Hread.
    eexists. split; [reflexivity|]. split.
    - apply (same_place_weaken V (lo + 3) (3 - 3)); [|lia|lia].
      apply (same_place_set_start V lo 3 d t 3 H2). lia.
    - cbn. pose proof (readUIntBE_range _ _ _ _ Hread). lia. }
  destruct (size =? CborTypes.SIZE_32) eqn:E4.
  { run_M. destruct (remaining_lt t (MNum 5)) eqn:Hr; [asks_for_more V H|].
    rewrite (remaining_agree V HV lo 1 d t _ H Hr).
    pose proof (same_place_more V lo 1 d t 5 H (remaining_available V lo 1 d t 5 H Hr)) as H2.
    destruct (readUIntBE_agree V HV lo 5 d t 4 1 H2 Hlo ltac:(lia) ltac:(lia))
      as [E (r & Hread)].
    unfold readUInt32BE. rewrite E, Hread.
    eexists. split; [reflexivity|]. split.
    - apply (same_place_weaken V (lo + 5) (5 - 5)); [|lia|lia].
      apply (same_place_set_start V lo 5 d t 5 H2). lia.
    - cbn. pose proof (readUIntBE_range _ _ _ _ Hread). lia. }
  destruct (size =? CborTypes.SIZE_64) eqn:E5.
  { run_M. destruct (remaining_lt t (MNum 9)) eqn:Hr; [asks_for_more V H|].
    rewrite (remaining_agree V HV lo 1 d t _ H Hr).
    pose proof (same_place_more V lo 1 d t 9 H (remaining_available V lo 1 d t 9 H Hr)) as H2.
    destruct (readUIntBE_agree V HV lo 9 d t 4 1 H2 Hlo ltac:(lia) ltac:(lia))
      as [E (hi & Hhi)].
    destruct (readUIntBE_agree V HV lo 9 d t 4 5 H2 Hlo ltac:(lia) ltac:(lia))
      as [E' (low & Hlow)].
    unfold readUInt32BE. rewrite E, Hhi, E', Hlow.
    eexists. split; [reflexivity|]. split.
    - apply (same_place_weaken V (lo + 9) (9 - 9)); [|lia|lia].
      apply (same_place_set_start V lo 9 d t 9 H2). lia.
    - pose proof (readUIntBE_range _ _ _ _ Hhi). pose proof (readUIntBE_range _ _ _ _ Hlow).
      destruct (in_safe_range _); cbn; [|exact I]. unfold SHIFT32. lia. }
  destruct (size =? CborTypes.SIZE_STREAM) eqn:E6.
  { run_M. eexists. split; [reflexivity|]. split.
    - apply (same_place_set_start V lo 1 d t 1 H). lia.
    - cbn. lia. }
  run_M. both_refuse V H.
Qed.


Lemma tracks_test : forall lo c F,
  0 <= lo ->
  tracks V lo (same_place V lo 0)
    (val <- peek ;; if tb_eq val c then _consume (MNum 1) ;; ret true else ret false)
    (fun (b : bool) d t =>
       if b then same_place V (lo + 1) 0 d t else same_place V lo 1 d t) F.
Proof.
  intros lo c F Hlo. step (tracks_peek lo). intro a. destruct (tb_eq a c).
  - intros d t [H _]. run_M. cbn. eexists. split; [reflexivity|].
    apply (same_place_set_start V lo 1 d t 1 H). lia.
  - apply tracks_ret. intros d t [H _]. exact H.
Qed.

Lemma tracks_tryDecodeBreak : forall lo F,
  0 <= lo ->
  tracks V lo (same_place V lo 0) tryDecodeBreak
    (fun (b : bool) d t =>
       if b then same_place V (lo + 1) 0 d t else same_place V lo 1 d t) F.
Proof. intros. apply tracks_test. assumption. Qed.

Lemma tracks_tryDecodeNull : forall lo F,
  0 <= lo ->
  tracks V lo (same_place V lo 0) tryDecodeNull
    (fun (b : bool) d t =>
       if b then same_place V (lo + 1) 0 d t else same_place V lo 1 d t) F.
Proof. intros. apply tracks_test. assumption. Qed.

Lemma tracks_decodeTag : forall lo v F,
  0 <= lo ->
  tracks V lo (same_place V lo 1) (_decodeTag v)
    (fun m d t => same_place V (lo + 1) 0 d t /\ read_inside m) F.
Proof.
  intros lo v F Hlo. unfold _decodeTag. destruct (negb _); [refuse|].
  apply tracks_decodeValue. exact Hlo.
Qed.

Lemma tracks_length : forall lo c e F,
  0 <= lo -> e <> RangeError ->
  tracks V lo (same_place V lo 0)
    (t <- peek ;;
     if negb (CborTypes.majorType t =? c) then throw e else _decodeValue t)
    (fun m d t => same_place V (lo + 1) 0 d t /\ read_inside m) F.
Proof.
  intros lo c e F Hlo He. step (tracks_peek lo). intro a. destruct (negb _).
  - apply tracks_throw; [exact He|]. intros d t [H _]. split.
    + eapply (same_place_on_short V); [| |exact H]; lia.
    + exact (same_place_lower V _ _ _ _ H).
  - finish (tracks_decodeValue lo a).
Qed.

Lemma tracks_decodeArrayLength : forall lo F,
  0 <= lo ->
  tracks V lo (same_place V lo 0) decodeArrayLength
    (fun m d t => same_place V (lo + 1) 0 d t /\ read_inside m) F.
Proof. intros. apply tracks_length; [assumption|discriminate]. Qed.

Lemma tracks_decodeMapLength : forall lo F,
  0 <= lo ->
  tracks V lo (same_place V lo 0) decodeMapLength
    (fun m d t => same_place V (lo + 1) 0 d t /\ read_inside m) F.
Proof. intros. apply tracks_length; [assumption|discriminate]. Qed.

Lemma parseHalf_agree : forall lo d t,
  same_place V lo 3 d t -> 0 <= lo ->
  _parseHalf (buffer d) (start d + 1) = _parseHalf (buffer t) (start t + 1).
Proof.
  intros lo d t H Hlo. unfold _parseHalf.
  destruct (buf_get_agree V HV lo 3 d t 1 H Hlo ltac:(lia)) as [E1 _].
  destruct (buf_get_agree V HV lo 3 d t 2 H Hlo ltac:(lia)) as [E2 _].
  replace (start d + 1 + 1) with (start d + 2) by lia.
  replace (start t + 1 + 1) with (start t + 2) by lia.
  rewrite E1, E2. reflexivity.
Qed.

Lemma tracks_decodeFloat : forall lo F,
  0 <= lo ->
  tracks V lo (same_place V lo 0) decodeFloat
    (fun _ d t => same_place V (lo + 1) 0 d t) F.
Proof.
  intros lo F Hlo. unfold decodeFloat.
  step (tracks_peek lo).
  intros a d t [H _]. unfold follows.
  destruct (tb_eq a CborTypes.TYPE_FLOAT_16).
  { run_M. destruct (remaining_lt t (MNum 3)) eqn:Hr; [asks_for_more V H|].
    rewrite (remaining_agree V HV lo 1 d t _ H Hr).
    pose proof (same_place_more V lo 1 d t 3 H (remaining_available V lo 1 d t 3 H Hr)) as H2.
    rewrite (parseHalf_agree lo d t H2 Hlo).
    eexists. split; [reflexivity|].
    apply (same_place_weaken V (lo + 3) (3 - 3)); [|lia|lia].
    apply (same_place_set_start V lo 3 d t 3 H2). lia. }
  destruct (tb_eq a CborTypes.TYPE_FLOAT_32).
  { run_M. destruct (remaining_lt t (MNum 5)) eqn:Hr; [asks_for_more V H|].
    rewrite (remaining_agree V HV lo 1 d t _ H Hr).
    pose proof (same_place_more V lo 1 d t 5 H (remaining_available V lo 1 d t 5 H Hr)) as H2.
    destruct (readUIntBE_agree V HV lo 5 d t 4 1 H2 Hlo ltac:(lia) ltac:(lia))
      as [E (r & Hread)].
    unfold readFloatBE. rewrite E, Hread. cbn [option_map].
    eexists. split; [reflexivity|].
    apply (same_place_weaken V (lo + 5) (5 - 5)); [|lia|lia].
    apply (same_place_set_start V lo 5 d t 5 H2). lia. }
  destruct (tb_eq a CborTypes.TYPE_FLOAT_64).
  { run_M. destruct (remaining_lt t (MNum 9)) eqn:Hr; [asks_for_more V H|].
    rewrite (remaining_agree V HV lo 1 d t _ H Hr).
    pose proof (same_place_more V lo 1 d t 9 H (remaining_available V lo 1 d t 9 H Hr)) as H2.
    destruct (readUIntBE_agree V HV lo 9 d t 8 1 H2 Hlo ltac:(lia) ltac:(lia))
      as [E (r & Hread)].
    unfold readDoubleBE. rewrite E, Hread. cbn [option_map].
    eexists. split; [reflexivity|].
    apply (same_place_weaken V (lo + 9) (9 - 9)); [|lia|lia].
    apply (same_place_set_start V lo 9 d t 9 H2). lia. }
  run_M. both_refuse V H.
Qed.

End Heads.

(** *** Strings, on two views *)

Section Strings.

Variable V : views.
Hypothesis HV : consistent V.

(** A payload of the announced length is copied to the accumulator. *)
Lemma tracks_payload : forall lo m F,
  0 <= lo -> read_inside m -> loose_neq m (-1) = true ->
  tracks V lo (same_place V lo 0)
    (_ensureAvailable m ;;
     chunk <- slice_from_start m ;;
     stream_write chunk ;;
     _consume m)
    (fun _ d t => same_place V lo 0 d t) F.
Proof.
  intros lo m F Hlo Hm Hneq d t H. unfold follows.
  destruct m as [z|z|]; [| |contradiction].
  - assert (Hz : 0 <= z).
    { cbn in Hm. unfold loose_neq, loose_eq in Hneq.
      destruct (Z.eqb_spec z (-1)); [discriminate|lia]. }
    unfold slice_from_start, stream_write. run_M.
    destruct (remaining_lt t (MNum z)) eqn:Hr; [asks_for_more V H|].
    rewrite (remaining_agree V HV lo 0 d t _ H Hr).
    pose proof (same_place_more V lo 0 d t z H (remaining_available V lo 0 d t z H Hr)) as H2.
    rewrite (slice_agree V HV lo z d t z H2 Hlo ltac:(lia)).
    eexists. split; [reflexivity|]. placed.
  - unfold slice_from_start. run_M.
    destruct (remaining_lt t (MBig z)) eqn:Hr; [asks_for_more V H|].
    rewrite (remaining_agree V HV lo 0 d t _ H Hr). reflexivity.
Qed.

Lemma tracks_stream_read : forall lo k F,
  tracks V lo (same_place V lo k) stream_read
    (fun _ d t => same_place V lo k d t) F.
Proof.
  intros lo k F d t H. unfold stream_read. run_M. cbn.
  assert (E : _byteStreamBuffer d = _byteStreamBuffer t) by (unfold same_place in H; tauto).
  rewrite E. eexists. split; [reflexivity|]. placed.
Qed.

(** The streaming loop, given the decoder of one segment. *)
Lemma tracks_segments_loop : forall f,
  (forall lo tb, 0 <= lo ->
     tracks V lo (same_place V lo 1) (_decodeByteStringsInternal f tb)
       (fun _ d t => same_place V (lo + 1) 0 d t)
       (Z.of_nat f <= short_limit V - lo)) ->
  forall n lo, 0 <= lo ->
    tracks V lo (same_place V lo 0)
      (while_not n tryDecodeBreak (t <- peek ;; _decodeByteStringsInternal f t))
      (fun _ d t => same_place V (lo + 1) 0 d t)
      (Z.of_nat n <= short_limit V - lo \/ Z.of_nat f <= short_limit V - lo).
Proof.
  intros f IH. induction n as [|n IHn]; intros lo Hlo; cbn [while_not].
  - apply tracks_out_of_fuel. intros d t H. left. unfold same_place in H. lia.
  - step (tracks_tryDecodeBreak V HV lo). intros [|].
    + apply tracks_ret. intros d t H. exact H.
    + eapply tracks_bind.
      * step (tracks_peek V HV lo). intro a. use (IH lo a).
      * intros u0. finish (IHn (lo + 1)).
Qed.

Lemma tracks_strings : forall fuel lo tb,
  0 <= lo ->
  tracks V lo (same_place V lo 1) (_decodeByteStringsInternal fuel tb)
    (fun _ d t => same_place V (lo + 1) 0 d t)
    (Z.of_nat fuel <= short_limit V - lo).
Proof.
  induction fuel as [|f IHf]; intros lo tb Hlo.
  - cbn [_decodeByteStringsInternal]. apply tracks_out_of_fuel.
    intros d t H. unfold same_place in H. lia.
  - rewrite decodeByteStringsInternal_step.
    step (tracks_decodeValue V HV lo tb). intro length.
    apply tracks_assume with (G := read_inside length); [intros d t [_ H]; exact H|].
    intro Hm. destruct (loose_neq length (-1)) eqn:Hneq.
    + finish (tracks_payload (lo + 1) length).
    + finish (tracks_segments_loop f IHf f (lo + 1)).
Qed.

Lemma tracks_decodeBytes : forall fuel lo,
  0 <= lo ->
  tracks V lo (same_place V lo 0) (decodeBytes fuel)
    (fun _ d t => same_place V (lo + 1) 0 d t)
    (Z.of_nat fuel <= short_limit V - lo).
Proof.
  intros fuel lo Hlo. unfold decodeBytes.
  step (tracks_peek V HV lo). intro a. destruct (negb _); [refuse|].
  step (tracks_strings fuel lo a). intros u0. finish (tracks_stream_read (lo + 1) 0).
Qed.

Lemma tracks_decodeString : forall fuel lo,
  0 <= lo ->
  tracks V lo (same_place V lo 0) (decodeString fuel)
    (fun v d t => same_place V (lo + 1) 0 d t /\ has_undefined v = false)
    (Z.of_nat fuel <= short_limit V - lo).
Proof.
  intros fuel lo Hlo. unfold decodeString.
  step (tracks_peek V HV lo). intro a. destruct (negb _); [refuse|].
  step (tracks_strings fuel lo a). intros u0.
  step (tracks_stream_read (lo + 1) 0). intro bs.
  apply tracks_ret. intros d t H. split; [exact H|reflexivity].
Qed.

End Strings.

(** *** Numbers, on two views *)

Section Numbers.

Variable V : views.
Hypothesis HV : consistent V.

Lemma tracks_BigNumber_of_hex : forall lo k data F,
  0 <= lo -> 0 <= k ->
  tracks V lo (same_place V lo k) (BigNumber_of_hex data)
    (fun _ d t => same_place V lo k d t) F.
Proof.
  intros lo k data F Hlo Hk. unfold BigNumber_of_hex, new_BigNumber_base16.
  destruct (Buffer_toString_hex data); [refuse|].
  destruct (parse_digits16 _ _); [|refuse].
  apply tracks_ret. intros d t H. exact H.
Qed.

Lemma tracks_decodeBigInt : forall fuel lo tag,
  0 <= lo ->
  tracks V lo (same_place V lo 0) (_decodeBigInt fuel tag)
    (fun v d t => same_place V (lo + 1) 0 d t /\ has_undefined v = false)
    (Z.of_nat fuel <= short_limit V - lo).
Proof.
  intros fuel lo tag Hlo. unfold _decodeBigInt.
  destruct (_ && _); [refuse|].
  step (tracks_peek V HV lo). intro a.
  destruct (negb _); [refuse|].
  step (tracks_decodeBytes V HV fuel lo). intro data.
  step (tracks_BigNumber_of_hex (lo + 1) 0 data). intro val.
  apply tracks_ret. intros d t H. split; [exact H|reflexivity].
Qed.

Lemma value_of_magnitude_defined : forall m,
  read_inside m -> has_undefined (value_of_magnitude m) = false.
Proof. intros [z|z|] H; [reflexivity|reflexivity|contradiction]. Qed.

Lemma negint_of_magnitude_defined : forall m,
  has_undefined (negint_of_magnitude m) = false.
Proof. intros [z|z|]; reflexivity. Qed.

Lemma tracks_decodeInt : forall fuel lo,
  0 <= lo ->
  tracks V lo (same_place V lo 0) (decodeInt fuel)
    (fun v d t => same_place V (lo + 1) 0 d t /\ has_undefined v = false)
    (Z.of_nat fuel <= short_limit V - lo).
Proof.
  intros fuel lo Hlo. unfold decodeInt.
  step (tracks_peek V HV lo). intro a. cbv zeta.
  destruct (_ && _).
  - destruct (_ =? _); [|refuse].
    step (tracks_decodeTag V HV lo a). intro tag.
    destruct (_ || _); [|refuse].
    finish (tracks_decodeBigInt fuel (lo + 1) tag).
  - step (tracks_decodeValue V HV lo a). intro v.
    apply tracks_ret. intros d t [H Hm]. split; [exact H|].
    destruct (_ =? _);
      [apply value_of_magnitude_defined; exact Hm|apply negint_of_magnitude_defined].
Qed.

Lemma tracks_new_BigNumber : forall lo k v F,
  0 <= lo -> 0 <= k ->
  tracks V lo (same_place V lo k) (new_BigNumber v)
    (fun _ d t => same_place V lo k d t) F.
Proof.
  intros lo k v F Hlo Hk. unfold new_BigNumber.
  destruct v as [| | |[z|f]| | | | | |];
    try apply tracks_unmodelled; try refuse;
    try (apply tracks_ret; intros d t H; exact H).
  destruct (_ && _); [apply tracks_ret; intros d t H; exact H|apply tracks_unmodelled].
Qed.

Lemma tracks_JS_neg : forall lo k v F,
  tracks V lo (same_place V lo k) (JS_neg v)
    (fun _ d t => same_place V lo k d t) F.
Proof.
  intros lo k v F. unfold JS_neg.
  destruct v as [| | |[z|f]| | | | | |];
    try apply tracks_unmodelled;
    apply tracks_ret; intros d t H; exact H.
Qed.

Lemma tracks_decodeDecimal : forall fuel lo tag,
  0 <= lo ->
  tracks V lo (same_place V lo 0) (_decodeDecimal fuel tag)
    (fun v d t => same_place V (lo + 1) 0 d t /\ has_undefined v = false)
    (Z.of_nat fuel <= short_limit V - lo).
Proof.
  intros fuel lo tag Hlo. unfold _decodeDecimal.
  destruct (loose_neq tag _); [refuse|].
  step (tracks_decodeArrayLength V HV lo). intro size.
  destruct (loose_neq size _); [refuse|].
  step (tracks_decodeInt fuel (lo + 1)). intro scale.
  step (tracks_decodeInt fuel (lo + 1 + 1)). intro v.
  step (tracks_new_BigNumber (lo + 1 + 1 + 1) 0 v). intro bi.
  step (tracks_JS_neg (lo + 1 + 1 + 1) 0 scale). intro exponent.
  apply tracks_ret. intros d t H. split; [|reflexivity].
  eapply (same_place_weaken V); [exact H|lia|lia].
Qed.

Lemma tracks_decodeNumber : forall fuel lo,
  0 <= lo ->
  tracks V lo (same_place V lo 0) (decodeNumber fuel)
    (fun v d t => same_place V (lo + 1) 0 d t /\ has_undefined v = false)
    (Z.of_nat fuel <= short_limit V - lo).
Proof.
  intros fuel lo Hlo. unfold decodeNumber.
  step (tracks_peek V HV lo). intro a.
  destruct (_ || _).
  { step (tracks_decodeFloat V HV lo). intro f.
    apply tracks_ret. intros d t H. split; [exact H|reflexivity]. }
  cbv zeta. destruct (_ || _).
  { finish (tracks_decodeInt fuel lo). }
  destruct (_ =? _); [|refuse].
  step (tracks_decodeTag V HV lo a). intro tag.
  destruct (_ || _).
  { finish (tracks_decodeBigInt fuel (lo + 1) tag). }
  destruct (strict_eq tag _); [|refuse].
  finish (tracks_decodeDecimal fuel (lo + 1) tag).
Qed.

End Numbers.

(** *** Containers and the generic decoder, on two views *)

Section Containers.

Variable V : views.
Hypothesis HV : consistent V.

(** The loop of [processArray] and [processMap], for a callback that
    advances and keeps [Inv]. *)
Lemma tracks_process_loop : forall A (Inv : A -> Prop) (fn : A -> M A) (F0 : Prop) lo1,
  0 <= lo1 ->
  (forall lo a, lo1 <= lo -> Inv a ->
     tracks V lo (same_place V lo 0) (fn a)
       (fun a' d t => same_place V (lo + 1) 0 d t /\ Inv a') F0) ->
  forall n length lo i a,
    lo1 <= lo -> Inv a ->
    (Z.of_nat n <= short_limit V - lo -> F0) ->
    tracks V lo (same_place V lo 0) (process_loop n length fn i a)
      (fun a' d t => same_place V lo 0 d t /\ Inv a') F0.
Proof.
  intros A Inv fn F0 lo1 Hlo1 Hfn.
  induction n as [|n IHn]; intros length lo i a Hlo Ha HF; cbn [process_loop].
  - apply tracks_out_of_fuel. intros d t H. apply HF. unfold same_place in H. lia.
  - destruct (counter_neq i length).
    + step (tracks_tryDecodeBreak V HV lo). intros [|].
      * apply tracks_ret. intros d t H. split; [|exact Ha].
        eapply (same_place_weaken V); [exact H|lia|lia].
      * step (Hfn lo a). intro a'.
        apply tracks_assume with (G := Inv a'); [intros d t [_ H]; exact H|].
        intro Ha'.
        finish (IHn length (lo + 1) (i + 1) a').
        intro Hn. apply HF. lia.
    + apply tracks_ret. intros d t H. split; [exact H|exact Ha].
Qed.

Lemma tracks_buildArray : forall fuel (fn : M value) (F0 : Prop) lo,
  0 <= lo ->
  (forall lo', lo + 1 <= lo' ->
     tracks V lo' (same_place V lo' 0) fn
       (fun v d t => same_place V (lo' + 1) 0 d t /\ has_undefined v = false) F0) ->
  (Z.of_nat fuel <= short_limit V - lo - 1 -> F0) ->
  tracks V lo (same_place V lo 0) (buildArray fuel fn)
    (fun v d t => same_place V (lo + 1) 0 d t /\ has_undefined v = false) F0.
Proof.
  intros fuel fn F0 lo Hlo Hfn HF. unfold buildArray, processArray.
  eapply tracks_bind.
  - step (tracks_decodeArrayLength V HV lo). intro length.
    use (tracks_process_loop (list value)
           (fun a => existsb has_undefined a = false)
           (fun a => v <- fn ;; ret (a ++ [v])) F0 (lo + 1) ltac:(lia)).
    + intros lo' a Hlo' Ha. step (Hfn lo'). intro v.
      apply tracks_ret. intros d t [H Hv]. split; [exact H|].
      rewrite existsb_app, Ha. cbn. rewrite Hv. reflexivity.
    + reflexivity.
    + intro Hn. apply HF. lia.
  - intro a. apply tracks_ret. intros d t [H Ha]. split; [exact H|exact Ha].
Qed.

(** What [buildMap] keeps true of the object it fills. *)
Lemma tracks_JS_hasOwnProperty : forall lo k m key F,
  0 <= lo -> 0 <= k ->
  tracks V lo (same_place V lo k) (JS_hasOwnProperty m key)
    (fun _ d t => same_place V lo k d t) F.
Proof.
  intros lo k m key F Hlo Hk. unfold JS_hasOwnProperty.
  destruct (has_own m _); [refuse|].
  destruct (proto m) as [[]|];
    try apply tracks_unmodelled; try refuse;
    apply tracks_ret; intros d t H; exact H.
Qed.

Lemma tracks_buildMap : forall fuel (fn : M (value * value)) (F0 : Prop) lo,
  0 <= lo ->
  (forall lo', lo + 1 <= lo' ->
     tracks V lo' (same_place V lo' 0) fn
       (fun r d t => same_place V (lo' + 1) 0 d t
                     /\ has_undefined (fst r) = false /\ has_undefined (snd r) = false)
       F0) ->
  (Z.of_nat fuel <= short_limit V - lo - 1 -> F0) ->
  tracks V lo (same_place V lo 0) (buildMap fuel fn)
    (fun v d t => same_place V (lo + 1) 0 d t /\ has_undefined v = false) F0.
Proof.
  intros fuel fn F0 lo Hlo Hfn HF. unfold buildMap, processMap.
  eapply tracks_bind.
  - step (tracks_decodeMapLength V HV lo). intro length.
    use (tracks_process_loop object
           (fun m => has_undefined (VMap (props m) (proto m)) = false)
           (buildMap_step fn) F0 (lo + 1) ltac:(lia)).
    + intros lo' m Hlo' Hm. unfold buildMap_step.
      step (Hfn lo'). intro r.
      apply tracks_assume with (G := has_undefined (snd r) = false);
        [intros d t (_ & _ & H); exact H|].
      intro Hr.
      destruct (ToPropertyKey (fst r)) as [key|]; [|apply tracks_unmodelled].
      step (tracks_JS_hasOwnProperty (lo' + 1) 0 m key). intros [|]; [refuse|].
      apply tracks_ret. intros d t H. split; [exact H|].
      unfold JS_set. cbn [has_undefined] in *.
      apply orb_false_iff in Hm. destruct Hm as [Hp Hq].
      destruct (String.eqb key "__proto__").
      * destruct (is_object_or_null (snd r)); cbn [props proto].
        -- rewrite Hp, Hr. reflexivity.
        -- rewrite Hp, Hq. reflexivity.
      * cbn [props proto]. rewrite existsb_app, Hp, Hq. cbn. rewrite Hr. reflexivity.
    + reflexivity.
    + intro Hn. apply HF. lia.
  - intro m. apply tracks_ret. intros d t [H Hm]. split; [exact H|exact Hm].
Qed.

Lemma tracks_consume_one : forall lo v,
  has_undefined v = false ->
  forall F, tracks V lo (same_place V lo 1) (_consume (MNum 1) ;; ret v)
    (fun v' d t => same_place V (lo + 1) 0 d t /\ has_undefined v' = false) F.
Proof.
  intros lo v Hv F d t H. run_M. cbn. eexists. split; [reflexivity|].
  split; [|exact Hv]. apply (same_place_set_start V lo 1 d t 1 H). lia.
Qed.

Lemma tracks_decodeObject : forall fuel lo,
  0 <= lo ->
  tracks V lo (same_place V lo 0) (decodeObject fuel)
    (fun v d t => same_place V (lo + 1) 0 d t /\ has_undefined v = false)
    (Z.of_nat fuel <= short_limit V - lo + 1).
Proof.
  induction fuel as [|f IH]; intros lo Hlo; cbn [decodeObject].
  - apply tracks_out_of_fuel. intros d t H. unfold same_place in H. lia.
  - assert (IH' : forall lo', lo + 1 <= lo' ->
              tracks V lo' (same_place V lo' 0) (decodeObject f)
                (fun v d t => same_place V (lo' + 1) 0 d t /\ has_undefined v = false)
                (Z.of_nat (S f) <= short_limit V - lo + 1)).
    { intros lo' Hlo'. use (IH lo'). }
    step (tracks_tryDecodeNull V HV lo). intros [|].
    { apply tracks_ret. intros d t H. split; [exact H|reflexivity]. }
    step (tracks_peek V HV lo). intro a.
    destruct (_ || _).
    { finish (tracks_consume_one lo VNull eq_refl). }
    destruct (tb_eq a CborTypes.TYPE_TRUE).
    { finish (tracks_consume_one lo (VBool true) eq_refl). }
    destruct (tb_eq a CborTypes.TYPE_FALSE).
    { finish (tracks_consume_one lo (VBool false) eq_refl). }
    destruct (_ || _).
    { step (tracks_decodeFloat V HV lo). intro x.
      apply tracks_ret. intros d t H. split; [exact H|reflexivity]. }
    destruct (tb_eq a CborTypes.TYPE_BREAK); [refuse|].
    cbv zeta. destruct (_ || _).
    { finish (tracks_decodeInt V HV f lo). }
    destruct (_ =? CborTypes.TYPE_BYTES).
    { step (tracks_decodeBytes V HV f lo). intro bs.
      apply tracks_ret. intros d t H. split; [exact H|reflexivity]. }
    destruct (_ =? CborTypes.TYPE_UTF).
    { finish (tracks_decodeString V HV f lo). }
    destruct (_ =? CborTypes.TYPE_ARRAY).
    { unfold decodeArray_with.
      finish (tracks_buildArray f (decodeObject f)
                (Z.of_nat (S f) <= short_limit V - lo + 1) lo). }
    destruct (_ =? CborTypes.TYPE_MAP).
    { unfold decodeMap_with.
      finish (tracks_buildMap f (k <- decodeObject f ;; v <- decodeObject f ;; ret (k, v))
                (Z.of_nat (S f) <= short_limit V - lo + 1) lo).
      intros lo' Hlo'. step (IH' lo'). intro k.
      apply tracks_assume with (G := has_undefined k = false);
        [intros d t [_ H]; exact H|].
      intro Hk. step (IH' (lo' + 1)). intro v.
      apply tracks_ret. intros d t [H Hv]. cbn [fst snd].
      split; [|split; assumption].
      eapply (same_place_weaken V); [exact H|lia|lia]. }
    destruct (_ =? CborTypes.TYPE_TAG); [|refuse].
    unfold _decodeTaggedType_with.
    step (tracks_decodeTag V HV lo a). intro tag.
    destruct (_ || _).
    { finish (tracks_decodeBigInt V HV f (lo + 1) tag). }
    destruct (strict_eq tag _).
    { finish (tracks_decodeDecimal V HV f (lo + 1) tag). }
    eapply tracks_bind.
    { apply tracks_gets with
        (Q := fun (hs : option (magnitude -> bool)) d t => same_place V (lo + 1) 0 d t).
      intros d t [H _]. split; [|exact H]. unfold same_place in H.
      destruct H as (_ & _ & _ & _ & H1 & H2 & _). congruence. }
    intros [registered|].
    + destruct (registered tag); [apply tracks_unmodelled|].
      finish (IH' (lo + 1)).
    + finish (IH' (lo + 1)).
Qed.

End Containers.

(** ** Inside the window *)

Lemma own_view_consistent : forall t l, in_window t l -> consistent (own_view t l).
Proof.
  intros t l (_ & _ & Hlen). unfold consistent, own_view. cbn.
  repeat split; try lia. 
Qed.

Lemma same_place_self : forall t l,
  in_window t l -> same_place (own_view t l) (start t) 0 t t.
Proof.
  intros t l (Hl & Hs & Hlen). unfold same_place, own_view. cbn.
  repeat split; try assumption; try reflexivity; lia.
Qed.

(** What a relation between the runs on two views says of one run. *)
Lemma tracks_own : forall A (m : M A) Q F t l,
  in_window t l ->
  tracks (own_view t l) (start t) (same_place (own_view t l) (start t) 0) m Q F ->
  match m t with
  | Ok a t' => Q a t' t'
  | Throw e t' => e <> RangeError /\ on_short (own_view t l) t' /\ start t <= start t'
  | OutOfFuel => F
  | Unmodelled => True
  end.
Proof.
  intros A m Q F t l Hw H. specialize (H t t (same_place_self t l Hw)).
  unfold follows in H. destruct (m t) as [a t'|e t'| |].
  - destruct H as (d' & E & HQ). injection E as <-. exact HQ.
  - tauto.
  - tauto.
  - exact I.
Qed.

Lemma same_place_stays : forall t l lo d' t',
  start t <= lo -> same_place (own_view t l) lo 0 d' t' -> stays t t' l.
Proof.
  intros t l lo d' t' Hlo H. unfold same_place, own_view, stays in *.
  cbn in H. intuition lia.
Qed.

Lemma on_short_stays : forall t l t',
  on_short (own_view t l) t' -> start t <= start t' -> stays t t' l.
Proof.
  intros t l t' H Hlo. unfold on_short, own_view, stays in *. cbn in H.
  intuition lia.
Qed.

Lemma stays_in_window : forall t t' l, in_window t l -> stays t t' l -> in_window t' l.
Proof.
  intros t t' l (Hl & Hs & Hlen) (Hb & Hl' & _ & Hs'). unfold in_window.
  rewrite Hb. repeat split; try assumption; lia.
Qed.

Lemma stays_trans : forall t t' t'' l, stays t t' l -> stays t' t'' l -> stays t t'' l.
Proof.
  intros t t' t'' l (H1 & H2 & H3 & H4) (H1' & H2' & H3' & H4'). unfold stays.
  repeat split; try congruence; lia.
Qed.

(** The generic decoder inside its window. *)
Lemma decodeObject_own : forall fuel t l,
  in_window t l ->
  match decodeObject fuel t with
  | Ok v t' => stays t t' l /\ start t < start t' /\ has_undefined v = false
  | Throw e t' => stays t t' l /\ e <> RangeError
  | OutOfFuel => Z.of_nat fuel <= l - start t + 1
  | Unmodelled => True
  end.
Proof.
  intros fuel t l Hw.
  pose proof (tracks_own value (decodeObject fuel) _ _ t l Hw
                (tracks_decodeObject (own_view t l) (own_view_consistent t l Hw)
                   fuel (start t) ltac:(unfold in_window in Hw; lia))) as H.
  cbv beta in H. destruct (decodeObject fuel t) as [v t'|e t'| |].
  - destruct H as [H Hv]. split; [|split; [|exact Hv]].
    + apply (same_place_stays t l (start t + 1) t' t'); [lia|exact H].
    + unfold same_place in H. lia.
  - destruct H as (He & Hs & Hlo). split; [|exact He].
    apply on_short_stays; assumption.
  - exact H.
  - exact I.
Qed.

(** ** No [undefined] among the values *)




(** *** Every reading method, inside the window *)

Section Calls.

Variable V : views.
Hypothesis HV : consistent V.

(** A call of a method other than [drain] and [decodeCbor], whose results
    depend on the limit itself, on two views. *)
Lemma tracks_call : forall fuel m lo,
  m <> m_drain -> m <> m_decodeCbor -> 0 <= lo ->
  tracks V lo (same_place V lo 0) (call fuel m)
    (fun _ d t => same_place V lo 0 d t) True.
Proof.
  intros fuel m lo Hd Hc Hlo.
  assert (Hobj : forall lo', 0 <= lo' ->
            tracks V lo' (same_place V lo' 0) (decodeObject fuel)
              (fun v d t => same_place V (lo' + 1) 0 d t /\ has_undefined v = false) True).
  { intros lo' Hlo'. use (tracks_decodeObject V HV fuel lo'). }
  destruct m; cbn [call]; try contradiction.
  - step (tracks_peek V HV lo). intro a. apply tracks_ret. placed.
  - unfold skip. step (Hobj lo). intro v. apply tracks_ret. placed.
  - step (tracks_decodeString V HV fuel lo). intro v. apply tracks_ret. placed.
  - step (tracks_decodeBytes V HV fuel lo). intro v. apply tracks_ret. placed.
  - step (tracks_decodeNumber V HV fuel lo). intro v. apply tracks_ret. placed.
  - step (tracks_decodeInt V HV fuel lo). intro v. apply tracks_ret. placed.
  - step (tracks_decodeFloat V HV lo). intro v. apply tracks_ret. placed.
  - step (tracks_decodeArrayLength V HV lo). intro v. apply tracks_ret. placed.
  - step (tracks_decodeMapLength V HV lo). intro v. apply tracks_ret. placed.
  - unfold decodeArray, decodeArray_with.
    step (tracks_buildArray V HV fuel (decodeObject fuel) True lo).
    + intros lo' Hlo'. apply Hobj. lia.
    + intro v. apply tracks_ret. placed.
  - unfold decodeMap, decodeMap_with.
    step (tracks_buildMap V HV fuel
            (k <- decodeObject fuel ;; v <- decodeObject fuel ;; ret (k, v)) True lo).
    + intros lo' Hlo'. step (Hobj lo'). intro k.
      apply tracks_assume with (G := has_undefined k = false);
        [intros d t [_ H]; exact H|].
      intro Hk. step (Hobj (lo' + 1)). intro v.
      apply tracks_ret. intros d t [H Hv]. cbn [fst snd].
      split; [|split; assumption].
      eapply (same_place_weaken V); [exact H|lia|lia].
    + intro v. apply tracks_ret. placed.
  - step (tracks_tryDecodeBreak V HV lo). intros [|]; apply tracks_ret; placed.
  - step (tracks_tryDecodeNull V HV lo). intros [|]; apply tracks_ret; placed.
  - step (Hobj lo). intro v. apply tracks_ret. placed.
Qed.

End Calls.

Lemma JS_slice_length : forall (buf : list byte) s e,
  0 <= s <= e -> e <= Z.of_nat (List.length buf) ->
  Z.of_nat (List.length (JS_slice buf s e)) = e - s.
Proof.
  intros buf s e Hs He. unfold JS_slice, clamp_index.
  destruct (Z.ltb_spec s 0); [lia|]. destruct (Z.ltb_spec e 0); [lia|].
  rewrite !Z.min_l by lia. rewrite length_firstn, length_skipn. lia.
Qed.

Lemma stays_refl : forall t l, in_window t l -> stays t t l.
Proof. intros t l (Hl & Hs & _). unfold stays. repeat split; try assumption; lia. Qed.

Lemma safe_drain : safe (drain ;; ret tt).
Proof.
  intros t l (Hl & Hs & Hlen) H0. unfold drain, copyBuffer. run_M.
  rewrite Hl, JS_or_start. unfold stays, set_start.
  cbn [buffer start _limit tagHandlers].
  assert (Hn : Z.of_nat (List.length
                 (JS_slice (buffer t) (start t)
                    (JS_or (Some l) (Z.of_nat (List.length (buffer t)))))) = l - start t).
  { unfold JS_or. destruct (Z.eqb_spec l 0) as [E|E].
    - rewrite JS_slice_length; [|lia|lia].
      rewrite (H0 E). cbn [List.length Z.of_nat]. lia.
    - apply JS_slice_length; lia. }
  rewrite Hn. repeat split; try assumption; try lia.
Qed.

Lemma safe_ret : forall A (a : A), safe (ret a).
Proof. intros A a t l Hw _. unfold ret. apply stays_refl. exact Hw. Qed.

Lemma safe_bind : forall A B (m : M A) (f : A -> M B),
  safe m -> (forall a, safe (f a)) -> safe (bind m f).
Proof.
  intros A B m f Hm Hf t l Hw H0. specialize (Hm t l Hw H0). unfold bind.
  destruct (m t) as [a t1|e t1| |]; try exact Hm.
  assert (Hw1 : in_window t1 l) by (eapply stays_in_window; eassumption).
  assert (H1 : l = 0 -> buffer t1 = []).
  { intro E. destruct Hm as [-> _]. auto. }
  specialize (Hf a t1 l Hw1 H1).
  destruct (f a t1) as [b t2|e t2| |]; try exact Hf.
  - eapply stays_trans; eassumption.
  - destruct Hf as [Hf He]. split; [eapply stays_trans; eassumption|exact He].
Qed.

(** One run read off the relation between two. *)
Lemma safe_tracks : forall A (m : M A) (F : Prop),
  (forall V lo, consistent V -> 0 <= lo ->
     tracks V lo (same_place V lo 0) m (fun _ d t => same_place V lo 0 d t) F) ->
  safe m.
Proof.
  intros A m F H t l Hw _.
  pose proof (tracks_own A m _ F t l Hw
                (H (own_view t l) (start t) (own_view_consistent t l Hw)
                   ltac:(unfold in_window in Hw; lia))) as Hrun.
  cbv beta in Hrun. destruct (m t) as [a t'|e t'| |]; try exact I.
  - apply (same_place_stays t l (start t) t' t'); [lia|exact Hrun].
  - destruct Hrun as (He & Hs & Hlo). split; [|exact He].
    apply on_short_stays; assumption.
Qed.

(** The head of a nested item, read at a place where the type byte is
    inside the window. *)
Lemma decodeValue_own : forall v t l,
  in_window t l -> start t + 1 <= l ->
  match _decodeValue v t with
  | Ok m t' => stays t t' l /\ start t + 1 <= start t' /\ read_inside m
  | Throw e t' => stays t t' l /\ e <> RangeError
  | OutOfFuel | Unmodelled => True
  end.
Proof.
  intros v t l Hw Hone.
  assert (Hs : 0 <= start t) by (unfold in_window in Hw; lia).
  assert (Hp : same_place (own_view t l) (start t) 1 t t).
  { destruct Hw as (Hl & Hst & Hlen). unfold same_place, own_view. cbn.
    repeat split; try assumption; try reflexivity; lia. }
  pose proof (tracks_decodeValue (own_view t l) (own_view_consistent t l Hw)
                (start t) v True Hs t t Hp) as H.
  unfold follows in H. destruct (_decodeValue v t) as [m t'|e t'| |]; try exact I.
  - destruct H as (d' & E & Hq & Hm). injection E as <-.
    split; [|split; [|exact Hm]].
    + apply (same_place_stays t l (start t + 1) t' t'); [lia|exact Hq].
    + unfold same_place in Hq. lia.
  - destruct H as (He & Hsh & Hlo & _). split; [|exact He].
    apply on_short_stays; assumption.
Qed.

Lemma safe_decodeBytes : forall fuel, safe (decodeBytes fuel).
Proof.
  intro fuel. apply safe_tracks with (F := True). intros V lo HV Hlo.
  finish (tracks_decodeBytes V HV fuel lo).
Qed.

Lemma stays_set_subDecoder : forall t t' sub l,
  stays t t' l -> stays t (set_subDecoder sub t') l.
Proof. intros t t' sub l H. exact H. Qed.

Lemma safe_decodeCbor : forall fuel, safe (decodeCbor fuel).
Proof.
  intros fuel t l Hw H0. unfold decodeCbor. unfold bind at 1.
  destruct (peek t) as [a t0|e t0| |] eqn:Hp; try exact I.
  2:{ unfold peek in Hp. revert Hp. run_M.
      destruct (remaining_lt t (MNum 1)); [|discriminate].
      intros [= <- <-]. split; [apply stays_refl; exact Hw|discriminate]. }
  destruct (peek_inv t a t0 Hp) as (-> & Hrem & _).
  assert (Hone : start t + 1 <= l).
  { unfold remaining_lt in Hrem. destruct Hw as (Hl & _). rewrite Hl in Hrem.
    apply Z.ltb_ge in Hrem. lia. }
  destruct (negb (CborTypes.isMajorType a CborTypes.TYPE_BYTES)).
  { split; [apply stays_refl; exact Hw|discriminate]. }
  destruct (negb (tb_eq a (CborTypes.TYPE_BYTES + CborTypes.SIZE_STREAM))).
  - unfold bind at 1. unfold bind at 1.
    pose proof (decodeValue_own a t l Hw Hone) as Hv.
    destruct (_decodeValue a t) as [m t1|e t1| |]; try exact Hv.
    destruct Hv as (Hst & Hadv & Hm). cbv beta iota.
    unfold bind at 1. unfold _ensureAvailable at 1.
    destruct (remaining_lt t1 m) eqn:Hr1.
    { split; [exact Hst|discriminate]. }
    destruct m as [z|z|]; cbn [read_inside] in Hm; try contradiction.
    + unfold window_limit, _consume. run_M.
      unfold remaining_lt in Hr1. destruct Hst as (Hb & Hl1 & Hh & Hs1).
      rewrite Hl1 in Hr1. apply Z.ltb_ge in Hr1.
      unfold stays, set_subDecoder, set_start.
      cbn [buffer start _limit tagHandlers].
      repeat split; try assumption; lia.
    + unfold window_limit. run_M. exact I.
  - unfold bind at 1. unfold bind at 1.
    pose proof (safe_decodeBytes fuel t l Hw H0) as Hb.
    destruct (decodeBytes fuel t) as [b t1|e t1| |]; run_M; exact Hb.
Qed.

Lemma safe_call : forall fuel m, safe (call fuel m).
Proof.
  intros fuel m.
  destruct m;
    try (apply safe_tracks with (F := True); intros V lo HV Hlo;
         apply tracks_call; [exact HV|discriminate|discriminate|exact Hlo]).
  - exact safe_drain.
  - cbn [call]. apply safe_bind; [apply safe_decodeCbor|intro; apply safe_ret].
Qed.



(** X13.  Inside a window, [decodeObject] ends: a run whose fuel exceeds
    the number of bytes left in the window by more than one does not run
    out of fuel, whatever the bytes are.  Every turn of a loop and every
    level of nesting consumes a byte of the window. *)
Theorem decodeObject_terminates : forall fuel t l,
  in_window t l ->
  l - start t + 1 < Z.of_nat fuel ->
  decodeObject fuel t <> OutOfFuel.
Proof.
  intros fuel t l Hw Hfuel Hrun.
  pose proof (decodeObject_own fuel t l Hw) as H. rewrite Hrun in H. lia.
Qed.

(** Three nested arrays of indefinite length, none of them closed: with
    fuel 5 for the 3 bytes the run ends (it asks for more data). *)
Lemma decodeObject_terminates_witness :
  decodeObject 5 (new_CborDecoder [x9f; x9f; x9f] None None None) <> OutOfFuel.
Proof.
  apply (decodeObject_terminates 5 (new_CborDecoder [x9f; x9f; x9f] None None None) 3).
  - cbv. repeat split; congruence.
  - cbv. reflexivity.
Defined.

(** ** Partial input *)

Lemma prefix_view_consistent : forall buf k h, consistent (prefix_view buf k h).
Proof.
  intros buf k h. unfold consistent, prefix_view. cbn.
  rewrite length_firstn. repeat split; try lia.
  intros i Hi. unfold buf_get. destruct (Z.ltb_spec i 0); [lia|].
  apply nth_error_firstn_lt || (rewrite nth_error_firstn;
    destruct (Nat.ltb_spec (Z.to_nat i) k); [reflexivity|lia]).
Qed.

(** X14.  A decoder that sees less of the same bytes (a shorter buffer or a
    smaller limit, the bytes below the limit being the same) differs from
    one that sees more only by asking for more data.  When [decodeObject]
    returns a value on the short view, it returns the same value at the
    same offset on the long view; when it raises an exception other than
    [NeedMoreData], the long view raises that exception too. *)
Theorem decodeObject_short_view : forall V fuel d t,
  consistent V ->
  same_place V 0 0 d t ->
  match decodeObject fuel t with
  | Ok v t' =>
      exists d', decodeObject fuel d = Ok v d' /\ start d' = start t'
                 /\ _byteStreamBuffer d' = _byteStreamBuffer t'
  | Throw e t' =>
      e = NeedMoreData \/ exists d', decodeObject fuel d = Throw e d'
  | OutOfFuel => decodeObject fuel d = OutOfFuel
  | Unmodelled => decodeObject fuel d = Unmodelled
  end.
Proof.
  intros V fuel d t HV Hp.
  pose proof (tracks_decodeObject V HV fuel 0 ltac:(lia) d t Hp) as H.
  unfold follows in H. destruct (decodeObject fuel t) as [v t'|e t'| |].
  - destruct H as (d' & Hrun & Hq & _). exists d'. split; [exact Hrun|].
    unfold same_place in Hq. intuition congruence.
  - tauto.
  - tauto.
  - exact H.
Qed.

(** The first two bytes of [01 82 02 03 fe 05] against all of them: the
    item [1] is read from both. *)
Lemma decodeObject_short_view_witness :
  let buf := [x01; x82; x02; x03; xfe; x05] in
  let d := new_CborDecoder buf None None None in
  let t := new_CborDecoder (firstn 2 buf) None None None in
  exists d', decodeObject 3 d = Ok (VNumber (Int 1)) d' /\ start d' = 1
             /\ _byteStreamBuffer d' = [].
Proof.
  intros buf d t.
  assert (Hp : same_place (prefix_view buf 2 None) 0 0 d t).
  { cbv. repeat split; congruence. }
  exact (decodeObject_short_view (prefix_view buf 2 None) 3 d t
           (prefix_view_consistent buf 2 None) Hp).
Defined.

(** X15.  Decoding a proper prefix of the bytes of an item raises
    [NeedMoreData], wherever the bytes are cut: before the first byte,
    inside a head, inside a payload, between two elements or before a stop
    marker. *)
Theorem decodeObject_truncated : forall h fuel i k,
  well_formed h i ->
  (size i < fuel)%nat ->
  (k < List.length (encode i))%nat ->
  exists t',
    decodeObject fuel (new_CborDecoder (firstn k (encode i)) None None h)
    = Throw NeedMoreData t'.
Proof.
  intros h fuel i k Hwf Hsize Hk.
  set (V := prefix_view (encode i) k h).
  set (d := new_CborDecoder (encode i) None None h).
  set (t := new_CborDecoder (firstn k (encode i)) None None h).
  assert (Hlen : List.length (firstn k (encode i)) = k)
    by (rewrite length_firstn; lia).
  assert (Hp : same_place V 0 0 d t).
  { unfold same_place, V, prefix_view, d, t, new_CborDecoder, JS_or. cbn.
    repeat split; try reflexivity; lia. }
  assert (Hlong : decodeObject fuel d
                  = Ok (value_of i) (set_start (start d + encoded_length (encode i)) d)).
  { apply (decodeObject_reads_back h fuel i d [] Hwf Hsize).
    - unfold ready, d, new_CborDecoder, JS_or. cbn. repeat split; try reflexivity; lia.
    - unfold cursor_bytes, d, new_CborDecoder, JS_or. cbn. rewrite app_nil_r. reflexivity.
    - unfold limit_allows, d, new_CborDecoder, JS_or, encoded_length. cbn. lia. }
  pose proof (tracks_decodeObject V (prefix_view_consistent (encode i) k h)
                fuel 0 ltac:(lia) d t Hp) as H.
  unfold follows in H. rewrite Hlong in H.
  destruct (decodeObject fuel t) as [v t'|e t'| |].
  - exfalso. destruct H as (d' & E & Hq & _). injection E as _ <-.
    unfold same_place, V, prefix_view, set_start, d, new_CborDecoder, JS_or,
      encoded_length in Hq. cbn in Hq. lia.
  - exists t'. destruct H as (_ & _ & _ & [->|(d' & E)]); [reflexivity|discriminate E].
  - destruct H as [_ E]. discriminate E.
  - discriminate H.
Qed.

(** The map [{"a": [1, 2]}] of indefinite length, cut before its stop
    marker. *)
Lemma decodeObject_truncated_witness :
  exists t',
    decodeObject 10 (new_CborDecoder [xbf; x61; x61; x82; x01; x02] None None None)
    = Throw NeedMoreData t'.
Proof.
  apply (decodeObject_truncated None 10
           (IMap None [(IText (Definite Inline [x61]),
                        IArray (Some Inline) [IInt Inline 1; IInt Inline 2])]) 6).
  - apply wf_map.
    + exact I.
    + apply Forall_cons; [|apply Forall_nil]. split.
      * apply wf_text. cbv. split; congruence.
      * apply wf_array; [cbv; split; congruence|].
        apply Forall_cons; [apply wf_int; cbv; split; congruence|].
        apply Forall_cons; [apply wf_int; cbv; split; congruence|].
        apply Forall_nil.
    + apply Forall_cons; [|apply Forall_nil]. split; [cbv; congruence|].
      split; cbv; congruence.
    + apply NoDup_cons; [intros []|apply NoDup_nil].
  - cbn. lia.
  - cbn. lia.
Defined.

(** ** Without a limit *)

Lemma peek_beyond : forall d, beyond d -> peek d = Ok None d.
Proof.
  intros d [Hl Hs]. unfold peek, _ensureAvailable, remaining_lt. run_M. rewrite Hl.
  unfold buf_get. destruct (Z.ltb_spec (start d) 0); [lia|].
  replace (nth_error (buffer d) (Z.to_nat (start d))) with (@None byte);
    [reflexivity|].
  symmetry. apply nth_error_None. lia.
Qed.

Lemma beyond_moved : forall d k acc, beyond d -> 0 <= k -> beyond (moved d k acc).
Proof. intros d k acc [Hl Hs] Hk. unfold beyond, moved. cbn. split; [exact Hl|lia]. Qed.

Lemma tryDecodeBreak_beyond : forall d, beyond d -> tryDecodeBreak d = Ok false d.
Proof.
  intros d H. unfold tryDecodeBreak. unfold bind at 1. rewrite (peek_beyond d H).
  reflexivity.
Qed.

(** Behind the end of the buffer every type byte is [undefined], which the
    head reader takes for the integer 0 in one byte. *)
Lemma decodeValue_beyond : forall d,
  _decodeValue None d = Ok (MNum 0) (moved d 1 (_byteStreamBuffer d)).
Proof. intro d. reflexivity. Qed.

Lemma decodeObject_beyond : forall f d,
  beyond d ->
  decodeObject (S f) d = Ok (VNumber (Int 0)) (moved d 1 (_byteStreamBuffer d)).
Proof.
  intros f d H. cbn [decodeObject]. unfold tryDecodeNull.
  unfold bind at 1. unfold bind at 1. rewrite (peek_beyond d H).
  cbn [tb_eq]. unfold ret at 1. cbv beta iota.
  unfold bind at 1. rewrite (peek_beyond d H). cbn [tb_eq orb].
  change (CborTypes.majorType None) with 0.
  cbn [Z.eqb CborTypes.TYPE_POSINT orb].
  unfold decodeInt. unfold bind at 1. rewrite (peek_beyond d H).
  reflexivity.
Qed.

(** The loop of an array of indefinite length, behind the end of the
    buffer: no stop marker is found and every turn adds an element. *)
Lemma process_loop_beyond : forall f n i a d,
  beyond d -> 0 <= i ->
  process_loop n (MNum (-1)) (push (decodeObject f)) i a d = OutOfFuel.
Proof.
  intros f. induction n as [|n IH]; intros i a d H Hi; [reflexivity|].
  cbn [process_loop].
  replace (counter_neq i (MNum (-1))) with true.
  2:{ unfold counter_neq, loose_neq, loose_eq. symmetry.
      destruct (Z.eqb_spec (-1) i); [lia|reflexivity]. }
  unfold bind at 1. rewrite (tryDecodeBreak_beyond d H). cbv beta iota.
  unfold bind at 1. unfold push at 1. unfold bind at 1.
  destruct f as [|f']; [reflexivity|].
  rewrite (decodeObject_beyond f' d H). unfold ret at 1. cbv beta iota.
  apply IH; [apply beyond_moved; [exact H|lia]|lia].
Qed.

(** A segment read behind the end of the buffer is empty and takes one
    byte. *)
Lemma segment_beyond : forall f d,
  beyond d ->
  _decodeByteStringsInternal f None d = OutOfFuel
  \/ exists d', _decodeByteStringsInternal f None d = Ok tt d' /\ beyond d'.
Proof.
  intros [|f] d H; [left; reflexivity|right].
  rewrite decodeByteStringsInternal_step. unfold bind at 1.
  rewrite decodeValue_beyond.
  replace (loose_neq (MNum 0) (-1)) with true by reflexivity. cbv iota.
  destruct H as [Hl Hs].
  unfold _ensureAvailable, remaining_lt, slice_from_start, stream_write, _consume.
  run_M. cbn [_limit moved]. rewrite Hl.
  eexists. split; [reflexivity|].
  unfold beyond, set_start, set_stream, moved. cbn. split; [exact Hl|lia].
Qed.

Lemma segments_loop_beyond : forall f n d,
  beyond d -> segments_loop n f d = OutOfFuel.
Proof.
  intros f. induction n as [|n IH]; intros d H; [reflexivity|].
  unfold segments_loop. cbn [while_not].
  unfold bind at 1. rewrite (tryDecodeBreak_beyond d H). cbv beta iota.
  unfold bind at 1. unfold bind at 1. rewrite (peek_beyond d H). cbv beta iota.
  destruct (segment_beyond f d H) as [E|(d' & E & H')]; rewrite E; [reflexivity|].
  apply (IH d' H').
Qed.


(** ** More fuel *)

(** A run that has answered answers the same with more fuel. *)

Lemma more_fuel_refl : forall A (m : M A), more_fuel m m.
Proof. intros A m d. right. reflexivity. Qed.

Lemma more_fuel_out : forall A (m : M A), more_fuel out_of_fuel m.
Proof. intros A m d. left. reflexivity. Qed.

Lemma more_fuel_bind : forall A B (m m' : M A) (f f' : A -> M B),
  more_fuel m m' -> (forall a, more_fuel (f a) (f' a)) ->
  more_fuel (bind m f) (bind m' f').
Proof.
  intros A B m m' f f' Hm Hf d. unfold bind.
  destruct (Hm d) as [E|E]; [left; rewrite E; reflexivity|]. rewrite E.
  destruct (m d) as [a d1|e d1| |]; try (right; reflexivity).
  apply Hf.
Qed.

(** Both computations branch in the same way. *)
Ltac known_fuel := fail.

Ltac same_branches :=
  repeat first
    [ known_fuel
    | apply more_fuel_refl
    | apply more_fuel_out
    | assumption
    | apply more_fuel_bind; [|intro]
    | match goal with
      | |- more_fuel (if ?b then _ else _) (if ?b then _ else _) => destruct b
      | |- more_fuel (match ?x with _ => _ end) (match ?x with _ => _ end) =>
          destruct x
      end ].

Lemma while_not_more_fuel : forall (cond : M bool) (body body' : M unit),
  more_fuel body body' ->
  forall n n', (n <= n')%nat ->
    more_fuel (while_not n cond body) (while_not n' cond body').
Proof.
  intros cond body body' Hb. induction n as [|n IH]; intros n' Hn.
  - apply more_fuel_out.
  - destruct n' as [|n']; [lia|]. cbn [while_not].
    specialize (IH n' ltac:(lia)). same_branches.
Qed.

Lemma decodeByteStringsInternal_more_fuel : forall f f' t,
  (f <= f')%nat ->
  more_fuel (_decodeByteStringsInternal f t) (_decodeByteStringsInternal f' t).
Proof.
  induction f as [|f IH]; intros f' t Hf.
  - apply more_fuel_out.
  - destruct f' as [|f']; [lia|]. rewrite !decodeByteStringsInternal_step.
    same_branches.
    apply while_not_more_fuel; [|lia]. same_branches. apply IH. lia.
Qed.

Lemma decodeBytes_more_fuel : forall f f',
  (f <= f')%nat -> more_fuel (decodeBytes f) (decodeBytes f').
Proof.
  intros f f' Hf. unfold decodeBytes.
  pose proof (fun t => decodeByteStringsInternal_more_fuel f f' t Hf) as H.
  same_branches. apply H.
Qed.

Lemma decodeString_more_fuel : forall f f',
  (f <= f')%nat -> more_fuel (decodeString f) (decodeString f').
Proof.
  intros f f' Hf. unfold decodeString.
  pose proof (fun t => decodeByteStringsInternal_more_fuel f f' t Hf) as H.
  same_branches. apply H.
Qed.

Lemma decodeBigInt_more_fuel : forall f f' tag,
  (f <= f')%nat -> more_fuel (_decodeBigInt f tag) (_decodeBigInt f' tag).
Proof.
  intros f f' tag Hf. unfold _decodeBigInt.
  pose proof (decodeBytes_more_fuel f f' Hf) as H. same_branches.
Qed.

Lemma decodeInt_more_fuel : forall f f',
  (f <= f')%nat -> more_fuel (decodeInt f) (decodeInt f').
Proof.
  intros f f' Hf. unfold decodeInt.
  pose proof (fun tag => decodeBigInt_more_fuel f f' tag Hf) as H.
  same_branches. apply H.
Qed.

Lemma decodeDecimal_more_fuel : forall f f' tag,
  (f <= f')%nat -> more_fuel (_decodeDecimal f tag) (_decodeDecimal f' tag).
Proof.
  intros f f' tag Hf. unfold _decodeDecimal.
  pose proof (decodeInt_more_fuel f f' Hf) as H. same_branches.
Qed.

Lemma process_loop_more_fuel : forall A (fn fn' : A -> M A) length,
  (forall a, more_fuel (fn a) (fn' a)) ->
  forall n n' i a, (n <= n')%nat ->
    more_fuel (process_loop n length fn i a) (process_loop n' length fn' i a).
Proof.
  intros A fn fn' length Hfn. induction n as [|n IH]; intros n' i a Hn.
  - apply more_fuel_out.
  - destruct n' as [|n']; [lia|]. cbn [process_loop].
    same_branches; [apply Hfn|apply IH; lia].
Qed.

Lemma buildArray_more_fuel : forall (fn fn' : M value) n n',
  more_fuel fn fn' -> (n <= n')%nat ->
  more_fuel (buildArray n fn) (buildArray n' fn').
Proof.
  intros fn fn' n n' Hfn Hn. unfold buildArray, processArray.
  same_branches. apply process_loop_more_fuel; [|exact Hn].
  intros acc. same_branches.
Qed.

Lemma buildMap_more_fuel : forall (fn fn' : M (value * value)) n n',
  more_fuel fn fn' -> (n <= n')%nat ->
  more_fuel (buildMap n fn) (buildMap n' fn').
Proof.
  intros fn fn' n n' Hfn Hn. unfold buildMap, processMap.
  same_branches. apply process_loop_more_fuel; [|exact Hn].
  intros acc. unfold buildMap_step. same_branches.
Qed.

Ltac known_fuel ::=
  match goal with
  | |- more_fuel (decodeArray_with _ _) (decodeArray_with _ _) =>
      apply buildArray_more_fuel; [|lia]
  | |- more_fuel (decodeMap_with _ _) (decodeMap_with _ _) =>
      apply buildMap_more_fuel; [|lia]
  | |- more_fuel (_decodeBigInt _ _) (_decodeBigInt _ _) =>
      apply decodeBigInt_more_fuel; lia
  | |- more_fuel (_decodeDecimal _ _) (_decodeDecimal _ _) =>
      apply decodeDecimal_more_fuel; lia
  end.

Lemma decodeObject_more_fuel : forall f f',
  (f <= f')%nat -> more_fuel (decodeObject f) (decodeObject f').
Proof.
  induction f as [|f IH]; intros f' Hf.
  - apply more_fuel_out.
  - destruct f' as [|f']; [lia|]. cbn [decodeObject].
    assert (Hf' : (f <= f')%nat) by lia.
    pose proof (IH f' Hf') as Hobj.
    pose proof (decodeInt_more_fuel f f' Hf') as Hint.
    pose proof (decodeBytes_more_fuel f f' Hf') as Hbytes.
    pose proof (decodeString_more_fuel f f' Hf') as Hstr.
    unfold _decodeTaggedType_with. same_branches.
Qed.

(** What runs out of fuel however much it is given runs out of any. *)
Lemma always_out_of_fuel : forall A (F : nat -> M A) d N,
  (forall f f', (f <= f')%nat -> more_fuel (F f) (F f')) ->
  (forall f, (N <= f)%nat -> F f d = OutOfFuel) ->
  forall f, F f d = OutOfFuel.
Proof.
  intros A F d N Hmore Hbig f.
  destruct (Hmore f (f + N)%nat ltac:(lia) d) as [E|E]; [exact E|].
  rewrite <- E. apply Hbig. lia.
Qed.

(** ** A missing stop marker *)

(** Where the bytes at the cursor are the last of the buffer, the decoder
    is behind the buffer once they are consumed. *)
Lemma cursor_to_end : forall d bytes,
  0 <= start d -> cursor_bytes d = bytes ->
  Z.of_nat (List.length (buffer d)) <= start d + encoded_length bytes.
Proof.
  intros d bytes Hs <-. unfold cursor_bytes, encoded_length.
  rewrite length_skipn. lia.
Qed.

(** The loop of an array of indefinite length whose elements are the last
    bytes of the buffer: after them it goes on behind the buffer. *)
Lemma process_loop_unterminated : forall f d items d2,
  items_run (decodeObject f) d items d2 ->
  beyond d2 ->
  forall n i a, 0 <= i ->
    process_loop n (MNum (-1)) (push (decodeObject f)) i a d = OutOfFuel.
Proof.
  intros f d items d2 Hrun. induction Hrun as [d | d v d1 rest d2 Hbrk Hfn Hrun IH];
    intros Hb n i a Hi.
  - apply process_loop_beyond; assumption.
  - destruct n as [|n]; [reflexivity|]. cbn [process_loop].
    replace (counter_neq i (MNum (-1))) with true.
    2:{ unfold counter_neq, loose_neq, loose_eq. symmetry.
        destruct (Z.eqb_spec (-1) i); [lia|reflexivity]. }
    unfold bind at 1. rewrite Hbrk. cbv beta iota.
    unfold bind at 1. unfold push at 1. unfold bind at 1. rewrite Hfn.
    unfold ret at 1. cbv beta iota.
    apply IH; [exact Hb|lia].
Qed.

(** The same for the segments of a string. *)
Lemma strings_unterminated : forall f d tb segments,
  Forall segment_fits segments ->
  0 <= start d -> _limit d = None ->
  cursor_bytes d = tb :: segments_bytes segments ->
  _decodeValue (Some tb) d = Ok (MNum (-1)) (moved d 1 (_byteStreamBuffer d)) ->
  (List.length segments + 2 <= f)%nat ->
  _decodeByteStringsInternal f (Some tb) d = OutOfFuel.
Proof.
  intros f d tb segments Hfit Hs Hl Hcur Hv Hf.
  destruct f as [|[|f]]; [lia|lia|].
  rewrite decodeByteStringsInternal_step. unfold bind at 1. rewrite Hv.
  replace (loose_neq (MNum (-1)) (-1)) with false by reflexivity. cbv iota.
  fold (segments_loop (S f) (S f)).
  set (d1 := moved d 1 (_byteStreamBuffer d)).
  assert (Hs1 : 0 <= start d1) by (unfold d1, moved; cbn [start]; lia).
  assert (Hcur1 : cursor_bytes d1 = segments_bytes segments ++ []).
  { rewrite app_nil_r. exact (cursor_skip d 1 [tb] _ Hs Hcur eq_refl). }
  replace (S f) with (List.length segments + (S f - List.length segments))%nat at 1 by lia.
  rewrite (segments_prefix_run segments _ f d1 [] Hfit Hs1 Hcur1).
  2:{ unfold limit_allows, d1, moved. cbn [_limit]. rewrite Hl. exact I. }
  apply segments_loop_beyond. unfold d1. unfold beyond, moved. cbn [_limit buffer start].
  split; [exact Hl|].
  pose proof (cursor_to_end d _ Hs Hcur) as Hend.
  unfold encoded_length in *. cbn [List.length] in Hend.
  rewrite Nat2Z.inj_succ in Hend. lia.
Qed.

(** X16.  A decoder without limit never returns from an array of
    indefinite length whose elements are complete, or from a byte or text
    string of indefinite length whose segments are complete, when the
    buffer ends where the stop marker should be.  Behind the end of the
    buffer it reads [undefined], which is no stop marker and decodes as the
    integer 0 (as an empty segment, in a string), so the loop goes on with
    whatever fuel it is given.  [decodeCbor] creates such a decoder for a
    nested item that arrives as a byte string of indefinite length.  (With
    an element that is cut short the run may end: the head [19 01] at the
    end of the buffer raises [RangeError].) *)
Theorem unterminated_never_returns : forall h fuel d,
  _limit d = None ->
  ready h d ->
  unterminated h (cursor_bytes d) ->
  decodeObject fuel d = OutOfFuel.
Proof.
  intros h fuel d Hl Hready Hunt. pose proof Hready as (Hs & Hacc & Hh).
  assert (Hlim : forall n, limit_allows d n) by (intro n; unfold limit_allows; rewrite Hl; exact I).
  destruct Hunt as [(elems & Hwf & Hcur)|(tb & segments & Htb & Hfit & Hcur)].
  - apply (always_out_of_fuel value decodeObject d
             (S (S (list_sum (map size elems)))) decodeObject_more_fuel).
    intros [|f] Hf; [lia|].
    assert (Hpeek : peek d = Ok (Some x9f) d)
      by exact (peek_at d x9f _ 1 Hs Hcur (Hlim 1) ltac:(lia)).
    rewrite (decodeObject_not_simple f d (Some x9f) Hpeek) by discriminate.
    change (CborTypes.majorType (Some x9f)) with CborTypes.TYPE_ARRAY.
    cbv zeta. cbn [Z.eqb Pos.eqb orb CborTypes.TYPE_POSINT CborTypes.TYPE_NEGINT
                   CborTypes.TYPE_BYTES CborTypes.TYPE_UTF CborTypes.TYPE_ARRAY].
    unfold decodeArray_with, buildArray, processArray, decodeArrayLength.
    unfold bind at 1. unfold bind at 1. unfold bind at 1. rewrite Hpeek.
    change (negb (CborTypes.majorType (Some x9f) =? CborTypes.TYPE_ARRAY)) with false.
    cbv iota.
    change (_decodeValue (Some x9f) d)
      with (Ok (MNum (-1)) (moved d 1 (_byteStreamBuffer d))).
    cbv beta iota. fold (push (decodeObject f)).
    rewrite moved_set_start.
    set (d1 := set_start (start d + 1) d).
    assert (Hready1 : ready h d1) by (apply ready_set_start; [exact Hready|lia]).
    assert (Hcur1 : cursor_bytes d1 = List.concat (map encode elems) ++ []).
    { rewrite app_nil_r. exact (cursor_skip d 1 [x9f] _ Hs Hcur eq_refl). }
    pose proof (elements_items_run h f (decodeObject_reads_back h f) elems d1 []
                  Hwf ltac:(lia) Hready1 Hcur1
                  ltac:(unfold limit_allows, d1, set_start; cbn [_limit]; rewrite Hl; exact I))
      as Hrun.
    rewrite (process_loop_unterminated f d1 _ _ Hrun); [reflexivity| |lia].
    unfold d1. unfold beyond, set_start. cbn [_limit buffer start]. split; [exact Hl|].
    pose proof (cursor_to_end d _ Hs Hcur) as Hend.
    unfold encoded_length in *. cbn [List.length] in Hend.
    rewrite Nat2Z.inj_succ in Hend. lia.
  - apply (always_out_of_fuel value decodeObject d
             (S (List.length segments + 2)) decodeObject_more_fuel).
    intros [|f] Hf; [lia|].
    assert (Hpeek : peek d = Ok (Some tb) d)
      by exact (peek_at d tb _ 1 Hs Hcur (Hlim 1) ltac:(lia)).
    destruct Htb as [-> | ->].
    + rewrite (decodeObject_not_simple f d (Some x5f) Hpeek) by discriminate.
      change (CborTypes.majorType (Some x5f)) with CborTypes.TYPE_BYTES.
      cbv zeta. cbn [Z.eqb Pos.eqb orb CborTypes.TYPE_POSINT CborTypes.TYPE_NEGINT
                     CborTypes.TYPE_BYTES].
      unfold decodeBytes. unfold bind at 1. unfold bind at 1. rewrite Hpeek.
      change (negb (CborTypes.isMajorType (Some x5f) CborTypes.TYPE_BYTES)) with false.
      cbv iota. unfold bind at 1.
      rewrite (strings_unterminated f d x5f segments Hfit Hs Hl Hcur eq_refl ltac:(lia)).
      reflexivity.
    + rewrite (decodeObject_not_simple f d (Some x7f) Hpeek) by discriminate.
      change (CborTypes.majorType (Some x7f)) with CborTypes.TYPE_UTF.
      cbv zeta. cbn [Z.eqb Pos.eqb orb CborTypes.TYPE_POSINT CborTypes.TYPE_NEGINT
                     CborTypes.TYPE_BYTES CborTypes.TYPE_UTF].
      unfold decodeString. unfold bind at 1. rewrite Hpeek.
      change (negb (CborTypes.isMajorType (Some x7f) CborTypes.TYPE_UTF)) with false.
      cbv iota. unfold bind at 1.
      rewrite (strings_unterminated f d x7f segments Hfit Hs Hl Hcur eq_refl ltac:(lia)).
      reflexivity.
Qed.

(** The nested item [9f 01 82 02 03], an array of indefinite length that
    holds 1 and [[2, 3]] and is left open, sent as a byte string of
    indefinite length: [decodeCbor] hands out a sub-decoder without limit,
    on which [decodeObject] does not return. *)
Lemma unterminated_never_returns_witness :
  let d := new_CborDecoder [x5f; x45; x9f; x01; x82; x02; x03; xff] None None None in
  let sub := rebind [x9f; x01; x82; x02; x03] 0 None
               (new_CborDecoder [x9f; x01; x82; x02; x03] None None None) in
  decodeCbor 3 d = Ok sub (set_subDecoder sub (set_start 8 d))
  /\ decodeObject 1000 sub = OutOfFuel.
Proof.
  intros d sub. split; [reflexivity|].
  apply (unterminated_never_returns None 1000 sub).
  - reflexivity.
  - unfold ready. split; [cbv; congruence|split; reflexivity].
  - left. exists [IInt Inline 1; IArray (Some Inline) [IInt Inline 2; IInt Inline 3]].
    split; [|reflexivity].
    apply Forall_cons; [apply wf_int; cbv; split; congruence|].
    apply Forall_cons; [|apply Forall_nil].
    apply wf_array; [cbv; split; congruence|].
    apply Forall_cons; [apply wf_int; cbv; split; congruence|].
    apply Forall_cons; [apply wf_int; cbv; split; congruence|].
    apply Forall_nil.
Defined.

(** ** Draining as a string *)

Lemma Buffer_toString_hex_length : forall data,
  String.length (Buffer_toString_hex data) = (2 * List.length data)%nat.
Proof.
  induction data as [|b data IH]; [reflexivity|].
  cbn [Buffer_toString_hex String.length List.length]. rewrite IH. lia.
Qed.

Lemma string_of_list_ascii_length : forall l,
  String.length (string_of_list_ascii l) = List.length l.
Proof.
  induction l as [|c l IH]; [reflexivity|].
  cbn [string_of_list_ascii String.length List.length]. rewrite IH. reflexivity.
Qed.

Lemma toString_range_window : forall t l,
  in_window t l ->
  toString_range (buffer t) (start t) (_limit t)
  = firstn (Z.to_nat (l - start t)) (cursor_bytes t)
  /\ Z.of_nat (List.length (toString_range (buffer t) (start t) (_limit t)))
     = l - start t.
Proof.
  intros t l (Hl & Hs & Hlen). unfold toString_range, cursor_bytes. rewrite Hl.
  destruct (Z.leb_spec (start t) 0) as [E0|E0].
  - assert (Es : start t = 0) by lia. rewrite Es in *. cbn [Z.to_nat skipn].
    destruct (Z.gtb_spec l (Z.of_nat (List.length (buffer t)))); [lia|].
    destruct (Z.leb_spec (Z.of_nat (List.length (buffer t))) 0) as [E1|E1];
      destruct (Z.leb_spec l 0) as [E2|E2]; cbn [orb].
    + assert (El : l = 0) by lia. subst l. split; reflexivity.
    + lia.
    + assert (El : l = 0) by lia. subst l. split; reflexivity.
    + rewrite !Z.sub_0_r. split; [reflexivity|]. rewrite length_firstn. lia.
  - destruct (Z.gtb_spec l (Z.of_nat (List.length (buffer t)))); [lia|].
    destruct (Z.leb_spec (Z.of_nat (List.length (buffer t))) (start t)) as [E1|E1];
      destruct (Z.leb_spec l (start t)) as [E2|E2]; cbn [orb].
    + replace (l - start t) with 0 by lia. split; reflexivity.
    + lia.
    + replace (l - start t) with 0 by lia. split; reflexivity.
    + split; [reflexivity|]. rewrite length_firstn, length_skipn. lia.
Qed.

(** X17.  [drainAsString] advances the offset by the length of the string
    it returns, not by the number of bytes it has converted.  For ['latin1']
    the two are the same and the offset ends at the limit; for ['hex'] the
    string has two characters for a byte, and the offset ends behind the
    limit by as many bytes as were drained: the decoder has left its
    window. *)
Theorem drainAsString_advances_by_characters : forall t l,
  in_window t l ->
  let bytes := firstn (Z.to_nat (l - start t)) (cursor_bytes t) in
  drainAsString enc_latin1 t
  = Ok (string_of_list_ascii (map ascii_of_byte bytes)) (set_start l t)
  /\ drainAsString enc_hex t
     = Ok (Buffer_toString_hex bytes) (set_start (l + (l - start t)) t).
Proof.
  intros t l Hw bytes.
  destruct (toString_range_window t l Hw) as [Hr Hn]. fold bytes in Hr.
  unfold drainAsString, Buffer_toString. rewrite Hr in *. split.
  - rewrite string_of_list_ascii_length, length_map. f_equal. f_equal. lia.
  - rewrite Buffer_toString_hex_length. f_equal. f_equal. lia.
Qed.

(** Three bytes left in a window of four, in a buffer of six: as ['hex']
    they are six characters, and the offset ends at 7, behind the limit and
    behind the buffer. *)
Lemma drainAsString_advances_by_characters_witness :
  let t := new_CborDecoder [x00; x61; x62; x63; x01; x02] (Some 1) (Some 4) None in
  drainAsString enc_latin1 t = Ok "abc"%string (set_start 4 t)
  /\ drainAsString enc_hex t = Ok "616263"%string (set_start 7 t).
Proof.
  intro t.
  assert (Hw : in_window t 4) by (cbv; repeat split; congruence).
  exact (drainAsString_advances_by_characters t 4 Hw).
Defined.

(** ** Every reading method, inside the window *)

Lemma safe_drainAsString_latin1 : safe (drainAsString enc_latin1 ;; ret tt).
Proof.
  intros t l Hw _. destruct (toString_range_window t l Hw) as [Hr Hn].
  unfold drainAsString, Buffer_toString. run_M.
  rewrite string_of_list_ascii_length, length_map, Hn.
  destruct Hw as (Hl & Hs & Hlen). unfold stays, set_start.
  cbn [buffer start _limit tagHandlers]. repeat split; try assumption; lia.
Qed.

Lemma safe_read : forall fuel r, byte_for_character r -> safe (read fuel r).
Proof.
  intros fuel [m|enc] Hr; cbn [read].
  - apply safe_call.
  - cbn [byte_for_character] in Hr. subst enc. exact safe_drainAsString_latin1.
Qed.

(** X11.  A decoder whose offset and limit lie inside its buffer does not
    leave its window, whichever of its reading methods are called on it, in
    whatever order: [peek], [skip], [drain], [drainAsString] with
    ['latin1'], [decodeString], [decodeBytes], [decodeNumber], [decodeInt],
    [decodeFloat], [decodeArrayLength], [decodeMapLength], [decodeArray],
    [decodeMap], [tryDecodeBreak], [tryDecodeNull], [decodeObject] and
    [decodeCbor].  However the calls end, the buffer, the limit and the tag
    handlers are those it started with and the offset has not moved
    backwards and is not beyond the limit; and no call raises [RangeError],
    since no byte is read beyond the limit.  [drainAsString] is in the list
    with ['latin1'] only: with ['hex'] it moves the offset beyond the limit
    (X17).  (A limit of 0, which [drain] takes for no limit, is set aside
    unless the buffer is empty.) *)
Theorem calls_stay_in_window : forall fuel rs t l,
  Forall byte_for_character rs ->
  in_window t l -> (l = 0 -> buffer t = []) ->
  match reads fuel rs t with
  | Ok _ t' => stays t t' l
  | Throw e t' => stays t t' l /\ e <> RangeError
  | OutOfFuel | Unmodelled => True
  end.
Proof.
  intros fuel rs t l Hrs. revert t l. change (safe (reads fuel rs)).
  induction Hrs as [|r rs Hr _ IH]; cbn [reads].
  - apply safe_ret.
  - apply safe_bind; [apply safe_read; exact Hr|intros []; exact IH].
Qed.

(** The decoder on the array [[1, 2]] with a limit before the stop byte
    that follows it: the array is read, neither [drain] nor
    [drainAsString] has anything left to take, and [peek] asks for more
    data at the limit. *)
Lemma calls_stay_in_window_witness :
  let t := new_CborDecoder [x82; x01; x02; xff] None (Some 3) None in
  let rs := [r_method m_decodeArray; r_method m_drain;
             r_drainAsString enc_latin1; r_method m_peek] in
  in_window t 3
  /\ reads 5 rs t = Throw NeedMoreData (set_start 3 t)
  /\ match reads 5 rs t with
     | Ok _ t' => stays t t' 3
     | Throw e t' => stays t t' 3 /\ e <> RangeError
     | OutOfFuel | Unmodelled => True
     end.
Proof.
  intros t rs.
  assert (Hw : in_window t 3) by (cbv; repeat split; congruence).
  split; [exact Hw|]. split; [reflexivity|].
  apply (calls_stay_in_window 5 rs t 3).
  - repeat constructor.
  - exact Hw.
  - intro H. discriminate H.
Defined.

(** * [Util.convertBase] *)

Lemma int32_small : forall x, - 2 ^ 31 <= x < 2 ^ 31 -> Util.int32 x = x.
Proof. intros x Hx. unfold Util.int32. rewrite Z.mod_small; lia. Qed.

(** The character of a digit, and the digit of that character. *)
Lemma ALPHABET_at_digit : forall n, 0 <= n < 16 ->
  exists c, Util.ALPHABET_at n = String c EmptyString
            /\ Util.ALPHABET_indexOf c = n
            /\ (c = "0"%char -> n = 0).
Proof.
  intros n Hn. rewrite <- (Z2Nat.id n) by lia.
  assert (Hk : (Z.to_nat n < 16)%nat) by lia.
  generalize dependent (Z.to_nat n). clear n Hn. intros k Hk.
  do 16 (destruct k as [|k];
         [eexists; split; [reflexivity|split; [reflexivity|]];
          intro E; try reflexivity; discriminate E|]).
  lia.
Qed.

Lemma numeral_value_app : forall b s1 s2 acc,
  numeral_value b acc (s1 ++ s2) = numeral_value b (numeral_value b acc s1) s2.
Proof.
  intros b. induction s1 as [|c s1 IH]; intros s2 acc; [reflexivity|].
  cbn [append numeral_value]. apply IH.
Qed.

Lemma all_chars_app : forall P s1 s2,
  all_chars P s1 -> all_chars P s2 -> all_chars P (s1 ++ s2).
Proof.
  intros P. induction s1 as [|c s1 IH]; intros s2 H1 H2; [exact H2|].
  cbn [append all_chars] in *. destruct H1 as [Hc H1]. split; [exact Hc|].
  apply IH; assumption.
Qed.

Lemma string_length_app : forall s1 s2,
  String.length (s1 ++ s2) = (String.length s1 + String.length s2)%nat.
Proof.
  induction s1 as [|c s1 IH]; intro s2; [reflexivity|].
  cbn [append String.length]. rewrite IH. reflexivity.
Qed.

(** ** The carry loop *)

Lemma cells_sum_nonneg : forall C cells,
  Forall (fun y => 0 <= y <= C) cells -> 0 <= cells_sum cells.
Proof.
  intros C cells H. induction H as [|x l Hx _ IH]; cbn [cells_sum]; lia.
Qed.

Lemma quot_rem_nonneg : forall x b, 0 <= x -> 2 <= b ->
  x = Z.rem x b + b * Z.quot x b
  /\ 0 <= Z.rem x b < b
  /\ 0 <= Z.quot x b
  /\ 2 * Z.quot x b <= x
  /\ (b <= x -> 1 <= Z.quot x b).
Proof.
  intros x b Hx Hb.
  pose proof (Z.quot_rem' x b) as E.
  pose proof (Z.rem_bound_pos x b Hx ltac:(lia)) as Hr.
  assert (Hq : 0 <= Z.quot x b) by (apply Z.quot_pos; lia).
  repeat split; try lia; try nia.
Qed.

Lemma carry_spec : forall b C,
  2 <= b -> 0 <= C -> 2 * C < 2 ^ 31 ->
  forall n cells,
    Z.of_nat (List.length cells) + cells_sum cells <= Z.of_nat n ->
    carry_bounded C cells ->
    exists out,
      (forall fuel, (List.length out < fuel)%nat -> Util.carry fuel b cells = Some out)
      /\ cells_value b out = cells_value b cells
      /\ Forall (fun x => 0 <= x < b) out
      /\ (List.length cells <= List.length out)%nat
      /\ (0 < List.last cells 0 -> 0 < List.last out 0)
      /\ (cells = [0] -> out = [0])
      /\ (cells = [] -> out = []).
Proof.
  intros b C Hb HC HC31. induction n as [|n IH]; intros cells Hm Hbd.
  { destruct cells as [|x rest].
    - exists []. repeat split; auto; try discriminate.
      intros [|fuel] Hf; [cbn in Hf; lia|reflexivity].
    - cbn [carry_bounded] in Hbd. destruct Hbd as [Hx Hrest].
      pose proof (cells_sum_nonneg C rest Hrest).
      cbn [List.length cells_sum] in Hm. lia. }
  destruct cells as [|x rest].
  { exists []. repeat split; auto; try discriminate.
    intros [|fuel] Hf; [cbn in Hf; lia|reflexivity]. }
  cbn [carry_bounded] in Hbd. destruct Hbd as [Hx Hrest].
  pose proof (cells_sum_nonneg C rest Hrest) as Hsum.
  cbn [List.length cells_sum] in Hm. rewrite Nat2Z.inj_succ in Hm.
  destruct (Z.gtb_spec x (b - 1)) as [Hgt|Hle].
  - (* the cell hands its quotient on *)
    destruct (quot_rem_nonneg x b ltac:(lia) Hb) as (Exb & Hr & Hq0 & Hq2 & Hq1).
    specialize (Hq1 ltac:(lia)).
    assert (Hi : Util.int32 (Z.quot x b) = Z.quot x b) by (apply int32_small; lia).
    set (next := match rest with [] => 0 | y :: _ => y end).
    set (cells' := next + Z.quot x b :: List.tl rest).
    assert (Hnext : 0 <= next <= C /\ cells_sum rest = next + cells_sum (List.tl rest)
                    /\ cells_value b rest = next + b * cells_value b (List.tl rest)
                    /\ Forall (fun y => 0 <= y <= C) (List.tl rest)).
    { unfold next. destruct rest as [|y r].
      - cbn. repeat split; try lia. constructor.
      - inversion Hrest; subst. cbn. repeat split; try lia. assumption. }
    destruct Hnext as (Hn & Hns & Hnv & Htl).
    pose proof (cells_sum_nonneg C _ Htl) as Hsumtl.
    destruct (IH cells') as (out' & Hrun & Hval & Hbelow & Hlen & Hlast & _ & _).
    { unfold cells'. cbn [List.length cells_sum].
      destruct rest as [|y r]; cbn [List.length List.tl] in *.
      - cbn [cells_sum] in *. lia.
      - rewrite Nat2Z.inj_succ in *. lia. }
    { unfold cells'. cbn [carry_bounded]. split; [lia|exact Htl]. }
    exists (Z.rem x b :: out'). split; [|split; [|split; [|split; [|split; [|split]]]]].
    + intros [|fuel] Hf; [lia|]. cbn [List.length] in Hf. cbn [Util.carry].
      destruct (Z.gtb_spec x (b - 1)); [|lia].
      destruct (Z.eqb_spec b 0); [lia|].
      fold next. rewrite Hi. fold cells'. rewrite (Hrun fuel ltac:(lia)). reflexivity.
    + cbn [cells_value]. rewrite Hval. unfold cells'. cbn [cells_value].
      rewrite Hnv. lia.
    + constructor; [lia|exact Hbelow].
    + unfold cells' in Hlen. cbn [List.length] in *.
      destruct rest as [|y r]; cbn [List.length List.tl] in *; lia.
    + intro Hpos.
      assert (Hpos' : 0 < List.last cells' 0).
      { unfold cells'. destruct rest as [|y r].
        - cbn. lia.
        - destruct r as [|z r'].
          + cbn in Hpos |- *. unfold next. lia.
          + cbn [List.tl]. cbn [List.last] in Hpos |- *. exact Hpos. }
      specialize (Hlast Hpos').
      destruct out' as [|o out'']; [cbn in Hlast; lia|].
      cbn [List.last] in *. exact Hlast.
    + intro E. injection E as -> _. lia.
    + discriminate.
  - (* the cell stays *)
    destruct (IH rest) as (out' & Hrun & Hval & Hbelow & Hlen & Hlast & _ & Hnil).
    { lia. }
    { destruct rest as [|y r]; [exact I|]. inversion Hrest; subst.
      cbn [carry_bounded]. split; [lia|assumption]. }
    exists (x :: out'). split; [|split; [|split; [|split; [|split; [|split]]]]].
    + intros [|fuel] Hf; [lia|]. cbn [List.length] in Hf. cbn [Util.carry].
      destruct (Z.gtb_spec x (b - 1)); [lia|].
      rewrite (Hrun fuel ltac:(lia)). reflexivity.
    + cbn [cells_value]. rewrite Hval. reflexivity.
    + constructor; [lia|exact Hbelow].
    + cbn [List.length]. lia.
    + intro Hpos. destruct rest as [|y r].
      * rewrite (Hnil eq_refl). exact Hpos.
      * assert (Hpos' : 0 < List.last (y :: r) 0) by exact Hpos.
        specialize (Hlast Hpos').
        destruct out' as [|o out'']; [cbn in Hlast; lia|].
        cbn [List.last] in *. exact Hlast.
    + intro E. injection E as -> ->. rewrite (Hnil eq_refl). reflexivity.
    + discriminate.
Qed.

(** ** The loop over the characters *)

Lemma last_scale : forall bi arr,
  0 < bi -> 0 < List.last arr 0 -> 0 < List.last (Util.scale bi arr) 0.
Proof.
  intros bi arr Hbi. unfold Util.scale.
  induction arr as [|x rest IH]; intro H; [cbn in H; lia|].
  destruct rest as [|y r].
  - cbn in H |- *. nia.
  - cbn [map List.last] in *. apply IH. exact H.
Qed.

Lemma cells_value_scale : forall bo bi arr,
  cells_value bo (Util.scale bi arr) = bi * cells_value bo arr.
Proof.
  intros bo bi. unfold Util.scale.
  induction arr as [|x rest IH]; cbn [map cells_value]; [lia|]. rewrite IH. lia.
Qed.

(** One character: the cells are multiplied and the digit is added to the
    first. *)
Lemma add_digit : forall bi bo arr dgt,
  2 <= bi <= 16 -> 2 <= bo <= 16 -> 0 <= dgt < 16 ->
  good_cells bo arr ->
  exists arr',
    Util.add_first dgt (Util.scale bi arr) = Some arr'
    /\ carry_bounded 240 arr'
    /\ cells_value bo arr' = cells_value bo arr * bi + dgt
    /\ List.length arr' = List.length arr
    /\ (arr' = [0] \/ 0 < List.last arr' 0).
Proof.
  intros bi bo arr dgt Hbi Hbo Hd [Hbelow Hcan].
  destruct arr as [|x rest].
  { destruct Hcan as [E|E]; [discriminate E|cbn in E; lia]. }
  inversion Hbelow as [|? ? Hx Hrest]; subst.
  exists (x * bi + dgt :: Util.scale bi rest).
  split; [reflexivity|]. split; [|split; [|split]].
  - cbn [carry_bounded]. split; [nia|].
    unfold Util.scale. apply Forall_map.
    eapply Forall_impl; [|exact Hrest]. cbv beta. intros y Hy. nia.
  - cbn [cells_value]. rewrite cells_value_scale. lia.
  - cbn [List.length]. unfold Util.scale. rewrite length_map. reflexivity.
  - destruct rest as [|y r].
    + cbn [Util.scale map List.last].
      destruct Hcan as [E|E].
      * injection E as ->. destruct (Z.eq_dec dgt 0) as [->|Hne]; [left; reflexivity|].
        right. lia.
      * cbn in E. right. nia.
    + right. destruct Hcan as [E|E]; [discriminate E|].
      change (0 < List.last (Util.scale bi (y :: r)) 0).
      apply last_scale; [lia|exact E].
Qed.

Lemma digits_loop_spec : forall bi bo,
  2 <= bi <= 16 -> 2 <= bo <= 16 ->
  forall str arr,
    good_cells bo arr ->
    all_chars (digit_below 16) str ->
    exists out,
      (forall fuel, (List.length out < fuel)%nat ->
         Util.digits_loop fuel bi bo str arr = Some out)
      /\ good_cells bo out
      /\ (List.length arr <= List.length out)%nat
      /\ cells_value bo out = numeral_value bi (cells_value bo arr) str.
Proof.
  intros bi bo Hbi Hbo. induction str as [|c str IH]; intros arr Hgood Hchars.
  - exists arr. repeat split; try apply Hgood; auto.
  - cbn [all_chars] in Hchars. destruct Hchars as [Hc Hchars].
    destruct (add_digit bi bo arr (Util.ALPHABET_indexOf c) Hbi Hbo Hc Hgood)
      as (arr' & Hadd & Hbd & Hval & Hlen & Hcan).
    destruct (carry_spec bo 240 ltac:(lia) ltac:(lia) ltac:(lia)
                (Z.to_nat (Z.of_nat (List.length arr') + cells_sum arr')) arr')
      as (arr'' & Hrun & Hval' & Hbelow & Hlen' & Hlast & Hzero & _).
    { assert (0 <= cells_sum arr').
      { destruct arr' as [|x r]; [cbn; lia|]. cbn [carry_bounded] in Hbd.
        pose proof (cells_sum_nonneg 240 r (proj2 Hbd)). cbn [cells_sum]. lia. }
      lia. }
    { exact Hbd. }
    assert (Hgood' : good_cells bo arr'').
    { split; [exact Hbelow|]. destruct Hcan as [E|E]; [left; auto|right; auto]. }
    destruct (IH arr'' Hgood' Hchars) as (out & Hloop & Hgo & Hlo & Hvo).
    exists out. split; [|split; [exact Hgo|split; [lia|]]].
    + intros fuel Hf. cbn [Util.digits_loop]. rewrite Hadd.
      rewrite (Hrun fuel ltac:(lia)). apply Hloop. exact Hf.
    + cbn [numeral_value]. rewrite Hvo, Hval', Hval. reflexivity.
Qed.

(** ** How long the result is *)

Lemma cells_value_lower : forall b arr,
  2 <= b -> Forall (fun x => 0 <= x < b) arr -> 0 < List.last arr 0 ->
  2 ^ (Z.of_nat (List.length arr) - 1) <= cells_value b arr.
Proof.
  intros b arr Hb. induction arr as [|x rest IH]; intros Hbelow Hlast.
  - cbn in Hlast. lia.
  - inversion Hbelow as [|? ? Hx Hrest]; subst. destruct rest as [|y r].
    + cbn in Hlast |- *. lia.
    + specialize (IH Hrest Hlast).
      cbn [cells_value List.length] in *. rewrite !Nat2Z.inj_succ in *.
      replace (Z.succ (Z.succ (Z.of_nat (List.length r))) - 1)
        with (Z.succ (Z.succ (Z.of_nat (List.length r)) - 1)) by lia.
      rewrite Z.pow_succ_r by lia. nia.
Qed.

Lemma numeral_value_upper : forall bi str acc,
  2 <= bi <= 16 -> 0 <= acc ->
  all_chars (digit_below 16) str ->
  0 <= numeral_value bi acc str < (acc + 1) * 16 ^ Z.of_nat (String.length str).
Proof.
  intros bi. induction str as [|c str IH]; intros acc Hbi Hacc Hchars.
  - cbn. lia.
  - cbn [all_chars] in Hchars. destruct Hchars as [Hc Hchars]. unfold digit_below in Hc.
    cbn [numeral_value String.length]. rewrite Nat2Z.inj_succ, Z.pow_succ_r by lia.
    specialize (IH (acc * bi + Util.ALPHABET_indexOf c) Hbi ltac:(nia) Hchars).
    assert (0 < 16 ^ Z.of_nat (String.length str)) by (apply Z.pow_pos_nonneg; lia).
    nia.
Qed.

Lemma good_cells_length : forall bi bo str out,
  2 <= bi <= 16 -> 2 <= bo <= 16 ->
  all_chars (digit_below 16) str ->
  good_cells bo out ->
  cells_value bo out = numeral_value bi 0 str ->
  (List.length out <= 4 * String.length str + 1)%nat.
Proof.
  intros bi bo str out Hbi Hbo Hchars [Hbelow [->|Hlast]] Hval; [cbn; lia|].
  pose proof (cells_value_lower bo out ltac:(lia) Hbelow Hlast) as Hlo.
  pose proof (numeral_value_upper bi str 0 Hbi ltac:(lia) Hchars) as Hup.
  rewrite <- Hval in Hup.
  replace (16 ^ Z.of_nat (String.length str))
    with (2 ^ (4 * Z.of_nat (String.length str))) in Hup.
  2:{ rewrite Z.pow_mul_r by lia. reflexivity. }
  assert (Hlt : 2 ^ (Z.of_nat (List.length out) - 1)
                < 2 ^ (4 * Z.of_nat (String.length str))) by lia.
  apply Z.pow_lt_mono_r_iff in Hlt; lia.
Qed.

(** ** The string of the result *)

Lemma digits_string_spec : forall b arr,
  b <= 16 -> Forall (fun x => 0 <= x < b) arr ->
  all_chars (digit_below b) (Util.digits_string arr)
  /\ numeral_value b 0 (Util.digits_string arr) = cells_value b arr
  /\ String.length (Util.digits_string arr) = List.length arr.
Proof.
  intros b arr Hb. induction arr as [|x rest IH]; intro Hbelow.
  - cbn. auto.
  - inversion Hbelow as [|? ? Hx Hrest]; subst.
    destruct (IH Hrest) as (Hchars & Hval & Hlen).
    destruct (ALPHABET_at_digit x ltac:(lia)) as (c & Hat & Hidx & _).
    cbn [Util.digits_string]. rewrite Hat. split; [|split].
    + apply all_chars_app; [exact Hchars|]. cbn [all_chars]. split; [|exact I].
      unfold digit_below. rewrite Hidx. exact Hx.
    + rewrite numeral_value_app, Hval. cbn [numeral_value cells_value].
      rewrite Hidx. lia.
    + rewrite string_length_app, Hlen. cbn [String.length List.length]. lia.
Qed.

Lemma digits_string_first : forall arr,
  Forall (fun x => 0 <= x < 16) arr -> 0 < List.last arr 0 ->
  exists c s, Util.digits_string arr = String c s /\ c <> "0"%char.
Proof.
  induction arr as [|x rest IH]; intros Hbelow Hlast; [cbn in Hlast; lia|].
  inversion Hbelow as [|? ? Hx Hrest]; subst. destruct rest as [|y r].
  - cbn in Hlast. destruct (ALPHABET_at_digit x Hx) as (c & Hat & _ & Hz).
    exists c, EmptyString. cbn [Util.digits_string append]. split; [exact Hat|].
    intro E. specialize (Hz E). lia.
  - destruct (IH Hrest Hlast) as (c & s & E & Hc).
    exists c, (s ++ Util.ALPHABET_at x)%string.
    change (Util.digits_string (x :: y :: r))
      with (Util.digits_string (y :: r) ++ Util.ALPHABET_at x)%string.
    rewrite E. split; [reflexivity|exact Hc].
Qed.

Lemma digits_string_canonical : forall b arr,
  b <= 16 -> good_cells b arr -> canonical (Util.digits_string arr).
Proof.
  intros b arr Hb [Hbelow [->|Hlast]]; [cbn; auto|].
  destruct (digits_string_first arr) as (c & s & -> & Hc).
  - eapply Forall_impl; [|exact Hbelow]. cbv beta. intros. lia.
  - exact Hlast.
  - cbn [canonical]. intro E. contradiction.
Qed.

Lemma zeros_spec : forall n,
  all_chars (digit_below 16) (Util.zeros n)
  /\ numeral_value 16 0 (Util.zeros n) = 0
  /\ String.length (Util.zeros n) = n.
Proof.
  induction n as [|n (IH1 & IH2 & IH3)]; [cbn; auto|].
  cbn [Util.zeros all_chars numeral_value String.length]. split; [|split].
  - split; [unfold digit_below; cbn; lia|exact IH1].
  - change (0 * 16 + Util.ALPHABET_indexOf "0") with 0. exact IH2.
  - rewrite IH3. reflexivity.
Qed.

(** Padding changes the length of a hexadecimal numeral, not its value. *)
Lemma pad_hex_spec : forall s,
  all_chars (digit_below 16) s ->
  all_chars (digit_below 16) (Util.pad_hex s)
  /\ numeral_value 16 0 (Util.pad_hex s) = numeral_value 16 0 s
  /\ hex_length (String.length (Util.pad_hex s)).
Proof.
  intros s Hs.
  assert (Hpad : forall n, (String.length s <= n)%nat ->
            all_chars (digit_below 16) (Util.zeros (n - String.length s) ++ s)
            /\ numeral_value 16 0 (Util.zeros (n - String.length s) ++ s)
               = numeral_value 16 0 s
            /\ String.length (Util.zeros (n - String.length s) ++ s) = n).
  { intros n Hn. destruct (zeros_spec (n - String.length s)) as (Z1 & Z2 & Z3).
    split; [|split].
    - apply all_chars_app; assumption.
    - rewrite numeral_value_app, Z2. reflexivity.
    - rewrite string_length_app, Z3. lia. }
  unfold Util.pad_hex, hex_length.
  destruct (Nat.leb_spec (String.length s) 2) as [H2|H2].
  { destruct (Hpad 2%nat H2) as (P1 & P2 & P3). rewrite P3.
    split; [exact P1|split; [exact P2|]]. lia. }
  destruct (Nat.leb_spec (String.length s) 4) as [H4|H4].
  { destruct (Hpad 4%nat H4) as (P1 & P2 & P3). rewrite P3.
    split; [exact P1|split; [exact P2|]]. lia. }
  destruct (Nat.leb_spec (String.length s) 8) as [H8|H8].
  { destruct (Hpad 8%nat H8) as (P1 & P2 & P3). rewrite P3.
    split; [exact P1|split; [exact P2|]]. lia. }
  destruct (Nat.leb_spec (String.length s) 16) as [H16|H16].
  { destruct (Hpad 16%nat H16) as (P1 & P2 & P3). rewrite P3.
    split; [exact P1|split; [exact P2|]]. lia. }
  destruct (Nat.odd (String.length s)) eqn:Hodd.
  - split; [|split].
    + cbn [append all_chars]. split; [unfold digit_below; cbn; lia|exact Hs].
    + reflexivity.
    + do 4 right. cbn [append String.length]. split; [lia|].
      rewrite Nat.even_succ. exact Hodd.
  - cbn [append]. split; [exact Hs|split; [reflexivity|]].
    do 4 right. split; [lia|]. rewrite <- Nat.negb_odd, Hodd. reflexivity.
Qed.

(** The cells that the loop over the characters ends with. *)
Lemma convertBase_cells : forall fuel str bi bo,
  2 <= bi <= 16 -> 2 <= bo <= 16 ->
  all_chars (digit_below 16) str ->
  (4 * String.length str + 2 <= fuel)%nat ->
  exists arr,
    Util.digits_loop fuel bi bo str [0] = Some arr
    /\ good_cells bo arr
    /\ cells_value bo arr = numeral_value bi 0 str.
Proof.
  intros fuel str bi bo Hbi Hbo Hchars Hfuel.
  assert (Hzero : good_cells bo [0]).
  { split; [constructor; [lia|constructor]|left; reflexivity]. }
  destruct (digits_loop_spec bi bo Hbi Hbo str [0] Hzero Hchars)
    as (arr & Hloop & Hgood & _ & Hval).
  change (cells_value bo [0]) with (0 + bo * 0) in Hval.
  replace (0 + bo * 0) with 0 in Hval by lia.
  pose proof (good_cells_length bi bo _ arr Hbi Hbo Hchars Hgood Hval) as Hlen.
  exists arr. split; [apply Hloop; lia|]. split; assumption.
Qed.

(** X18.  [convertBase] rewrites a numeral in another base.  For bases from
    2 to 16 and a numeral made of characters of the alphabet (lower-case;
    a leading minus sign is dropped), the loops end within fuel
    [4 * length + 2] and the result spells the same number in [baseOut], in
    digits below [baseOut].  In a base other than 16 it has no needless
    zeros in front; in base 16 it is padded with zeros to 2, 4, 8 or 16
    characters or, beyond that, to an even number of them. *)
Theorem convertBase_same_number : forall fuel str baseIn baseOut,
  2 <= baseIn <= 16 -> 2 <= baseOut <= 16 ->
  all_chars (digit_below 16) (Util.unsigned str) ->
  (4 * String.length (Util.unsigned str) + 2 <= fuel)%nat ->
  exists out,
    Util.convertBase fuel str baseIn baseOut = Some out
    /\ numeral_value baseOut 0 out = numeral_value baseIn 0 (Util.unsigned str)
    /\ all_chars (digit_below baseOut) out
    /\ (if baseOut =? 16 then hex_length (String.length out) else canonical out).
Proof.
  intros fuel str bi bo Hbi Hbo Hchars Hfuel.
  destruct (convertBase_cells fuel (Util.unsigned str) bi bo Hbi Hbo Hchars Hfuel)
    as (arr & Hloop & Hgood & Hval).
  destruct (digits_string_spec bo arr ltac:(lia) (proj1 Hgood)) as (Hd & Hv & _).
  unfold Util.convertBase. rewrite Hloop. cbv zeta.
  destruct (Z.eqb_spec bo 16) as [->|Hne].
  - destruct (pad_hex_spec (Util.digits_string arr) Hd) as (P1 & P2 & P3).
    eexists. split; [reflexivity|]. split; [|split; assumption].
    rewrite P2, Hv. exact Hval.
  - eexists. split; [reflexivity|]. split; [|split; [exact Hd|]].
    + rewrite Hv. exact Hval.
    + apply (digits_string_canonical bo); [lia|exact Hgood].
Qed.

(** The decimal numeral [-65536] in base 16, padded from five to eight
    characters, and in base 2. *)
Lemma convertBase_same_number_witness :
  (exists out, Util.convertBase 30 "-65536" 10 16 = Some out
               /\ numeral_value 16 0 out = 65536
               /\ all_chars (digit_below 16) out
               /\ hex_length (String.length out))
  /\ Util.convertBase 30 "-65536" 10 16 = Some "00010000"%string
  /\ Util.convertBase 30 "-65536" 10 2 = Some "10000000000000000"%string.
Proof.
  split; [|split; reflexivity].
  apply (convertBase_same_number 30 "-65536" 10 16).
  - lia.
  - lia.
  - cbn. unfold digit_below. cbn. lia.
  - cbn. lia.
Defined.

(** ** Characters outside the alphabet *)

(** A cell below 0 is left alone by the carry loop. *)
Lemma carry_negative : forall fuel bo x,
  0 <= bo -> x < 0 -> Util.carry (S (S fuel)) bo [x] = Some [x].
Proof.
  intros fuel bo x Hbo Hx. cbn [Util.carry].
  destruct (Z.gtb_spec x (bo - 1)); [lia|reflexivity].
Qed.

Lemma digits_loop_foreign : forall fuel bi bo str x,
  0 <= bi -> 0 <= bo -> x <= 0 ->
  all_chars foreign str ->
  exists y, Util.digits_loop (S (S fuel)) bi bo str [x] = Some [y]
            /\ (x < 0 \/ str <> EmptyString -> y < 0).
Proof.
  intros fuel bi bo. induction str as [|c str IH]; intros x Hbi Hbo Hx Hchars.
  - exists x. split; [reflexivity|]. intros [H|H]; [exact H|contradiction].
  - cbn [all_chars] in Hchars. destruct Hchars as [Hc Hchars]. unfold foreign in Hc.
    assert (Hx' : x * bi + -1 < 0) by nia.
    destruct (IH (x * bi + -1) Hbi Hbo ltac:(lia) Hchars) as (y & Hrun & Hy).
    exists y. split; [|intros _; apply Hy; left; exact Hx'].
    cbn [Util.digits_loop Util.scale map Util.add_first]. rewrite Hc.
    rewrite (carry_negative fuel bo (x * bi + -1) Hbo Hx'). exact Hrun.
Qed.

(** X19.  A character outside the alphabet, an upper-case hexadecimal digit
    for one, is not refused: [indexOf] answers -1 for it and the -1 is added
    as if it were a digit.  For a numeral that has only such characters the
    cell stays below 0, no digit stands for it, and the result is the text
    [undefined] (padded with zeros in base 16). *)
Theorem convertBase_foreign_characters : forall fuel str baseIn baseOut,
  0 <= baseIn -> 0 <= baseOut ->
  Util.unsigned str <> EmptyString ->
  all_chars foreign (Util.unsigned str) ->
  Util.convertBase (S (S fuel)) str baseIn baseOut
  = Some (if baseOut =? 16 then "0000000undefined"%string else "undefined"%string).
Proof.
  intros fuel str bi bo Hbi Hbo Hne Hchars.
  destruct (digits_loop_foreign fuel bi bo (Util.unsigned str) 0 Hbi Hbo ltac:(lia) Hchars)
    as (y & Hrun & Hneg).
  specialize (Hneg (or_intror Hne)).
  unfold Util.convertBase. rewrite Hrun. cbv zeta.
  assert (E : Util.digits_string [y] = "undefined"%string).
  { cbn [Util.digits_string append]. unfold Util.ALPHABET_at.
    destruct (Z.ltb_spec y 0); [reflexivity|lia]. }
  rewrite E. destruct (bo =? 16); reflexivity.
Qed.

(** The hexadecimal numeral [FF], in upper case, in base 10 and in base
    16. *)
Lemma convertBase_foreign_characters_witness :
  Util.convertBase 2 "FF" 16 10 = Some "undefined"%string
  /\ Util.convertBase 2 "FF" 16 16 = Some "0000000undefined"%string.
Proof.
  split.
  - apply (convertBase_foreign_characters 0 "FF" 16 10).
    + lia.
    + lia.
    + discriminate.
    + cbn. unfold foreign. cbn. auto.
  - apply (convertBase_foreign_characters 0 "FF" 16 16).
    + lia.
    + lia.
    + discriminate.
    + cbn. unfold foreign. cbn. auto.
Defined.

(** ** From the numeral to the decoder *)

(** A character of the alphabet is the hexadecimal digit that
    [toString('hex')] writes and that [new BigNumber(s, 16)] reads. *)
Lemma alphabet_char : forall c,
  0 <= Util.ALPHABET_indexOf c ->
  Util.ALPHABET_indexOf c < 16
  /\ c = hex_digit (Util.ALPHABET_indexOf c)
  /\ hex_digit_value c = Some (Util.ALPHABET_indexOf c).
Proof.
  intros c.
  destruct c as [[] [] [] [] [] [] [] []]; vm_compute;
    intro H; try (exfalso; apply H; reflexivity);
    (split; [reflexivity|split; reflexivity]).
Qed.

Lemma parse_digits16_value : forall s acc,
  all_chars (digit_below 16) s ->
  parse_digits16 acc s = Some (numeral_value 16 acc s).
Proof.
  induction s as [|c s IH]; intros acc Hs; [reflexivity|].
  cbn [all_chars] in Hs. destruct Hs as [[Hc _] Hs].
  destruct (alphabet_char c Hc) as (_ & _ & Hv).
  cbn [parse_digits16 numeral_value]. rewrite Hv. apply IH. exact Hs.
Qed.

(** A text of lower-case hexadecimal digits, two for a byte, is the
    hexadecimal text of a byte string. *)
Lemma hex_text_of_bytes : forall n s,
  String.length s = (2 * n)%nat ->
  all_chars (digit_below 16) s ->
  exists data, Buffer_toString_hex data = s /\ List.length data = n.
Proof.
  induction n as [|n IH]; intros s Hlen Hs.
  - destruct s; [|discriminate Hlen]. exists []. split; reflexivity.
  - destruct s as [|c1 [|c2 s]]; try (cbn in Hlen; lia).
    cbn [all_chars] in Hs. destruct Hs as ([H1 _] & [H2 _] & Hs).
    destruct (alphabet_char c1 H1) as (B1 & E1 & _).
    destruct (alphabet_char c2 H2) as (B2 & E2 & _).
    destruct (IH s ltac:(cbn in Hlen; lia) Hs) as (data & Hdata & Hn).
    set (h := Util.ALPHABET_indexOf c1) in *.
    set (l := Util.ALPHABET_indexOf c2) in *.
    exists (byte_of_Z (16 * h + l) :: data). split.
    + cbn [Buffer_toString_hex]. rewrite byte_of_Z_val by lia.
      replace ((16 * h + l) / 16) with h
        by (apply (Z.div_unique (16 * h + l) 16 h l); lia).
      replace ((16 * h + l) mod 16) with l
        by (apply (Z.mod_unique (16 * h + l) 16 h l); lia).
      rewrite <- E1, <- E2, Hdata. reflexivity.
    + cbn [List.length]. rewrite Hn. reflexivity.
Qed.

Lemma hex_length_even : forall n, hex_length n -> exists k, n = (2 * S k)%nat.
Proof.
  intros n [->|[->|[->|[->|[Hn He]]]]].
  - exists 0%nat. reflexivity.
  - exists 1%nat. reflexivity.
  - exists 3%nat. reflexivity.
  - exists 7%nat. reflexivity.
  - apply Nat.even_spec in He. destruct He as [k ->].
    destruct k as [|k]; [lia|]. exists k. reflexivity.
Qed.

(** X20.  The hexadecimal numeral that [convertBase] makes is ready to be
    sent as a big integer: it is the hexadecimal text of a byte string (it
    has an even number of lower-case digits and is not empty), and reading
    that byte string the way [_decodeBigInt] reads the payload of a big
    integer, as [new BigNumber(data.toString('hex'), 16)], gives the number
    that the numeral spelled in [baseIn]. *)
Theorem convertBase_read_back : forall fuel str baseIn,
  2 <= baseIn <= 16 ->
  all_chars (digit_below 16) (Util.unsigned str) ->
  (4 * String.length (Util.unsigned str) + 2 <= fuel)%nat ->
  exists data,
    data <> []
    /\ Util.convertBase fuel str baseIn 16 = Some (Buffer_toString_hex data)
    /\ forall d, BigNumber_of_hex data d
                 = Ok (numeral_value baseIn 0 (Util.unsigned str)) d.
Proof.
  intros fuel str bi Hbi Hchars Hfuel.
  destruct (convertBase_cells fuel (Util.unsigned str) bi 16 Hbi ltac:(lia) Hchars Hfuel)
    as (arr & Hloop & Hgood & Hval).
  destruct (digits_string_spec 16 arr ltac:(lia) (proj1 Hgood)) as (Hd & Hv & _).
  destruct (pad_hex_spec (Util.digits_string arr) Hd) as (P1 & P2 & P3).
  destruct (hex_length_even _ P3) as (k & Hk).
  destruct (hex_text_of_bytes (S k) _ Hk P1) as (data & Hdata & Hn).
  exists data. split; [|split].
  - intro E. subst data. discriminate Hn.
  - unfold Util.convertBase. rewrite Hloop. cbv zeta.
    change (16 =? 16) with true. cbv iota. rewrite Hdata. reflexivity.
  - intro d. unfold BigNumber_of_hex, new_BigNumber_base16. rewrite Hdata.
    destruct (Util.pad_hex (Util.digits_string arr)) as [|c s] eqn:E.
    { cbn in Hk. lia. }
    rewrite (parse_digits16_value _ 0 P1), P2, Hv, Hval. reflexivity.
Qed.

(** The decimal numeral [65536] becomes the four bytes [00 01 00 00], which
    are read back as 65536. *)
Lemma convertBase_read_back_witness :
  exists data,
    data <> []
    /\ Util.convertBase 30 "65536" 10 16 = Some (Buffer_toString_hex data)
    /\ forall d, BigNumber_of_hex data d = Ok 65536 d.
Proof.
  apply (convertBase_read_back 30 "65536" 10).
  - lia.
  - cbn. unfold digit_below. cbn. lia.
  - cbn. lia.
Defined.

(** * [Util.parseHostPort] *)

Lemma indexOf_from_first : forall c h rest i,
  without c h ->
  Util.indexOf_from (h ++ String c rest) c i = i + Z.of_nat (String.length h).
Proof.
  intros c. induction h as [|c' h IH]; intros rest i Hh.
  - cbn [append Util.indexOf_from String.length]. rewrite Ascii.eqb_refl. cbn. lia.
  - cbn [without] in Hh. destruct Hh as [Hne Hh].
    cbn [append Util.indexOf_from String.length].
    destruct (Ascii.eqb_spec c' c) as [E|_]; [contradiction|].
    rewrite (IH rest (i + 1) Hh). lia.
Qed.

Lemma indexOf_from_range : forall c s i,
  Util.indexOf_from s c i = -1 \/ i <= Util.indexOf_from s c i.
Proof.
  intros c. induction s as [|c' s IH]; intro i; cbn [Util.indexOf_from].
  - left. reflexivity.
  - destruct (Ascii.eqb c' c); [right; lia|].
    destruct (IH (i + 1)) as [E|E]; [left; exact E|right; lia].
Qed.

Lemma substring_prefix : forall h rest,
  String.substring 0 (String.length h) (h ++ rest) = h.
Proof.
  induction h as [|c h IH]; intro rest.
  - cbn. destruct rest; reflexivity.
  - cbn [append String.length String.substring]. rewrite IH. reflexivity.
Qed.

Lemma substring_all : forall s, String.substring 0 (String.length s) s = s.
Proof.
  induction s as [|c s IH]; [reflexivity|].
  cbn [String.length String.substring]. rewrite IH. reflexivity.
Qed.

Lemma substring_suffix : forall h rest,
  String.substring (String.length h) (String.length rest) (h ++ rest) = rest.
Proof.
  induction h as [|c h IH]; intro rest.
  - cbn [append String.length]. apply substring_all.
  - cbn [append String.length String.substring]. apply IH.
Qed.

(** The two parts that [parseHostPort] takes a text with a colon apart
    into. *)
Lemma host_and_port : forall h p,
  without ":"%char h ->
  Util.indexOf_from (h ++ String ":" p) ":" 0 = Z.of_nat (String.length h)
  /\ HostPort.substr_to (h ++ String ":" p) (Z.of_nat (String.length h)) = h
  /\ HostPort.substr_from (h ++ String ":" p) (Z.of_nat (String.length h) + 1) = p.
Proof.
  intros h p Hh. split; [|split].
  - rewrite (indexOf_from_first ":" h p 0 Hh). lia.
  - unfold HostPort.substr_to. rewrite Nat2Z.id. apply substring_prefix.
  - unfold HostPort.substr_from.
    replace (Z.to_nat (Z.of_nat (String.length h) + 1)) with (String.length (h ++ ":")).
    2:{ rewrite string_length_app. cbn. lia. }
    replace (h ++ String ":" p)%string with ((h ++ ":") ++ p)%string.
    2:{ clear Hh. induction h as [|c h IH]; [reflexivity|]. cbn [append]. rewrite IH.
        reflexivity. }
    replace (String.length ((h ++ ":") ++ p) - String.length (h ++ ":"))%nat
      with (String.length p) by (rewrite string_length_app; lia).
    apply substring_suffix.
Qed.

(** X21.  [parseHostPort] splits its argument at the first colon.  With a
    host before it, not empty, and decimal digits behind it, it returns the
    host and the number the digits spell.  With nothing behind the colon it
    returns the host as well, and [NaN] as the port: [isNaN] takes the empty
    text for the number 0, and [parseInt] finds no number in it. *)
Theorem parseHostPort_host_and_digits : forall h p,
  h <> EmptyString ->
  without ":"%char h ->
  HostPort.all_decimal p = true ->
  HostPort.decimal_value 0 p < 2 ^ 53 ->
  HostPort.parseHostPort (h ++ String ":" p)
  = HostPort.Parsed h (match p with
                       | EmptyString => Flt nan
                       | _ => Int (HostPort.decimal_value 0 p)
                       end).
Proof.
  intros h p Hne Hh Hp Hval.
  destruct (host_and_port h p Hh) as (Hcolon & Hhost & Hport).
  unfold HostPort.parseHostPort. rewrite Hcolon. cbv zeta.
  destruct (Z.leb_spec (Z.of_nat (String.length h)) 0) as [E|_].
  { destruct h; [contradiction|]. cbn [String.length] in E. lia. }
  rewrite Hhost, Hport. unfold HostPort.isNaN, HostPort.parseInt. rewrite Hp.
  destruct p as [|c p']; [reflexivity|].
  destruct (Z.ltb_spec (HostPort.decimal_value 0 (String c p')) (2 ^ 53)); [reflexivity|lia].
Qed.

(** An endpoint with the port 8111, and one whose port is left out. *)
Lemma parseHostPort_host_and_digits_witness :
  HostPort.parseHostPort "dax.example.com:8111"
  = HostPort.Parsed "dax.example.com" (Int 8111)
  /\ HostPort.parseHostPort "dax.example.com:" = HostPort.Parsed "dax.example.com" (Flt nan).
Proof.
  split.
  - apply (parseHostPort_host_and_digits "dax.example.com" "8111").
    + discriminate.
    + cbn. repeat split; discriminate.
    + reflexivity.
    + reflexivity.
  - apply (parseHostPort_host_and_digits "dax.example.com" "").
    + discriminate.
    + cbn. repeat split; discriminate.
    + reflexivity.
    + reflexivity.
Defined.

Lemma has_never_numeric_app : forall a c b,
  HostPort.never_numeric c = true ->
  HostPort.has_never_numeric (a ++ String c b) = true.
Proof.
  induction a as [|c' a IH]; intros c b Hc; cbn [append HostPort.has_never_numeric].
  - rewrite Hc. reflexivity.
  - rewrite (IH c b Hc). apply orb_true_r.
Qed.

Lemma all_decimal_app : forall a c b,
  HostPort.never_numeric c = true ->
  HostPort.all_decimal (a ++ String c b) = false.
Proof.
  induction a as [|c' a IH]; intros c b Hc; cbn [append HostPort.all_decimal].
  - replace (HostPort.is_decimal_digit c) with false; [reflexivity|].
    unfold HostPort.never_numeric, HostPort.is_decimal_digit in *.
    destruct c as [[] [] [] [] [] [] [] []]; vm_compute in Hc |- *;
      try reflexivity; discriminate Hc.
  - rewrite (IH c b Hc). apply andb_false_r.
Qed.

(** X22.  [parseHostPort] refuses a text without a colon, a text that
    starts with a colon, and a text whose part behind the first colon holds
    a character that occurs in no number, a second colon for one: the
    address of a host written with colons, such as [[::1]:8111], is
    refused. *)
Theorem parseHostPort_refuses : forall hostport,
  without ":"%char hostport
  \/ (exists rest, hostport = String ":" rest)
  \/ (exists h a c b, hostport = (h ++ String ":" (a ++ String c b))%string
                      /\ without ":"%char h
                      /\ HostPort.never_numeric c = true) ->
  HostPort.parseHostPort hostport = HostPort.Invalid hostport.
Proof.
  intros hostport [Hno|[(rest & ->)|(h & a & c & b & -> & Hh & Hc)]].
  - unfold HostPort.parseHostPort.
    assert (E : Util.indexOf_from hostport ":" 0 = -1).
    { generalize 0. induction hostport as [|c' s IH]; intro i; [reflexivity|].
      cbn [without] in Hno. destruct Hno as [Hne Hno]. cbn [Util.indexOf_from].
      destruct (Ascii.eqb_spec c' ":"%char); [contradiction|]. apply IH. exact Hno. }
    rewrite E. reflexivity.
  - reflexivity.
  - destruct (host_and_port h (a ++ String c b) Hh) as (Hcolon & Hhost & Hport).
    unfold HostPort.parseHostPort. rewrite Hcolon. cbv zeta.
    destruct (Z.leb_spec (Z.of_nat (String.length h)) 0) as [E|_]; [reflexivity|].
    rewrite Hport. unfold HostPort.isNaN.
    rewrite (all_decimal_app a c b Hc), (has_never_numeric_app a c b Hc). reflexivity.
Qed.

(** A host name alone, a port alone, and the local host written with
    colons. *)
Lemma parseHostPort_refuses_witness :
  HostPort.parseHostPort "localhost" = HostPort.Invalid "localhost"
  /\ HostPort.parseHostPort ":8111" = HostPort.Invalid ":8111"
  /\ HostPort.parseHostPort "[::1]:8111" = HostPort.Invalid "[::1]:8111".
Proof.
  split; [|split].
  - apply (parseHostPort_refuses "localhost"). left. cbn. repeat split; discriminate.
  - apply (parseHostPort_refuses ":8111"). right. left. exists "8111"%string. reflexivity.
  - apply (parseHostPort_refuses "[::1]:8111"). right. right.
    exists "["%string, EmptyString, ":"%char, "1]:8111"%string.
    split; [reflexivity|]. split; [cbn; repeat split; discriminate|reflexivity].
Defined.
